(** * Maze path-finder: the four solvers and the maze generator

    A shallow embedding of [src/game/solver.ts] (solveBFS, solveDFS,
    solveAStar, solveDijkstra) and of [src/game/mazeGenerator.ts]
    (generateMaze), with the properties of the search results.

    Conventions of the embedding:
    - a JS number holding a coordinate or a score is a [Z]; array lengths
      and counters are [nat];
    - [Infinity] in a score matrix is the constructor [Infinity] of [num];
    - a two-dimensional array is a list of rows, read with [mget] and
      updated in place with [mset];
    - a [while] loop or a recursive function takes a [fuel] that bounds
      its turns or its depth;
    - a call either returns ([Done]), fails on reading a property of
      [undefined] ([Throw]), or exhausts the fuel given to its loops
      ([OutOfFuel]).  Writes outside the range of an array (which JS
      performs by extending the array) are outside the embedding and are
      reported as [Throw] as well; they cannot occur on a well-formed
      level. *)

From Stdlib Require Import ZArith QArith Qround Qpower Lqa Lia String.
From stdpp Require Import base decidable numbers option list.

Local Open Scope Z_scope.

(** ** Outcomes of a call *)

Inductive outcome (A : Type) : Type :=
  | Done (a : A)
  | Throw
  | OutOfFuel.
Arguments Done {A} a.
Arguments Throw {A}.
Arguments OutOfFuel {A}.

Definition bind {A B} (m : outcome A) (f : A → outcome B) : outcome B :=
  match m with
  | Done a => f a
  | Throw => Throw
  | OutOfFuel => OutOfFuel
  end.

Notation "x <- m ; k" := (bind m (fun x => k))
  (at level 20, m at level 100, k at level 200, only parsing).
Notation "' p <- m ; k" := (bind m (fun p => k))
  (at level 20, p pattern, m at level 100, k at level 200, only parsing).

Definition fromOption {A} (o : option A) : outcome A :=
  match o with
  | Some a => Done a
  | None => Throw
  end.

(** A [for (const x of xs)] loop threading the mutable state [acc]. *)
Fixpoint forEach {A S} (body : S → A → outcome S) (xs : list A) (acc : S)
  : outcome S :=
  match xs with
  | [] => Done acc
  | x :: xs' => acc' <- body acc x; forEach body xs' acc'
  end.

(** ** Data model (solver.ts, lines 4-73) *)

Record Pos : Type := mkPos { r : Z; c : Z }.

#[global] Instance Pos_eq_dec : EqDecision Pos.
Proof. solve_decision. Defined.

Record Walls : Type := mkWalls {
  top : bool;
  right : bool;
  bottom : bool;
  left : bool
}.

Record MazeCell : Type := mkCell {
  walls : Walls;
  visited : bool
}.

Record Level : Type := mkLevel {
  grid : list (list Z);
  start : Pos;
  cells : option (list (list MazeCell))
}.

(** A score: a finite number or [Infinity]. *)
Inductive num : Type :=
  | Finite (z : Z)
  | Infinity.

(** The algorithm-specific part of a [DetailedStep]. *)
Inductive AlgorithmData : Type :=
  | BFSData (queueSize currentLevel neighborsAdded : nat)
  | DFSData (stackDepth : nat) (isBacktracking deadEnd : bool)
  | AStarData (gScore : num) (hScore : Z) (fScore : num) (openSetSize : nat)
  | DijkstraData (currentDistance : num) (relaxationCount priorityQueueSize : nat).

Record DetailedStep : Type := mkStep {
  position : Pos;
  stepNumber : nat;
  algorithmData : AlgorithmData
}.

Record AStarScores : Type := mkScores {
  gScores : list (list num);
  hScores : list (list Z);
  fScores : list (list num)
}.

Module Algorithm.
Inductive t : Type := bfs | dfs | astar | dijkstra.
End Algorithm.

Record Solution : Type := mkSolution {
  distance : Z;
  path : list Pos;
  visitedCells : list Pos;
  algorithm : string;
  detailedSteps : list DetailedStep;
  aStarScores : option AStarScores
}.

(** ** Two-dimensional arrays *)

Definition mget {A} (m : list (list A)) (p : Pos) : option A :=
  if bool_decide (0 ≤ r p ∧ 0 ≤ c p)
  then m !! Z.to_nat (r p) ≫= λ row, row !! Z.to_nat (c p)
  else None.

Definition mset {A} (m : list (list A)) (p : Pos) (v : A) : list (list A) :=
  if bool_decide (0 ≤ r p ∧ 0 ≤ c p)
  then alter (λ row, <[Z.to_nat (c p) := v]> row) (Z.to_nat (r p)) m
  else m.

(** [Array.from({length: rows}, () => Array(cols).fill(v))] *)
Definition mfill {A} (rows cols : nat) (v : A) : list (list A) :=
  replicate rows (replicate cols v).

(** [m[p.r][p.c]] where the entry is then dereferenced or compared. *)
Definition mread {A} (m : list (list A)) (p : Pos) : outcome A :=
  fromOption (mget m p).

(** [m[p.r][p.c] = v] *)
Definition mwrite {A} (m : list (list A)) (p : Pos) (v : A)
  : outcome (list (list A)) :=
  match mget m p with
  | Some _ => Done (mset m p v)
  | None => Throw
  end.

(** ** Shared helpers of the solvers *)

Definition DIRS : list Pos :=
  [ mkPos (-1) 0; mkPos 1 0; mkPos 0 (-1); mkPos 0 1 ].

Definition step (p d : Pos) : Pos := mkPos (r p + r d) (c p + c d).

(** [Math.min(pos.r, pos.c, rows - 1 - pos.r, cols - 1 - pos.c)] *)
Definition heuristic (pos : Pos) (rows cols : Z) : Z :=
  Z.min (Z.min (r pos) (c pos)) (Z.min (rows - 1 - r pos) (cols - 1 - c pos)).

(** The bounds test [nxt.r < 0 || nxt.r >= rows || nxt.c < 0 || nxt.c >= cols]. *)
Definition outside (rows cols : Z) (p : Pos) : bool :=
  (r p <? 0) || (rows <=? r p) || (c p <? 0) || (cols <=? c p).

(** [!level.cells[p.r][p.c].walls.side] *)
Definition noWall (cs : list (list MazeCell)) (p : Pos) (side : Walls → bool)
  : outcome bool :=
  cell <- mread cs p; Done (negb (side (walls cell))).

(** [canMoveBetween], defined identically inside each of the four solvers. *)
Definition canMoveBetween (level : Level) (from to : Pos) : outcome bool :=
  match cells level with
  | Some cs =>
      let dr := r to - r from in
      let dc := c to - c from in
      if (dr =? -1) && (dc =? 0) then noWall cs from top
      else if (dr =? 1) && (dc =? 0) then noWall cs from bottom
      else if (dr =? 0) && (dc =? -1) then noWall cs from left
      else if (dr =? 0) && (dc =? 1) then noWall cs from right
      else Done false
  | None =>
      (* [level.grid[to.r][to.c] === 0]: a missing row throws, a missing
         entry of an existing row is [undefined], which is not 0 *)
      if bool_decide (0 ≤ r to)
      then row <- fromOption (grid level !! Z.to_nat (r to));
           Done (bool_decide (0 ≤ c to ∧ row !! Z.to_nat (c to) = Some 0))
      else Throw
  end.

(** [a && b] where [b] is evaluated only when [a] holds. *)
Definition andThen (a : bool) (b : outcome bool) : outcome bool :=
  if a then b else Done false.

(** The exit test, written out identically inside each of the four solvers. *)
Definition canExit (level : Level) (rows cols : Z) (cur : Pos) : outcome bool :=
  match cells level with
  | Some cs =>
      b1 <- andThen (r cur =? 0) (noWall cs cur top);
      if b1 then Done true else
      b2 <- andThen (r cur =? rows - 1) (noWall cs cur bottom);
      if b2 then Done true else
      b3 <- andThen (c cur =? 0) (noWall cs cur left);
      if b3 then Done true else
      b4 <- andThen (c cur =? cols - 1) (noWall cs cur right);
      if b4 then Done true else Done false
  | None =>
      Done ((r cur =? 0) || (c cur =? 0) || (r cur =? rows - 1) || (c cur =? cols - 1))
  end.

(** [rows] and [cols] as every solver computes them:
    [level.grid.length] and [level.grid[0].length]. *)
Definition dims (level : Level) : outcome (nat * nat) :=
  row0 <- fromOption (grid level !! 0%nat);
  Done (length (grid level), length row0).

(** [a < b] on scores. *)
Definition num_ltb (a b : num) : bool :=
  match a, b with
  | Finite x, Finite y => x <? y
  | Finite _, Infinity => true
  | Infinity, _ => false
  end.

(** [a + k] on scores. *)
Definition num_add (a : num) (k : Z) : num :=
  match a with
  | Finite x => Finite (x + k)
  | Infinity => Infinity
  end.

(** The reconstruction loop shared by solveDFS (lines 295-300), solveAStar
    (lines 393-398) and solveDijkstra (lines 514-519), before [reverse]:
    [while (pos) { path.push(pos); pos = parent[pos.r][pos.c] }]. *)
Fixpoint followParents (fuel : nat) (par : list (list (option Pos)))
    (pos : Pos) (path : list Pos) : outcome (list Pos) :=
  match fuel with
  | O => OutOfFuel
  | S fuel' =>
      let path' := path ++ [pos] in
      nxt <- mread par pos;
      match nxt with
      | Some q => followParents fuel' par q path'
      | None => Done path'
      end
  end.

(** The linear scan for the open-set member of lowest score, shared in
    shape by solveAStar (lines 351-358, on [fScore]) and solveDijkstra
    (lines 486-493, on [distance]); [xs] is the part of the list still to
    scan and [i] the index of its head. *)
Fixpoint scanMin (score : list (list num)) (xs : list Pos) (i : nat)
    (current : Pos) (currentIndex : nat) : outcome (Pos * nat) :=
  match xs with
  | [] => Done (current, currentIndex)
  | x :: xs' =>
      sx <- mread score x;
      sc <- mread score current;
      if num_ltb sx sc then scanMin score xs' (S i) x i
      else scanMin score xs' (S i) current currentIndex
  end.

(** [list.some(pos => pos.r === p.r && pos.c === p.c)] *)
Definition contains (xs : list Pos) (p : Pos) : bool :=
  existsb (λ pos, (r pos =? r p) && (c pos =? c p)) xs.

(** ** Breadth-first search (solver.ts, lines 102-203) *)

Module BFS.

(** The mutable locals of [solveBFS].  An entry of [visited] is [None]
    for [null], [Some (-1)] for the start and [Some idx] for the encoded
    predecessor. *)
Record state : Type := mkState {
  visited : list (list (option Z));
  queue : list Pos;
  visitedCells : list Pos;
  detailedSteps : list DetailedStep;
  stepNumber : nat
}.

(** [{ r: Math.floor(prevIdx / cols), c: prevIdx % cols }]; a [null]
    index counts as 0 in the arithmetic. *)
Definition decode (cols : Z) (prev : option Z) : Pos :=
  let prevIdx := default 0 prev in
  mkPos (prevIdx `div` cols) (prevIdx `mod` cols).

(** The loop computing [currentLevel] (lines 145-151). *)
Fixpoint levelOf (fuel : nat) (vis : list (list (option Z))) (cols : Z)
    (temp : Pos) (currentLevel : nat) : outcome nat :=
  match fuel with
  | O => OutOfFuel
  | S fuel' =>
      prev <- mread vis temp;
      if bool_decide (prev = Some (-1)) then Done currentLevel
      else levelOf fuel' vis cols (decode cols prev) (S currentLevel)
  end.

(** The path reconstruction loop (lines 169-176), before [reverse]. *)
Fixpoint walkBack (fuel : nat) (vis : list (list (option Z))) (cols : Z)
    (p : Pos) (path : list Pos) : outcome (list Pos) :=
  match fuel with
  | O => OutOfFuel
  | S fuel' =>
      let path' := path ++ [p] in
      prev <- mread vis p;
      if bool_decide (prev = Some (-1)) then Done path'
      else walkBack fuel' vis cols (decode cols prev) path'
  end.

(** One turn of the [for (const d of DIRS)] loop (lines 181-189). *)
Definition visit (level : Level) (rows cols : Z) (cur : Pos)
    (acc : list (list (option Z)) * list Pos * nat) (d : Pos)
  : outcome (list (list (option Z)) * list Pos * nat) :=
  let '(vis, q, neighborsAdded) := acc in
  let nxt := step cur d in
  if outside rows cols nxt then Done acc else
  ok <- canMoveBetween level cur nxt;
  if negb ok then Done acc else
  seen <- mread vis nxt;
  if bool_decide (seen ≠ None) then Done acc else
  vis' <- mwrite vis nxt (Some (r cur * cols + c cur));
  Done (vis', q ++ [nxt], S neighborsAdded).

(** The [while (queue.length)] loop (lines 140-201).  [gas] is the fuel
    handed to the two inner loops. *)
Fixpoint loop (fuel gas : nat) (level : Level) (rows cols : Z) (st : state)
  : outcome (option Solution) :=
  match fuel with
  | O => OutOfFuel
  | S fuel' =>
      match queue st with
      | [] => Done None
      | cur :: rest =>
          let visitedCells' := visitedCells st ++ [cur] in
          currentLevel <- levelOf gas (visited st) cols cur 0%nat;
          ex <- canExit level rows cols cur;
          if ex then
            pth <- walkBack gas (visited st) cols cur [];
            Done (Some (mkSolution (Z.of_nat (length pth) - 1) (reverse pth)
                          visitedCells' "BFS"%string (detailedSteps st) None))
          else
            '(vis', q', neighborsAdded) <-
              forEach (visit level rows cols cur) DIRS (visited st, rest, 0%nat);
            loop fuel' gas level rows cols
              (mkState vis' q' visitedCells'
                 (detailedSteps st ++
                    [mkStep cur (stepNumber st)
                       (BFSData (length q') currentLevel neighborsAdded)])
                 (S (stepNumber st)))
      end
  end.

Definition solveBFS (fuel : nat) (level : Level) : outcome (option Solution) :=
  '(rows, cols) <- dims level;
  let vis0 := mfill rows cols (@None Z) in
  vis <- mwrite vis0 (start level) (Some (-1));
  loop fuel fuel level (Z.of_nat rows) (Z.of_nat cols)
    (mkState vis [start level] [] [] 0%nat).

End BFS.

(** ** Depth-first search (solver.ts, lines 205-304) *)

Module DFS.

Record state : Type := mkState {
  visited : list (list bool);
  parent : list (list (option Pos));
  visitedCells : list Pos;
  detailedSteps : list DetailedStep;
  stepNumber : nat
}.

(** The loop computing [stackDepth] (lines 241-246). *)
Fixpoint depthOf (fuel : nat) (par : list (list (option Pos)))
    (current : Pos) (stackDepth : nat) : outcome nat :=
  match fuel with
  | O => OutOfFuel
  | S fuel' =>
      nxt <- mread par current;
      match nxt with
      | Some q => depthOf fuel' par q (S stackDepth)
      | None => Done stackDepth
      end
  end.

(** The [for (const d of DIRS)] loop of [dfs] (lines 262-272); [rec] is
    the recursive call [dfs(nxt)].  The loop stops at the first
    direction whose call returns an exit. *)
Fixpoint eachDir (rec : state → Pos → outcome (state * option Pos))
    (level : Level) (rows cols : Z) (pos : Pos) (dirs : list Pos)
    (st : state) (validNeighbors : nat)
  : outcome (state * nat * option Pos) :=
  match dirs with
  | [] => Done (st, validNeighbors, None)
  | d :: dirs' =>
      let nxt := step pos d in
      if outside rows cols nxt
      then eachDir rec level rows cols pos dirs' st validNeighbors else
      ok <- canMoveBetween level pos nxt;
      if negb ok
      then eachDir rec level rows cols pos dirs' st validNeighbors else
      seen <- mread (visited st) nxt;
      if (seen : bool)
      then eachDir rec level rows cols pos dirs' st validNeighbors else
      par' <- mwrite (parent st) nxt (Some pos);
      '(st', result) <-
        rec (mkState (visited st) par' (visitedCells st)
               (detailedSteps st) (stepNumber st)) nxt;
      match result with
      | Some e => Done (st', S validNeighbors, Some e)
      | None => eachDir rec level rows cols pos dirs' st' (S validNeighbors)
      end
  end.

(** The inner function [dfs] (lines 236-289); [fuel] bounds the depth of
    the recursion, [gas] is the fuel of the [stackDepth] loop. *)
Fixpoint dfs (fuel gas : nat) (level : Level) (rows cols : Z)
    (st : state) (pos : Pos) : outcome (state * option Pos) :=
  match fuel with
  | O => OutOfFuel
  | S fuel' =>
      vis' <- mwrite (visited st) pos true;
      let st1 := mkState vis' (parent st) (visitedCells st ++ [pos])
                   (detailedSteps st) (stepNumber st) in
      stackDepth <- depthOf gas (parent st) pos 0%nat;
      ex <- canExit level rows cols pos;
      if ex then Done (st1, Some pos) else
      '(st2, validNeighbors, result) <-
        eachDir (dfs fuel' gas level rows cols) level rows cols pos DIRS st1 0%nat;
      match result with
      | Some e => Done (st2, Some e)
      | None =>
          let isDeadEnd := bool_decide (validNeighbors = 0%nat) in
          Done (mkState (visited st2) (parent st2) (visitedCells st2)
                  (detailedSteps st2 ++
                     [mkStep pos (stepNumber st2)
                        (DFSData stackDepth false isDeadEnd)])
                  (S (stepNumber st2)),
                None)
      end
  end.

Definition solveDFS (fuel : nat) (level : Level) : outcome (option Solution) :=
  '(rows, cols) <- dims level;
  let st0 := mkState (mfill rows cols false) (mfill rows cols None) [] [] 0%nat in
  '(st, exitPos) <- dfs fuel fuel level (Z.of_nat rows) (Z.of_nat cols) st0 (start level);
  match exitPos with
  | None => Done None
  | Some e =>
      pth <- followParents fuel (parent st) e [];
      Done (Some (mkSolution (Z.of_nat (length pth) - 1) (reverse pth)
                    (visitedCells st) "DFS"%string (detailedSteps st) None))
  end.

End DFS.

(** ** A* (solver.ts, lines 306-443) *)

Module AStar.

Record state : Type := mkState {
  visited : list (list bool);
  gScore : list (list num);
  fScore : list (list num);
  parent : list (list (option Pos));
  openSet : list Pos;
  visitedCells : list Pos;
  detailedSteps : list DetailedStep;
  stepNumber : nat
}.

(** One turn of the relaxation loop (lines 422-439); the accumulator is
    [(gScore, fScore, parent, openSet)]. *)
Definition relax (level : Level) (rows cols : Z) (vis : list (list bool))
    (current : Pos)
    (acc : list (list num) * list (list num) * list (list (option Pos)) * list Pos)
    (d : Pos)
  : outcome (list (list num) * list (list num) * list (list (option Pos)) * list Pos) :=
  let '(g, f, par, open) := acc in
  let neighbor := step current d in
  if outside rows cols neighbor then Done acc else
  ok <- canMoveBetween level current neighbor;
  if negb ok then Done acc else
  seen <- mread vis neighbor;
  if (seen : bool) then Done acc else
  gc <- mread g current;
  let tentativeGScore := num_add gc 1 in
  gn <- mread g neighbor;
  if num_ltb tentativeGScore gn then
    par' <- mwrite par neighbor (Some current);
    g' <- mwrite g neighbor tentativeGScore;
    f' <- mwrite f neighbor (num_add tentativeGScore (heuristic neighbor rows cols));
    Done (g', f', par', if contains open neighbor then open else open ++ [neighbor])
  else Done acc.

(** [gScore.map((row, r) => row.map((_, c) => heuristic({ r, c }, rows, cols)))] *)
Definition hScoresOf (g : list (list num)) (rows cols : Z) : list (list Z) :=
  imap (λ i row, imap (λ j _, heuristic (mkPos (Z.of_nat i) (Z.of_nat j)) rows cols) row) g.

(** The [while (openSet.length > 0)] loop (lines 349-440). *)
Fixpoint loop (fuel gas : nat) (level : Level) (rows cols : Z) (st : state)
  : outcome (option Solution) :=
  match fuel with
  | O => OutOfFuel
  | S fuel' =>
      match openSet st with
      | [] => Done None
      | first :: others =>
          '(current, currentIndex) <- scanMin (fScore st) others 1%nat first 0%nat;
          let open1 := delete currentIndex (openSet st) in
          vis' <- mwrite (visited st) current true;
          let visitedCells' := visitedCells st ++ [current] in
          currentG <- mread (gScore st) current;
          let currentH := heuristic current rows cols in
          currentF <- mread (fScore st) current;
          let steps' := detailedSteps st ++
               [mkStep current (stepNumber st)
                  (AStarData currentG currentH currentF (length open1))] in
          ex <- canExit level rows cols current;
          if ex then
            pth <- followParents gas (parent st) current [];
            Done (Some (mkSolution (Z.of_nat (length pth) - 1) (reverse pth)
                          visitedCells' "A*"%string steps'
                          (Some (mkScores (gScore st)
                                   (hScoresOf (gScore st) rows cols)
                                   (fScore st)))))
          else
            '(g', f', par', open') <-
              forEach (relax level rows cols vis' current) DIRS
                (gScore st, fScore st, parent st, open1);
            loop fuel' gas level rows cols
              (mkState vis' g' f' par' open' visitedCells' steps' (S (stepNumber st)))
      end
  end.

Definition solveAStar (fuel : nat) (level : Level) : outcome (option Solution) :=
  '(rows, cols) <- dims level;
  g <- mwrite (mfill rows cols Infinity) (start level) (Finite 0);
  f <- mwrite (mfill rows cols Infinity) (start level)
         (Finite (heuristic (start level) (Z.of_nat rows) (Z.of_nat cols)));
  loop fuel fuel level (Z.of_nat rows) (Z.of_nat cols)
    (mkState (mfill rows cols false) g f (mfill rows cols None)
       [start level] [] [] 0%nat).

End AStar.

(** ** Dijkstra (solver.ts, lines 445-556) *)

Module Dijkstra.

Record state : Type := mkState {
  visited : list (list bool);
  dist : list (list num);
  parent : list (list (option Pos));
  queue : list Pos;
  visitedCells : list Pos;
  detailedSteps : list DetailedStep;
  stepNumber : nat
}.

(** One turn of the relaxation loop (lines 524-541); the accumulator is
    [(distance, parent, queue, relaxationCount)]. *)
Definition relax (level : Level) (rows cols : Z) (vis : list (list bool))
    (current : Pos)
    (acc : list (list num) * list (list (option Pos)) * list Pos * nat)
    (d : Pos)
  : outcome (list (list num) * list (list (option Pos)) * list Pos * nat) :=
  let '(dst, par, q, relaxationCount) := acc in
  let neighbor := step current d in
  if outside rows cols neighbor then Done acc else
  ok <- canMoveBetween level current neighbor;
  if negb ok then Done acc else
  seen <- mread vis neighbor;
  if (seen : bool) then Done acc else
  dc <- mread dst current;
  let newDistance := num_add dc 1 in
  dn <- mread dst neighbor;
  if num_ltb newDistance dn then
    dst' <- mwrite dst neighbor newDistance;
    par' <- mwrite par neighbor (Some current);
    Done (dst', par', (if contains q neighbor then q else q ++ [neighbor]),
          S relaxationCount)
  else Done acc.

(** The [while (queue.length > 0)] loop (lines 484-553). *)
Fixpoint loop (fuel gas : nat) (level : Level) (rows cols : Z) (st : state)
  : outcome (option Solution) :=
  match fuel with
  | O => OutOfFuel
  | S fuel' =>
      match queue st with
      | [] => Done None
      | first :: others =>
          '(current, currentIndex) <- scanMin (dist st) others 1%nat first 0%nat;
          let q1 := delete currentIndex (queue st) in
          vis' <- mwrite (visited st) current true;
          let visitedCells' := visitedCells st ++ [current] in
          ex <- canExit level rows cols current;
          if ex then
            pth <- followParents gas (parent st) current [];
            Done (Some (mkSolution (Z.of_nat (length pth) - 1) (reverse pth)
                          visitedCells' "Dijkstra"%string (detailedSteps st) None))
          else
            '(dst', par', q', relaxationCount) <-
              forEach (relax level rows cols vis' current) DIRS
                (dist st, parent st, q1, 0%nat);
            currentDistance <- mread dst' current;
            loop fuel' gas level rows cols
              (mkState vis' dst' par' q' visitedCells'
                 (detailedSteps st ++
                    [mkStep current (stepNumber st)
                       (DijkstraData currentDistance relaxationCount (length q'))])
                 (S (stepNumber st)))
      end
  end.

Definition solveDijkstra (fuel : nat) (level : Level) : outcome (option Solution) :=
  '(rows, cols) <- dims level;
  dst <- mwrite (mfill rows cols Infinity) (start level) (Finite 0);
  loop fuel fuel level (Z.of_nat rows) (Z.of_nat cols)
    (mkState (mfill rows cols false) dst (mfill rows cols None)
       [start level] [] [] 0%nat).

End Dijkstra.

(** [solve] (solver.ts, lines 87-100). *)
Definition solve (fuel : nat) (level : Level) (alg : Algorithm.t)
  : outcome (option Solution) :=
  match alg with
  | Algorithm.bfs => BFS.solveBFS fuel level
  | Algorithm.dfs => DFS.solveDFS fuel level
  | Algorithm.astar => AStar.solveAStar fuel level
  | Algorithm.dijkstra => Dijkstra.solveDijkstra fuel level
  end.

(** ** The maze generator (mazeGenerator.ts) *)

Module Gen.

Inductive Difficulty : Type := easy | normal | hard.

(** [Math.random()]: the source of randomness is a stream of draws, the
    [n]-th call returning [rng n]; real draws lie in [[0,1)].  Every
    combination of results of the calls of a run of the program is the
    result of some such stream, so a statement about all streams covers
    all runs. *)
Definition Rng : Type := nat → Q.

Definition validRng (rng : Rng) : Prop := ∀ n, (0 <= rng n)%Q ∧ (rng n < 1)%Q.

(** [x < q] on draws. *)
Definition Qltb (x q : Q) : bool := negb (Qle_bool q x).

(** [xs[Math.floor(x * xs.length)]]; [None] is [undefined].  The product
    is the exact one; [Double.pick] below rounds it to a binary64 number. *)
Definition pick {A} (xs : list A) (x : Q) : option A :=
  let i := Qfloor (x * inject_Z (Z.of_nat (length xs))) in
  if bool_decide (0 ≤ i) then xs !! Z.to_nat i else None.

Definition setTop (b : bool) (cell : MazeCell) : MazeCell :=
  mkCell (mkWalls b (right (walls cell)) (bottom (walls cell)) (left (walls cell)))
    (visited cell).
Definition setRight (b : bool) (cell : MazeCell) : MazeCell :=
  mkCell (mkWalls (top (walls cell)) b (bottom (walls cell)) (left (walls cell)))
    (visited cell).
Definition setBottom (b : bool) (cell : MazeCell) : MazeCell :=
  mkCell (mkWalls (top (walls cell)) (right (walls cell)) b (left (walls cell)))
    (visited cell).
Definition setLeft (b : bool) (cell : MazeCell) : MazeCell :=
  mkCell (mkWalls (top (walls cell)) (right (walls cell)) (bottom (walls cell)) b)
    (visited cell).
Definition setVisited (b : bool) (cell : MazeCell) : MazeCell :=
  mkCell (walls cell) b.

(** [cells[p.r][p.c].field = v], as the update [f] of the cell object. *)
Definition modify (cs : list (list MazeCell)) (p : Pos) (f : MazeCell → MazeCell)
  : outcome (list (list MazeCell)) :=
  cell <- mread cs p; Done (mset cs p (f cell)).

(** [getRandomNeighbor] (lines 32-55 of mazeGenerator.ts); [n] counts the
    draws made so far.  The comparisons with [height / 3], [height / 4]
    and the like are between an integer and a quotient, and are written
    cross-multiplied. *)
Definition getRandomNeighbor (rng : Rng) (difficulty : Difficulty)
    (width height : Z) (neighbors : list Pos) (n : nat)
  : outcome (Pos * nat) :=
  let fallback (n : nat) :=
    nb <- fromOption (pick neighbors (rng n)); Done (nb, S n) in
  match difficulty with
  | easy =>
      let edgeNeighbors := filter (λ p : Pos,
        3 * r p < height ∨ 3 * r p > 2 * height ∨
        3 * c p < width ∨ 3 * c p > 2 * width) neighbors in
      if bool_decide (edgeNeighbors ≠ []) then
        if Qltb (rng n) (7 # 10) then
          nb <- fromOption (pick edgeNeighbors (rng (S n))); Done (nb, S (S n))
        else fallback (S n)
      else fallback n
  | hard =>
      if Qltb (rng n) (3 # 10) then
        let centerNeighbors := filter (λ p : Pos,
          (4 * r p > height ∧ 4 * r p < 3 * height) ∧
          (4 * c p > width ∧ 4 * c p < 3 * width)) neighbors in
        if bool_decide (centerNeighbors ≠ []) then
          nb <- fromOption (pick centerNeighbors (rng (S n))); Done (nb, S (S n))
        else fallback (S n)
      else fallback (S n)
  | normal => fallback n
  end.

(** The unvisited neighbours of [current] (lines 61-71). *)
Definition unvisitedNeighbor (cs : list (list MazeCell)) (width height : Z)
    (current : Pos) (neighbors : list Pos) (dir : Pos) : outcome (list Pos) :=
  let next := step current dir in
  if negb (outside height width next) then
    cell <- mread cs next;
    Done (if visited cell then neighbors else neighbors ++ [next])
  else Done neighbors.

(** Removing the walls between [current] and [next] (lines 78-90). *)
Definition removeWalls (cs : list (list MazeCell)) (current next : Pos)
  : outcome (list (list MazeCell)) :=
  if r next <? r current then
    cs1 <- modify cs current (setTop false); modify cs1 next (setBottom false)
  else if r current <? r next then
    cs1 <- modify cs current (setBottom false); modify cs1 next (setTop false)
  else if c next <? c current then
    cs1 <- modify cs current (setLeft false); modify cs1 next (setRight false)
  else if c current <? c next then
    cs1 <- modify cs current (setRight false); modify cs1 next (setLeft false)
  else Done cs.

(** The carving loop (lines 57-96).  The stack is kept with its top at
    the head of the list. *)
Fixpoint carve (fuel : nat) (rng : Rng) (difficulty : Difficulty)
    (width height : Z) (cs : list (list MazeCell)) (stack : list Pos) (n : nat)
  : outcome (list (list MazeCell) * nat) :=
  match fuel with
  | O => OutOfFuel
  | S fuel' =>
      match stack with
      | [] => Done (cs, n)
      | current :: below =>
          neighbors <- forEach (unvisitedNeighbor cs width height current) DIRS [];
          match neighbors with
          | _ :: _ =>
              '(next, n') <- getRandomNeighbor rng difficulty width height neighbors n;
              cs1 <- removeWalls cs current next;
              cs2 <- modify cs1 next (setVisited true);
              carve fuel' rng difficulty width height cs2 (next :: stack) n'
          | [] => carve fuel' rng difficulty width height cs below n
          end
      end
  end.

(** All positions of a [height] x [width] grid, row by row. *)
Definition positions (width height : nat) : list Pos :=
  i ← seq 0 height; (λ j, mkPos (Z.of_nat i) (Z.of_nat j)) <$> seq 0 width.

(** [getRandomStartPosition] (lines 108-136). *)
Definition getRandomStartPosition (rng : Rng) (difficulty : Difficulty)
    (width height : nat) (cs : list (list MazeCell)) (n : nat) : outcome Pos :=
  let validCells := filter (λ p, from_option visited false (mget cs p) = true)
                      (positions width height) in
  let fallback := fromOption (pick validCells (rng n)) in
  match difficulty with
  | easy =>
      let topHalfCells := filter (λ p : Pos, 2 * r p < Z.of_nat height) validCells in
      if bool_decide (topHalfCells ≠ [])
      then fromOption (pick topHalfCells (rng n))
      else fallback
  | hard =>
      let bottomHalfCells := filter (λ p : Pos, Z.of_nat height ≤ 2 * r p) validCells in
      if bool_decide (bottomHalfCells ≠ [])
      then fromOption (pick bottomHalfCells (rng n))
      else fallback
  | normal => fallback
  end.

Definition generateMaze (fuel : nat) (rng : Rng) (width height : nat)
    (difficulty : Difficulty) : outcome Level :=
  let cs0 := mfill height width (mkCell (mkWalls true true true true) false) in
  let start0 :=
    match difficulty with
    | easy => mkPos 1 1
    | _ => mkPos (Z.of_nat height `div` 2) (Z.of_nat width `div` 2)
    end in
  cs1 <- modify cs0 start0 (setVisited true);
  '(cs2, n) <- carve fuel rng difficulty (Z.of_nat width) (Z.of_nat height)
                 cs1 [start0] 0%nat;
  cs3 <- modify cs2 (mkPos 0 1) (setTop false);
  let grd := map (map (λ cell : MazeCell, if visited cell then 0 else 1)) cs3 in
  st <- getRandomStartPosition rng difficulty width height cs3 n;
  Done (mkLevel grd st (Some cs3)).

End Gen.

(** ** Vocabulary of the properties *)

(** [p] is a cell of a [rows] x [cols] grid. *)
Definition inb (rows cols : nat) (p : Pos) : Prop :=
  (0 ≤ r p < Z.of_nat rows) ∧ (0 ≤ c p < Z.of_nat cols).

(** [m] has [rows] rows of [cols] entries each. *)
Definition rect {A} (rows cols : nat) (m : list (list A)) : Prop :=
  length m = rows ∧ Forall (λ row, length row = cols) m.

Definition nrows (level : Level) : nat := length (grid level).
Definition ncols (level : Level) : nat := length (default [] (grid level !! 0%nat)).

(** The Grid Model invariants a solver relies on: a start position within
    the bounds [rows] x [cols] the solver reads off the grid (so that the
    grid has a first row), and wall data, when present, of exactly that
    shape.  A binary grid need not even be rectangular: a missing entry
    counts as blocked, an entry beyond [cols] is never looked at. *)
Definition wf (level : Level) : Prop :=
  inb (nrows level) (ncols level) (start level) ∧
  match cells level with
  | Some cs => rect (nrows level) (ncols level) cs
  | None => True
  end.

(** [q] is one of the four neighbours of [p], lies on the grid, and the
    Adjacency Oracle allows the move from [p] to [q]. *)
Definition edge (level : Level) (p q : Pos) : Prop :=
  (∃ d, d ∈ DIRS ∧ q = step p d) ∧
  inb (nrows level) (ncols level) q ∧
  canMoveBetween level p q = Done true.

(** The exit predicate holds at [p]. *)
Definition exitAt (level : Level) (p : Pos) : Prop :=
  canExit level (Z.of_nat (nrows level)) (Z.of_nat (ncols level)) p = Done true.

(** [walk E p q n]: [q] is reached from [p] along [n] moves of [E]. *)
Inductive walk (E : Pos → Pos → Prop) (p : Pos) : Pos → nat → Prop :=
  | walk_here : walk E p p 0
  | walk_more q t n : walk E p q n → E q t → walk E p t (S n).

(** Every consecutive pair of [l] is related by [E]. *)
Fixpoint linked (E : Pos → Pos → Prop) (l : list Pos) : Prop :=
  match l with
  | p :: tl => match tl with
               | q :: _ => E p q ∧ linked E tl
               | [] => True
               end
  | [] => True
  end.

(** [p] and [q] are 4-adjacent. *)
Definition adjacent (p q : Pos) : bool :=
  bool_decide (Z.abs (r p - r q) + Z.abs (c p - c q) = 1).

(** What the four solvers promise of a returned solution: the path starts
    at [start], ends at an exit, moves only along edges, and [distance] is
    its number of moves. *)
Definition goodPath (level : Level) (sol : Solution) : Prop :=
  head (path sol) = Some (start level) ∧
  (∃ e, last (path sol) = Some e ∧ exitAt level e) ∧
  linked (edge level) (path sol) ∧
  distance sol = Z.of_nat (length (path sol)) - 1.

(** [d] is the least number of moves from [start] to an exit. *)
Definition shortest (level : Level) (d : Z) : Prop :=
  (∃ e n, walk (edge level) (start level) e n ∧ exitAt level e ∧ d = Z.of_nat n) ∧
  (∀ e n, walk (edge level) (start level) e n → exitAt level e → d ≤ Z.of_nat n).

(** The number of loop turns that suffices on [level]. *)
Definition enough (level : Level) : nat := S (nrows level * ncols level).

(** The side of the cell at [p] that faces its neighbour [q]. *)
Definition facing (p q : Pos) : option (Walls → bool) :=
  if bool_decide (q = step p (mkPos (-1) 0)) then Some top
  else if bool_decide (q = step p (mkPos 1 0)) then Some bottom
  else if bool_decide (q = step p (mkPos 0 (-1))) then Some left
  else if bool_decide (q = step p (mkPos 0 1)) then Some right
  else None.

(** Wall symmetry: for 4-adjacent cells [p] and [q] of the grid, the wall
    of [p] facing [q] is clear exactly when the wall of [q] facing [p] is. *)
Definition wallSymmetric (cs : list (list MazeCell)) : Prop :=
  ∀ p q cp cq sp sq,
    mget cs p = Some cp → mget cs q = Some cq →
    facing p q = Some sp → facing q p = Some sq →
    (sp (walls cp) = false ↔ sq (walls cq) = false).

(** An exit can be reached from [start]. *)
Definition solvable (level : Level) : Prop :=
  ∃ e n, walk (edge level) (start level) e n ∧ exitAt level e.

(** [p] lies on the border of the grid of [level]. *)
Definition onBorder (level : Level) (p : Pos) : bool :=
  (r p =? 0) || (c p =? 0) ||
  (r p =? Z.of_nat (nrows level) - 1) || (c p =? Z.of_nat (ncols level) - 1).

(** The positions recorded in a Step Trace, in order. *)
Definition tracePositions (sol : Solution) : list Pos :=
  position <$> detailedSteps sol.


(** ** The game loop (App.tsx) *)

Module App.

(** The table [DIR_KEY], read at the [key] of a keyboard event; [None] is
    [undefined]. *)
Definition DIR_KEY (key : string) : option Pos :=
  if String.eqb key "ArrowUp" then Some (mkPos (-1) 0)
  else if String.eqb key "ArrowDown" then Some (mkPos 1 0)
  else if String.eqb key "ArrowLeft" then Some (mkPos 0 (-1))
  else if String.eqb key "ArrowRight" then Some (mkPos 0 1)
  else None.

(** The state the key handler updates: [player] and [moves]. *)
Record game : Type := mkGame {
  player : Pos;
  moves : nat
}.

(** The [keydown] handler [handle] together with the updater it passes to
    [setPlayer]; [setMoves(m => m + 1)] runs once per accepted move.  The
    component's own [canMoveBetween] is, word for word, that of the
    solvers. *)
Definition handle (level : Level) (isVisualizing : bool) (key : string)
    (g : game) : outcome game :=
  if isVisualizing then Done g else
  match DIR_KEY key with
  | None => Done g
  | Some delta =>
      let currentPlayer := player g in
      let next := step currentPlayer delta in
      '(rows, cols) <- dims level;
      if outside (Z.of_nat rows) (Z.of_nat cols) next then Done g else
      ok <- canMoveBetween level currentPlayer next;
      if negb ok then Done g else Done (mkGame next (S (moves g)))
  end.

(** A new maze puts the player on [start] with no move made; the keys
    pressed are then handled one after the other. *)
Definition newGame (level : Level) : game := mkGame (start level) 0%nat.

Definition play (level : Level) (keys : list string) : outcome game :=
  forEach (λ g key, handle level false key g) keys (newGame level).

(** [reachedExit]: with wall data the exit test of the solvers; without,
    a border cell of value 0. *)
Definition reachedExit (level : Level) (p : Pos) : outcome bool :=
  match cells level with
  | Some cs =>
      '(rows, cols) <- dims level;
      b1 <- andThen (r p =? 0) (noWall cs p top);
      if b1 then Done true else
      b2 <- andThen (r p =? Z.of_nat rows - 1) (noWall cs p bottom);
      if b2 then Done true else
      b3 <- andThen (c p =? 0) (noWall cs p left);
      if b3 then Done true else
      b4 <- andThen (c p =? Z.of_nat cols - 1) (noWall cs p right);
      if b4 then Done true else Done false
  | None =>
      border <-
        (if (r p =? 0) || (r p =? Z.of_nat (length (grid level)) - 1) || (c p =? 0)
         then Done true
         else row0 <- fromOption (grid level !! 0%nat);
              Done (c p =? Z.of_nat (length row0) - 1));
      if (border : bool) then
        if bool_decide (0 ≤ r p)
        then row <- fromOption (grid level !! Z.to_nat (r p));
             Done (bool_decide (0 ≤ c p ∧ row !! Z.to_nat (c p) = Some 0))
        else Throw
      else Done false
  end.

(** The updater [handleStepChange] passes to [setCurrentStep]. *)
Definition handleStepChange (visitedCells : list Pos) (delta prev : Z) : Z :=
  let newStep := prev + delta in
  if newStep <? 0 then 0
  else if Z.of_nat (length visitedCells) <=? newStep then prev
  else newStep.

(** The cells shown at [currentStep] (the effect on [currentStep]):
    [visitedCells.slice(0, currentStep)] within the range, nothing at 0,
    and otherwise what was shown before. *)
Definition visualizedCells (visitedCells : list Pos) (currentStep : Z)
    (shown : list Pos) : list Pos :=
  if (0 <? currentStep) && (currentStep <=? Z.of_nat (length visitedCells))
  then take (Z.to_nat currentStep) visitedCells
  else if currentStep =? 0 then []
  else shown.

End App.

(** ** The draws as binary64 numbers (mazeGenerator.ts) *)

Module Double.

(** A JS number is a binary64 floating-point number; a finite one is
    taken as the rational it denotes.  [exponent t] is the [e] with
    [2^e <= t < 2^(e+1)], for [t > 0]. *)
Definition exponent (t : Q) : Z :=
  if Qle_bool 1 t then Z.log2 (Qfloor t) else - Z.log2_up (Qceiling (/ t)).

(** The spacing of the binary64 numbers at [t > 0]: 53 significant bits,
    and the spacing [2^-1074] of the subnormal numbers below [2^-1022]. *)
Definition ulp (t : Q) : Q := (2 ^ (Z.max (exponent t) (-1022) - 52))%Q.

(** The integer nearest to [m], the even one of the two at a tie. *)
Definition nearestEven (m : Q) : Z :=
  let f := Qfloor m in
  match (m - inject_Z f ?= 1 # 2)%Q with
  | Lt => f
  | Gt => f + 1
  | Eq => if Z.even f then f else f + 1
  end.

Definition roundPos (t : Q) : Q :=
  (inject_Z (nearestEven (t / ulp t)) * ulp t)%Q.

(** The binary64 number nearest to [t], ties to even: the value of a
    literal written [t] and of an operation whose exact result is [t].
    Overflow to [Infinity] is left out; the numbers rounded here are
    products and quotients of sizes of arrays and grids. *)
Definition round (t : Q) : Q :=
  match (0 ?= t)%Q with
  | Eq => 0%Q
  | Lt => roundPos t
  | Gt => (- roundPos (- t))%Q
  end.

(** [a * b] and [a / b] on JS numbers. *)
Definition mul (a b : Q) : Q := round (a * b).
Definition div (a b : Q) : Q := round (a / b).

(** The rationals that are binary64 numbers. *)
Definition isDouble (x : Q) : Prop := (round x == x)%Q.

(** [Math.random()] returns a binary64 number in [[0,1)]. *)
Definition validRng (rng : Gen.Rng) : Prop :=
  ∀ n, isDouble (rng n) ∧ (0 <= rng n)%Q ∧ (rng n < 1)%Q.

(** [xs[Math.floor(x * xs.length)]]; [None] is [undefined]. *)
Definition pick {A} (xs : list A) (x : Q) : option A :=
  let i := Qfloor (mul x (inject_Z (Z.of_nat (length xs)))) in
  if bool_decide (0 ≤ i) then xs !! Z.to_nat i else None.

(** [a < q] and [a > q] between a coordinate and a JS number. *)
Definition below (a : Z) (q : Q) : Prop := Is_true (Gen.Qltb (inject_Z a) q).
Definition above (a : Z) (q : Q) : Prop := Is_true (Gen.Qltb q (inject_Z a)).

(** [getRandomNeighbor] (lines 32-55 of mazeGenerator.ts) on binary64
    draws; [n] counts the draws made so far. *)
Definition getRandomNeighbor (rng : Gen.Rng) (difficulty : Gen.Difficulty)
    (width height : Z) (neighbors : list Pos) (n : nat)
  : outcome (Pos * nat) :=
  let fallback (n : nat) :=
    nb <- fromOption (pick neighbors (rng n)); Done (nb, S n) in
  match difficulty with
  | Gen.easy =>
      let edgeNeighbors := filter (λ p : Pos,
        below (r p) (div (inject_Z height) 3) ∨
        above (r p) (div (mul 2 (inject_Z height)) 3) ∨
        below (c p) (div (inject_Z width) 3) ∨
        above (c p) (div (mul 2 (inject_Z width)) 3)) neighbors in
      if bool_decide (edgeNeighbors ≠ []) then
        if Gen.Qltb (rng n) (round (7 # 10)) then
          nb <- fromOption (pick edgeNeighbors (rng (S n))); Done (nb, S (S n))
        else fallback (S n)
      else fallback n
  | Gen.hard =>
      if Gen.Qltb (rng n) (round (3 # 10)) then
        let centerNeighbors := filter (λ p : Pos,
          (above (r p) (div (inject_Z height) 4) ∧
           below (r p) (div (mul 3 (inject_Z height)) 4)) ∧
          (above (c p) (div (inject_Z width) 4) ∧
           below (c p) (div (mul 3 (inject_Z width)) 4))) neighbors in
        if bool_decide (centerNeighbors ≠ []) then
          nb <- fromOption (pick centerNeighbors (rng (S n))); Done (nb, S (S n))
        else fallback (S n)
      else fallback (S n)
  | Gen.normal => fallback n
  end.

End Double.
(** ** Test levels *)

Definition cell_of (t rt b l : bool) : MazeCell := mkCell (mkWalls t rt b l) true.
Definition closed_cell : MazeCell := cell_of true true true true.

(** The 3x3 room of the spec: no interior walls, boundary closed except the
    top wall of (0,1); start at (1,1). *)
Definition room3 : Level :=
  mkLevel
    [[0;0;0];[0;0;0];[0;0;0]]
    (mkPos 1 1)
    (Some [ [cell_of true false false true; cell_of false false false false; cell_of true true false false];
            [cell_of false false false true; cell_of false false false false; cell_of false true false false];
            [cell_of false false true true; cell_of false false true false; cell_of false true true false] ]).

(** The same room with its boundary fully closed. *)
Definition sealed3 : Level :=
  mkLevel
    [[0;0;0];[0;0;0];[0;0;0]]
    (mkPos 1 1)
    (Some [ [cell_of true false false true; cell_of true false false false; cell_of true true false false];
            [cell_of false false false true; cell_of false false false false; cell_of false true false false];
            [cell_of false false true true; cell_of false false true false; cell_of false true true false] ]).

(** The open room with its only opening in the bottom wall of (2,1). *)
Definition room3_south : Level :=
  mkLevel
    [[0;0;0];[0;0;0];[0;0;0]]
    (mkPos 1 1)
    (Some [ [cell_of true false false true; cell_of true false false false; cell_of true true false false];
            [cell_of false false false true; cell_of false false false false; cell_of false true false false];
            [cell_of false false true true; cell_of false false false false; cell_of false true true false] ]).

(** A corridor from (1,1) up to (0,1), which forks into the dead ends (0,0)
    and (0,2), and down to (2,1), whose bottom wall is open. *)
Definition fork : Level :=
  mkLevel
    [[0;0;0];[1;0;1];[1;0;1]]
    (mkPos 1 1)
    (Some [ [cell_of true false true true; cell_of true false false false; cell_of true true true false];
            [closed_cell; cell_of false true false true; closed_cell];
            [closed_cell; cell_of false true false true; closed_cell] ]).

(** A binary 2x2 grid whose start is a blocked border cell. *)
Definition blocked : Level :=
  mkLevel [[1;0];[0;0]] (mkPos 0 0) None.

(** A stream of draws, and the maze generated from it. *)
Definition rng0 : Gen.Rng := λ n, (Z.of_nat (n mod 7) # 7)%Q.

Definition genLevel : Level :=
  Eval vm_compute in
    match Gen.generateMaze 100 rng0 4 3 Gen.hard with
    | Done lv => lv
    | _ => mkLevel [] (mkPos 0 0) None
    end.

(** The results of the runs used below. *)
Definition noSolution : Solution := mkSolution 0 [] [] ""%string [] None.

Definition resultOf (run : outcome (option Solution)) : Solution :=
  match run with
  | Done (Some sol) => sol
  | _ => noSolution
  end.

Definition genLevel_bfs : Solution :=
  Eval vm_compute in resultOf (BFS.solveBFS 20 genLevel).
Definition room3_south_dfs : Solution :=
  Eval vm_compute in resultOf (DFS.solveDFS 20 room3_south).
Definition room3_south_bfs : Solution :=
  Eval vm_compute in resultOf (BFS.solveBFS 20 room3_south).
Definition fork_astar : Solution :=
  Eval vm_compute in resultOf (solve 10 fork Algorithm.astar).

Definition room3_south_dijkstra : Solution :=
  Eval vm_compute in resultOf (Dijkstra.solveDijkstra 20 room3_south).
Definition genLevel_dfs : Solution :=
  Eval vm_compute in resultOf (solve 20 genLevel Algorithm.dfs).

Definition fork_dfs : Solution :=
  Eval vm_compute in resultOf (DFS.solveDFS 10 fork).

(** The binary64 number nearest to 1/3, and a stream of binary64 draws. *)
Definition third : Q := Eval vm_compute in Qred (Double.round (1 # 3)).
Definition rngD : Gen.Rng := λ n, Double.round (Z.of_nat (n mod 7) # 7).

(** A binary 4x4 grid: a corridor from (1,1) over (1,2) and (2,2) to the
    border cell (3,2). *)
Definition corridor4 : Level :=
  mkLevel [[1;1;1;1];[1;0;0;1];[1;1;0;1];[1;1;0;1]] (mkPos 1 1) None.
Definition corridor4_dijkstra : Solution :=
  Eval vm_compute in resultOf (solve 20 corridor4 Algorithm.dijkstra).

(** * Properties *)

(** ** Outcomes *)

Lemma bind_Done {A B} (m : outcome A) (f : A → outcome B) (b : B) :
  bind m f = Done b → ∃ a, m = Done a ∧ f a = Done b.
Proof. destruct m; simpl; intros; eauto; discriminate. Qed.

Lemma fromOption_Done {A} (o : option A) (a : A) :
  fromOption o = Done a ↔ o = Some a.
Proof. destruct o; simpl; split; intros; congruence. Qed.

(** ** Two-dimensional arrays *)

Section Matrix.
Context {A : Type}.
Implicit Types (m : list (list A)) (p q : Pos) (v : A).

Lemma mget_Some_inb rows cols m p v :
  rect rows cols m → mget m p = Some v → inb rows cols p.
Proof.
  intros [Hlen Hrows]. unfold mget, inb.
  case_bool_decide as Hp; [|discriminate].
  destruct (m !! Z.to_nat (r p)) as [row|] eqn:Hrow; simpl; [|discriminate].
  intros Hv.
  apply lookup_lt_Some in Hv.
  pose proof (lookup_lt_Some _ _ _ Hrow) as Hr.
  rewrite Forall_forall in Hrows.
  rewrite (Hrows row) in Hv by (eapply list_elem_of_lookup_2; eauto).
  lia.
Qed.

Lemma mget_inb rows cols m p :
  rect rows cols m → inb rows cols p → is_Some (mget m p).
Proof.
  intros [Hlen Hrows] [Hr Hc]. unfold mget.
  rewrite bool_decide_eq_true_2 by lia.
  destruct (lookup_lt_is_Some_2 m (Z.to_nat (r p))) as [row Hrow]; [lia|].
  rewrite Hrow. simpl.
  apply lookup_lt_is_Some_2.
  rewrite Forall_forall in Hrows.
  rewrite (Hrows row) by (eapply list_elem_of_lookup_2; eauto).
  lia.
Qed.

Lemma mget_is_Some rows cols m p :
  rect rows cols m → is_Some (mget m p) ↔ inb rows cols p.
Proof.
  intros Hm. split.
  - intros [v Hv]. eauto using mget_Some_inb.
  - eauto using mget_inb.
Qed.

Lemma mset_rect rows cols m p v :
  rect rows cols m → rect rows cols (mset m p v).
Proof.
  intros [Hlen Hrows]. unfold mset. case_bool_decide; [|by split].
  split.
  - by rewrite length_alter.
  - rewrite Forall_forall in Hrows. apply Forall_forall. intros row Hin.
    apply list_elem_of_lookup in Hin as [i Hi].
    destruct (decide (i = Z.to_nat (r p))) as [->|Hne].
    + rewrite list_lookup_alter_eq in Hi.
      destruct (m !! Z.to_nat (r p)) as [row0|] eqn:H0; simplify_eq/=.
      rewrite length_insert. apply Hrows. eapply list_elem_of_lookup_2; eauto.
    + rewrite list_lookup_alter_ne in Hi by done.
      apply Hrows. eapply list_elem_of_lookup_2; eauto.
Qed.

Lemma mget_mset_eq m p v :
  is_Some (mget m p) → mget (mset m p v) p = Some v.
Proof.
  unfold mget, mset. case_bool_decide; [|by intros [? ?]].
  rewrite list_lookup_alter_eq.
  destruct (m !! Z.to_nat (r p)) as [row|]; simpl; [|by intros [? ?]].
  intros Hv. apply list_lookup_insert_eq. by apply lookup_lt_is_Some_1.
Qed.

Lemma mget_mset_ne m p q v :
  p ≠ q → mget (mset m p v) q = mget m q.
Proof.
  intros Hne. unfold mget, mset.
  case_bool_decide as Hq; [|done].
  case_bool_decide as Hp; [|done].
  destruct (decide (Z.to_nat (r p) = Z.to_nat (r q))) as [Heq|Hr].
  - rewrite <- Heq. rewrite list_lookup_alter_eq.
    destruct (m !! Z.to_nat (r p)) as [row|]; simpl; [|done].
    apply list_lookup_insert_ne.
    intros Hc. apply Hne. destruct p, q; simpl in *. f_equal; lia.
  - by rewrite list_lookup_alter_ne.
Qed.

Lemma mfill_rect rows cols v : rect rows cols (mfill rows cols v).
Proof.
  split.
  - apply length_replicate.
  - apply Forall_forall. intros row Hin.
    apply elem_of_replicate in Hin as [-> _]. apply length_replicate.
Qed.

Lemma mget_mfill rows cols v p :
  inb rows cols p → mget (mfill rows cols v) p = Some v.
Proof.
  intros [Hr Hc]. unfold mget, mfill.
  rewrite bool_decide_eq_true_2 by lia.
  rewrite lookup_replicate_2 by lia. simpl.
  apply lookup_replicate_2. lia.
Qed.

Lemma mget_mfill_Some rows cols v p w :
  mget (mfill rows cols v) p = Some w → w = v ∧ inb rows cols p.
Proof.
  intros H. pose proof (mget_Some_inb _ _ _ _ _ (mfill_rect rows cols v) H) as Hin.
  rewrite mget_mfill in H by done. by simplify_eq.
Qed.

Lemma mread_Done m p v : mread m p = Done v ↔ mget m p = Some v.
Proof. apply fromOption_Done. Qed.

Lemma mread_inb rows cols m p :
  rect rows cols m → inb rows cols p → ∃ v, mread m p = Done v ∧ mget m p = Some v.
Proof.
  intros Hm Hp. destruct (mget_inb _ _ _ _ Hm Hp) as [v Hv].
  exists v. by rewrite mread_Done.
Qed.

Lemma mwrite_Done m p v m' :
  mwrite m p v = Done m' ↔ is_Some (mget m p) ∧ m' = mset m p v.
Proof.
  unfold mwrite. destruct (mget m p); split.
  - intros; simplify_eq; eauto.
  - intros [_ ->]; done.
  - discriminate.
  - intros [[? ?] _]; done.
Qed.

Lemma mwrite_inb rows cols m p v :
  rect rows cols m → inb rows cols p → mwrite m p v = Done (mset m p v).
Proof.
  intros Hm Hp. apply mwrite_Done. split; [|done]. eauto using mget_inb.
Qed.

Lemma mget_mset m p q v :
  mget (mset m p v) q =
  if decide (p = q) then (mget m p ≫= λ _, Some v) else mget m q.
Proof.
  case_decide as Hpq.
  - subst q. destruct (mget m p) eqn:Hp; simpl.
    + apply mget_mset_eq. eauto.
    + unfold mget, mset in *. case_bool_decide; [|done].
      rewrite list_lookup_alter_eq.
      destruct (m !! Z.to_nat (r p)) as [row|]; simpl in *; [|done].
      apply lookup_ge_None. rewrite length_insert. by apply lookup_ge_None.
  - by apply mget_mset_ne.
Qed.
End Matrix.

(** ** Paths *)

Section Linked.
Context (E : Pos → Pos → Prop).

Lemma linked_cons p l :
  linked E (p :: l) ↔ (∀ q, head l = Some q → E p q) ∧ linked E l.
Proof.
  destruct l as [|q l]; simpl.
  - split; [intros _; split; [intros ? [=]|done] | done].
  - split.
    + intros [Hpq Hl]. split; [by intros ? [= <-]|done].
    + intros [Hpq Hl]. split; [by apply Hpq|done].
Qed.

Lemma linked_snoc l x :
  linked E (l ++ [x]) ↔ linked E l ∧ (∀ y, last l = Some y → E y x).
Proof.
  induction l as [|p l IH].
  - simpl. split; [intros _; split; [done|intros ? [=]] | done].
  - change ((p :: l) ++ [x]) with (p :: (l ++ [x])).
    rewrite !linked_cons, IH. destruct l as [|q l].
    + simpl. split.
      * intros [H _]. split; [split; [intros ? [=]|done]|].
        intros y [= <-]. by apply H.
      * intros [_ H]. split; [|split; [done|intros ? [=]]].
        intros ? [= <-]. by apply H.
    + rewrite last_cons_cons. simpl. tauto.
Qed.

Lemma walk_of_linked l a b :
  linked E l → head l = Some a → last l = Some b →
  walk E a b (length l - 1).
Proof.
  revert b. induction l as [|x l IH] using rev_ind; intros b Hl Ha Hb.
  - discriminate.
  - rewrite last_snoc in Hb. simplify_eq.
    apply linked_snoc in Hl as [Hl Hlast].
    destruct l as [|y l] using rev_ind.
    + simpl in Ha. simplify_eq. simpl. constructor.
    + clear IHl. rewrite last_snoc in Hlast.
      rewrite length_app. simpl.
      replace (length (l ++ [y]) + 1 - 1)%nat with (S (length (l ++ [y]) - 1)).
      2:{ rewrite length_app. simpl. lia. }
      eapply walk_more; [|by apply Hlast].
      apply IH; [done| |by rewrite last_snoc].
      destruct l; simpl in *; done.
Qed.

End Linked.

Lemma linked_reverse E l : linked (flip E) l → linked E (reverse l).
Proof.
  induction l as [|p l IH]; [done|].
  rewrite linked_cons, reverse_cons, linked_snoc.
  intros [Hp Hl]. split; [auto|].
  intros y Hy. rewrite last_reverse in Hy. by apply Hp.
Qed.

Lemma walk_trans E a b t n k :
  walk E a b n → walk E b t k → walk E a t (n + k).
Proof.
  intros Hab Hbt. induction Hbt as [|q t k Hbq IH Hqt].
  - by rewrite Nat.add_0_r.
  - rewrite Nat.add_succ_r. by eapply walk_more.
Qed.

(** ** The frontier argument

    A search keeps a set of settled ([closed]) cells and a set of
    discovered, unsettled ([opn]) cells, and a cost [g] per discovered
    cell.  If every move out of a settled cell leads to a discovered cell
    whose cost is at most one more, then any walk from the start either
    ends in a settled cell of cost at most its length, or passes through
    an unsettled cell whose cost plus heuristic is at most the length of
    the walk plus the heuristic of its end. *)

Section Frontier.
Context (E : Pos → Pos → Prop) (s : Pos).
Context (closed opn : Pos → Prop) (g h : Pos → Z).

Hypothesis start_found : (closed s ∨ opn s) ∧ g s ≤ 0.
Hypothesis closed_moves :
  ∀ x y, closed x → E x y → (closed y ∨ opn y) ∧ g y ≤ g x + 1.
Hypothesis consistent : ∀ x y, E x y → h x ≤ h y + 1.

Lemma frontier t n :
  walk E s t n →
  (closed t ∧ g t ≤ Z.of_nat n) ∨ (∃ y, opn y ∧ g y + h y ≤ Z.of_nat n + h t).
Proof.
  induction 1 as [|q t n Hw IH Hqt].
  - destruct start_found as [[Hc|Ho] Hg].
    + left. split; [done|lia].
    + right. exists s. split; [done|lia].
  - pose proof (consistent _ _ Hqt) as Hh.
    destruct IH as [[Hc Hg]|(y & Hy & Hf)].
    + destruct (closed_moves _ _ Hc Hqt) as [[Hct|Hot] Hgt].
      * left. split; [done|lia].
      * right. exists t. split; [done|lia].
    + right. exists y. split; [done|lia].
Qed.

(** A cell [u] of least [g + h] among the unsettled ones, when it is
    about to be settled, costs no more than any walk to a cell [t] that
    is not settled and has heuristic 0. *)
Lemma frontier_least u t n :
  (∀ y, opn y → g u + h u ≤ g y + h y) → 0 ≤ h u →
  ¬ closed t → h t = 0 → walk E s t n → g u ≤ Z.of_nat n.
Proof.
  intros Hmin Hu Ht Hht Hw.
  destruct (frontier t n Hw) as [[Hc _]|(y & Hy & Hf)]; [done|].
  specialize (Hmin y Hy). lia.
Qed.

(** Once nothing is unsettled, everything reachable is settled. *)
Lemma frontier_exhausted t n :
  (∀ y, ¬ opn y) → walk E s t n → closed t.
Proof.
  intros Hno Hw.
  destruct (frontier t n Hw) as [[Hc _]|(y & Hy & _)]; [done|].
  by destruct (Hno y).
Qed.
End Frontier.

(** ** Parent links *)

Section ParentChain.
Context (E : Pos → Pos → Prop) (s : Pos).
Context (par : list (list (option Pos))) (found : Pos → Prop) (dep : Pos → nat).

Hypothesis chain :
  ∀ x, found x →
    (mget par x = Some None ∧ x = s ∧ dep x = 0%nat) ∨
    (∃ p, mget par x = Some (Some p) ∧ E p x ∧ dep x = S (dep p) ∧ found p).

Lemma followParents_chain fuel x acc :
  found x → (dep x < fuel)%nat →
  ∃ l, followParents fuel par x acc = Done (acc ++ l) ∧
       length l = S (dep x) ∧ head l = Some x ∧ last l = Some s ∧
       linked (flip E) l.
Proof.
  revert x acc. induction fuel as [|fuel IH]; intros x acc Hx Hfuel; [lia|].
  simpl. unfold mread.
  destruct (chain x Hx) as [(Hpar & -> & Hdep)|(p & Hpar & Hpx & Hdep & Hp)];
    rewrite Hpar; simpl.
  - exists [s]. rewrite Hdep. by split_and!.
  - destruct (IH p (acc ++ [x]) Hp) as (l & Hrun & Hlen & Hhd & Hlast & Hlink); [lia|].
    exists (x :: l). rewrite Hrun, <- app_assoc. simpl.
    split_and!; [done|lia|done| |].
    + destruct l as [|y l']; [discriminate Hhd|]. by rewrite last_cons_cons.
    + apply (proj2 (linked_cons (flip E) x l)). split; [|done].
      intros q Hq. by simplify_eq.
Qed.

Lemma depthOf_chain fuel x acc :
  found x → (dep x < fuel)%nat →
  DFS.depthOf fuel par x acc = Done (acc + dep x)%nat.
Proof.
  revert x acc. induction fuel as [|fuel IH]; intros x acc Hx Hfuel; [lia|].
  simpl. unfold mread.
  destruct (chain x Hx) as [(Hpar & -> & Hdep)|(p & Hpar & Hpx & Hdep & Hp)];
    rewrite Hpar; simpl.
  - rewrite Hdep. f_equal. lia.
  - rewrite IH by (done || lia). f_equal. lia.
Qed.

(** The reversed chain is a path from the start to [x] of [dep x] moves. *)
Lemma followParents_path fuel x :
  found x → (dep x < fuel)%nat →
  ∃ l, followParents fuel par x [] = Done l ∧
       Z.of_nat (length l) - 1 = Z.of_nat (dep x) ∧
       head (reverse l) = Some s ∧ last (reverse l) = Some x ∧
       linked E (reverse l).
Proof.
  intros Hx Hfuel.
  destruct (followParents_chain fuel x [] Hx Hfuel)
    as (l & Hrun & Hlen & Hhd & Hlast & Hlink).
  exists l. simpl in Hrun. split_and!; [done|lia| | |].
  - by rewrite head_reverse.
  - by rewrite last_reverse.
  - by apply linked_reverse.
Qed.
End ParentChain.

(** ** Levels *)

Lemma step_not_here p d : d ∈ DIRS → step p d ≠ p.
Proof.
  unfold DIRS. rewrite !elem_of_cons, elem_of_nil.
  intros Hd Heq. destruct p as [pr pc]. unfold step in Heq. simpl in Heq.
  injection Heq as Hr Hc.
  destruct Hd as [->|[->|[->|[->|[]]]]]; simpl in *; lia.
Qed.

Lemma heuristic_step p d rows cols :
  d ∈ DIRS → heuristic p rows cols ≤ heuristic (step p d) rows cols + 1.
Proof.
  unfold DIRS. rewrite !elem_of_cons, elem_of_nil. unfold heuristic, step.
  intros [->|[->|[->|[->|[]]]]]; simpl; lia.
Qed.

Lemma heuristic_nonneg p rows cols :
  inb rows cols p → 0 ≤ heuristic p (Z.of_nat rows) (Z.of_nat cols).
Proof. unfold inb, heuristic. lia. Qed.

Lemma outside_inb rows cols p :
  outside (Z.of_nat rows) (Z.of_nat cols) p = false ↔ inb rows cols p.
Proof.
  unfold outside, inb. rewrite !orb_false_iff, !Z.ltb_ge, !Z.leb_gt. lia.
Qed.

Lemma outside_not_inb rows cols p :
  outside (Z.of_nat rows) (Z.of_nat cols) p = true → ¬ inb rows cols p.
Proof. intros H Hin. apply outside_inb in Hin. congruence. Qed.

Section LevelFacts.
Context (level : Level) (Hwf : wf level).
Let rows := nrows level.
Let cols := ncols level.

Lemma dims_wf : dims level = Done (rows, cols).
Proof.
  destruct Hwf as ([Hr Hc] & _).
  unfold dims, rows, cols, ncols, nrows in *.
  destruct (grid level) as [|row0 g]; simpl in *; [lia|done].
Qed.

Lemma canMoveBetween_total p q :
  inb rows cols p → inb rows cols q → ∃ b, canMoveBetween level p q = Done b.
Proof.
  intros Hp Hq. destruct Hwf as (_ & Hcells).
  unfold canMoveBetween. destruct (cells level) as [cs|].
  - destruct (mread_inb _ _ cs p Hcells Hp) as (cell & Hread & _).
    unfold noWall. rewrite Hread. simpl.
    repeat (case_match; eauto).
  - destruct Hq as [Hqr Hqc]. rewrite bool_decide_eq_true_2 by lia.
    destruct (lookup_lt_is_Some_2 (grid level) (Z.to_nat (r q))) as [row Hrow].
    { fold (nrows level). fold rows. lia. }
    rewrite Hrow. simpl. eauto.
Qed.

Lemma canExit_total p :
  inb rows cols p → ∃ b, canExit level (Z.of_nat rows) (Z.of_nat cols) p = Done b.
Proof.
  intros Hp. destruct Hwf as (_ & Hcells).
  unfold canExit. destruct (cells level) as [cs|]; [|eauto].
  destruct (mread_inb _ _ cs p Hcells Hp) as (cell & Hread & _).
  unfold noWall, andThen. rewrite Hread. simpl.
  repeat (case_match; simpl; eauto).
Qed.

Lemma exitAt_dec p : inb rows cols p → exitAt level p ∨ ¬ exitAt level p.
Proof.
  intros Hp. unfold exitAt. fold rows cols.
  destruct (canExit_total p Hp) as [[|] ->]; [by left|by right].
Qed.

(** An exit lies on the border, where the heuristic is 0. *)
Lemma exitAt_border p :
  inb rows cols p → exitAt level p →
  heuristic p (Z.of_nat rows) (Z.of_nat cols) = 0.
Proof.
  intros Hp. unfold exitAt, canExit. fold rows cols.
  assert (Hb : (r p = 0 ∨ c p = 0 ∨ r p = Z.of_nat rows - 1 ∨ c p = Z.of_nat cols - 1) →
               heuristic p (Z.of_nat rows) (Z.of_nat cols) = 0).
  { unfold inb, heuristic in *. lia. }
  destruct (cells level) as [cs|].
  - unfold andThen.
    repeat match goal with
    | |- context [(?a =? ?b)] =>
        destruct (Z.eqb_spec a b); [intros _; apply Hb; lia|]
    end.
    simpl. discriminate.
  - intros [= H]. apply Hb.
    rewrite !orb_true_iff, !Z.eqb_eq in H. lia.
Qed.

Lemma edge_inb p q : edge level p q → inb rows cols q.
Proof. by intros (_ & ? & _). Qed.

Lemma edge_step p q : edge level p q → ∃ d, d ∈ DIRS ∧ q = step p d.
Proof. by intros (? & _). Qed.

Lemma walk_inb p q n :
  inb rows cols p → walk (edge level) p q n → inb rows cols q.
Proof. intros Hp. induction 1; eauto using edge_inb. Qed.

Lemma edge_heuristic p q :
  edge level p q →
  heuristic p (Z.of_nat rows) (Z.of_nat cols)
    ≤ heuristic q (Z.of_nat rows) (Z.of_nat cols) + 1.
Proof. intros ((d & Hd & ->) & _). by apply heuristic_step. Qed.
End LevelFacts.

(** ** Counting cells *)

Lemma elem_of_positions width height p :
  p ∈ Gen.positions width height ↔ inb height width p.
Proof.
  unfold Gen.positions, inb. rewrite list_elem_of_bind. split.
  - intros (i & Hp & Hi). apply list_elem_of_fmap in Hp as (j & -> & Hj).
    apply elem_of_seq in Hi, Hj. simpl. lia.
  - intros [Hr Hc]. exists (Z.to_nat (r p)). split.
    + apply list_elem_of_fmap. exists (Z.to_nat (c p)). split.
      * destruct p as [pr pc]; simpl in *. f_equal; lia.
      * apply elem_of_seq. lia.
    + apply elem_of_seq. lia.
Qed.

Lemma length_positions width height :
  length (Gen.positions width height) = (height * width)%nat.
Proof.
  unfold Gen.positions.
  assert (H : ∀ k, length (seq k height ≫=
                     λ i, (λ j, mkPos (Z.of_nat i) (Z.of_nat j)) <$> seq 0 width)
                   = (height * width)%nat); [|apply H].
  induction height as [|n IH]; intros k; [done|].
  simpl. rewrite length_app, length_fmap, length_seq. by rewrite IH.
Qed.

(** A duplicate-free list of cells of the grid has at most [rows * cols]
    entries. *)
Lemma cells_bounded rows cols (l : list Pos) :
  NoDup l → (∀ x, x ∈ l → inb rows cols x) → (length l ≤ rows * cols)%nat.
Proof.
  intros Hnd Hin. rewrite <- (length_positions cols rows).
  apply submseteq_length, NoDup_submseteq; [done|].
  intros x Hx. apply elem_of_positions. auto.
Qed.

(** ** Scanning a list for its least score *)

Definition sval (score : list (list num)) (x : Pos) : Z :=
  match mget score x with
  | Some (Finite k) => k
  | _ => 0
  end.

Lemma scanMin_spec score pre xs cur ci :
  (pre ++ xs) !! ci = Some cur →
  (∀ x, x ∈ pre ++ xs → ∃ k, mget score x = Some (Finite k)) →
  (∀ y, y ∈ pre → sval score cur ≤ sval score y) →
  ∃ u j, scanMin score xs (length pre) cur ci = Done (u, j) ∧
         (pre ++ xs) !! j = Some u ∧
         (∀ y, y ∈ pre ++ xs → sval score u ≤ sval score y).
Proof.
  revert pre cur ci. induction xs as [|x xs IH]; intros pre cur ci Hcur Hfin Hmin.
  - simpl. exists cur, ci. rewrite app_nil_r in *. eauto.
  - simpl. unfold mread.
    destruct (Hfin x) as [kx Hx]; [apply elem_of_app; right; constructor|].
    destruct (Hfin cur) as [kc Hc]; [by eapply list_elem_of_lookup_2|].
    rewrite Hx, Hc. simpl.
    replace (S (length pre)) with (length (pre ++ [x])) by (rewrite length_app; simpl; lia).
    replace (pre ++ x :: xs) with ((pre ++ [x]) ++ xs) in * by (by rewrite <- app_assoc).
    destruct (Z.ltb_spec kx kc) as [Hlt|Hge].
    + apply IH; [|done|].
      * rewrite lookup_app_l by (rewrite length_app; simpl; lia).
        apply list_lookup_middle. done.
      * intros y Hy. apply elem_of_app in Hy as [Hy|Hy].
        -- specialize (Hmin y Hy). unfold sval in *. rewrite Hx. rewrite Hc in Hmin. lia.
        -- apply list_elem_of_singleton in Hy as ->. lia.
    + apply IH; [done|done|].
      intros y Hy. apply elem_of_app in Hy as [Hy|Hy]; [auto|].
      apply list_elem_of_singleton in Hy as ->. unfold sval. rewrite Hx, Hc. lia.
Qed.

Lemma contains_elem_of xs p : contains xs p = true ↔ p ∈ xs.
Proof.
  unfold contains. rewrite existsb_exists. split.
  - intros (x & Hx & Heq). apply andb_true_iff in Heq as [Hr Hc].
    apply Z.eqb_eq in Hr, Hc. apply list_elem_of_In in Hx.
    replace p with x; [done|]. destruct x, p; simpl in *; congruence.
  - intros Hp. exists p. rewrite <- list_elem_of_In, !Z.eqb_refl. done.
Qed.

Lemma delete_lookup_Permutation {A} (l : list A) i x :
  l !! i = Some x → l ≡ₚ x :: delete i l.
Proof.
  intros Hi. rewrite delete_take_drop.
  rewrite <- (take_drop_middle l i x Hi) at 1.
  by rewrite Permutation_middle.
Qed.

(** ** Best-first search: the invariant shared by A* and Dijkstra *)

Lemma num_add_0 a : num_add a 0 = a.
Proof. destruct a; simpl; [f_equal; lia|done]. Qed.

Lemma mget_mset_inb {A} rows cols (m : list (list A)) p q v :
  rect rows cols m → inb rows cols p →
  mget (mset m p v) q = if decide (p = q) then Some v else mget m q.
Proof.
  intros Hm Hp. rewrite mget_mset. case_decide; [|done].
  by destruct (mget_inb _ _ _ _ Hm Hp) as [w ->].
Qed.

Section BestFirst.
Context (level : Level) (Hwf : wf level).
Let rows := nrows level.
Let cols := ncols level.
Let s := start level.
Context (h : Pos → Z).
Hypothesis h_nonneg : ∀ p, inb rows cols p → 0 ≤ h p.
Hypothesis h_edge : ∀ p q, edge level p q → h p ≤ h q + 1.
Hypothesis h_exit : ∀ p, inb rows cols p → exitAt level p → h p = 0.

(** [x] has been discovered: its cost is finite. *)
Definition found (g : list (list num)) (x : Pos) : Prop :=
  ∃ k, mget g x = Some (Finite k).

(** The relaxation of one neighbour, over the heuristic [h]. *)
Definition relaxG (vis : list (list bool)) (current : Pos)
    (acc : list (list num) * list (list num) * list (list (option Pos)) * list Pos)
    (d : Pos)
  : outcome (list (list num) * list (list num) * list (list (option Pos)) * list Pos) :=
  let '(g, f, par, open) := acc in
  let neighbor := step current d in
  if outside (Z.of_nat rows) (Z.of_nat cols) neighbor then Done acc else
  ok <- canMoveBetween level current neighbor;
  if negb ok then Done acc else
  seen <- mread vis neighbor;
  if (seen : bool) then Done acc else
  gc <- mread g current;
  let tentativeGScore := num_add gc 1 in
  gn <- mread g neighbor;
  if num_ltb tentativeGScore gn then
    par' <- mwrite par neighbor (Some current);
    g' <- mwrite g neighbor tentativeGScore;
    f' <- mwrite f neighbor (num_add tentativeGScore (h neighbor));
    Done (g', f', par', if contains open neighbor then open else open ++ [neighbor])
  else Done acc.

(** The invariant: [vc] lists the settled cells, [open] the discovered
    unsettled ones, and [cl] the settled cells all of whose moves have
    been relaxed. *)
Record inv (vis : list (list bool)) (g f : list (list num))
    (par : list (list (option Pos))) (open vc cl : list Pos) : Prop := {
  inv_vis : rect rows cols vis;
  inv_g : rect rows cols g;
  inv_f : rect rows cols f;
  inv_par : rect rows cols par;
  inv_vc : ∀ x, mget vis x = Some true ↔ x ∈ vc;
  inv_nodup : NoDup vc;
  inv_open_nodup : NoDup open;
  inv_open : ∀ x, x ∈ open → (x ∉ vc) ∧ found g x;
  inv_found : ∀ x, found g x → x ∈ vc ∨ x ∈ open;
  inv_vc_found : ∀ x, x ∈ vc → found g x;
  inv_start : mget g s = Some (Finite 0);
  inv_score : ∀ x k, mget g x = Some (Finite k) →
    mget f x = Some (Finite (k + h x)) ∧ 0 ≤ k ≤ Z.of_nat (length vc);
  inv_chain : ∀ x, found g x →
    (mget par x = Some None ∧ x = s ∧ sval g x = 0) ∨
    (∃ p, mget par x = Some (Some p) ∧ edge level p x ∧
          sval g x = sval g p + 1 ∧ p ∈ vc);
  inv_closed : ∀ x y, x ∈ cl → edge level x y →
    found g y ∧ sval g y ≤ sval g x + 1;
  inv_noexit : ∀ x, x ∈ cl → ¬ exitAt level x;
  inv_mono : ∀ x y, x ∈ vc → y ∈ open → sval g x + h x ≤ sval g y + h y
}.

Lemma found_inb g x : rect rows cols g → found g x → inb rows cols x.
Proof. intros Hg [k Hk]. eauto using mget_Some_inb. Qed.

Lemma found_sval g x : found g x → mget g x = Some (Finite (sval g x)).
Proof. intros [k Hk]. unfold sval. by rewrite Hk. Qed.

(** The state while the moves of the newly settled cell [u], of cost
    [gu], are being relaxed. *)
Definition mid (u : Pos) (gu : Z) (vis : list (list bool)) (vc : list Pos)
    (acc : list (list num) * list (list num) * list (list (option Pos)) * list Pos)
  : Prop :=
  let '(g, f, par, open) := acc in
  inv vis g f par open (vc ++ [u]) vc ∧
  mget g u = Some (Finite gu) ∧
  gu + 1 ≤ Z.of_nat (length (vc ++ [u])) ∧
  (∀ x, x ∈ vc ++ [u] → sval g x + h x ≤ gu + h u).

(** The move from [u] to [y] has been relaxed. *)
Definition handled (u : Pos) (gu : Z) (g : list (list num)) (y : Pos) : Prop :=
  edge level u y → found g y ∧ sval g y ≤ gu + 1.

Lemma relax_update u gu vis vc g f par open nb k :
  mid u gu vis vc (g, f, par, open) →
  edge level u nb → mget vis nb = Some false →
  mget g nb = Some k → num_ltb (Finite (gu + 1)) k = true →
  mid u gu vis vc
    (mset g nb (Finite (gu + 1)), mset f nb (Finite (gu + 1 + h nb)),
     mset par nb (Some u),
     if contains open nb then open else open ++ [nb]).
Proof.
  intros (I & Hgu & Hlen & Hle) Hedge Hvis Hk Hlt.
  destruct I as [Ivis Ig If Ipar Ivc Ind Iond Iopen Ifound Ivcf Istart
                 Iscore Ichain Iclosed Inoexit Imono].
  pose proof (edge_inb _ _ _ Hedge) as Hnb. fold rows cols in Hnb.
  assert (Hnvc : nb ∉ vc ++ [u]).
  { intros Hin. apply Ivc in Hin. congruence. }
  assert (Hu : u ∈ vc ++ [u]) by (apply elem_of_app; right; constructor).
  assert (Hnu : nb ≠ u) by (intros ->; done).
  assert (Hgu0 : 0 ≤ gu) by (apply (Iscore u gu Hgu)).
  assert (Hns : nb ≠ s).
  { intros ->. fold s in Hk. rewrite Istart in Hk. simplify_eq. simpl in Hlt.
    apply Z.ltb_lt in Hlt. lia. }
  assert (Hg' : ∀ x, mget (mset g nb (Finite (gu + 1))) x =
                     if decide (nb = x) then Some (Finite (gu + 1)) else mget g x).
  { intros x. by eapply mget_mset_inb. }
  assert (Hs' : ∀ x, sval (mset g nb (Finite (gu + 1))) x =
                     if decide (nb = x) then gu + 1 else sval g x).
  { intros x. unfold sval. rewrite Hg'. by case_decide. }
  assert (Hf' : ∀ x, found (mset g nb (Finite (gu + 1))) x ↔ nb = x ∨ found g x).
  { intros x. unfold found. rewrite Hg'. case_decide; [naive_solver|].
    naive_solver. }
  assert (Hso : ∀ x, x ∈ vc ++ [u] → sval (mset g nb (Finite (gu + 1))) x = sval g x).
  { intros x Hx. rewrite Hs'. case_decide; [by subst|done]. }
  assert (Hopen' : ∀ x, x ∈ (if contains open nb then open else open ++ [nb])
                        ↔ x = nb ∨ x ∈ open).
  { intros x. destruct (contains open nb) eqn:Hc.
    - apply contains_elem_of in Hc. naive_solver.
    - rewrite elem_of_app, list_elem_of_singleton. tauto. }
  unfold mid. split_and!; [split| | |].
  - done.
  - by apply mset_rect.
  - by apply mset_rect.
  - by apply mset_rect.
  - done.
  - done.
  - destruct (contains open nb) eqn:Hc; [done|].
    apply NoDup_app. split_and!; [done| |apply NoDup_singleton].
    intros x Hx Hx'. apply list_elem_of_singleton in Hx' as ->.
    apply contains_elem_of in Hx. congruence.
  - intros x Hx. apply Hopen' in Hx as [->|Hx].
    + split; [done|]. apply Hf'. by left.
    + destruct (Iopen x Hx). split; [done|]. apply Hf'. by right.
  - intros x Hx. apply Hf' in Hx as [<-|Hx].
    + right. apply Hopen'. by left.
    + destruct (Ifound x Hx); [by left|]. right. apply Hopen'. by right.
  - intros x Hx. apply Hf'. right. auto.
  - fold s. rewrite Hg'. by case_decide.
  - intros x kx. rewrite Hg'. case_decide as Hx.
    + subst x. intros [= <-]. split; [|lia].
      erewrite mget_mset_inb by done. by rewrite decide_True.
    + intros Hkx. destruct (Iscore x kx Hkx) as [Hfx Hb]. split; [|done].
      erewrite mget_mset_inb by done. by rewrite decide_False.
  - intros x Hx. apply Hf' in Hx as [<-|Hx].
    + right. exists u. split_and!; [|done| |done].
      * erewrite mget_mset_inb by done. by rewrite decide_True.
      * rewrite (Hso u Hu), Hs', decide_True by done.
        unfold sval. rewrite Hgu. done.
    + destruct (decide (nb = x)) as [<-|Hne].
      * right. exists u. split_and!; [|done| |done].
        -- erewrite mget_mset_inb by done. by rewrite decide_True.
        -- rewrite (Hso u Hu), Hs', decide_True by done.
           unfold sval. rewrite Hgu. done.
      * destruct (Ichain x Hx) as [(Hp & Hxs & Hv)|(p & Hp & Hpx & Hv & Hpv)].
        -- left. split_and!; [|done|].
           ++ erewrite mget_mset_inb by done. by rewrite decide_False.
           ++ rewrite Hs', decide_False by done. done.
        -- right. exists p. split_and!; [|done| |done].
           ++ erewrite mget_mset_inb by done. by rewrite decide_False.
           ++ rewrite (Hso p Hpv), Hs', decide_False by done. done.
  - intros x y Hx Hxy. destruct (Iclosed x y Hx Hxy) as [Hfy Hy].
    assert (Hxv : x ∈ vc ++ [u]) by (apply elem_of_app; by left).
    split; [apply Hf'; by right|].
    rewrite (Hso x Hxv), Hs'. case_decide as Hyn; [|done].
    subst y. unfold sval in Hy at 1. rewrite Hk in Hy.
    destruct k as [k|]; simpl in Hlt; [apply Z.ltb_lt in Hlt; lia|].
    destruct Hfy as [? Hfy]. congruence.
  - done.
  - intros x y Hx Hy. rewrite (Hso x Hx). apply Hopen' in Hy as [->|Hy].
    + rewrite Hs', decide_True by done.
      specialize (Hle x Hx). specialize (h_edge _ _ Hedge). lia.
    + rewrite Hs'. case_decide as Hyn; [|by apply Imono].
      subst y. specialize (Hle x Hx). specialize (h_edge _ _ Hedge). lia.
  - rewrite Hg'. by rewrite decide_False.
  - done.
  - intros x Hx. rewrite (Hso x Hx). auto.
Qed.

Definition gof
    (acc : list (list num) * list (list num) * list (list (option Pos)) * list Pos)
  : list (list num) := acc.1.1.1.

Lemma relaxG_step u gu vis vc acc d :
  d ∈ DIRS → inb rows cols u → mid u gu vis vc acc →
  ∃ acc', relaxG vis u acc d = Done acc' ∧ mid u gu vis vc acc' ∧
          handled u gu (gof acc') (step u d) ∧
          (∀ y, handled u gu (gof acc) y → handled u gu (gof acc') y).
Proof.
  intros Hd Hu Hmid. destruct acc as [[[g f] par] open].
  pose proof Hmid as (I & Hgu & Hlen & Hle).
  unfold relaxG. set (nb := step u d).
  destruct (outside (Z.of_nat rows) (Z.of_nat cols) nb) eqn:Hout.
  { eexists. split_and!; [done|done| |done].
    intros Hedge. apply edge_inb in Hedge. by apply outside_not_inb in Hout. }
  apply outside_inb in Hout.
  destruct (canMoveBetween_total level Hwf u nb Hu Hout) as [ok Hok].
  rewrite Hok. simpl. destruct ok; simpl.
  2:{ eexists. split_and!; [done|done| |done].
      intros (_ & _ & Hmv). congruence. }
  assert (Hedge : edge level u nb).
  { split_and!; [by exists d|done|done]. }
  destruct (mread_inb _ _ vis nb (inv_vis _ _ _ _ _ _ _ I) Hout) as (seen & Hread & Hseen).
  rewrite Hread. simpl. destruct seen.
  { eexists. split_and!; [done|done| |done].
    intros _. apply (inv_vc _ _ _ _ _ _ _ I) in Hseen.
    split; [by apply (inv_vc_found _ _ _ _ _ _ _ I)|].
    specialize (Hle nb Hseen). specialize (h_edge _ _ Hedge).
    unfold gof. simpl. lia. }
  unfold mread at 1. rewrite Hgu. cbn [bind fromOption].
  destruct (mread_inb _ _ g nb (inv_g _ _ _ _ _ _ _ I) Hout) as (gn & Hreadg & Hgn).
  rewrite Hreadg. cbn [bind num_add].
  destruct (num_ltb (Finite (gu + 1)) gn) eqn:Hlt.
  - rewrite (mwrite_inb rows cols) by (done || apply I). simpl.
    rewrite (mwrite_inb rows cols) by (done || apply I). simpl.
    rewrite (mwrite_inb rows cols) by (done || apply I). simpl.
    eexists. split; [done|].
    pose proof (relax_update u gu vis vc g f par open nb gn Hmid Hedge Hseen Hgn Hlt)
      as Hmid'.
    split; [done|].
    assert (Hg' : ∀ x, mget (mset g nb (Finite (gu + 1))) x =
                       if decide (nb = x) then Some (Finite (gu + 1)) else mget g x).
    { intros x. eapply mget_mset_inb; [apply I|done]. }
    split.
    + intros _. split.
      * exists (gu + 1). by rewrite Hg', decide_True.
      * unfold gof, sval. simpl. rewrite Hg', decide_True by done. lia.
    + unfold gof. simpl. intros y Hy Hey. destruct (Hy Hey) as [[ky Hky] Hsy].
      unfold found, sval in *. rewrite Hg'. case_decide; [|by eauto].
      split; [eauto|lia].
  - eexists. split_and!; [done|done| |done].
    intros _. unfold gof. simpl. destruct gn as [kn|]; simpl in Hlt; [|done].
    apply Z.ltb_ge in Hlt. split; [by exists kn|].
    unfold sval. rewrite Hgn. done.
Qed.

Lemma relaxG_all u gu vis vc ds acc :
  (∀ d, d ∈ ds → d ∈ DIRS) → inb rows cols u → mid u gu vis vc acc →
  ∃ acc', forEach (relaxG vis u) ds acc = Done acc' ∧ mid u gu vis vc acc' ∧
          (∀ d, d ∈ ds → handled u gu (gof acc') (step u d)) ∧
          (∀ y, handled u gu (gof acc) y → handled u gu (gof acc') y).
Proof.
  intros Hds Hu. revert acc. induction ds as [|d ds IH]; intros acc Hmid.
  - exists acc. split_and!; [done|done| |done]. intros d Hd. by apply elem_of_nil in Hd.
  - destruct (relaxG_step u gu vis vc acc d) as (acc1 & Hrun & Hmid1 & Hd1 & Hst1);
      [apply Hds; constructor|done|done|].
    destruct (IH (λ d' Hd', Hds d' (list_elem_of_further _ _ _ Hd')) acc1 Hmid1)
      as (acc2 & Hrun2 & Hmid2 & Hd2 & Hst2).
    exists acc2. simpl. rewrite Hrun. simpl. split_and!; [done|done| |by auto].
    intros d' Hd'. apply elem_of_cons in Hd' as [->|Hd']; auto.
Qed.

(** Settling the cell of least score. *)
Lemma settle vis g f par first others vc :
  inv vis g f par (first :: others) vc vc →
  ∃ u i gu,
    scanMin f others 1 first 0 = Done (u, i) ∧
    mwrite vis u true = Done (mset vis u true) ∧
    mget g u = Some (Finite gu) ∧
    mget f u = Some (Finite (gu + h u)) ∧
    inb rows cols u ∧ u ∉ vc ∧ u ∈ first :: others ∧
    (∀ y, y ∈ first :: others → gu + h u ≤ sval g y + h y) ∧
    mid u gu (mset vis u true) vc (g, f, par, delete i (first :: others)).
Proof.
  intros I. set (open := first :: others) in *.
  destruct I as [Ivis Ig If Ipar Ivc Ind Iond Iopen Ifound Ivcf Istart
                 Iscore Ichain Iclosed Inoexit Imono].
  assert (Hfs : ∀ x, x ∈ open → mget f x = Some (Finite (sval g x + h x))).
  { intros x Hx. destruct (Iopen x Hx) as [_ Hfx].
    apply found_sval in Hfx. by apply Iscore in Hfx as [? _]. }
  destruct (scanMin_spec f [first] others first 0%nat) as (u & i & Hscan & Hi & Hmin).
  { done. }
  { intros x Hx. rewrite (Hfs x Hx). eauto. }
  { intros y Hy. apply list_elem_of_singleton in Hy as ->. done. }
  simpl in Hscan, Hi, Hmin. fold open in Hi, Hmin.
  assert (Huo : u ∈ open) by (by eapply list_elem_of_lookup_2).
  destruct (Iopen u Huo) as [Hnvc Hfu].
  pose proof (found_inb g u Ig Hfu) as Hu.
  pose proof (found_sval g u Hfu) as Hgu.
  assert (Hmin' : ∀ y, y ∈ open → sval g u + h u ≤ sval g y + h y).
  { intros y Hy. specialize (Hmin y Hy). unfold sval in Hmin at 1 2.
    by rewrite (Hfs u Huo), (Hfs y Hy) in Hmin. }
  pose proof (delete_lookup_Permutation open i u Hi) as Hperm.
  assert (Hnd1 : NoDup (u :: delete i open)) by (by rewrite <- Hperm).
  apply NoDup_cons in Hnd1 as [Hu1 Hnd1].
  assert (Hopen1 : ∀ x, x ∈ open ↔ x = u ∨ x ∈ delete i open).
  { intros x. rewrite Hperm at 1. apply elem_of_cons. }
  exists u, i, (sval g u). split_and!; try done.
  - by apply (mwrite_inb rows cols).
  - by rewrite (Hfs u Huo).
  - unfold mid. split_and!; [split| | |]; try done.
    + by apply mset_rect.
    + intros x. erewrite mget_mset_inb by done.
      rewrite elem_of_app, list_elem_of_singleton, <- Ivc.
      case_decide; [naive_solver|]. naive_solver.
    + apply NoDup_app. split_and!; [done| |apply NoDup_singleton].
      intros x Hx Hx'. apply list_elem_of_singleton in Hx' as ->. done.
    + intros x Hx. assert (Hxo : x ∈ open) by (apply Hopen1; by right).
      destruct (Iopen x Hxo). split; [|done].
      rewrite elem_of_app, list_elem_of_singleton. intros [?| ->]; done.
    + intros x Hx. rewrite elem_of_app, list_elem_of_singleton.
      destruct (Ifound x Hx) as [?|Hxo]; [by left; left|].
      apply Hopen1 in Hxo as [->|?]; [by left; right|by right].
    + intros x. rewrite elem_of_app, list_elem_of_singleton. intros [?| ->]; auto.
    + intros x k Hk. destruct (Iscore x k Hk). split; [done|].
      rewrite length_app. simpl. lia.
    + intros x Hx. destruct (Ichain x Hx) as [?|(p & ? & ? & ? & ?)]; [by left|].
      right. exists p. split_and!; try done. apply elem_of_app. by left.
    + intros x y. rewrite elem_of_app, list_elem_of_singleton.
      intros [Hx| ->] Hy.
      * apply Imono; [done|]. apply Hopen1. by right.
      * apply Hmin'. apply Hopen1. by right.
    + destruct (Iscore u _ Hgu) as [_ ?]. rewrite length_app. simpl. lia.
    + intros x. rewrite elem_of_app, list_elem_of_singleton. intros [Hx| ->]; [|done].
      by apply Imono.
Qed.

(** After all four moves of [u] have been relaxed. *)
Lemma resettle u gu vis vc acc :
  mid u gu vis vc acc → ¬ exitAt level u →
  (∀ d, d ∈ DIRS → handled u gu (gof acc) (step u d)) →
  inv vis acc.1.1.1 acc.1.1.2 acc.1.2 acc.2 (vc ++ [u]) (vc ++ [u]).
Proof.
  destruct acc as [[[g f] par] open]. simpl.
  intros (I & Hgu & Hlen & Hle) Hnoexit Hall. destruct I. split; try done.
  - intros x y. rewrite elem_of_app, list_elem_of_singleton. intros [Hx| ->] Hxy.
    + auto.
    + destruct (edge_step _ _ _ Hxy) as (d & Hd & ->).
      destruct (Hall d Hd Hxy) as [Hf Hs]. split; [done|].
      unfold sval at 2. rewrite Hgu. done.
  - intros x. rewrite elem_of_app, list_elem_of_singleton. intros [Hx| ->]; auto.
Qed.

Lemma inv_bounded vis g f par open vc cl :
  inv vis g f par open vc cl → (length vc ≤ rows * cols)%nat.
Proof.
  intros I. apply cells_bounded; [apply I|].
  intros x Hx. eapply found_inb; [apply I|]. by eapply inv_vc_found.
Qed.

(** What a best-first loop returns. *)
Definition post (res : option Solution) : Prop :=
  match res with
  | Some sol =>
      goodPath level sol ∧ NoDup (visitedCells sol) ∧
      (∀ e n, walk (edge level) s e n → exitAt level e → distance sol ≤ Z.of_nat n)
  | None => ∀ e n, walk (edge level) s e n → ¬ exitAt level e
  end.

(** The open set is exhausted: no exit can be reached. *)
Lemma exhausted vis g f par vc :
  inv vis g f par [] vc vc →
  ∀ e n, walk (edge level) s e n → ¬ exitAt level e.
Proof.
  intros I e n Hw. apply (inv_noexit _ _ _ _ _ _ _ I).
  apply (frontier_exhausted (edge level) s (λ x, x ∈ vc) (λ x, x ∈ []) (sval g) h)
    with (n := n); try done.
  - split.
    + destruct (inv_found _ _ _ _ _ _ _ I s); [by exists 0; apply I|by left|by right].
    + unfold sval. by rewrite (inv_start _ _ _ _ _ _ _ I).
  - intros x y Hx Hxy. destruct (inv_closed _ _ _ _ _ _ _ I x y Hx Hxy) as [Hf Hle].
    split; [|done]. by apply (inv_found _ _ _ _ _ _ _ I).
  - intros y Hy. by apply elem_of_nil in Hy.
Qed.

(** The settled cell is an exit: the parent links give a shortest path. *)
Lemma arrived vis g f par open vc u gu gas :
  inv vis g f par open vc vc →
  u ∈ open → mget g u = Some (Finite gu) →
  (∀ y, y ∈ open → gu + h u ≤ sval g y + h y) →
  exitAt level u → (rows * cols < gas)%nat →
  ∃ pth, followParents gas par u [] = Done pth ∧
         head (reverse pth) = Some s ∧ last (reverse pth) = Some u ∧
         linked (edge level) (reverse pth) ∧
         Z.of_nat (length (reverse pth)) - 1 = Z.of_nat (length pth) - 1 ∧
         (∀ e n, walk (edge level) s e n → exitAt level e →
                 Z.of_nat (length pth) - 1 ≤ Z.of_nat n).
Proof.
  intros I Huo Hgu Hmin Hexit Hgas.
  assert (Hfu : found g u) by (by exists gu).
  pose proof (inv_bounded _ _ _ _ _ _ _ I) as Hbound.
  destruct (inv_score _ _ _ _ _ _ _ I u gu Hgu) as [_ Hgub].
  destruct (followParents_path (edge level) s par (found g)
              (λ x, Z.to_nat (sval g x))) with (fuel := gas) (x := u)
    as (pth & Hrun & Hlen & Hhd & Hlast & Hlink).
  - intros x Hx.
    destruct (inv_chain _ _ _ _ _ _ _ I x Hx) as [(Hp & Hxs & Hv)|(p & Hp & Hpx & Hv & Hpv)].
    + left. split_and!; [done|done|]. by rewrite Hv.
    + right. exists p. pose proof (inv_vc_found _ _ _ _ _ _ _ I p Hpv) as Hfp.
      split_and!; [done|done| |done].
      destruct (inv_score _ _ _ _ _ _ _ I p _ (found_sval g p Hfp)) as [_ ?]. lia.
  - done.
  - unfold sval. rewrite Hgu. lia.
  - exists pth. split_and!; try done.
    + by rewrite length_reverse.
    + intros e n Hw He.
      assert (Hsv : sval g u = gu) by (unfold sval; by rewrite Hgu).
      rewrite Hlen, Hsv, Z2Nat.id by lia. rewrite <- Hsv.
      pose proof (walk_inb level s e n (proj1 Hwf) Hw) as Hein.
      apply (frontier_least (edge level) s (λ x, x ∈ vc) (λ x, x ∈ open)
               (sval g) h) with (t := e); try done.
      * split.
        -- destruct (inv_found _ _ _ _ _ _ _ I s); [by exists 0; apply I|by left|by right].
        -- unfold sval. by rewrite (inv_start _ _ _ _ _ _ _ I).
      * intros x y Hx Hxy. destruct (inv_closed _ _ _ _ _ _ _ I x y Hx Hxy) as [Hf Hle].
        split; [|done]. by apply (inv_found _ _ _ _ _ _ _ I).
      * intros y Hy. specialize (Hmin y Hy). by rewrite Hsv.
      * apply h_nonneg. eapply found_inb; [apply I|done].
      * intros Hevc. by apply (inv_noexit _ _ _ _ _ _ _ I) in Hevc.
      * by apply h_exit.
Qed.

(** The state before the first turn of the loop. *)
Lemma inv_init :
  inv (mfill rows cols false)
      (mset (mfill rows cols Infinity) s (Finite 0))
      (mset (mfill rows cols Infinity) s (Finite (h s)))
      (mfill rows cols None) [s] [] [].
Proof.
  pose proof (proj1 Hwf) as Hs. fold rows cols s in Hs.
  assert (Hg : ∀ x, mget (mset (mfill rows cols Infinity) s (Finite 0)) x =
                    if decide (s = x) then Some (Finite 0)
                    else mget (mfill rows cols Infinity) x).
  { intros x. eapply mget_mset_inb; [apply mfill_rect|done]. }
  assert (Hfound : ∀ x, found (mset (mfill rows cols Infinity) s (Finite 0)) x → x = s).
  { intros x [k Hk]. rewrite Hg in Hk. case_decide; [done|].
    apply mget_mfill_Some in Hk as [? _]. done. }
  split.
  - apply mfill_rect.
  - apply mset_rect, mfill_rect.
  - apply mset_rect, mfill_rect.
  - apply mfill_rect.
  - intros x. split.
    + intros Hx. apply mget_mfill_Some in Hx as [? _]. done.
    + intros Hx. by apply elem_of_nil in Hx.
  - apply NoDup_nil_2.
  - apply NoDup_singleton.
  - intros x Hx. apply list_elem_of_singleton in Hx as ->. split.
    + apply not_elem_of_nil.
    + exists 0. by rewrite Hg, decide_True.
  - intros x Hx. right. apply Hfound in Hx as ->. constructor.
  - intros x Hx. by apply elem_of_nil in Hx.
  - by rewrite Hg, decide_True.
  - intros x k Hk. assert (x = s) as -> by (apply Hfound; by exists k).
    rewrite Hg, decide_True in Hk by done. simplify_eq. split; [|simpl; lia].
    erewrite mget_mset_inb by (apply mfill_rect || done).
    by rewrite decide_True.
  - intros x Hx. apply Hfound in Hx as ->. left. split_and!; [|done|].
    + by apply mget_mfill.
    + unfold sval. by rewrite Hg, decide_True.
  - intros x y Hx. by apply elem_of_nil in Hx.
  - intros x Hx. by apply elem_of_nil in Hx.
  - intros x y Hx. by apply elem_of_nil in Hx.
Qed.
End BestFirst.

(** ** A* *)

Section AStarProofs.
Context (level : Level) (Hwf : wf level).
Let rows := nrows level.
Let cols := ncols level.
Let h : Pos → Z := λ p, heuristic p (Z.of_nat rows) (Z.of_nat cols).

Lemma astar_h_nonneg p : inb rows cols p → 0 ≤ h p.
Proof. apply heuristic_nonneg. Qed.

Lemma astar_h_edge p q : edge level p q → h p ≤ h q + 1.
Proof. apply edge_heuristic. Qed.

Lemma astar_h_exit p : inb rows cols p → exitAt level p → h p = 0.
Proof. by apply exitAt_border. Qed.

Lemma astar_loop fuel gas st :
  inv level h (AStar.visited st) (AStar.gScore st) (AStar.fScore st)
    (AStar.parent st) (AStar.openSet st)
    (AStar.visitedCells st) (AStar.visitedCells st) →
  (rows * cols < gas)%nat →
  (rows * cols - length (AStar.visitedCells st) < fuel)%nat →
  ∃ res, AStar.loop fuel gas level (Z.of_nat rows) (Z.of_nat cols) st = Done res ∧
         post level res.
Proof.
  revert st. induction fuel as [|fuel IH]; intros st I Hgas Hfuel; [lia|].
  destruct st as [vis g f par open vc steps sn]. simpl in I, Hfuel.
  cbn [AStar.loop AStar.openSet AStar.visited AStar.gScore AStar.fScore
       AStar.parent AStar.visitedCells AStar.detailedSteps AStar.stepNumber].
  destruct open as [|first others].
  { eexists. split; [done|]. simpl. by eapply (exhausted level h astar_h_edge). }
  destruct (settle level h vis g f par first others vc I)
    as (u & i & gu & Hscan & Hw & Hgu & Hfu & Hu & Hnvc & Huo & Hmin & Hmid).
  rewrite Hscan. cbn [bind]. rewrite Hw. cbn [bind].
  rewrite (proj2 (mread_Done g u _) Hgu). cbn [bind].
  rewrite (proj2 (mread_Done f u _) Hfu). cbn [bind].
  destruct (canExit_total level Hwf u Hu) as [ex Hex]. fold rows cols in Hex.
  rewrite Hex. cbn [bind]. destruct ex.
  - destruct (arrived level Hwf h astar_h_nonneg astar_h_edge astar_h_exit
                vis g f par (first :: others) vc u gu gas)
      as (pth & Hrun & Hhd & Hlast & Hlink & Hlen & Hopt); try done.
    rewrite Hrun. cbn [bind]. eexists. split; [done|].
    split_and!.
    + unfold goodPath. simpl.
      split_and!; [done|by exists u|done|by rewrite length_reverse].
    + simpl. apply NoDup_app. split_and!; [apply I| |apply NoDup_singleton].
      intros x Hx Hx'. apply list_elem_of_singleton in Hx' as ->. done.
    + simpl. done.
  - destruct (relaxG_all level Hwf h astar_h_edge u gu (mset vis u true) vc DIRS
                (g, f, par, delete i (first :: others)))
      as ([[[g' f'] par'] open'] & Hrun & Hmid' & Hall & _); [done|done|done|].
    change (AStar.relax level (Z.of_nat rows) (Z.of_nat cols))
      with (relaxG level h).
    rewrite Hrun. cbn [bind].
    assert (Hnoexit : ¬ exitAt level u).
    { unfold exitAt. fold rows cols. rewrite Hex. discriminate. }
    pose proof (resettle level h u gu (mset vis u true) vc _ Hmid' Hnoexit Hall) as I'.
    simpl in I'.
    pose proof (inv_bounded level h _ _ _ _ _ _ _ I') as Hb.
    rewrite length_app in Hb. simpl in Hb. fold rows cols in Hb.
    apply IH; [done|done|].
    simpl. rewrite length_app. simpl. lia.
Qed.

Lemma solveAStar_spec fuel :
  (rows * cols < fuel)%nat →
  ∃ res, AStar.solveAStar fuel level = Done res ∧ post level res.
Proof.
  intros Hfuel. unfold AStar.solveAStar.
  rewrite (dims_wf level Hwf). cbn [bind]. fold rows cols.
  pose proof (proj1 Hwf) as Hs. fold rows cols in Hs.
  rewrite (mwrite_inb rows cols) by (apply mfill_rect || done). cbn [bind].
  rewrite (mwrite_inb rows cols) by (apply mfill_rect || done). cbn [bind].
  apply astar_loop; [|done|simpl; lia].
  simpl. by apply inv_init.
Qed.
End AStarProofs.

(** ** Dijkstra *)

Section DijkstraProofs.
Context (level : Level) (Hwf : wf level).
Let rows := nrows level.
Let cols := ncols level.
Let h : Pos → Z := λ _, 0.

Lemma dijkstra_h_nonneg p : inb rows cols p → 0 ≤ h p.
Proof. done. Qed.

Lemma dijkstra_h_edge p q : edge level p q → h p ≤ h q + 1.
Proof. done. Qed.

Lemma dijkstra_h_exit p : inb rows cols p → exitAt level p → h p = 0.
Proof. done. Qed.

(** Dijkstra's relaxation is the best-first relaxation with the
    heuristic 0, the score matrix being the distance matrix itself. *)
Lemma dijkstra_relax_sim vis u dst par q n d g' f' par' q' :
  relaxG level h vis u (dst, dst, par, q) d = Done (g', f', par', q') →
  f' = g' ∧
  ∃ n', Dijkstra.relax level (Z.of_nat rows) (Z.of_nat cols) vis u (dst, par, q, n) d
        = Done (g', par', q', n').
Proof.
  unfold relaxG, Dijkstra.relax. fold rows cols.
  destruct (outside (Z.of_nat rows) (Z.of_nat cols) (step u d)).
  { intros [= <- <- <- <-]. eauto. }
  destruct (canMoveBetween level u (step u d)) as [[|]| |];
    cbn [bind negb]; try discriminate.
  2:{ intros [= <- <- <- <-]. eauto. }
  destruct (mread vis (step u d)) as [[|]| |]; cbn [bind]; try discriminate.
  { intros [= <- <- <- <-]. eauto. }
  destruct (mread dst u) as [gc| |]; cbn [bind]; try discriminate.
  destruct (mread dst (step u d)) as [gn| |]; cbn [bind]; try discriminate.
  destruct (num_ltb (num_add gc 1) gn).
  2:{ intros [= <- <- <- <-]. eauto. }
  unfold h. rewrite num_add_0.
  destruct (mwrite par (step u d) (Some u)) as [p1| |]; cbn [bind]; try discriminate.
  destruct (mwrite dst (step u d) (num_add gc 1)) as [d1| |]; cbn [bind]; try discriminate.
  intros [= <- <- <- <-]. eauto.
Qed.

Lemma dijkstra_forEach_sim vis u ds dst par q n g' f' par' q' :
  forEach (relaxG level h vis u) ds (dst, dst, par, q) = Done (g', f', par', q') →
  f' = g' ∧
  ∃ n', forEach (Dijkstra.relax level (Z.of_nat rows) (Z.of_nat cols) vis u) ds
          (dst, par, q, n) = Done (g', par', q', n').
Proof.
  revert dst par q n. induction ds as [|d ds IH]; intros dst par q n.
  - simpl. intros [= <- <- <- <-]. eauto.
  - cbn [forEach]. intros Hrun. apply bind_Done in Hrun as ([[[g1 f1] par1] q1] & H1 & Hrest).
    destruct (dijkstra_relax_sim vis u dst par q n d _ _ _ _ H1) as [-> [n1 Hn1]].
    destruct (IH _ _ _ n1 Hrest) as [-> [n' Hn']].
    split; [done|]. exists n'. rewrite Hn1. done.
Qed.

Lemma dijkstra_loop fuel gas st :
  inv level h (Dijkstra.visited st) (Dijkstra.dist st) (Dijkstra.dist st)
    (Dijkstra.parent st) (Dijkstra.queue st)
    (Dijkstra.visitedCells st) (Dijkstra.visitedCells st) →
  (rows * cols < gas)%nat →
  (rows * cols - length (Dijkstra.visitedCells st) < fuel)%nat →
  ∃ res, Dijkstra.loop fuel gas level (Z.of_nat rows) (Z.of_nat cols) st = Done res ∧
         post level res.
Proof.
  revert st. induction fuel as [|fuel IH]; intros st I Hgas Hfuel; [lia|].
  destruct st as [vis dst par open vc steps sn]. simpl in I, Hfuel.
  cbn [Dijkstra.loop Dijkstra.queue Dijkstra.visited Dijkstra.dist
       Dijkstra.parent Dijkstra.visitedCells Dijkstra.detailedSteps
       Dijkstra.stepNumber].
  destruct open as [|first others].
  { eexists. split; [done|]. simpl. by eapply (exhausted level h dijkstra_h_edge). }
  destruct (settle level h vis dst dst par first others vc I)
    as (u & i & gu & Hscan & Hw & Hgu & Hfu & Hu & Hnvc & Huo & Hmin & Hmid).
  rewrite Hscan. cbn [bind]. rewrite Hw. cbn [bind].
  destruct (canExit_total level Hwf u Hu) as [ex Hex]. fold rows cols in Hex.
  rewrite Hex. cbn [bind]. destruct ex.
  - destruct (arrived level Hwf h dijkstra_h_nonneg dijkstra_h_edge dijkstra_h_exit
                vis dst dst par (first :: others) vc u gu gas)
      as (pth & Hrun & Hhd & Hlast & Hlink & Hlen & Hopt); try done.
    rewrite Hrun. cbn [bind]. eexists. split; [done|].
    split_and!.
    + unfold goodPath. simpl.
      split_and!; [done|by exists u|done|by rewrite length_reverse].
    + simpl. apply NoDup_app. split_and!; [apply I| |apply NoDup_singleton].
      intros x Hx Hx'. apply list_elem_of_singleton in Hx' as ->. done.
    + simpl. done.
  - destruct (relaxG_all level Hwf h dijkstra_h_edge u gu (mset vis u true) vc DIRS
                (dst, dst, par, delete i (first :: others)))
      as ([[[g' f'] par'] open'] & Hrun & Hmid' & Hall & _); [done|done|done|].
    destruct (dijkstra_forEach_sim _ _ _ _ _ _ 0%nat _ _ _ _ Hrun) as [-> [n' Hn']].
    rewrite Hn'. cbn [bind].
    destruct Hmid' as (Im & Hgu' & Hrest).
    rewrite (proj2 (mread_Done g' u _) Hgu'). cbn [bind].
    assert (Hnoexit : ¬ exitAt level u).
    { unfold exitAt. fold rows cols. rewrite Hex. discriminate. }
    pose proof (resettle level h u gu (mset vis u true) vc (g', g', par', open')
                  (conj Im (conj Hgu' Hrest)) Hnoexit Hall) as I'.
    simpl in I'.
    pose proof (inv_bounded level h _ _ _ _ _ _ _ I') as Hb.
    rewrite length_app in Hb. simpl in Hb. fold rows cols in Hb.
    apply IH; [done|done|].
    simpl. rewrite length_app. simpl. lia.
Qed.

Lemma solveDijkstra_spec fuel :
  (rows * cols < fuel)%nat →
  ∃ res, Dijkstra.solveDijkstra fuel level = Done res ∧ post level res.
Proof.
  intros Hfuel. unfold Dijkstra.solveDijkstra.
  rewrite (dims_wf level Hwf). cbn [bind]. fold rows cols.
  pose proof (proj1 Hwf) as Hs. fold rows cols in Hs.
  rewrite (mwrite_inb rows cols) by (apply mfill_rect || done). cbn [bind].
  apply dijkstra_loop; [|done|simpl; lia].
  simpl. by apply (inv_init level Hwf h).
Qed.
End DijkstraProofs.

(** ** Breadth-first search *)

Lemma NoDup_snoc {A} (l : list A) x : NoDup l → x ∉ l → NoDup (l ++ [x]).
Proof.
  intros Hl Hx. apply NoDup_app. split_and!; [done| |apply NoDup_singleton].
  intros y Hy Hy'. apply list_elem_of_singleton in Hy' as ->. done.
Qed.

Section BFSProofs.
Context (level : Level) (Hwf : wf level).
Let rows := nrows level.
Let cols := ncols level.
Let s := start level.

Definition marked (V : list (list (option Z))) (x : Pos) : Prop :=
  ∃ i, mget V x = Some (Some i).

(** [cur.r * cols + cur.c] *)
Definition enc (p : Pos) : Z := r p * Z.of_nat cols + c p.

Lemma decode_enc p :
  inb rows cols p → BFS.decode (Z.of_nat cols) (Some (enc p)) = p ∧ enc p ≠ -1.
Proof.
  intros [Hr Hc]. unfold BFS.decode, enc. simpl. split; [|nia].
  destruct p as [pr pc]. simpl in *. f_equal.
  - symmetry. apply (Z.div_unique _ _ pr pc); lia.
  - symmetry. apply (Z.mod_unique _ _ pr pc); lia.
Qed.

(** The invariant, over the ghost level [lvl] of each marked cell: [VC]
    lists the dequeued cells, [Q] is the queue, [cl] lists the dequeued
    cells whose four moves have been looked at, and the queue holds cells
    of level [k] followed by cells of level [k + 1]. *)
Record binv (lvl : Pos → nat) (k : nat) (V : list (list (option Z)))
    (Q VC cl : list Pos) : Prop := {
  b_rect : rect rows cols V;
  b_marked : ∀ x, marked V x ↔ x ∈ VC ∨ x ∈ Q;
  b_nodup : NoDup (VC ++ Q);
  b_start : mget V s = Some (Some (-1)) ∧ lvl s = 0%nat;
  b_chain : ∀ x i, mget V x = Some (Some i) →
    (i = -1 ∧ x = s) ∨
    (∃ p, i = enc p ∧ inb rows cols p ∧ p ∈ VC ∧ edge level p x ∧
          lvl x = S (lvl p));
  b_closed : ∀ x y, x ∈ cl → edge level x y →
    marked V y ∧ (lvl y ≤ lvl x + 1)%nat;
  b_noexit : ∀ x, x ∈ cl → ¬ exitAt level x;
  b_mono : ∀ x y, x ∈ VC → y ∈ Q → (lvl x ≤ lvl y)%nat;
  b_bound : ∀ x, marked V x → (lvl x ≤ length VC)%nat;
  b_queue : ∃ A B, Q = A ++ B ∧ Forall (λ x, lvl x = k) A ∧
                   Forall (λ x, lvl x = S k) B
}.

Lemma marked_inb V x : rect rows cols V → marked V x → inb rows cols x.
Proof. intros HV [i Hi]. eauto using mget_Some_inb. Qed.

Section Chain.
Context (lvl : Pos → nat) (k : nat) (V : list (list (option Z)))
        (Q VC cl : list Pos) (I : binv lvl k V Q VC cl).

Lemma levelOf_chain fuel x acc :
  marked V x → (lvl x < fuel)%nat →
  BFS.levelOf fuel V (Z.of_nat cols) x acc = Done (acc + lvl x)%nat.
Proof.
  revert x acc. induction fuel as [|fuel IH]; intros x acc [i Hi] Hfuel; [lia|].
  simpl. unfold mread. rewrite Hi. cbn [fromOption bind].
  destruct (b_chain _ _ _ _ _ _ I x i Hi) as [[-> ->]|(p & -> & Hp & Hpv & _ & Hl)].
  - rewrite bool_decide_eq_true_2 by done.
    rewrite (proj2 (b_start _ _ _ _ _ _ I)). f_equal. lia.
  - destruct (decode_enc p Hp) as [Hdec Hne].
    rewrite bool_decide_eq_false_2 by congruence.
    rewrite Hdec, IH; [f_equal; lia| |lia].
    apply (b_marked _ _ _ _ _ _ I). by left.
Qed.

Lemma walkBack_chain fuel x acc :
  marked V x → (lvl x < fuel)%nat →
  ∃ l, BFS.walkBack fuel V (Z.of_nat cols) x acc = Done (acc ++ l) ∧
       length l = S (lvl x) ∧ head l = Some x ∧ last l = Some s ∧
       linked (flip (edge level)) l.
Proof.
  revert x acc. induction fuel as [|fuel IH]; intros x acc [i Hi] Hfuel; [lia|].
  simpl. unfold mread. rewrite Hi. cbn [fromOption bind].
  destruct (b_chain _ _ _ _ _ _ I x i Hi) as [[-> ->]|(p & -> & Hp & Hpv & Hpx & Hl)].
  - rewrite bool_decide_eq_true_2 by done.
    exists [s]. rewrite (proj2 (b_start _ _ _ _ _ _ I)). by split_and!.
  - destruct (decode_enc p Hp) as [Hdec Hne].
    rewrite bool_decide_eq_false_2 by congruence. rewrite Hdec.
    destruct (IH p (acc ++ [x])) as (l & Hrun & Hlen & Hhd & Hlast & Hlink); [|lia|].
    { apply (b_marked _ _ _ _ _ _ I). by left. }
    exists (x :: l). rewrite Hrun, <- app_assoc. simpl.
    split_and!; [done|lia|done| |].
    + destruct l as [|y l']; [discriminate Hhd|]. by rewrite last_cons_cons.
    + apply (proj2 (linked_cons (flip (edge level)) x l)). split; [|done].
      intros q Hq. by simplify_eq.
Qed.

Lemma binv_bounded : (length VC ≤ rows * cols)%nat.
Proof.
  apply cells_bounded.
  - pose proof (b_nodup _ _ _ _ _ _ I) as Hnd.
    by apply NoDup_app in Hnd as [Hnd _].
  - intros x Hx. eapply marked_inb; [apply I|].
    apply (b_marked _ _ _ _ _ _ I). by left.
Qed.
End Chain.

(** The state while the four moves of the dequeued cell [cur], of level
    [k], are looked at. *)
Definition bmid (cur : Pos) (lvl : Pos → nat) (k : nat)
    (V : list (list (option Z))) (Q VC : list Pos) : Prop :=
  binv lvl k V Q (VC ++ [cur]) VC ∧
  lvl cur = k ∧ inb rows cols cur ∧
  (k + 1 ≤ length (VC ++ [cur]))%nat ∧
  (∀ x, x ∈ VC ++ [cur] → (lvl x ≤ k)%nat).

Definition bhandled (cur : Pos) (lvl : Pos → nat) (k : nat)
    (V : list (list (option Z))) (y : Pos) : Prop :=
  edge level cur y → marked V y ∧ (lvl y ≤ k + 1)%nat.

Lemma bfs_mark cur lvl k V Q VC nxt :
  bmid cur lvl k V Q VC → edge level cur nxt → mget V nxt = Some None →
  bmid cur (λ x, if decide (x = nxt) then S k else lvl x) k
    (mset V nxt (Some (enc cur))) (Q ++ [nxt]) VC.
Proof.
  intros (I & Hk & Hcur & Hlen & Hle) Hedge Hnone.
  destruct I as [Irect Imarked Ind Istart Ichain Iclosed Inoexit Imono Ibound Iqueue].
  pose proof (edge_inb _ _ _ Hedge) as Hnxt. fold rows cols in Hnxt.
  set (lvl' := λ x, if decide (x = nxt) then S k else lvl x).
  assert (Hnm : ¬ marked V nxt) by (intros [i Hi]; congruence).
  assert (HV' : ∀ x, mget (mset V nxt (Some (enc cur))) x =
                     if decide (nxt = x) then Some (Some (enc cur)) else mget V x).
  { intros x. by eapply mget_mset_inb. }
  assert (Hm' : ∀ x, marked (mset V nxt (Some (enc cur))) x ↔ x = nxt ∨ marked V x).
  { intros x. unfold marked. rewrite HV'. case_decide; naive_solver. }
  assert (Hl' : ∀ x, marked V x → lvl' x = lvl x).
  { intros x Hx. unfold lvl'. case_decide; [by subst|done]. }
  assert (Hvc : ∀ x, x ∈ VC ++ [cur] → marked V x).
  { intros x Hx. apply Imarked. by left. }
  assert (Hq : ∀ x, x ∈ Q → marked V x).
  { intros x Hx. apply Imarked. by right. }
  assert (Hcv : cur ∈ VC ++ [cur]) by (apply elem_of_app; right; constructor).
  assert (Hln : lvl' nxt = S k) by (unfold lvl'; by rewrite decide_True).
  unfold bmid. split_and!; [split| | | |].
  - by apply mset_rect.
  - intros x. rewrite Hm', Imarked, !elem_of_app, !list_elem_of_singleton. tauto.
  - rewrite app_assoc. apply NoDup_snoc; [done|].
    intros Hin. apply Hnm, Imarked. by apply elem_of_app in Hin.
  - destruct Istart as [Hs0 Hs1]. split.
    + fold s. rewrite HV'. case_decide as Hx; [|done].
      subst nxt. fold s in Hnone. congruence.
    + rewrite Hl'; [done|]. by exists (-1).
  - intros x i. rewrite HV'. case_decide as Hx.
    + subst x. intros [= <-]. right. exists cur.
      split_and!; [done|done|done|done|]. rewrite Hln, Hl', Hk; auto.
    + intros Hi. destruct (Ichain x i Hi) as [?|(p & ? & ? & Hp & ? & Hlx)]; [by left|].
      right. exists p. split_and!; [done|done|done|done|].
      rewrite !Hl'; [done|by auto|by exists i].
  - intros x y Hx Hxy. destruct (Iclosed x y Hx Hxy) as [Hmy Hy].
    split; [apply Hm'; by right|].
    rewrite !Hl'; [done| |done]. apply Hvc, elem_of_app. by left.
  - done.
  - intros x y Hx Hy. rewrite (Hl' x) by auto.
    apply elem_of_app in Hy as [Hy|Hy].
    + rewrite Hl' by auto. by apply Imono.
    + apply list_elem_of_singleton in Hy as ->. rewrite Hln.
      specialize (Hle x Hx). lia.
  - intros x Hx. apply Hm' in Hx as [->|Hx].
    + rewrite Hln. lia.
    + rewrite Hl' by done. by apply Ibound.
  - destruct Iqueue as (A & B & -> & HA & HB).
    exists A, (B ++ [nxt]). split_and!.
    + by rewrite app_assoc.
    + rewrite Forall_forall in HA. apply Forall_forall.
      intros x Hx. rewrite Hl'; [by apply HA|]. apply Hq, elem_of_app. by left.
    + rewrite Forall_forall in HB. apply Forall_app. split.
      * apply Forall_forall.
        intros x Hx. rewrite Hl'; [by apply HB|]. apply Hq, elem_of_app. by right.
      * by apply Forall_singleton.
  - rewrite Hl'; auto.
  - done.
  - done.
  - intros x Hx. rewrite Hl' by auto. auto.
Qed.

Lemma bfs_visit_step cur lvl k V Q VC n d :
  d ∈ DIRS → bmid cur lvl k V Q VC →
  ∃ lvl' V' Q' n',
    BFS.visit level (Z.of_nat rows) (Z.of_nat cols) cur (V, Q, n) d
      = Done (V', Q', n') ∧
    bmid cur lvl' k V' Q' VC ∧
    bhandled cur lvl' k V' (step cur d) ∧
    (∀ y, bhandled cur lvl k V y → bhandled cur lvl' k V' y).
Proof.
  intros Hd Hmid. pose proof Hmid as (I & Hk & Hcur & Hlen & Hle).
  unfold BFS.visit. set (nxt := step cur d).
  destruct (outside (Z.of_nat rows) (Z.of_nat cols) nxt) eqn:Hout.
  { exists lvl, V, Q, n. split_and!; [done|done| |done].
    intros Hedge. apply edge_inb in Hedge. by apply outside_not_inb in Hout. }
  apply outside_inb in Hout.
  destruct (canMoveBetween_total level Hwf cur nxt Hcur Hout) as [ok Hok].
  rewrite Hok. cbn [bind]. destruct ok; cbn [negb].
  2:{ exists lvl, V, Q, n. split_and!; [done|done| |done].
      intros (_ & _ & Hmv). congruence. }
  assert (Hedge : edge level cur nxt).
  { split_and!; [by exists d|done|done]. }
  destruct (mread_inb _ _ V nxt (b_rect _ _ _ _ _ _ I) Hout) as (seen & Hread & Hseen).
  rewrite Hread. cbn [bind]. destruct seen as [i|].
  - rewrite bool_decide_eq_true_2 by done.
    exists lvl, V, Q, n. split_and!; [done|done| |done].
    intros _. assert (Hm : marked V nxt) by (by exists i). split; [done|].
    apply (b_marked _ _ _ _ _ _ I) in Hm as [Hm|Hm].
    + specialize (Hle nxt Hm). lia.
    + destruct (b_queue _ _ _ _ _ _ I) as (A & B & -> & HA & HB).
      rewrite Forall_forall in HA, HB.
      apply elem_of_app in Hm as [Hm|Hm]; [rewrite (HA _ Hm)|rewrite (HB _ Hm)]; lia.
  - rewrite bool_decide_eq_false_2 by (intros ?; done).
    rewrite (mwrite_inb rows cols) by (done || apply I). cbn [bind].
    pose proof (bfs_mark cur lvl k V Q VC nxt Hmid Hedge Hseen) as Hmid'.
    eexists _, _, _, _. split; [done|]. split; [exact Hmid'|].
    assert (HV' : ∀ x, mget (mset V nxt (Some (enc cur))) x =
                       if decide (nxt = x) then Some (Some (enc cur)) else mget V x).
    { intros x. eapply mget_mset_inb; [apply I|done]. }
    split.
    + intros _. split.
      * exists (enc cur). by rewrite HV', decide_True.
      * rewrite decide_True by done. lia.
    + intros y Hy Hey. destruct (Hy Hey) as [[i Hi] Hly]. split.
      * unfold marked. rewrite HV'. case_decide; eauto.
      * case_decide; [subst; congruence|done].
Qed.

Lemma bfs_visit_all cur lvl k V Q VC n ds :
  (∀ d, d ∈ ds → d ∈ DIRS) → bmid cur lvl k V Q VC →
  ∃ lvl' V' Q' n',
    forEach (BFS.visit level (Z.of_nat rows) (Z.of_nat cols) cur) ds (V, Q, n)
      = Done (V', Q', n') ∧
    bmid cur lvl' k V' Q' VC ∧
    (∀ d, d ∈ ds → bhandled cur lvl' k V' (step cur d)) ∧
    (∀ y, bhandled cur lvl k V y → bhandled cur lvl' k V' y).
Proof.
  intros Hds. revert lvl V Q n.
  induction ds as [|d ds IH]; intros lvl V Q n Hmid.
  - exists lvl, V, Q, n. split_and!; [done|done| |done].
    intros d Hd. by apply elem_of_nil in Hd.
  - destruct (bfs_visit_step cur lvl k V Q VC n d)
      as (lvl1 & V1 & Q1 & n1 & Hrun & Hmid1 & Hd1 & Hst1);
      [apply Hds; constructor|done|].
    destruct (IH (λ d' Hd', Hds d' (list_elem_of_further _ _ _ Hd')) lvl1 V1 Q1 n1 Hmid1)
      as (lvl2 & V2 & Q2 & n2 & Hrun2 & Hmid2 & Hd2 & Hst2).
    exists lvl2, V2, Q2, n2. cbn [forEach]. rewrite Hrun. cbn [bind].
    split_and!; [done|done| |by auto].
    intros d' Hd'. apply elem_of_cons in Hd' as [->|Hd']; auto.
Qed.

Lemma bfs_dequeue lvl k V cur rest VC :
  binv lvl k V (cur :: rest) VC VC →
  bmid cur lvl (lvl cur) V rest VC ∧
  (∀ y, y ∈ cur :: rest → (lvl cur ≤ lvl y)%nat) ∧
  cur ∉ VC ∧ marked V cur.
Proof.
  intros I.
  destruct I as [Irect Imarked Ind Istart Ichain Iclosed Inoexit Imono Ibound Iqueue].
  assert (Hcq : cur ∈ cur :: rest) by constructor.
  assert (Hm : marked V cur) by (apply Imarked; by right).
  assert (Hnvc : cur ∉ VC).
  { apply NoDup_app in Ind as (_ & Hdisj & _). intros Hin. by apply (Hdisj cur Hin). }
  assert (Hqs : ∃ A B, rest = A ++ B ∧ Forall (λ x, lvl x = lvl cur) A ∧
                       Forall (λ x, lvl x = S (lvl cur)) B).
  { destruct Iqueue as (A & B & Heq & HA & HB). destruct A as [|a A].
    - simpl in Heq. subst B. apply Forall_cons in HB as [Hc HB].
      exists rest, []. rewrite app_nil_r, Hc. by split_and!.
    - simpl in Heq. injection Heq as <- ->. apply Forall_cons in HA as [Hc HA].
      exists A, B. rewrite Hc. by split_and!. }
  assert (Hmin : ∀ y, y ∈ cur :: rest → (lvl cur ≤ lvl y)%nat).
  { intros y Hy. apply elem_of_cons in Hy as [->|Hy]; [done|].
    destruct Hqs as (A & B & -> & HA & HB). rewrite Forall_forall in HA, HB.
    apply elem_of_app in Hy as [Hy|Hy]; [rewrite (HA _ Hy)|rewrite (HB _ Hy)]; lia. }
  split_and!; try done.
  unfold bmid. split_and!; [split| | | |]; try done.
  - intros x. rewrite Imarked, elem_of_app, elem_of_cons, list_elem_of_singleton. tauto.
  - by rewrite <- app_assoc.
  - intros x i Hi. destruct (Ichain x i Hi) as [?|(p & ? & ? & ? & ? & ?)]; [by left|].
    right. exists p. split_and!; try done. apply elem_of_app. by left.
  - intros x y Hx Hy. apply elem_of_app in Hx as [Hx|Hx].
    + apply Imono; [done|]. by constructor.
    + apply list_elem_of_singleton in Hx as ->. apply Hmin. by constructor.
  - intros x Hx. specialize (Ibound x Hx). rewrite length_app. simpl. lia.
  - by eapply marked_inb.
  - specialize (Ibound cur Hm). rewrite length_app. simpl. lia.
  - intros x Hx. apply elem_of_app in Hx as [Hx|Hx].
    + by apply Imono.
    + by apply list_elem_of_singleton in Hx as ->.
Qed.

Lemma bfs_finish cur lvl k V Q VC :
  bmid cur lvl k V Q VC → ¬ exitAt level cur →
  (∀ d, d ∈ DIRS → bhandled cur lvl k V (step cur d)) →
  binv lvl k V Q (VC ++ [cur]) (VC ++ [cur]).
Proof.
  intros (I & Hk & Hcur & Hlen & Hle) Hnoexit Hall. destruct I. split; try done.
  - intros x y. rewrite elem_of_app, list_elem_of_singleton. intros [Hx| ->] Hxy.
    + auto.
    + destruct (edge_step _ _ _ Hxy) as (d & Hd & ->).
      destruct (Hall d Hd Hxy) as [Hm Hl]. split; [done|]. lia.
  - intros x. rewrite elem_of_app, list_elem_of_singleton. intros [Hx| ->]; auto.
Qed.

Lemma bfs_exhausted lvl k V VC :
  binv lvl k V [] VC VC →
  ∀ e n, walk (edge level) s e n → ¬ exitAt level e.
Proof.
  intros I e n Hw. apply (b_noexit _ _ _ _ _ _ I).
  apply (frontier_exhausted (edge level) s (λ x, x ∈ VC) (λ x, x ∈ [])
           (λ x, Z.of_nat (lvl x)) (λ _, 0)) with (n := n); try done.
  - split.
    + apply (b_marked _ _ _ _ _ _ I). exists (-1). apply I.
    + rewrite (proj2 (b_start _ _ _ _ _ _ I)). done.
  - intros x y Hx Hxy. destruct (b_closed _ _ _ _ _ _ I x y Hx Hxy) as [Hm Hl].
    split; [by apply (b_marked _ _ _ _ _ _ I)|lia].
  - intros y Hy. by apply elem_of_nil in Hy.
Qed.

Lemma bfs_arrived lvl k V cur rest VC gas :
  binv lvl k V (cur :: rest) VC VC →
  exitAt level cur → (rows * cols < gas)%nat →
  ∃ pth, BFS.walkBack gas V (Z.of_nat cols) cur [] = Done pth ∧
         head (reverse pth) = Some s ∧ last (reverse pth) = Some cur ∧
         linked (edge level) (reverse pth) ∧
         (∀ e n, walk (edge level) s e n → exitAt level e →
                 Z.of_nat (length pth) - 1 ≤ Z.of_nat n).
Proof.
  intros I Hexit Hgas.
  destruct (bfs_dequeue _ _ _ _ _ _ I) as (_ & Hmin & Hnvc & Hm).
  pose proof (binv_bounded _ _ _ _ _ _ I) as Hb.
  pose proof (b_bound _ _ _ _ _ _ I cur Hm) as Hlc.
  destruct (walkBack_chain _ _ _ _ _ _ I gas cur [] Hm)
    as (l & Hrun & Hlen & Hhd & Hlast & Hlink); [lia|].
  simpl in Hrun. exists l. split_and!; [done| | | |].
  - by rewrite head_reverse.
  - by rewrite last_reverse.
  - by apply linked_reverse.
  - intros e n Hw He. rewrite Hlen.
    replace (Z.of_nat (S (lvl cur)) - 1) with (Z.of_nat (lvl cur)) by lia.
    pose proof (walk_inb level s e n (proj1 Hwf) Hw) as Hein.
    apply (frontier_least (edge level) s (λ x, x ∈ VC) (λ x, x ∈ cur :: rest)
             (λ x, Z.of_nat (lvl x)) (λ _, 0)) with (t := e); try done.
    + split.
      * apply (b_marked _ _ _ _ _ _ I). exists (-1). apply I.
      * rewrite (proj2 (b_start _ _ _ _ _ _ I)). done.
    + intros x y Hx Hxy. destruct (b_closed _ _ _ _ _ _ I x y Hx Hxy) as [Hmy Hl].
      split; [by apply (b_marked _ _ _ _ _ _ I)|lia].
    + intros y Hy. specialize (Hmin y Hy). lia.
    + intros Hevc. by apply (b_noexit _ _ _ _ _ _ I) in Hevc.
Qed.

Lemma bfs_loop fuel gas st lvl k :
  binv lvl k (BFS.visited st) (BFS.queue st)
    (BFS.visitedCells st) (BFS.visitedCells st) →
  (rows * cols < gas)%nat →
  (rows * cols - length (BFS.visitedCells st) < fuel)%nat →
  ∃ res, BFS.loop fuel gas level (Z.of_nat rows) (Z.of_nat cols) st = Done res ∧
         post level res.
Proof.
  revert st lvl k. induction fuel as [|fuel IH]; intros st lvl k I Hgas Hfuel; [lia|].
  destruct st as [V Q VC steps sn]. simpl in I, Hfuel.
  cbn [BFS.loop BFS.queue BFS.visited BFS.visitedCells BFS.detailedSteps
       BFS.stepNumber].
  destruct Q as [|cur rest].
  { eexists. split; [done|]. simpl. by eapply bfs_exhausted. }
  destruct (bfs_dequeue _ _ _ _ _ _ I) as (Hmid & Hmin & Hnvc & Hm).
  pose proof (binv_bounded _ _ _ _ _ _ I) as Hb.
  pose proof (b_bound _ _ _ _ _ _ I cur Hm) as Hlc.
  rewrite (levelOf_chain _ _ _ _ _ _ I) by (done || lia). cbn [bind].
  pose proof (marked_inb V cur (b_rect _ _ _ _ _ _ I) Hm) as Hcur.
  destruct (canExit_total level Hwf cur Hcur) as [ex Hex]. fold rows cols in Hex.
  rewrite Hex. cbn [bind]. destruct ex.
  - destruct (bfs_arrived lvl k V cur rest VC gas I) as
      (pth & Hrun & Hhd & Hlast & Hlink & Hopt); [done|done|].
    rewrite Hrun. cbn [bind]. eexists. split; [done|].
    split_and!.
    + unfold goodPath. simpl.
      split_and!; [done|by exists cur|done|by rewrite length_reverse].
    + simpl. apply NoDup_snoc; [|done].
      pose proof (b_nodup _ _ _ _ _ _ I) as Hnd. by apply NoDup_app in Hnd as [Hnd _].
    + simpl. done.
  - destruct (bfs_visit_all cur lvl (lvl cur) V rest VC 0%nat DIRS)
      as (lvl' & V' & Q' & n' & Hrun & Hmid' & Hall & _); [done|done|].
    rewrite Hrun. cbn [bind].
    assert (Hnoexit : ¬ exitAt level cur).
    { unfold exitAt. fold rows cols. rewrite Hex. discriminate. }
    pose proof (bfs_finish cur lvl' (lvl cur) V' Q' VC Hmid' Hnoexit Hall) as I'.
    pose proof (binv_bounded _ _ _ _ _ _ I') as Hb'.
    rewrite length_app in Hb'. simpl in Hb'.
    eapply IH; [exact I'|done|].
    simpl. rewrite length_app. simpl. lia.
Qed.

Lemma solveBFS_spec fuel :
  (rows * cols < fuel)%nat →
  ∃ res, BFS.solveBFS fuel level = Done res ∧ post level res.
Proof.
  intros Hfuel. unfold BFS.solveBFS.
  rewrite (dims_wf level Hwf). cbn [bind]. fold rows cols.
  pose proof (proj1 Hwf) as Hs. fold rows cols s in Hs.
  rewrite (mwrite_inb rows cols) by (apply mfill_rect || done). cbn [bind].
  apply (bfs_loop _ _ _ (λ _, 0%nat) 0%nat); [|done|simpl; lia].
  simpl. fold s.
  assert (HV : ∀ x, mget (mset (mfill rows cols None) s (Some (-1))) x =
                    if decide (s = x) then Some (Some (-1))
                    else mget (mfill rows cols (@None Z)) x).
  { intros x. eapply mget_mset_inb; [apply mfill_rect|done]. }
  assert (Hm : ∀ x, marked (mset (mfill rows cols None) s (Some (-1))) x ↔ x = s).
  { intros x. unfold marked. rewrite HV. case_decide as Hx; [naive_solver|].
    split; [|by intros ->]. intros [i Hi]. by apply mget_mfill_Some in Hi as [? _]. }
  split.
  - apply mset_rect, mfill_rect.
  - intros x. rewrite Hm, list_elem_of_singleton. split; [by right|].
    intros [Hx|Hx]; [by apply elem_of_nil in Hx|done].
  - simpl. apply NoDup_singleton.
  - split; [|done]. by rewrite HV, decide_True.
  - intros x i Hi. left. assert (x = s) as -> by (apply Hm; by exists i).
    rewrite HV, decide_True in Hi by done. by simplify_eq.
  - intros x y Hx. by apply elem_of_nil in Hx.
  - intros x Hx. by apply elem_of_nil in Hx.
  - intros x y Hx. by apply elem_of_nil in Hx.
  - intros x _. simpl. lia.
  - exists [s], []. split_and!; [done| |done]. by apply Forall_singleton.
Qed.
End BFSProofs.

(** ** Depth-first search *)

Section DFSProofs.
Context (level : Level) (Hwf : wf level).
Let rows := nrows level.
Let cols := ncols level.
Let s := start level.

(** The invariant, over the ghost depth [dep] of each visited cell. *)
Record dinv (dep : Pos → nat) (vis : list (list bool))
    (par : list (list (option Pos))) (VC : list Pos) : Prop := {
  d_vis : rect rows cols vis;
  d_par : rect rows cols par;
  d_vc : ∀ x, mget vis x = Some true ↔ x ∈ VC;
  d_nodup : NoDup VC;
  d_chain : ∀ x, x ∈ VC →
    (mget par x = Some None ∧ x = s ∧ dep x = 0%nat) ∨
    (∃ p, mget par x = Some (Some p) ∧ edge level p x ∧
          dep x = S (dep p) ∧ p ∈ VC);
  d_bound : ∀ x, x ∈ VC → (dep x < length VC)%nat
}.

Definition DInv (st : DFS.state) : Prop :=
  ∃ dep, dinv dep (DFS.visited st) (DFS.parent st) (DFS.visitedCells st).

(** The parent link of the cell about to be visited. *)
Definition pend (par : list (list (option Pos))) (VC : list Pos) (pos : Pos)
  : Prop :=
  (mget par pos = Some None ∧ pos = s ∧ VC = []) ∨
  (∃ p, mget par pos = Some (Some p) ∧ edge level p pos ∧ p ∈ VC).

Lemma dinv_inb dep vis par VC x : dinv dep vis par VC → x ∈ VC → inb rows cols x.
Proof.
  intros I Hx. apply (d_vc _ _ _ _ I) in Hx.
  eapply mget_Some_inb; [apply I|done].
Qed.

Lemma dinv_bounded dep vis par VC :
  dinv dep vis par VC → (length VC ≤ rows * cols)%nat.
Proof.
  intros I. apply cells_bounded; [apply I|]. intros x. by eapply dinv_inb.
Qed.

Lemma dfs_enter dep vis par VC pos :
  dinv dep vis par VC → pos ∉ VC → inb rows cols pos → pend par VC pos →
  ∃ dep', dinv dep' (mset vis pos true) par (VC ++ [pos]).
Proof.
  intros I Hpos Hin Hpend.
  destruct I as [Ivis Ipar Ivc Ind Ichain Ibound].
  assert (∃ dp, (mget par pos = Some None ∧ pos = s ∧ dp = 0%nat) ∨
                (∃ p, mget par pos = Some (Some p) ∧ edge level p pos ∧
                      dp = S (dep p) ∧ p ∈ VC) ∧ (dp ≤ length VC)%nat)
    as (dp & Hdp).
  { destruct Hpend as [(? & ? & ?)|(p & ? & ? & Hp)].
    - exists 0%nat. by left.
    - exists (S (dep p)). right. split; [by exists p|].
      specialize (Ibound p Hp). lia. }
  exists (λ x, if decide (x = pos) then dp else dep x).
  assert (Hold : ∀ x, x ∈ VC → x ≠ pos) by (intros x Hx ->; done).
  split.
  - by apply mset_rect.
  - done.
  - intros x. erewrite mget_mset_inb by done.
    rewrite elem_of_app, list_elem_of_singleton, <- Ivc.
    case_decide; naive_solver.
  - by apply NoDup_snoc.
  - intros x Hx. apply elem_of_app in Hx as [Hx|Hx].
    + rewrite decide_False by auto.
      destruct (Ichain x Hx) as [?|(p & ? & ? & ? & Hp)]; [by left|].
      right. exists p. rewrite decide_False by auto.
      split_and!; try done. apply elem_of_app. by left.
    + apply list_elem_of_singleton in Hx as ->. rewrite decide_True by done.
      destruct Hdp as [?|[(p & ? & ? & ? & Hp) _]]; [by left|].
      right. exists p. rewrite decide_False by auto.
      split_and!; try done. apply elem_of_app. by left.
  - intros x Hx. rewrite length_app. simpl. apply elem_of_app in Hx as [Hx|Hx].
    + rewrite decide_False by auto. specialize (Ibound x Hx). lia.
    + apply list_elem_of_singleton in Hx as ->. rewrite decide_True by done.
      destruct Hdp as [(_ & _ & ->)|[_ ?]]; lia.
Qed.

Lemma dfs_set_parent dep vis par VC nxt pos :
  dinv dep vis par VC → nxt ∉ VC → inb rows cols nxt →
  dinv dep vis (mset par nxt (Some pos)) VC.
Proof.
  intros [Ivis Ipar Ivc Ind Ichain Ibound] Hnxt Hin.
  assert (Hold : ∀ x, x ∈ VC → nxt ≠ x) by (intros x Hx ->; done).
  split; try done.
  - by apply mset_rect.
  - intros x Hx. erewrite mget_mset_inb by done.
    rewrite decide_False by auto. auto.
Qed.

(** What a call of [dfs] on [pos] from the state [st] establishes. *)
Definition dpost (st : DFS.state) (pos : Pos) (st' : DFS.state)
    (res : option Pos) : Prop :=
  DInv st' ∧
  (∀ x, x ∈ DFS.visitedCells st → x ∈ DFS.visitedCells st') ∧
  pos ∈ DFS.visitedCells st' ∧
  (length (DFS.visitedCells st) < length (DFS.visitedCells st'))%nat ∧
  (∀ e, res = Some e → e ∈ DFS.visitedCells st' ∧ exitAt level e).

Definition dpre (fuel : nat) (st : DFS.state) (pos : Pos) : Prop :=
  DInv st ∧ pos ∉ DFS.visitedCells st ∧ inb rows cols pos ∧
  pend (DFS.parent st) (DFS.visitedCells st) pos ∧
  (rows * cols - length (DFS.visitedCells st) < fuel)%nat.

Lemma eachDir_spec rec fuel pos m :
  (∀ st nxt, dpre fuel st nxt →
     ∃ st' res, rec st nxt = Done (st', res) ∧ dpost st nxt st' res) →
  (rows * cols - m ≤ fuel)%nat →
  ∀ dirs st vn,
    (∀ d, d ∈ dirs → d ∈ DIRS) →
    DInv st → pos ∈ DFS.visitedCells st →
    (m < length (DFS.visitedCells st))%nat →
    ∃ st' vn' res,
      DFS.eachDir rec level (Z.of_nat rows) (Z.of_nat cols) pos dirs st vn
        = Done (st', vn', res) ∧
      DInv st' ∧
      (∀ x, x ∈ DFS.visitedCells st → x ∈ DFS.visitedCells st') ∧
      (length (DFS.visitedCells st) ≤ length (DFS.visitedCells st'))%nat ∧
      (∀ e, res = Some e → e ∈ DFS.visitedCells st' ∧ exitAt level e).
Proof.
  intros Hrec Hm dirs. induction dirs as [|d dirs IH]; intros st vn Hds I Hpos Hlen.
  - exists st, vn, None. by split_and!.
  - cbn [DFS.eachDir]. set (nxt := step pos d).
    assert (Hds' : ∀ d', d' ∈ dirs → d' ∈ DIRS).
    { intros d' Hd'. apply Hds. by constructor. }
    destruct (outside (Z.of_nat rows) (Z.of_nat cols) nxt) eqn:Hout; [by apply IH|].
    apply outside_inb in Hout.
    destruct I as [dep I].
    pose proof (dinv_inb _ _ _ _ pos I Hpos) as Hpin.
    destruct (canMoveBetween_total level Hwf pos nxt Hpin Hout) as [ok Hok].
    rewrite Hok. cbn [bind]. destruct ok; cbn [negb]; [|apply IH; by try exists dep].
    destruct (mread_inb _ _ _ nxt (d_vis _ _ _ _ I) Hout) as (seen & Hread & Hseen).
    rewrite Hread. cbn [bind]. destruct seen; [apply IH; by try exists dep|].
    assert (Hnvc : nxt ∉ DFS.visitedCells st).
    { intros Hin. apply (d_vc _ _ _ _ I) in Hin. congruence. }
    rewrite (mwrite_inb rows cols) by (done || apply I). cbn [bind].
    pose proof (dinv_bounded _ _ _ _ I) as Hb.
    pose proof (dfs_set_parent _ _ _ _ nxt pos I Hnvc Hout) as I1.
    assert (Hpend1 : pend (mset (DFS.parent st) nxt (Some pos))
                       (DFS.visitedCells st) nxt).
    { assert (Hd : d ∈ DIRS) by (apply Hds; constructor).
      right. exists pos. split_and!; [| |done].
      - erewrite mget_mset_inb by (done || apply I). by rewrite decide_True.
      - split_and!; [by exists d|done|done]. }
    assert (Hb1 : (S (length (DFS.visitedCells st)) ≤ rows * cols)%nat).
    { destruct (dfs_enter _ _ _ _ nxt I1 Hnvc Hout Hpend1) as [dep' I'].
      apply dinv_bounded in I'. rewrite length_app in I'. simpl in I'. lia. }
    destruct (Hrec (DFS.mkState (DFS.visited st)
                      (mset (DFS.parent st) nxt (Some pos))
                      (DFS.visitedCells st) (DFS.detailedSteps st)
                      (DFS.stepNumber st)) nxt)
      as (st' & res & Hrun & HI' & Hmono & Hnin & Hgrow & Hres).
    { split_and!; simpl; [by exists dep|done|done|done|lia]. }
    rewrite Hrun. cbn [bind]. simpl in Hmono, Hgrow. destruct res as [e|].
    + eexists _, _, _. split; [done|]. split_and!; [done|done|lia|].
      intros e' [= <-]. by apply Hres.
    + destruct (IH st' (S vn) Hds' HI')
        as (st2 & vn2 & res2 & Hrun2 & HI2 & Hmono2 & Hlen2 & Hres2);
        [by apply Hmono|lia|].
      eexists _, _, _. split; [done|]. split_and!; [done| |lia|done].
      intros x Hx. auto.
Qed.

Lemma dfs_spec fuel gas :
  (rows * cols < gas)%nat →
  ∀ st pos, dpre fuel st pos →
    ∃ st' res, DFS.dfs fuel gas level (Z.of_nat rows) (Z.of_nat cols) st pos
                 = Done (st', res) ∧ dpost st pos st' res.
Proof.
  intros Hgas. induction fuel as [|fuel IH];
    intros st pos ([dep I] & Hpos & Hin & Hpend & Hfuel); [lia|].
  destruct st as [vis par VC steps sn]. simpl in I, Hpos, Hpend, Hfuel.
  cbn [DFS.dfs DFS.visited DFS.parent DFS.visitedCells DFS.detailedSteps
       DFS.stepNumber].
  rewrite (mwrite_inb rows cols) by (done || apply I). cbn [bind].
  destruct (dfs_enter _ _ _ _ pos I Hpos Hin Hpend) as [dep' I'].
  pose proof (dinv_bounded _ _ _ _ I') as Hb.
  assert (Hpv : pos ∈ VC ++ [pos]) by (apply elem_of_app; right; constructor).
  rewrite (depthOf_chain (edge level) s par (λ x, x ∈ VC ++ [pos]) dep'
             (d_chain _ _ _ _ I')); [|done|].
  2:{ pose proof (d_bound _ _ _ _ I' pos Hpv). lia. }
  cbn [bind].
  destruct (canExit_total level Hwf pos Hin) as [ex Hex]. fold rows cols in Hex.
  rewrite Hex. cbn [bind]. destruct ex.
  - eexists _, _. split; [done|]. unfold dpost. simpl.
    split_and!; [by exists dep'| |done| |].
    + intros x Hx. apply elem_of_app. by left.
    + rewrite length_app. simpl. lia.
    + intros e [= <-]. done.
  - destruct (eachDir_spec (DFS.dfs fuel gas level (Z.of_nat rows) (Z.of_nat cols))
                fuel pos (length VC) IH) with
        (dirs := DIRS) (vn := 0%nat)
        (st := DFS.mkState (mset vis pos true) par (VC ++ [pos]) steps sn)
      as (st2 & vn2 & res2 & Hrun & HI2 & Hmono & Hlen2 & Hres).
    + lia.
    + done.
    + by exists dep'.
    + done.
    + simpl. rewrite length_app. simpl. lia.
    + rewrite Hrun. cbn [bind]. destruct res2 as [e|].
      * eexists _, _. split; [done|]. unfold dpost. simpl.
        assert (Hsub : ∀ x, x ∈ VC ++ [pos] → x ∈ DFS.visitedCells st2) by done.
        destruct HI2 as [dep2 I2].
        split_and!; [by exists dep2| |by auto| |done].
        -- intros x Hx. apply Hsub, elem_of_app. by left.
        -- simpl in Hlen2. rewrite length_app in Hlen2. simpl in Hlen2. lia.
      * eexists _, _. split; [done|]. unfold dpost. simpl.
        assert (Hsub : ∀ x, x ∈ VC ++ [pos] → x ∈ DFS.visitedCells st2) by done.
        destruct HI2 as [dep2 I2].
        split_and!; [by exists dep2| |by auto| |done].
        -- intros x Hx. apply Hsub, elem_of_app. by left.
        -- simpl in Hlen2. rewrite length_app in Hlen2. simpl in Hlen2. lia.
Qed.

(** What [solveDFS] returns. *)
Definition dfsPost (res : option Solution) : Prop :=
  match res with
  | Some sol => goodPath level sol ∧ NoDup (visitedCells sol)
  | None => True
  end.

Lemma solveDFS_spec fuel :
  (rows * cols < fuel)%nat →
  ∃ res, DFS.solveDFS fuel level = Done res ∧ dfsPost res.
Proof.
  intros Hfuel. unfold DFS.solveDFS.
  rewrite (dims_wf level Hwf). cbn [bind]. fold rows cols.
  pose proof (proj1 Hwf) as Hs. fold rows cols s in Hs.
  destruct (dfs_spec fuel fuel Hfuel
              (DFS.mkState (mfill rows cols false) (mfill rows cols None) [] [] 0%nat) s)
    as (st' & res & Hrun & [dep' I'] & _ & _ & _ & Hres).
  { split_and!; simpl; [|apply not_elem_of_nil|done| |lia].
    - exists (λ _, 0%nat). split; simpl.
      + apply mfill_rect.
      + apply mfill_rect.
      + intros x. split; [|by intros ?%elem_of_nil].
        intros Hx. by apply mget_mfill_Some in Hx as [? _].
      + apply NoDup_nil_2.
      + by intros x ?%elem_of_nil.
      + by intros x ?%elem_of_nil.
    - left. split_and!; [|done|done]. by apply mget_mfill. }
  fold s. rewrite Hrun. cbn [bind]. destruct res as [e|]; [|by eexists].
  destruct (Hres e eq_refl) as [He Hexit].
  pose proof (dinv_bounded _ _ _ _ I') as Hb.
  pose proof (d_bound _ _ _ _ I' e He) as Hde.
  destruct (followParents_path (edge level) s (DFS.parent st')
              (λ x, x ∈ DFS.visitedCells st') dep' (d_chain _ _ _ _ I') fuel e)
    as (pth & Hwalk & Hlen & Hhd & Hlast & Hlink); [done|lia|].
  rewrite Hwalk. cbn [bind]. eexists. split; [done|]. simpl.
  split; [|apply I'].
  unfold goodPath. simpl.
  split_and!; [done|by exists e|done|by rewrite length_reverse].
Qed.
End DFSProofs.

(** ** The maze generator *)

Lemma mget_mset_Some {A} (m : list (list A)) p q v w :
  mget m p = Some w →
  mget (mset m p v) q = if decide (p = q) then Some v else mget m q.
Proof. intros Hp. rewrite mget_mset. case_decide; [|done]. by rewrite Hp. Qed.

Section Generator.
Context (rng : Gen.Rng) (difficulty : Gen.Difficulty) (width height : nat).

Definition wallsAt (cs : list (list MazeCell)) (p : Pos) : option Walls :=
  walls <$> mget cs p.

(** Wall symmetry stated on the pairs below and to the right. *)
Definition symmetric (cs : list (list MazeCell)) : Prop :=
  ∀ p wp wq, wallsAt cs p = Some wp →
    (wallsAt cs (step p (mkPos 1 0)) = Some wq → bottom wp = top wq) ∧
    (wallsAt cs (step p (mkPos 0 1)) = Some wq → right wp = left wq).

Lemma facing_cases p q sp :
  facing p q = Some sp →
  (q = step p (mkPos (-1) 0) ∧ sp = top) ∨ (q = step p (mkPos 1 0) ∧ sp = bottom) ∨
  (q = step p (mkPos 0 (-1)) ∧ sp = left) ∨ (q = step p (mkPos 0 1) ∧ sp = right).
Proof.
  unfold facing. repeat case_bool_decide; intros [= <-]; auto.
Qed.

Lemma symmetric_wallSymmetric cs : symmetric cs → wallSymmetric cs.
Proof.
  intros Hsym p q cp cq sp sq Hp Hq Hpq Hqp.
  assert (Hwp : wallsAt cs p = Some (walls cp)) by (unfold wallsAt; by rewrite Hp).
  assert (Hwq : wallsAt cs q = Some (walls cq)) by (unfold wallsAt; by rewrite Hq).
  destruct (facing_cases _ _ _ Hpq) as [[Hq1 ->]|[[Hq1 ->]|[[Hq1 ->]|[Hq1 ->]]]];
  destruct (facing_cases _ _ _ Hqp) as [[Hp1 ->]|[[Hp1 ->]|[[Hp1 ->]|[Hp1 ->]]]];
  try (exfalso; rewrite Hq1 in Hp1; destruct p; unfold step in Hp1; simpl in Hp1;
       injection Hp1; intros; lia).
  - destruct (Hsym q (walls cq) (walls cp) Hwq) as [Hv _].
    rewrite <- Hp1 in Hv. by rewrite (Hv Hwp).
  - destruct (Hsym p (walls cp) (walls cq) Hwp) as [Hv _].
    rewrite <- Hq1 in Hv. by rewrite (Hv Hwq).
  - destruct (Hsym q (walls cq) (walls cp) Hwq) as [_ Hv].
    rewrite <- Hp1 in Hv. by rewrite (Hv Hwp).
  - destruct (Hsym p (walls cp) (walls cq) Hwp) as [_ Hv].
    rewrite <- Hq1 in Hv. by rewrite (Hv Hwq).
Qed.

Lemma modify_Done cs p f cs' :
  Gen.modify cs p f = Done cs' →
  ∃ cell, mget cs p = Some cell ∧ cs' = mset cs p (f cell).
Proof.
  unfold Gen.modify. intros H. apply bind_Done in H as (cell & Hread & H).
  apply mread_Done in Hread. exists cell. split; [done|]. by simplify_eq.
Qed.

Lemma modify_wallsAt cs p f cs' :
  Gen.modify cs p f = Done cs' →
  ∃ cell, mget cs p = Some cell ∧
    ∀ x, wallsAt cs' x = if decide (p = x) then Some (walls (f cell)) else wallsAt cs x.
Proof.
  intros H. apply modify_Done in H as (cell & Hc & ->). exists cell. split; [done|].
  intros x. unfold wallsAt. rewrite (mget_mset_Some _ _ _ _ _ Hc). by case_decide.
Qed.

Lemma modify_rect cs p f cs' :
  Gen.modify cs p f = Done cs' → rect height width cs → rect height width cs'.
Proof. intros H Hr. apply modify_Done in H as (cell & Hc & ->). by apply mset_rect. Qed.

Lemma step_inj x y d : step x d = step y d → x = y.
Proof.
  destruct x as [xr xc], y as [yr yc], d as [dr dc]. unfold step. simpl.
  intros [= ? ?]. f_equal; lia.
Qed.

Lemma step_twice x d : d ∈ DIRS → step (step x d) d ≠ x.
Proof.
  unfold DIRS. rewrite !elem_of_cons, elem_of_nil.
  destruct x as [xr xc]. unfold step. simpl.
  intros [->|[->|[->|[->|[]]]]]; simpl; intros [= ? ?]; lia.
Qed.

Lemma down_in_DIRS : mkPos 1 0 ∈ DIRS.
Proof. unfold DIRS. rewrite !elem_of_cons. auto. Qed.

Lemma right_in_DIRS : mkPos 0 1 ∈ DIRS.
Proof. unfold DIRS. rewrite !elem_of_cons. auto. Qed.

(** Clearing the wall between [a] and the cell [b] below it. *)
Lemma symmetric_vertical cs cs' a b wa wb :
  symmetric cs → b = step a (mkPos 1 0) →
  wallsAt cs a = Some wa → wallsAt cs b = Some wb →
  (∀ x, wallsAt cs' x =
     if decide (x = a) then Some (mkWalls (top wa) (right wa) false (left wa))
     else if decide (x = b) then Some (mkWalls false (right wb) (bottom wb) (left wb))
     else wallsAt cs x) →
  symmetric cs'.
Proof.
  intros Hsym -> Ha Hb Hcs' p wp wq Hp.
  assert (Hkeep : ∀ x w', wallsAt cs' x = Some w' →
            ∃ w, wallsAt cs x = Some w ∧ right w' = right w ∧ left w' = left w).
  { intros x w'. rewrite Hcs'. repeat case_decide; intros ?; simplify_eq/=; eauto. }
  split; intros Hq.
  - rewrite Hcs' in Hp, Hq.
    destruct (decide (p = a)) as [->|Hpa].
    + rewrite decide_False in Hq by (apply step_not_here, down_in_DIRS).
      rewrite decide_True in Hq by done. by simplify_eq/=.
    + destruct (decide (p = step a (mkPos 1 0))) as [->|Hpb].
      * rewrite decide_False in Hq by (apply step_twice, down_in_DIRS).
        rewrite decide_False in Hq by (apply step_not_here, down_in_DIRS).
        simplify_eq/=. by apply (Hsym _ _ _ Hb).
      * destruct (decide (step p (mkPos 1 0) = a)) as [Hqa|Hqa].
        -- injection Hq as <-. simpl.
           rewrite <- Hqa in Ha. by apply (Hsym _ _ _ Hp).
        -- rewrite decide_False in Hq by (intros ?%step_inj; done).
           by apply (Hsym _ _ _ Hp).
  - destruct (Hkeep _ _ Hp) as (wp0 & Hp0 & -> & _).
    destruct (Hkeep _ _ Hq) as (wq0 & Hq0 & _ & ->).
    by apply (Hsym _ _ _ Hp0).
Qed.

(** Clearing the wall between [a] and the cell [b] to its right. *)
Lemma symmetric_horizontal cs cs' a b wa wb :
  symmetric cs → b = step a (mkPos 0 1) →
  wallsAt cs a = Some wa → wallsAt cs b = Some wb →
  (∀ x, wallsAt cs' x =
     if decide (x = a) then Some (mkWalls (top wa) false (bottom wa) (left wa))
     else if decide (x = b) then Some (mkWalls (top wb) (right wb) (bottom wb) false)
     else wallsAt cs x) →
  symmetric cs'.
Proof.
  intros Hsym -> Ha Hb Hcs' p wp wq Hp.
  assert (Hkeep : ∀ x w', wallsAt cs' x = Some w' →
            ∃ w, wallsAt cs x = Some w ∧ top w' = top w ∧ bottom w' = bottom w).
  { intros x w'. rewrite Hcs'. repeat case_decide; intros ?; simplify_eq/=; eauto. }
  split; intros Hq.
  - destruct (Hkeep _ _ Hp) as (wp0 & Hp0 & _ & ->).
    destruct (Hkeep _ _ Hq) as (wq0 & Hq0 & -> & _).
    by apply (Hsym _ _ _ Hp0).
  - rewrite Hcs' in Hp, Hq.
    destruct (decide (p = a)) as [->|Hpa].
    + rewrite decide_False in Hq by (apply step_not_here, right_in_DIRS).
      rewrite decide_True in Hq by done. by simplify_eq/=.
    + destruct (decide (p = step a (mkPos 0 1))) as [->|Hpb].
      * rewrite decide_False in Hq by (apply step_twice, right_in_DIRS).
        rewrite decide_False in Hq by (apply step_not_here, right_in_DIRS).
        simplify_eq/=. by apply (Hsym _ _ _ Hb).
      * destruct (decide (step p (mkPos 0 1) = a)) as [Hqa|Hqa].
        -- injection Hq as <-. simpl.
           rewrite <- Hqa in Ha. by apply (Hsym _ _ _ Hp).
        -- rewrite decide_False in Hq by (intros ?%step_inj; done).
           by apply (Hsym _ _ _ Hp).
Qed.


Lemma modify_twice cs p f q g cs1 cs' :
  p ≠ q → Gen.modify cs p f = Done cs1 → Gen.modify cs1 q g = Done cs' →
  ∃ cp cq, mget cs p = Some cp ∧ mget cs q = Some cq ∧
    ∀ x, wallsAt cs' x =
         if decide (x = p) then Some (walls (f cp))
         else if decide (x = q) then Some (walls (g cq))
         else wallsAt cs x.
Proof.
  intros Hpq H1 H2.
  apply modify_Done in H1 as (cp & Hcp & ->).
  apply modify_Done in H2 as (cq & Hcq & ->).
  rewrite (mget_mset_Some _ _ _ _ _ Hcp), decide_False in Hcq by done.
  exists cp, cq. split_and!; [done|done|].
  intros x. unfold wallsAt.
  rewrite (mget_mset_Some _ q x _ cq).
  2:{ by rewrite (mget_mset_Some _ _ _ _ _ Hcp), decide_False. }
  rewrite (mget_mset_Some _ _ _ _ _ Hcp).
  repeat case_decide; simplify_eq/=; done.
Qed.

Lemma removeWalls_symmetric cs current next cs' d :
  d ∈ DIRS → next = step current d →
  Gen.removeWalls cs current next = Done cs' →
  symmetric cs → symmetric cs'.
Proof.
  intros Hd -> Hrun Hsym. unfold Gen.removeWalls in Hrun.
  assert (Hne : current ≠ step current d).
  { intros Heq. symmetry in Heq. by apply step_not_here in Heq. }
  unfold DIRS in Hd. rewrite !elem_of_cons, elem_of_nil in Hd.
  destruct current as [cr cc].
  destruct Hd as [->|[->|[->|[->|[]]]]]; unfold step in *; simpl in *.
  - rewrite (proj2 (Z.ltb_lt _ _)) in Hrun by lia.
    apply bind_Done in Hrun as (cs1 & H1 & H2).
    destruct (modify_twice _ _ _ _ _ _ _ Hne H1 H2) as (cp & cq & Hcp & Hcq & Hx).
    eapply (symmetric_vertical cs cs' (mkPos (cr + -1) (cc + 0)) (mkPos cr cc)
              (walls cq) (walls cp)); [done| | | |].
    + unfold step. simpl. f_equal; lia.
    + unfold wallsAt. by rewrite Hcq.
    + unfold wallsAt. by rewrite Hcp.
    + intros x. rewrite Hx. repeat case_decide; simplify_eq/=; done.
  - rewrite (proj2 (Z.ltb_ge _ _)) in Hrun by lia.
    rewrite (proj2 (Z.ltb_lt _ _)) in Hrun by lia.
    apply bind_Done in Hrun as (cs1 & H1 & H2).
    destruct (modify_twice _ _ _ _ _ _ _ Hne H1 H2) as (cp & cq & Hcp & Hcq & Hx).
    eapply (symmetric_vertical cs cs' (mkPos cr cc) (mkPos (cr + 1) (cc + 0))
              (walls cp) (walls cq)); [done|done| | |].
    + unfold wallsAt. by rewrite Hcp.
    + unfold wallsAt. by rewrite Hcq.
    + intros x. rewrite Hx. repeat case_decide; simplify_eq/=; done.
  - rewrite (proj2 (Z.ltb_ge _ _)) in Hrun by lia.
    rewrite (proj2 (Z.ltb_ge _ _)) in Hrun by lia.
    rewrite (proj2 (Z.ltb_lt _ _)) in Hrun by lia.
    apply bind_Done in Hrun as (cs1 & H1 & H2).
    destruct (modify_twice _ _ _ _ _ _ _ Hne H1 H2) as (cp & cq & Hcp & Hcq & Hx).
    eapply (symmetric_horizontal cs cs' (mkPos (cr + 0) (cc + -1)) (mkPos cr cc)
              (walls cq) (walls cp)); [done| | | |].
    + unfold step. simpl. f_equal; lia.
    + unfold wallsAt. by rewrite Hcq.
    + unfold wallsAt. by rewrite Hcp.
    + intros x. rewrite Hx. repeat case_decide; simplify_eq/=; done.
  - rewrite (proj2 (Z.ltb_ge _ _)) in Hrun by lia.
    rewrite (proj2 (Z.ltb_ge _ _)) in Hrun by lia.
    rewrite (proj2 (Z.ltb_ge _ _)) in Hrun by lia.
    rewrite (proj2 (Z.ltb_lt _ _)) in Hrun by lia.
    apply bind_Done in Hrun as (cs1 & H1 & H2).
    destruct (modify_twice _ _ _ _ _ _ _ Hne H1 H2) as (cp & cq & Hcp & Hcq & Hx).
    eapply (symmetric_horizontal cs cs' (mkPos cr cc) (mkPos (cr + 0) (cc + 1))
              (walls cp) (walls cq)); [done|done| | |].
    + unfold wallsAt. by rewrite Hcp.
    + unfold wallsAt. by rewrite Hcq.
    + intros x. rewrite Hx. repeat case_decide; simplify_eq/=; done.
Qed.

Lemma removeWalls_rect cs current next cs' :
  Gen.removeWalls cs current next = Done cs' →
  rect height width cs → rect height width cs'.
Proof.
  unfold Gen.removeWalls. intros Hrun Hr.
  repeat case_match; try (by simplify_eq);
    apply bind_Done in Hrun as (cs1 & Hm1 & Hm2);
    eauto using modify_rect.
Qed.

Lemma symmetric_same_walls cs cs' :
  (∀ x, wallsAt cs' x = wallsAt cs x) → symmetric cs → symmetric cs'.
Proof.
  intros Heq Hsym p wp wq. rewrite !Heq. apply Hsym.
Qed.

Lemma modify_setVisited_symmetric cs p b cs' :
  Gen.modify cs p (Gen.setVisited b) = Done cs' → symmetric cs → symmetric cs'.
Proof.
  intros H. apply modify_wallsAt in H as (cell & Hc & Hx).
  apply symmetric_same_walls. intros x. rewrite Hx. case_decide; [|done].
  subst x. unfold wallsAt. by rewrite Hc.
Qed.

Lemma wallsAt_nonneg cs p w : wallsAt cs p = Some w → 0 ≤ r p ∧ 0 ≤ c p.
Proof.
  unfold wallsAt, mget. case_bool_decide; [done|]. discriminate.
Qed.

(** Clearing the top wall of a cell of the top row. *)
Lemma modify_setTop_symmetric cs p cs' :
  r p = 0 →
  Gen.modify cs p (Gen.setTop false) = Done cs' → symmetric cs → symmetric cs'.
Proof.
  intros Hr H Hsym. apply modify_wallsAt in H as (cell & Hc & Hx).
  assert (Hkeep : ∀ x w', wallsAt cs' x = Some w' →
            ∃ w, wallsAt cs x = Some w ∧ right w' = right w ∧ left w' = left w ∧
                 bottom w' = bottom w ∧ (x ≠ p → top w' = top w)).
  { intros x w'. rewrite Hx. case_decide.
    - subst x. intros [= <-]. exists (walls cell). unfold wallsAt. rewrite Hc.
      by split_and!.
    - intros ?. exists w'. by split_and!. }
  intros q wq wt Hq. split; intros Ht.
  - destruct (Hkeep _ _ Hq) as (wq0 & Hq0 & _ & _ & -> & _).
    destruct (Hkeep _ _ Ht) as (wt0 & Ht0 & _ & _ & _ & Htop).
    rewrite Htop; [by apply (Hsym _ _ _ Hq0)|].
    intros Heq. apply wallsAt_nonneg in Hq0 as [Hq0 _].
    rewrite <- Heq in Hr. unfold step in Hr. simpl in Hr. lia.
  - destruct (Hkeep _ _ Hq) as (wq0 & Hq0 & -> & _).
    destruct (Hkeep _ _ Ht) as (wt0 & Ht0 & _ & -> & _).
    by apply (Hsym _ _ _ Hq0).
Qed.

Lemma pick_elem {A} (xs : list A) x a : Gen.pick xs x = Some a → a ∈ xs.
Proof.
  unfold Gen.pick. case_bool_decide; [|done].
  intros Hi. by eapply list_elem_of_lookup_2.
Qed.

Lemma getRandomNeighbor_elem neighbors n nb n' :
  Gen.getRandomNeighbor rng difficulty (Z.of_nat width) (Z.of_nat height) neighbors n
    = Done (nb, n') →
  nb ∈ neighbors.
Proof.
  unfold Gen.getRandomNeighbor.
  assert (Hfb : ∀ k, (nb0 <- fromOption (Gen.pick neighbors (rng k));
                      Done (nb0, S k)) = Done (nb, n') → nb ∈ neighbors).
  { intros k H. apply bind_Done in H as (a & Ha & [= -> <-]).
    apply fromOption_Done in Ha. by eapply pick_elem. }
  destruct difficulty.
  - repeat case_match; eauto.
    intros Hrun. apply bind_Done in Hrun as (a & Ha & [= -> <-]).
    apply fromOption_Done, pick_elem in Ha.
    by apply list_elem_of_filter in Ha as [_ Ha].
  - eauto.
  - repeat case_match; eauto.
    intros Hrun. apply bind_Done in Hrun as (a & Ha & [= -> <-]).
    apply fromOption_Done, pick_elem in Ha.
    by apply list_elem_of_filter in Ha as [_ Ha].
Qed.

Lemma unvisited_neighbors cs current ds acc neighbors :
  forEach (Gen.unvisitedNeighbor cs (Z.of_nat width) (Z.of_nat height) current) ds acc
    = Done neighbors →
  ∀ x, x ∈ neighbors → x ∈ acc ∨ ∃ d, d ∈ ds ∧ x = step current d.
Proof.
  revert acc. induction ds as [|d ds IH]; intros acc Hrun x Hx.
  - simpl in Hrun. simplify_eq. by left.
  - cbn [forEach] in Hrun. apply bind_Done in Hrun as (acc1 & H1 & H2).
    destruct (IH acc1 H2 x Hx) as [Hin|(d' & Hd' & ->)].
    + unfold Gen.unvisitedNeighbor in H1.
      destruct (negb _); [|simplify_eq; by left].
      apply bind_Done in H1 as (cell & _ & H1). injection H1 as <-.
      destruct (visited cell); [by left|].
      apply elem_of_app in Hin as [Hin|Hin]; [by left|].
      apply list_elem_of_singleton in Hin as ->.
      right. exists d. split; [constructor|done].
    + right. exists d'. split; [by constructor|done].
Qed.

(** The carving loop keeps the walls symmetric and the grid rectangular. *)
Lemma carve_inv fuel cs stack n cs' n' :
  Gen.carve fuel rng difficulty (Z.of_nat width) (Z.of_nat height) cs stack n
    = Done (cs', n') →
  symmetric cs → rect height width cs →
  symmetric cs' ∧ rect height width cs'.
Proof.
  revert cs stack n. induction fuel as [|fuel IH]; intros cs stack n Hrun Hsym Hrect;
    [discriminate|].
  cbn [Gen.carve] in Hrun. destruct stack as [|current below]; [by simplify_eq|].
  apply bind_Done in Hrun as (neighbors & Hnb & Hrun).
  destruct neighbors as [|nb0 nbs]; [by eapply IH|].
  apply bind_Done in Hrun as ([next n1] & Hpick & Hrun).
  apply bind_Done in Hrun as (cs1 & Hrm & Hrun).
  apply bind_Done in Hrun as (cs2 & Hvis & Hrun).
  apply getRandomNeighbor_elem in Hpick.
  destruct (unvisited_neighbors _ _ _ _ _ Hnb next Hpick) as [Hin|(d & Hd & Hnext)];
    [by apply elem_of_nil in Hin|].
  eapply IH; [exact Hrun| |].
  - eapply modify_setVisited_symmetric; [exact Hvis|].
    by eapply removeWalls_symmetric.
  - eapply modify_rect; [exact Hvis|]. by eapply removeWalls_rect.
Qed.

Lemma getRandomStartPosition_inb cs n st :
  Gen.getRandomStartPosition rng difficulty width height cs n = Done st →
  inb height width st.
Proof.
  unfold Gen.getRandomStartPosition. intros Hrun.
  assert (Hin : st ∈ Gen.positions width height).
  { destruct difficulty; repeat case_match;
      apply fromOption_Done, pick_elem in Hrun;
      repeat (apply list_elem_of_filter in Hrun as [_ Hrun]); done. }
  by apply elem_of_positions.
Qed.

(** What [generateMaze] returns: a well-formed level with wall data whose
    walls are symmetric. *)
Lemma generateMaze_spec fuel lv :
  Gen.generateMaze fuel rng width height difficulty = Done lv →
  wf lv ∧ ∃ cs, cells lv = Some cs ∧ symmetric cs ∧ rect height width cs.
Proof.
  unfold Gen.generateMaze. intros Hrun.
  apply bind_Done in Hrun as (cs1 & H1 & Hrun).
  apply bind_Done in Hrun as ([cs2 n] & H2 & Hrun).
  apply bind_Done in Hrun as (cs3 & H3 & Hrun).
  apply bind_Done in Hrun as (st & Hst & Hrun).
  injection Hrun as <-.
  set (cs0 := mfill height width (mkCell (mkWalls true true true true) false)) in *.
  assert (Hsym0 : symmetric cs0).
  { intros p wp wq Hp. unfold wallsAt, cs0 in *.
    destruct (mget _ p) as [cp|] eqn:Hcp; [|done].
    apply mget_mfill_Some in Hcp as [-> _]. simpl in Hp. injection Hp as <-.
    split; intros Hq;
      (destruct (mget _ (step p _)) as [cq|] eqn:Hcq; [|done]);
      apply mget_mfill_Some in Hcq as [-> _]; simpl in Hq; by injection Hq as <-. }
  assert (Hrect0 : rect height width cs0) by apply mfill_rect.
  pose proof (modify_setVisited_symmetric _ _ _ _ H1 Hsym0) as Hsym1.
  pose proof (modify_rect _ _ _ _ H1 Hrect0) as Hrect1.
  destruct (carve_inv _ _ _ _ _ _ H2 Hsym1 Hrect1) as [Hsym2 Hrect2].
  pose proof (modify_setTop_symmetric _ (mkPos 0 1) _ eq_refl H3 Hsym2) as Hsym3.
  pose proof (modify_rect _ _ _ _ H3 Hrect2) as Hrect3.
  pose proof (getRandomStartPosition_inb _ _ _ Hst) as Hin.
  split; [|by exists cs3].
  assert (Hh : (0 < height)%nat) by (destruct Hin; lia).
  destruct Hrect3 as [Hlen Hrows].
  assert (Hnr : nrows (mkLevel (map (map (λ cell : MazeCell,
                         if visited cell then 0 else 1)) cs3) st (Some cs3)) = height).
  { unfold nrows. simpl. by rewrite length_map. }
  assert (Hnc : ncols (mkLevel (map (map (λ cell : MazeCell,
                         if visited cell then 0 else 1)) cs3) st (Some cs3)) = width).
  { unfold ncols. simpl. destruct cs3 as [|row0 cs3]; simpl in *; [lia|].
    rewrite length_map. by apply Forall_cons in Hrows as [? _]. }
  unfold wf. rewrite Hnr, Hnc. simpl. by split.
Qed.
End Generator.

(** *** The generator returns *)

Lemma pick_total {A} (xs : list A) (x : Q) :
  xs ≠ [] → (0 <= x)%Q → (x < 1)%Q → ∃ a, Gen.pick xs x = Some a.
Proof.
  intros Hxs H0 H1. unfold Gen.pick.
  set (n := Z.of_nat (length xs)).
  assert (Hn : 0 < n) by (destruct xs; [done|unfold n; simpl; lia]).
  assert (Hlo : 0 ≤ Qfloor (x * inject_Z n)).
  { rewrite <- (Qfloor_Z 0). apply Qfloor_resp_le.
    apply Qmult_le_0_compat; [done|].
    change (inject_Z 0 <= inject_Z n)%Q. rewrite <- Zle_Qle. lia. }
  assert (Hhi : Qfloor (x * inject_Z n) < n).
  { rewrite Zlt_Qlt. eapply Qle_lt_trans; [apply Qfloor_le|].
    rewrite <- (Qmult_1_l (inject_Z n)) at 2.
    apply Qmult_lt_compat_r; [|done].
    change (inject_Z 0 < inject_Z n)%Q. rewrite <- Zlt_Qlt. lia. }
  rewrite bool_decide_eq_true_2 by done.
  apply lookup_lt_is_Some_2. unfold n in *. lia.
Qed.

Section GeneratorReturns.
Context (rng : Gen.Rng) (Hrng : Gen.validRng rng).
Context (difficulty : Gen.Difficulty) (width height : nat).

Definition visitedAt (cs : list (list MazeCell)) (p : Pos) : bool :=
  from_option visited false (mget cs p).

(** The invariant of the carving loop: [vs] lists the visited cells. *)
Record ginv (cs : list (list MazeCell)) (stack vs : list Pos) : Prop := {
  g_rect : rect height width cs;
  g_vs : ∀ p, visitedAt cs p = true ↔ p ∈ vs;
  g_nodup : NoDup vs;
  g_stack : ∀ p, p ∈ stack → inb height width p
}.

Lemma visitedAt_inb cs p :
  rect height width cs → visitedAt cs p = true → inb height width p.
Proof.
  intros Hr. unfold visitedAt. destruct (mget cs p) eqn:Hp; [|done].
  intros _. by eapply mget_Some_inb.
Qed.

Lemma ginv_bounded cs stack vs :
  ginv cs stack vs → (length vs ≤ height * width)%nat.
Proof.
  intros [Hr Hvs Hnd _]. apply cells_bounded; [done|].
  intros x Hx. apply Hvs in Hx. by eapply visitedAt_inb.
Qed.

Lemma modify_total cs p f :
  rect height width cs → inb height width p →
  ∃ cell, mget cs p = Some cell ∧ Gen.modify cs p f = Done (mset cs p (f cell)).
Proof.
  intros Hr Hp. destruct (mread_inb _ _ cs p Hr Hp) as (cell & Hread & Hget).
  exists cell. split; [done|]. unfold Gen.modify. by rewrite Hread.
Qed.

Lemma mset_visitedAt cs p cell cell' x :
  mget cs p = Some cell → visited cell' = visited cell →
  visitedAt (mset cs p cell') x = visitedAt cs x.
Proof.
  intros Hp Hv. unfold visitedAt. rewrite (mget_mset_Some _ _ _ _ _ Hp).
  case_decide; [|done]. subst x. by rewrite Hp.
Qed.

Lemma modify_walls_total cs p f :
  rect height width cs → inb height width p →
  (∀ cell, visited (f cell) = visited cell) →
  ∃ cs', Gen.modify cs p f = Done cs' ∧ rect height width cs' ∧
         ∀ x, visitedAt cs' x = visitedAt cs x.
Proof.
  intros Hr Hp Hf. destruct (modify_total cs p f Hr Hp) as (cell & Hc & Hrun).
  eexists. split; [done|]. split; [by apply mset_rect|].
  intros x. by eapply mset_visitedAt.
Qed.

Lemma modify_walls_twice cs p f q g :
  rect height width cs → inb height width p → inb height width q →
  (∀ cell, visited (f cell) = visited cell) →
  (∀ cell, visited (g cell) = visited cell) →
  ∃ cs', (cs1 <- Gen.modify cs p f; Gen.modify cs1 q g) = Done cs' ∧
         rect height width cs' ∧ ∀ x, visitedAt cs' x = visitedAt cs x.
Proof.
  intros Hr Hp Hq Hf Hg.
  destruct (modify_walls_total cs p f Hr Hp Hf) as (cs1 & H1 & Hr1 & Hv1).
  destruct (modify_walls_total cs1 q g Hr1 Hq Hg) as (cs2 & H2 & Hr2 & Hv2).
  exists cs2. rewrite H1. cbn [bind]. split; [done|]. split; [done|].
  intros x. by rewrite Hv2.
Qed.

Lemma removeWalls_total cs current next :
  rect height width cs → inb height width current → inb height width next →
  ∃ cs', Gen.removeWalls cs current next = Done cs' ∧ rect height width cs' ∧
         ∀ x, visitedAt cs' x = visitedAt cs x.
Proof.
  intros Hr Hc Hn. unfold Gen.removeWalls.
  repeat case_match; try (by apply modify_walls_twice).
  by exists cs.
Qed.

Lemma unvisited_total cs current ds acc :
  rect height width cs →
  ∃ nbs, forEach (Gen.unvisitedNeighbor cs (Z.of_nat width) (Z.of_nat height) current)
           ds acc = Done nbs ∧
         ∀ x, x ∈ nbs → x ∈ acc ∨ (inb height width x ∧ visitedAt cs x = false).
Proof.
  intros Hr. revert acc. induction ds as [|d ds IH]; intros acc.
  - exists acc. split; [done|]. by left.
  - assert (Hstep : ∃ acc1,
      Gen.unvisitedNeighbor cs (Z.of_nat width) (Z.of_nat height) current acc d
        = Done acc1 ∧
      ∀ x, x ∈ acc1 → x ∈ acc ∨ (inb height width x ∧ visitedAt cs x = false)).
    { unfold Gen.unvisitedNeighbor.
      destruct (outside (Z.of_nat height) (Z.of_nat width) (step current d)) eqn:Hout;
        cbn [negb bind].
      - exists acc. split; [done|]. by left.
      - apply outside_inb in Hout.
        destruct (mread_inb _ _ cs _ Hr Hout) as (cell & Hread & Hget).
        rewrite Hread. cbn [bind]. eexists. split; [done|]. intros x Hin.
        destruct (visited cell) eqn:Hv; [by left|].
        apply elem_of_app in Hin as [?|Hin]; [by left|].
        apply list_elem_of_singleton in Hin as ->. right. split; [done|].
        unfold visitedAt. by rewrite Hget. }
    destruct Hstep as (acc1 & Hrun1 & Hacc1).
    destruct (IH acc1) as (nbs & Hrun & Hnbs).
    exists nbs. cbn [forEach]. rewrite Hrun1. cbn [bind]. split; [done|].
    intros x Hx. destruct (Hnbs x Hx) as [Hin|?]; [by apply Hacc1|by right].
Qed.

Lemma getRandomNeighbor_total neighbors n :
  neighbors ≠ [] →
  ∃ nb n', Gen.getRandomNeighbor rng difficulty (Z.of_nat width) (Z.of_nat height)
             neighbors n = Done (nb, n').
Proof.
  intros Hne. unfold Gen.getRandomNeighbor.
  assert (Hfb : ∀ k, ∃ nb n', (nb0 <- fromOption (Gen.pick neighbors (rng k));
                               Done (nb0, S k)) = Done (nb, n')).
  { intros k. destruct (pick_total neighbors (rng k) Hne) as [a Ha];
      [apply Hrng|apply Hrng|].
    rewrite Ha. simpl. eauto. }
  assert (Hpk : ∀ (xs : list Pos) k, xs ≠ [] →
            ∃ nb n', (nb0 <- fromOption (Gen.pick xs (rng k));
                      Done (nb0, S k)) = Done (nb, n')).
  { intros xs k Hxs. destruct (pick_total xs (rng k) Hxs) as [a Ha];
      [apply Hrng|apply Hrng|].
    rewrite Ha. simpl. eauto. }
  destruct difficulty; [|by apply Hfb|].
  - case_bool_decide as He; [|by apply Hfb].
    destruct (Gen.Qltb _ _); [|by apply Hfb]. by apply Hpk.
  - destruct (Gen.Qltb _ _); [|by apply Hfb].
    case_bool_decide as He; [|by apply Hfb]. by apply Hpk.
Qed.

(** The carving loop returns within [2 * unvisited + stack + 1] turns. *)
Lemma carve_total fuel cs stack vs n :
  ginv cs stack vs →
  (2 * (height * width - length vs) + length stack < fuel)%nat →
  ∃ cs' n' vs',
    Gen.carve fuel rng difficulty (Z.of_nat width) (Z.of_nat height) cs stack n
      = Done (cs', n') ∧
    ginv cs' [] vs' ∧ ∀ p, p ∈ vs → p ∈ vs'.
Proof.
  revert cs stack vs n. induction fuel as [|fuel IH]; intros cs stack vs n I Hfuel; [lia|].
  cbn [Gen.carve]. destruct stack as [|current below].
  { exists cs, n, vs. by split_and!. }
  pose proof I as [Hr Hvs Hnd Hstack].
  destruct (unvisited_total cs current DIRS [] Hr) as (nbs & Hnb & Hnbs).
  rewrite Hnb. cbn [bind]. destruct nbs as [|nb0 nbs].
  - apply (IH cs below vs n).
    + split; [done|done|done|]. intros p Hp. apply Hstack. by constructor.
    + simpl in Hfuel. lia.
  - destruct (getRandomNeighbor_total (nb0 :: nbs) n) as (next & n1 & Hpick); [done|].
    rewrite Hpick. cbn [bind].
    pose proof (getRandomNeighbor_elem _ _ _ _ _ _ _ _ Hpick) as Hin.
    destruct (Hnbs next Hin) as [Hnil|[Hnext Hunv]]; [by apply elem_of_nil in Hnil|].
    assert (Hcur : inb height width current) by (apply Hstack; constructor).
    destruct (removeWalls_total cs current next Hr Hcur Hnext) as (cs1 & Hrm & Hr1 & Hv1).
    rewrite Hrm. cbn [bind].
    destruct (modify_total cs1 next (Gen.setVisited true) Hr1 Hnext) as (cell & Hc & Hmod).
    rewrite Hmod. cbn [bind].
    assert (Hnvs : next ∉ vs).
    { intros Hx. apply Hvs in Hx. congruence. }
    assert (I' : ginv (mset cs1 next (Gen.setVisited true cell))
                   (next :: current :: below) (vs ++ [next])).
    { split.
      - by apply mset_rect.
      - intros p. unfold visitedAt. rewrite (mget_mset_Some _ _ _ _ _ Hc).
        rewrite elem_of_app, list_elem_of_singleton, <- Hvs, <- Hv1.
        unfold visitedAt. case_decide; simpl; naive_solver.
      - by apply NoDup_snoc.
      - intros p Hp. apply elem_of_cons in Hp as [->|Hp]; auto. }
    pose proof (ginv_bounded _ _ _ I') as Hb. rewrite length_app in Hb. simpl in Hb.
    destruct (IH _ _ _ n1 I') as (cs' & n' & vs' & Hrun & I2 & Hsub).
    { rewrite length_app. simpl in *. lia. }
    exists cs', n', vs'. split_and!; [done|done|].
    intros p Hp. apply Hsub, elem_of_app. by left.
Qed.

Lemma getRandomStartPosition_total cs n p0 :
  inb height width p0 → visitedAt cs p0 = true →
  ∃ st, Gen.getRandomStartPosition rng difficulty width height cs n = Done st.
Proof.
  intros Hin Hv. unfold Gen.getRandomStartPosition.
  set (validCells := filter _ (Gen.positions width height)).
  assert (Hvalid : validCells ≠ []).
  { intros Hnil. assert (Hp : p0 ∈ validCells).
    { apply list_elem_of_filter. split; [done|]. by apply elem_of_positions. }
    rewrite Hnil in Hp. by apply elem_of_nil in Hp. }
  assert (Hpk : ∀ xs : list Pos, xs ≠ [] → ∃ st, fromOption (Gen.pick xs (rng n)) = Done st).
  { intros xs Hxs. destruct (pick_total xs (rng n) Hxs) as [a Ha];
      [apply Hrng|apply Hrng|].
    rewrite Ha. simpl. eauto. }
  destruct difficulty; [|by apply Hpk|]; case_bool_decide; by apply Hpk.
Qed.

(** For dimensions of at least 2 and draws in [[0,1)], [generateMaze]
    returns a level once its carving loop is given [2 * width * height]
    turns. *)
Lemma generateMaze_total fuel :
  (2 ≤ width)%nat → (2 ≤ height)%nat → (2 * (height * width) ≤ fuel)%nat →
  ∃ level, Gen.generateMaze fuel rng width height difficulty = Done level.
Proof.
  intros Hw Hh Hfuel. unfold Gen.generateMaze.
  set (cs0 := mfill height width (mkCell (mkWalls true true true true) false)).
  set (start0 := match difficulty with
                 | Gen.easy => mkPos 1 1
                 | _ => mkPos (Z.of_nat height `div` 2) (Z.of_nat width `div` 2)
                 end).
  assert (Hs0 : inb height width start0).
  { unfold start0, inb. destruct difficulty; simpl;
      try (split; split; try (apply Z.div_pos; lia);
           apply Z.div_lt_upper_bound; lia); lia. }
  assert (Hr0 : rect height width cs0) by apply mfill_rect.
  destruct (modify_total cs0 start0 (Gen.setVisited true) Hr0 Hs0) as (cell & Hc & Hmod).
  rewrite Hmod. cbn [bind].
  assert (I1 : ginv (mset cs0 start0 (Gen.setVisited true cell)) [start0] [start0]).
  { split.
    - by apply mset_rect.
    - intros p. unfold visitedAt. rewrite (mget_mset_Some _ _ _ _ _ Hc).
      rewrite list_elem_of_singleton. case_decide; simpl; [naive_solver|].
      split; [|done]. destruct (mget cs0 p) eqn:Hp; [|done].
      apply mget_mfill_Some in Hp as [-> _]. done.
    - apply NoDup_singleton.
    - intros p Hp. by apply list_elem_of_singleton in Hp as ->. }
  destruct (carve_total fuel _ _ _ 0%nat I1) as (cs2 & n & vs & Hcarve & I2 & Hsub).
  { simpl. nia. }
  rewrite Hcarve. cbn [bind].
  pose proof I2 as [Hr2 Hvs2 _ _].
  assert (Hexit : inb height width (mkPos 0 1)) by (unfold inb; simpl; lia).
  destruct (modify_walls_total cs2 (mkPos 0 1) (Gen.setTop false) Hr2 Hexit)
    as (cs3 & Hmod3 & Hr3 & Hv3); [done|].
  rewrite Hmod3. cbn [bind].
  destruct (getRandomStartPosition_total cs3 n start0 Hs0) as [st Hst].
  { rewrite Hv3. apply Hvs2, Hsub. constructor. }
  rewrite Hst. cbn [bind]. eauto.
Qed.
End GeneratorReturns.

(** ** The four solvers together *)

#[global] Instance inb_dec rows cols p : Decision (inb rows cols p).
Proof. unfold inb. apply _. Defined.

#[global] Instance rect_dec {A} rows cols (m : list (list A)) : Decision (rect rows cols m).
Proof. unfold rect. apply _. Defined.

#[global] Instance wf_dec level : Decision (wf level).
Proof. unfold wf. destruct (cells level); apply _. Defined.

Lemma goodPath_walk level sol :
  goodPath level sol →
  ∃ e n, walk (edge level) (start level) e n ∧ exitAt level e ∧
         last (path sol) = Some e ∧ distance sol = Z.of_nat n.
Proof.
  intros (Hhd & (e & Hlast & Hexit) & Hlink & Hdist).
  exists e, (length (path sol) - 1)%nat. split_and!; [|done|done|].
  - by apply walk_of_linked.
  - rewrite Hdist. destruct (path sol); [discriminate|]. simpl. lia.
Qed.

Lemma post_shortest level sol :
  post level (Some sol) → shortest level (distance sol).
Proof.
  intros (Hgood & _ & Hmin).
  destruct (goodPath_walk _ _ Hgood) as (e & n & Hw & He & _ & Hd).
  split; [by exists e, n|done].
Qed.

Lemma shortest_unique level d1 d2 :
  shortest level d1 → shortest level d2 → d1 = d2.
Proof.
  intros [(e1 & n1 & Hw1 & He1 & ->) Hmin1] [(e2 & n2 & Hw2 & He2 & ->) Hmin2].
  specialize (Hmin1 _ _ Hw2 He2). specialize (Hmin2 _ _ Hw1 He1). lia.
Qed.

Lemma post_solvable level res :
  post level res → solvable level → ∃ sol, res = Some sol.
Proof.
  destruct res as [sol|]; [by eauto|].
  simpl. intros Hnone (e & n & Hw & He). by destruct (Hnone e n Hw).
Qed.

Lemma enough_fuel level fuel :
  (enough level ≤ fuel)%nat → (nrows level * ncols level < fuel)%nat.
Proof. unfold enough. lia. Qed.

(** Every solver returns, and a returned solution is a good path whose
    visited cells are distinct. *)
Lemma solve_sound level alg fuel :
  wf level → (enough level ≤ fuel)%nat →
  ∃ res, solve fuel level alg = Done res ∧
         ∀ sol, res = Some sol → goodPath level sol ∧ NoDup (visitedCells sol).
Proof.
  intros Hwf Hfuel%enough_fuel. destruct alg; simpl.
  - destruct (solveBFS_spec level Hwf fuel Hfuel) as (res & Hrun & Hpost).
    exists res. split; [done|]. intros sol ->. by destruct Hpost as (? & ? & _).
  - destruct (solveDFS_spec level Hwf fuel Hfuel) as (res & Hrun & Hpost).
    exists res. split; [done|]. by intros sol ->.
  - destruct (solveAStar_spec level Hwf fuel Hfuel) as (res & Hrun & Hpost).
    exists res. split; [done|]. intros sol ->. by destruct Hpost as (? & ? & _).
  - destruct (solveDijkstra_spec level Hwf fuel Hfuel) as (res & Hrun & Hpost).
    exists res. split; [done|]. intros sol ->. by destruct Hpost as (? & ? & _).
Qed.

Lemma solve_good level alg fuel sol :
  wf level → (enough level ≤ fuel)%nat →
  solve fuel level alg = Done (Some sol) →
  goodPath level sol ∧ NoDup (visitedCells sol).
Proof.
  intros Hwf Hfuel Hrun.
  destruct (solve_sound level alg fuel Hwf Hfuel) as (res & Hrun' & Hres).
  rewrite Hrun in Hrun'. injection Hrun' as <-. by apply Hres.
Qed.

(** Breadth-first search decides whether an exit can be reached. *)
Lemma bfs_found_solvable level fuel sol :
  wf level → (enough level ≤ fuel)%nat →
  BFS.solveBFS fuel level = Done (Some sol) → solvable level.
Proof.
  intros Hwf Hfuel Hrun.
  destruct (solve_good level Algorithm.bfs fuel sol Hwf Hfuel Hrun) as [Hgood _].
  destruct (goodPath_walk _ _ Hgood) as (e & n & Hw & He & _). by exists e, n.
Qed.


(** The exit test of a level without wall data is the border test. *)
Lemma canExit_binary level p :
  cells level = None →
  canExit level (Z.of_nat (nrows level)) (Z.of_nat (ncols level)) p
    = Done (onBorder level p).
Proof. intros Hc. unfold canExit, onBorder. by rewrite Hc. Qed.

(** The Adjacency Oracle of a level without wall data allows a move only
    onto a cell of value 0. *)
Lemma canMoveBetween_binary level p q :
  cells level = None → canMoveBetween level p q = Done true →
  mget (grid level) q = Some 0.
Proof.
  intros Hc. unfold canMoveBetween, mget. rewrite Hc.
  case_bool_decide as Hr; [|discriminate].
  destruct (grid level !! Z.to_nat (r q)) as [row|]; simpl; [|discriminate].
  intros [= Hb]. apply bool_decide_eq_true in Hb as [Hcq Hv].
  by rewrite bool_decide_eq_true_2.
Qed.

Lemma linked_last_edge E l s e :
  linked E l → head l = Some s → last l = Some e →
  e = s ∨ ∃ p, E p e.
Proof.
  intros Hl Hh Hlast. destruct l as [|x l] using rev_ind; [discriminate|].
  rewrite last_snoc in Hlast. injection Hlast as ->.
  apply linked_snoc in Hl as [_ Hl].
  destruct l as [|y l] using rev_ind.
  - simpl in Hh. left. congruence.
  - right. exists y. apply Hl. by rewrite last_snoc.
Qed.


Lemma rng0_valid : Gen.validRng rng0.
Proof.
  intros n. unfold rng0, Qle, Qlt. simpl.
  pose proof (Nat.mod_upper_bound n 7). lia.
Qed.

(** ** The Step Trace *)

(** A* records its entry as soon as a cell is settled: its trace follows
    [visitedCells]. *)
Lemma astar_loop_trace fuel gas level rows cols st sol :
  position <$> AStar.detailedSteps st = AStar.visitedCells st →
  AStar.loop fuel gas level rows cols st = Done (Some sol) →
  tracePositions sol = visitedCells sol.
Proof.
  revert st. induction fuel as [|fuel IH]; intros st Hst Hrun; [discriminate|].
  cbn [AStar.loop] in Hrun. destruct (AStar.openSet st) as [|first others]; [discriminate|].
  apply bind_Done in Hrun as ([current currentIndex] & _ & Hrun).
  apply bind_Done in Hrun as (vis' & _ & Hrun).
  apply bind_Done in Hrun as (currentG & _ & Hrun).
  apply bind_Done in Hrun as (currentF & _ & Hrun).
  apply bind_Done in Hrun as (ex & _ & Hrun).
  destruct ex.
  - apply bind_Done in Hrun as (pth & _ & Hrun). injection Hrun as <-.
    unfold tracePositions. simpl. by rewrite fmap_app, Hst.
  - apply bind_Done in Hrun as ([[[g' f'] par'] open'] & _ & Hrun).
    eapply IH; [|exact Hrun]. cbn. by rewrite fmap_app, Hst.
Qed.

Lemma astar_trace fuel level sol :
  AStar.solveAStar fuel level = Done (Some sol) →
  tracePositions sol = visitedCells sol.
Proof.
  unfold AStar.solveAStar. intros Hrun.
  apply bind_Done in Hrun as ([rows cols] & _ & Hrun).
  apply bind_Done in Hrun as (g & _ & Hrun).
  apply bind_Done in Hrun as (f & _ & Hrun).
  eapply astar_loop_trace; [|exact Hrun]. done.
Qed.

(** Breadth-first search returns from the exit branch before recording the
    entry of the exit cell: its trace is [visitedCells] without its last
    cell. *)
Lemma bfs_loop_trace fuel gas level rows cols st sol :
  position <$> BFS.detailedSteps st = BFS.visitedCells st →
  BFS.loop fuel gas level rows cols st = Done (Some sol) →
  ∃ e, visitedCells sol = tracePositions sol ++ [e].
Proof.
  revert st. induction fuel as [|fuel IH]; intros st Hst Hrun; [discriminate|].
  cbn [BFS.loop] in Hrun. destruct (BFS.queue st) as [|cur rest]; [discriminate|].
  apply bind_Done in Hrun as (currentLevel & _ & Hrun).
  apply bind_Done in Hrun as (ex & _ & Hrun).
  destruct ex.
  - apply bind_Done in Hrun as (pth & _ & Hrun). injection Hrun as <-.
    exists cur. unfold tracePositions. simpl. by rewrite Hst.
  - apply bind_Done in Hrun as ([[vis' q'] neighborsAdded] & _ & Hrun).
    eapply IH; [|exact Hrun]. cbn. by rewrite fmap_app, Hst.
Qed.

Lemma bfs_trace fuel level sol :
  BFS.solveBFS fuel level = Done (Some sol) →
  ∃ e, visitedCells sol = tracePositions sol ++ [e].
Proof.
  unfold BFS.solveBFS. intros Hrun.
  apply bind_Done in Hrun as ([rows cols] & _ & Hrun).
  apply bind_Done in Hrun as (vis & _ & Hrun).
  eapply bfs_loop_trace; [|exact Hrun]. done.
Qed.

(** So does Dijkstra. *)
Lemma dijkstra_loop_trace fuel gas level rows cols st sol :
  position <$> Dijkstra.detailedSteps st = Dijkstra.visitedCells st →
  Dijkstra.loop fuel gas level rows cols st = Done (Some sol) →
  ∃ e, visitedCells sol = tracePositions sol ++ [e].
Proof.
  revert st. induction fuel as [|fuel IH]; intros st Hst Hrun; [discriminate|].
  cbn [Dijkstra.loop] in Hrun.
  destruct (Dijkstra.queue st) as [|first others]; [discriminate|].
  apply bind_Done in Hrun as ([current currentIndex] & _ & Hrun).
  apply bind_Done in Hrun as (vis' & _ & Hrun).
  apply bind_Done in Hrun as (ex & _ & Hrun).
  destruct ex.
  - apply bind_Done in Hrun as (pth & _ & Hrun). injection Hrun as <-.
    exists current. unfold tracePositions. simpl. by rewrite Hst.
  - apply bind_Done in Hrun as ([[[dst' par'] q'] relaxationCount] & _ & Hrun).
    apply bind_Done in Hrun as (currentDistance & _ & Hrun).
    eapply IH; [|exact Hrun]. cbn. by rewrite fmap_app, Hst.
Qed.

Lemma dijkstra_trace fuel level sol :
  Dijkstra.solveDijkstra fuel level = Done (Some sol) →
  ∃ e, visitedCells sol = tracePositions sol ++ [e].
Proof.
  unfold Dijkstra.solveDijkstra. intros Hrun.
  apply bind_Done in Hrun as ([rows cols] & _ & Hrun).
  apply bind_Done in Hrun as (dst & _ & Hrun).
  eapply dijkstra_loop_trace; [|exact Hrun]. done.
Qed.

(** Depth-first search records every entry with [isBacktracking] false. *)
Definition flagsFalse (steps : list DetailedStep) : Prop :=
  Forall (λ st, ∃ d e, algorithmData st = DFSData d false e) steps.

Lemma eachDir_flags rec level rows cols pos dirs st vn st' vn' res :
  (∀ st1 nxt st2 r2, flagsFalse (DFS.detailedSteps st1) →
     rec st1 nxt = Done (st2, r2) → flagsFalse (DFS.detailedSteps st2)) →
  flagsFalse (DFS.detailedSteps st) →
  DFS.eachDir rec level rows cols pos dirs st vn = Done (st', vn', res) →
  flagsFalse (DFS.detailedSteps st').
Proof.
  intros Hrec. revert st vn. induction dirs as [|d dirs IH]; intros st vn Hst Hrun.
  - simpl in Hrun. by simplify_eq.
  - cbn [DFS.eachDir] in Hrun.
    destruct (outside rows cols (step pos d)); [by eapply IH|].
    apply bind_Done in Hrun as (ok & _ & Hrun).
    destruct (negb ok); [by eapply IH|].
    apply bind_Done in Hrun as (seen & _ & Hrun).
    destruct seen; [by eapply IH|].
    apply bind_Done in Hrun as (par' & _ & Hrun).
    apply bind_Done in Hrun as ([st1 r1] & Hcall & Hrun).
    apply Hrec in Hcall; [|done].
    destruct r1 as [e|]; [by simplify_eq|by eapply IH].
Qed.

Lemma dfs_flags fuel gas level rows cols st pos st' res :
  flagsFalse (DFS.detailedSteps st) →
  DFS.dfs fuel gas level rows cols st pos = Done (st', res) →
  flagsFalse (DFS.detailedSteps st').
Proof.
  revert st pos st' res. induction fuel as [|fuel IH]; intros st pos st' res Hst Hrun;
    [discriminate|].
  cbn [DFS.dfs] in Hrun.
  apply bind_Done in Hrun as (vis' & _ & Hrun).
  apply bind_Done in Hrun as (stackDepth & _ & Hrun).
  apply bind_Done in Hrun as (ex & _ & Hrun).
  destruct ex; [by simplify_eq|].
  apply bind_Done in Hrun as ([[st2 vn] r2] & Heach & Hrun).
  apply eachDir_flags in Heach; [|by eauto|done].
  destruct r2 as [e|]; simplify_eq; [done|]. simpl.
  apply Forall_app. split; [done|]. apply Forall_singleton. simpl. eauto.
Qed.

Lemma dfs_trace_flags fuel level sol :
  DFS.solveDFS fuel level = Done (Some sol) → flagsFalse (detailedSteps sol).
Proof.
  unfold DFS.solveDFS. intros Hrun.
  apply bind_Done in Hrun as ([rows cols] & _ & Hrun).
  apply bind_Done in Hrun as ([st e] & Hcall & Hrun).
  apply dfs_flags in Hcall; [|by apply Forall_nil].
  destruct e as [e|]; [|discriminate].
  apply bind_Done in Hrun as (pth & _ & Hrun). by simplify_eq.
Qed.

(** ** More fuel does not change a result *)

(** [m'] returns whatever [m] returns. *)
Definition extends {A} (m m' : outcome A) : Prop := ∀ a, m = Done a → m' = Done a.

Lemma extends_refl {A} (m : outcome A) : extends m m.
Proof. by intros a. Qed.

Lemma extends_bind {A B} (m m' : outcome A) (k k' : A → outcome B) :
  extends m m' → (∀ a, extends (k a) (k' a)) → extends (bind m k) (bind m' k').
Proof.
  intros Hm Hk b Hrun. apply bind_Done in Hrun as (a & Ha & Hb).
  rewrite (Hm a Ha). simpl. by apply Hk.
Qed.

Lemma levelOf_extends fuel fuel' vis cols temp lvl :
  (fuel ≤ fuel')%nat →
  extends (BFS.levelOf fuel vis cols temp lvl) (BFS.levelOf fuel' vis cols temp lvl).
Proof.
  revert fuel' temp lvl. induction fuel as [|fuel IH]; intros fuel' temp lvl Hle;
    [by intros a|].
  destruct fuel' as [|fuel']; [lia|]. simpl.
  apply extends_bind; [apply extends_refl|]. intros prev.
  case_bool_decide; [apply extends_refl|]. apply IH. lia.
Qed.

Lemma walkBack_extends fuel fuel' vis cols p pth :
  (fuel ≤ fuel')%nat →
  extends (BFS.walkBack fuel vis cols p pth) (BFS.walkBack fuel' vis cols p pth).
Proof.
  revert fuel' p pth. induction fuel as [|fuel IH]; intros fuel' p pth Hle;
    [by intros a|].
  destruct fuel' as [|fuel']; [lia|]. simpl.
  apply extends_bind; [apply extends_refl|]. intros prev.
  case_bool_decide; [apply extends_refl|]. apply IH. lia.
Qed.

Lemma followParents_extends fuel fuel' par pos pth :
  (fuel ≤ fuel')%nat →
  extends (followParents fuel par pos pth) (followParents fuel' par pos pth).
Proof.
  revert fuel' pos pth. induction fuel as [|fuel IH]; intros fuel' pos pth Hle;
    [by intros a|].
  destruct fuel' as [|fuel']; [lia|]. simpl.
  apply extends_bind; [apply extends_refl|]. intros [q|]; [|apply extends_refl].
  apply IH. lia.
Qed.

Lemma depthOf_extends fuel fuel' par pos d :
  (fuel ≤ fuel')%nat →
  extends (DFS.depthOf fuel par pos d) (DFS.depthOf fuel' par pos d).
Proof.
  revert fuel' pos d. induction fuel as [|fuel IH]; intros fuel' pos d Hle;
    [by intros a|].
  destruct fuel' as [|fuel']; [lia|]. simpl.
  apply extends_bind; [apply extends_refl|]. intros [q|]; [|apply extends_refl].
  apply IH. lia.
Qed.

Lemma bfs_loop_extends fuel fuel' gas gas' level rows cols st :
  (fuel ≤ fuel')%nat → (gas ≤ gas')%nat →
  extends (BFS.loop fuel gas level rows cols st) (BFS.loop fuel' gas' level rows cols st).
Proof.
  intros Hle Hgas. revert fuel' st Hle.
  induction fuel as [|fuel IH]; intros fuel' st Hle; [by intros a|].
  destruct fuel' as [|fuel']; [lia|]. cbn [BFS.loop].
  destruct (BFS.queue st) as [|cur rest]; [apply extends_refl|].
  apply extends_bind; [by apply levelOf_extends|]. intros currentLevel.
  apply extends_bind; [apply extends_refl|]. intros [|].
  - apply extends_bind; [by apply walkBack_extends|]. intros pth. apply extends_refl.
  - apply extends_bind; [apply extends_refl|]. intros [[vis' q'] n]. apply IH. lia.
Qed.

Lemma astar_loop_extends fuel fuel' gas gas' level rows cols st :
  (fuel ≤ fuel')%nat → (gas ≤ gas')%nat →
  extends (AStar.loop fuel gas level rows cols st)
    (AStar.loop fuel' gas' level rows cols st).
Proof.
  intros Hle Hgas. revert fuel' st Hle.
  induction fuel as [|fuel IH]; intros fuel' st Hle; [by intros a|].
  destruct fuel' as [|fuel']; [lia|]. cbn [AStar.loop].
  destruct (AStar.openSet st) as [|first others]; [apply extends_refl|].
  apply extends_bind; [apply extends_refl|]. intros [current currentIndex].
  apply extends_bind; [apply extends_refl|]. intros vis'.
  apply extends_bind; [apply extends_refl|]. intros currentG.
  apply extends_bind; [apply extends_refl|]. intros currentF.
  apply extends_bind; [apply extends_refl|]. intros [|].
  - apply extends_bind; [by apply followParents_extends|]. intros pth. apply extends_refl.
  - apply extends_bind; [apply extends_refl|]. intros [[[g' f'] par'] open'].
    apply IH. lia.
Qed.

Lemma dijkstra_loop_extends fuel fuel' gas gas' level rows cols st :
  (fuel ≤ fuel')%nat → (gas ≤ gas')%nat →
  extends (Dijkstra.loop fuel gas level rows cols st)
    (Dijkstra.loop fuel' gas' level rows cols st).
Proof.
  intros Hle Hgas. revert fuel' st Hle.
  induction fuel as [|fuel IH]; intros fuel' st Hle; [by intros a|].
  destruct fuel' as [|fuel']; [lia|]. cbn [Dijkstra.loop].
  destruct (Dijkstra.queue st) as [|first others]; [apply extends_refl|].
  apply extends_bind; [apply extends_refl|]. intros [current currentIndex].
  apply extends_bind; [apply extends_refl|]. intros vis'.
  apply extends_bind; [apply extends_refl|]. intros [|].
  - apply extends_bind; [by apply followParents_extends|]. intros pth. apply extends_refl.
  - apply extends_bind; [apply extends_refl|]. intros [[[dst' par'] q'] n].
    apply extends_bind; [apply extends_refl|]. intros currentDistance.
    apply IH. lia.
Qed.

Lemma eachDir_extends rec rec' level rows cols pos dirs st vn :
  (∀ st1 nxt, extends (rec st1 nxt) (rec' st1 nxt)) →
  extends (DFS.eachDir rec level rows cols pos dirs st vn)
    (DFS.eachDir rec' level rows cols pos dirs st vn).
Proof.
  intros Hrec. revert st vn. induction dirs as [|d dirs IH]; intros st vn;
    [apply extends_refl|].
  cbn [DFS.eachDir]. destruct (outside rows cols (step pos d)); [apply IH|].
  apply extends_bind; [apply extends_refl|]. intros ok.
  destruct (negb ok); [apply IH|].
  apply extends_bind; [apply extends_refl|]. intros [|]; [apply IH|].
  apply extends_bind; [apply extends_refl|]. intros par'.
  apply extends_bind; [apply Hrec|]. intros [st1 [e|]]; [apply extends_refl|apply IH].
Qed.

Lemma dfs_extends fuel fuel' gas gas' level rows cols st pos :
  (fuel ≤ fuel')%nat → (gas ≤ gas')%nat →
  extends (DFS.dfs fuel gas level rows cols st pos)
    (DFS.dfs fuel' gas' level rows cols st pos).
Proof.
  intros Hle Hgas. revert fuel' st pos Hle.
  induction fuel as [|fuel IH]; intros fuel' st pos Hle; [by intros a|].
  destruct fuel' as [|fuel']; [lia|]. cbn [DFS.dfs].
  apply extends_bind; [apply extends_refl|]. intros vis'.
  apply extends_bind; [by apply depthOf_extends|]. intros stackDepth.
  apply extends_bind; [apply extends_refl|]. intros [|]; [apply extends_refl|].
  apply extends_bind; [|intros [[st2 vn] r2]; apply extends_refl].
  apply eachDir_extends. intros st1 nxt. apply IH. lia.
Qed.

Lemma solve_extends fuel fuel' level alg :
  (fuel ≤ fuel')%nat → extends (solve fuel level alg) (solve fuel' level alg).
Proof.
  intros Hle. destruct alg; simpl.
  - unfold BFS.solveBFS. apply extends_bind; [apply extends_refl|]. intros [rows cols].
    apply extends_bind; [apply extends_refl|]. intros vis.
    by apply bfs_loop_extends.
  - unfold DFS.solveDFS. apply extends_bind; [apply extends_refl|]. intros [rows cols].
    apply extends_bind; [by apply dfs_extends|]. intros [st [e|]]; [|apply extends_refl].
    apply extends_bind; [by apply followParents_extends|]. intros pth.
    apply extends_refl.
  - unfold AStar.solveAStar. apply extends_bind; [apply extends_refl|]. intros [rows cols].
    apply extends_bind; [apply extends_refl|]. intros g.
    apply extends_bind; [apply extends_refl|]. intros f.
    by apply astar_loop_extends.
  - unfold Dijkstra.solveDijkstra.
    apply extends_bind; [apply extends_refl|]. intros [rows cols].
    apply extends_bind; [apply extends_refl|]. intros dst.
    by apply dijkstra_loop_extends.
Qed.

(** On a well-formed level, every run with enough fuel returns the result
    of the run with exactly [enough level]. *)
Lemma solve_enough level alg fuel :
  wf level → (enough level ≤ fuel)%nat →
  ∃ res, solve (enough level) level alg = Done res ∧ solve fuel level alg = Done res.
Proof.
  intros Hwf Hfuel.
  destruct (solve_sound level alg (enough level) Hwf (le_n _)) as (res & Hrun & _).
  exists res. split; [done|]. by apply (solve_extends (enough level) fuel).
Qed.

(** ** The game loop *)

Section AppProofs.
Context (level : Level) (Hwf : wf level).
Let rows := nrows level.
Let cols := ncols level.

Lemma DIR_KEY_DIRS key delta : App.DIR_KEY key = Some delta → delta ∈ DIRS.
Proof.
  unfold App.DIR_KEY, DIRS. repeat case_match; intros [= <-];
    rewrite !elem_of_cons; auto.
Qed.

(** One key press: the game is unchanged, or the player has moved along
    an edge and the move has been counted. *)
Lemma handle_step v key g :
  inb rows cols (App.player g) →
  ∃ g', App.handle level v key g = Done g' ∧
        (g' = g ∨
         (edge level (App.player g) (App.player g') ∧
          App.moves g' = S (App.moves g))).
Proof.
  intros Hin. unfold App.handle. destruct v; [by eauto|].
  destruct (App.DIR_KEY key) as [delta|] eqn:Hkey; [|by eauto].
  apply DIR_KEY_DIRS in Hkey.
  rewrite (dims_wf level Hwf). cbn [bind]. fold rows cols.
  destruct (outside (Z.of_nat rows) (Z.of_nat cols) (step (App.player g) delta))
    eqn:Hout; [by eauto|].
  apply outside_inb in Hout.
  destruct (canMoveBetween_total level Hwf _ _ Hin Hout) as [ok Hok].
  rewrite Hok. cbn [bind]. destruct ok; cbn [negb]; [|by eauto].
  eexists. split; [done|]. right. simpl. split; [|done].
  split_and!; [by exists delta|done|done].
Qed.

(** Any sequence of key presses: the handler returns, and the player has
    walked [moves] edges from where the sequence began. *)
Lemma play_from keys g0 n0 :
  inb rows cols (App.player g0) →
  walk (edge level) (start level) (App.player g0) n0 →
  ∃ g, forEach (λ g key, App.handle level false key g) keys g0 = Done g ∧
       inb rows cols (App.player g) ∧
       walk (edge level) (start level) (App.player g)
         (n0 + (App.moves g - App.moves g0)) ∧
       (App.moves g0 ≤ App.moves g ≤ App.moves g0 + length keys)%nat.
Proof.
  revert g0 n0. induction keys as [|key keys IH]; intros g0 n0 Hin Hw.
  - exists g0. simpl. split_and!; [done|done| |lia|lia].
    by replace (n0 + (App.moves g0 - App.moves g0))%nat with n0 by lia.
  - cbn [forEach].
    destruct (handle_step false key g0 Hin) as (g1 & Hrun & Hcase).
    rewrite Hrun. cbn [bind].
    destruct Hcase as [->|[He Hm]].
    + destruct (IH g0 n0 Hin Hw) as (g & Hg & Hgin & Hgw & Hgm).
      exists g. split_and!; [done|done|done|lia|simpl; lia].
    + destruct (IH g1 (S n0)) as (g & Hg & Hgin & Hgw & Hgm).
      * by eapply edge_inb.
      * by eapply walk_more.
      * exists g. split_and!; [done|done| |lia|simpl; lia].
        replace (n0 + (App.moves g - App.moves g0))%nat
          with (S n0 + (App.moves g - App.moves g1))%nat by lia.
        done.
Qed.

Lemma play_walk keys :
  ∃ g, App.play level keys = Done g ∧
       inb rows cols (App.player g) ∧
       walk (edge level) (start level) (App.player g) (App.moves g) ∧
       (App.moves g ≤ length keys)%nat.
Proof.
  destruct (play_from keys (App.newGame level) 0%nat) as (g & Hg & Hin & Hw & Hm).
  - apply Hwf.
  - apply walk_here.
  - exists g. simpl in Hw, Hm. rewrite Nat.sub_0_r in Hw.
    split_and!; [done|done|done|lia].
Qed.

(** The game's exit test against that of the solvers: they agree on a
    level with wall data; without, the game also asks for a cell of
    value 0. *)
Lemma reachedExit_spec p :
  inb rows cols p →
  (App.reachedExit level p = Done true ↔
   exitAt level p ∧ (cells level = None → mget (grid level) p = Some 0)).
Proof.
  intros Hin. unfold App.reachedExit, exitAt, canExit. fold rows cols.
  destruct (cells level) as [cs|] eqn:Hcs.
  - rewrite (dims_wf level Hwf). cbn [bind]. fold rows cols. naive_solver.
  - assert (Hb : (if (r p =? 0) || (r p =? Z.of_nat (length (grid level)) - 1)
                       || (c p =? 0)
                  then Done true
                  else row0 <- fromOption (grid level !! 0%nat);
                       Done (c p =? Z.of_nat (length row0) - 1))
                 = Done ((r p =? 0) || (c p =? 0) || (r p =? Z.of_nat rows - 1)
                         || (c p =? Z.of_nat cols - 1))).
    { pose proof (dims_wf level Hwf) as Hd. unfold dims in Hd.
      fold (nrows level). fold rows.
      assert (Hcols : cols = length (default [] (grid level !! 0%nat))) by done.
      destruct (grid level !! 0%nat) as [row0|] eqn:H0; [|discriminate].
      cbn [bind fromOption]. simpl in Hcols. rewrite <- Hcols.
      destruct (r p =? 0), (c p =? 0), (r p =? Z.of_nat rows - 1); simpl; try done. }
    rewrite Hb. cbn [bind].
    destruct Hin as [Hr Hc].
    rewrite bool_decide_eq_true_2 by lia.
    destruct (lookup_lt_is_Some_2 (grid level) (Z.to_nat (r p))) as [row Hrow].
    { fold (nrows level). fold rows. lia. }
    rewrite Hrow. cbn [bind fromOption].
    assert (Hg : mget (grid level) p = row !! Z.to_nat (c p)).
    { unfold mget. rewrite bool_decide_eq_true_2 by lia. by rewrite Hrow. }
    rewrite Hg.
    destruct ((r p =? 0) || (c p =? 0) || (r p =? Z.of_nat rows - 1)
              || (c p =? Z.of_nat cols - 1)).
    + split.
      * intros [= Hv]. apply bool_decide_eq_true in Hv as [_ Hv]. by split.
      * intros [_ Hv]. f_equal. apply bool_decide_eq_true. split; [lia|by apply Hv].
    + split; [discriminate|]. by intros [[=] _].
Qed.
End AppProofs.

(** Stepping through the visited cells: a step change keeps the step
    within [0, length - 1]. *)
Lemma handleStepChange_range vc delta prev :
  0 ≤ prev < Z.of_nat (length vc) →
  0 ≤ App.handleStepChange vc delta prev < Z.of_nat (length vc).
Proof.
  intros Hp. unfold App.handleStepChange.
  destruct (Z.ltb_spec (prev + delta) 0); [lia|].
  destruct (Z.leb_spec (Z.of_nat (length vc)) (prev + delta)); lia.
Qed.

Lemma stepChanges_range vc deltas step0 :
  0 ≤ step0 < Z.of_nat (length vc) →
  0 ≤ foldl (λ s d, App.handleStepChange vc d s) step0 deltas
    < Z.of_nat (length vc).
Proof.
  revert step0. induction deltas as [|d ds IH]; intros step0 H0; [done|].
  simpl. apply IH. by apply handleStepChange_range.
Qed.

(** The last entry of a duplicate-free list lies in no proper prefix. *)
Lemma last_not_in_take (l : list Pos) e k :
  NoDup l → last l = Some e → (k < length l)%nat → e ∉ take k l.
Proof.
  intros Hnd Hlast Hk Hin.
  destruct l as [|x l] using rev_ind; [discriminate|]. clear IHl.
  rewrite last_snoc in Hlast. injection Hlast as ->.
  rewrite length_app in Hk. simpl in Hk.
  rewrite take_app_le in Hin by lia.
  apply NoDup_app in Hnd as (_ & Hd & _).
  apply (Hd e); [|constructor].
  apply elem_of_take in Hin as (i & Hi & _). by eapply list_elem_of_lookup_2.
Qed.
(** ** Depth-first search visits every cell it can reach *)

Section DFSComplete.
Context (level : Level) (Hwf : wf level).
Let rows := nrows level.
Let cols := ncols level.
Let s := start level.

(** The cells visited since [VC] are no exits and have all their
    neighbours visited. *)
Definition closedNew (VC VC' : list Pos) : Prop :=
  ∀ x, x ∈ VC' → x ∉ VC →
    ¬ exitAt level x ∧ ∀ y, edge level x y → y ∈ VC'.

Lemma closedNew_refl VC : closedNew VC VC.
Proof. by intros x Hx Hnx. Qed.

Lemma closedNew_trans VC1 VC2 VC3 :
  (∀ x, x ∈ VC2 → x ∈ VC3) →
  closedNew VC1 VC2 → closedNew VC2 VC3 → closedNew VC1 VC3.
Proof.
  intros Hsub H12 H23 x Hx Hnx.
  destruct (decide (x ∈ VC2)) as [Hx2|Hx2].
  - destruct (H12 x Hx2 Hnx) as [Hne Hedges]. split; [done|].
    intros y Hy. by apply Hsub, Hedges.
  - by apply H23.
Qed.

Definition dpostC (st : DFS.state) (pos : Pos) (st' : DFS.state)
    (res : option Pos) : Prop :=
  dpost level st pos st' res ∧
  (res = None → closedNew (DFS.visitedCells st) (DFS.visitedCells st')).

Lemma eachDir_closed rec fuel pos m :
  (∀ st nxt, dpre level fuel st nxt →
     ∃ st' res, rec st nxt = Done (st', res) ∧ dpostC st nxt st' res) →
  (rows * cols - m ≤ fuel)%nat →
  ∀ dirs st vn,
    (∀ d, d ∈ dirs → d ∈ DIRS) →
    DInv level st → pos ∈ DFS.visitedCells st →
    (m < length (DFS.visitedCells st))%nat →
    ∃ st' vn' res,
      DFS.eachDir rec level (Z.of_nat rows) (Z.of_nat cols) pos dirs st vn
        = Done (st', vn', res) ∧
      DInv level st' ∧
      (∀ x, x ∈ DFS.visitedCells st → x ∈ DFS.visitedCells st') ∧
      (length (DFS.visitedCells st) ≤ length (DFS.visitedCells st'))%nat ∧
      (∀ e, res = Some e → e ∈ DFS.visitedCells st' ∧ exitAt level e) ∧
      (res = None →
         closedNew (DFS.visitedCells st) (DFS.visitedCells st') ∧
         ∀ d, d ∈ dirs → edge level pos (step pos d) →
              step pos d ∈ DFS.visitedCells st').
Proof.
  intros Hrec Hm dirs. induction dirs as [|d dirs IH]; intros st vn Hds I Hpos Hlen.
  - exists st, vn, None. split_and!; try done.
    intros _. split; [apply closedNew_refl|]. by intros d ?%elem_of_nil.
  - cbn [DFS.eachDir]. set (nxt := step pos d).
    assert (Hds' : ∀ d', d' ∈ dirs → d' ∈ DIRS).
    { intros d' Hd'. apply Hds. by constructor. }
    (* a direction that is passed over *)
    assert (Hskip : (edge level pos nxt → nxt ∈ DFS.visitedCells st) →
      ∃ st' vn' res,
        DFS.eachDir rec level (Z.of_nat rows) (Z.of_nat cols) pos dirs st vn
          = Done (st', vn', res) ∧
        DInv level st' ∧
        (∀ x, x ∈ DFS.visitedCells st → x ∈ DFS.visitedCells st') ∧
        (length (DFS.visitedCells st) ≤ length (DFS.visitedCells st'))%nat ∧
        (∀ e, res = Some e → e ∈ DFS.visitedCells st' ∧ exitAt level e) ∧
        (res = None →
           closedNew (DFS.visitedCells st) (DFS.visitedCells st') ∧
           ∀ d', d' ∈ d :: dirs → edge level pos (step pos d') →
                 step pos d' ∈ DFS.visitedCells st')).
    { intros Hd.
      destruct (IH st vn Hds' I Hpos Hlen)
        as (st' & vn' & res & Hrun & HI' & Hmono & Hlen' & Hres & Hcl).
      exists st', vn', res. split_and!; try done.
      intros Hnone. destruct (Hcl Hnone) as [Hc Hrest]. split; [done|].
      intros d' Hd' He. apply elem_of_cons in Hd' as [->|Hd']; [|by apply Hrest].
      by apply Hmono, Hd. }
    destruct (outside (Z.of_nat rows) (Z.of_nat cols) nxt) eqn:Hout.
    { apply Hskip. intros (_ & Hin & _). by apply outside_not_inb in Hout. }
    apply outside_inb in Hout.
    destruct I as [dep I].
    pose proof (dinv_inb level _ _ _ _ pos I Hpos) as Hpin.
    destruct (canMoveBetween_total level Hwf pos nxt Hpin Hout) as [ok Hok].
    rewrite Hok. cbn [bind]. destruct ok; cbn [negb].
    2:{ apply Hskip. intros (_ & _ & Hmv). congruence. }
    destruct (mread_inb _ _ _ nxt (d_vis level _ _ _ _ I) Hout) as (seen & Hread & Hseen).
    rewrite Hread. cbn [bind]. destruct seen.
    { apply Hskip. intros _. by apply (d_vc level _ _ _ _ I). }
    assert (Hnvc : nxt ∉ DFS.visitedCells st).
    { intros Hin. apply (d_vc level _ _ _ _ I) in Hin. congruence. }
    rewrite (mwrite_inb rows cols) by (done || apply I). cbn [bind].
    pose proof (dinv_bounded level _ _ _ _ I) as Hb.
    pose proof (dfs_set_parent level _ _ _ _ nxt pos I Hnvc Hout) as I1.
    assert (Hpend1 : pend level (mset (DFS.parent st) nxt (Some pos))
                       (DFS.visitedCells st) nxt).
    { assert (Hd : d ∈ DIRS) by (apply Hds; constructor).
      right. exists pos. split_and!; [| |done].
      - erewrite mget_mset_inb by (done || apply I). by rewrite decide_True.
      - split_and!; [by exists d|done|done]. }
    assert (Hb1 : (S (length (DFS.visitedCells st)) ≤ rows * cols)%nat).
    { destruct (dfs_enter level _ _ _ _ nxt I1 Hnvc Hout Hpend1) as [dep' I'].
      apply dinv_bounded in I'. rewrite length_app in I'. simpl in I'.
      fold rows cols in I'. lia. }
    destruct (Hrec (DFS.mkState (DFS.visited st)
                      (mset (DFS.parent st) nxt (Some pos))
                      (DFS.visitedCells st) (DFS.detailedSteps st)
                      (DFS.stepNumber st)) nxt)
      as (st' & res & Hrun & (HI' & Hmono & Hnin & Hgrow & Hres) & Hcl).
    { split_and!; simpl; [by exists dep|done|done|done|fold rows cols; lia]. }
    rewrite Hrun. cbn [bind]. simpl in Hmono, Hgrow, Hcl. destruct res as [e|].
    + eexists _, _, _. split; [done|]. split_and!; [done|done|lia| |done].
      intros e' [= <-]. by apply Hres.
    + destruct (IH st' (S vn) Hds' HI')
        as (st2 & vn2 & res2 & Hrun2 & HI2 & Hmono2 & Hlen2 & Hres2 & Hcl2);
        [by apply Hmono|lia|].
      eexists _, _, _. split; [done|]. split_and!; [done| |lia|done|].
      * intros x Hx. auto.
      * intros Hnone. destruct (Hcl2 Hnone) as [Hc2 Hrest]. split.
        -- eapply closedNew_trans; [exact Hmono2|by apply Hcl|done].
        -- intros d' Hd' He. apply elem_of_cons in Hd' as [->|Hd'];
             [by apply Hmono2|by apply Hrest].
Qed.

Lemma dfs_closed fuel gas :
  (rows * cols < gas)%nat →
  ∀ st pos, dpre level fuel st pos →
    ∃ st' res, DFS.dfs fuel gas level (Z.of_nat rows) (Z.of_nat cols) st pos
                 = Done (st', res) ∧ dpostC st pos st' res.
Proof.
  intros Hgas. induction fuel as [|fuel IH];
    intros st pos ([dep I] & Hpos & Hin & Hpend & Hfuel); [lia|].
  fold rows cols in Hfuel.
  destruct st as [vis par VC steps sn]. simpl in I, Hpos, Hpend, Hfuel.
  cbn [DFS.dfs DFS.visited DFS.parent DFS.visitedCells DFS.detailedSteps
       DFS.stepNumber].
  rewrite (mwrite_inb rows cols) by (done || apply I). cbn [bind].
  destruct (dfs_enter level _ _ _ _ pos I Hpos Hin Hpend) as [dep' I'].
  pose proof (dinv_bounded level _ _ _ _ I') as Hb. fold rows cols in Hb.
  assert (Hpv : pos ∈ VC ++ [pos]) by (apply elem_of_app; right; constructor).
  rewrite (depthOf_chain (edge level) s par (λ x, x ∈ VC ++ [pos]) dep'
             (d_chain level _ _ _ _ I')); [|done|].
  2:{ pose proof (d_bound level _ _ _ _ I' pos Hpv). lia. }
  cbn [bind].
  destruct (canExit_total level Hwf pos Hin) as [ex Hex]. fold rows cols in Hex.
  rewrite Hex. cbn [bind]. destruct ex.
  - eexists _, _. split; [done|]. split; [|done]. unfold dpost. simpl.
    split_and!; [by exists dep'| |done| |].
    + intros x Hx. apply elem_of_app. by left.
    + rewrite length_app. simpl. lia.
    + intros e [= <-]. done.
  - destruct (eachDir_closed (DFS.dfs fuel gas level (Z.of_nat rows) (Z.of_nat cols))
                fuel pos (length VC) IH) with
        (dirs := DIRS) (vn := 0%nat)
        (st := DFS.mkState (mset vis pos true) par (VC ++ [pos]) steps sn)
      as (st2 & vn2 & res2 & Hrun & HI2 & Hmono & Hlen2 & Hres & Hcl).
    + lia.
    + done.
    + by exists dep'.
    + done.
    + simpl. rewrite length_app. simpl. lia.
    + rewrite Hrun. cbn [bind]. simpl in Hmono, Hlen2, Hcl.
      assert (Hsub : ∀ x, x ∈ VC ++ [pos] → x ∈ DFS.visitedCells st2) by done.
      rewrite length_app in Hlen2. simpl in Hlen2.
      destruct HI2 as [dep2 I2].
      destruct res2 as [e|].
      * eexists _, _. split; [done|]. split; [|done]. unfold dpost. simpl.
        split_and!; [by exists dep2| |by auto|lia|done].
        intros x Hx. apply Hsub, elem_of_app. by left.
      * eexists _, _. split; [done|]. split.
        -- unfold dpost. simpl.
           split_and!; [by exists dep2| |by auto|lia|done].
           intros x Hx. apply Hsub, elem_of_app. by left.
        -- intros _. simpl. destruct (Hcl eq_refl) as [Hc Hdirs].
           intros x Hx Hnx. destruct (decide (x = pos)) as [->|Hne].
           ++ split.
              ** unfold exitAt. fold rows cols. rewrite Hex. discriminate.
              ** intros y Hy. pose proof Hy as ((d & Hd & ->) & _).
                 by apply Hdirs.
           ++ apply Hc; [done|]. rewrite elem_of_app, list_elem_of_singleton.
              tauto.
Qed.

(** Depth-first search that finds no exit has visited every cell that
    can be reached: none of them is an exit. *)
Lemma solveDFS_none fuel :
  (rows * cols < fuel)%nat →
  DFS.solveDFS fuel level = Done None → ¬ solvable level.
Proof.
  intros Hfuel. unfold DFS.solveDFS.
  rewrite (dims_wf level Hwf). cbn [bind]. fold rows cols.
  pose proof (proj1 Hwf) as Hs. fold rows cols s in Hs.
  destruct (dfs_closed fuel fuel Hfuel
              (DFS.mkState (mfill rows cols false) (mfill rows cols None) [] [] 0%nat) s)
    as (st' & res & Hrun & (_ & _ & Hsin & _ & _) & Hcl).
  { split_and!; simpl; [|apply not_elem_of_nil|done| |fold rows cols; lia].
    - exists (λ _, 0%nat). split; simpl.
      + apply mfill_rect.
      + apply mfill_rect.
      + intros x. split; [|by intros ?%elem_of_nil].
        intros Hx. by apply mget_mfill_Some in Hx as [? _].
      + apply NoDup_nil_2.
      + by intros x ?%elem_of_nil.
      + by intros x ?%elem_of_nil.
    - left. split_and!; [|done|done]. by apply mget_mfill. }
  fold s. rewrite Hrun. cbn [bind]. destruct res as [e|].
  { intros Hr. apply bind_Done in Hr as (pth & _ & [=]). }
  intros _ (e & n & Hw & He). simpl in Hcl. specialize (Hcl eq_refl).
  assert (Hall : ∀ x k, walk (edge level) s x k → x ∈ DFS.visitedCells st').
  { intros x k. induction 1 as [|q t k Hq IHq Hqt]; [done|].
    destruct (Hcl q IHq) as [_ Hedges]; [apply not_elem_of_nil|]. by apply Hedges. }
  destruct (Hcl e (Hall e n Hw)) as [Hne _]; [apply not_elem_of_nil|]. done.
Qed.
End DFSComplete.

(** Every solver finds an exit that can be reached. *)
Lemma solve_complete level alg fuel :
  wf level → (enough level ≤ fuel)%nat → solvable level →
  ∃ sol, solve fuel level alg = Done (Some sol).
Proof.
  intros Hwf Hfuel Hsolv.
  pose proof (enough_fuel _ _ Hfuel) as Hf. destruct alg; simpl.
  - destruct (solveBFS_spec level Hwf fuel Hf) as (res & Hrun & Hpost).
    destruct (post_solvable _ _ Hpost Hsolv) as [sol ->]. eauto.
  - destruct (solveDFS_spec level Hwf fuel Hf) as ([sol|] & Hrun & _); [eauto|].
    by destruct (solveDFS_none level Hwf fuel Hf Hrun).
  - destruct (solveAStar_spec level Hwf fuel Hf) as (res & Hrun & Hpost).
    destruct (post_solvable _ _ Hpost Hsolv) as [sol ->]. eauto.
  - destruct (solveDijkstra_spec level Hwf fuel Hf) as (res & Hrun & Hpost).
    destruct (post_solvable _ _ Hpost Hsolv) as [sol ->]. eauto.
Qed.
(** ** The generated maze: every cell carved, all cells connected, one exit *)

Lemma walk_mono (E E' : Pos → Pos → Prop) a b n :
  (∀ p q, E p q → E' p q) → walk E a b n → walk E' a b n.
Proof. intros H. induction 1; [constructor|]. eapply walk_more; eauto. Qed.

Lemma walk_sym (E : Pos → Pos → Prop) a b n :
  (∀ p q, E p q → E q p) → walk E a b n → walk E b a n.
Proof.
  intros H. induction 1 as [|q t n Hq IH Hqt]; [constructor|].
  replace (S n) with (1 + n)%nat by lia.
  eapply walk_trans; [|exact IH]. eapply walk_more; [constructor|]. by apply H.
Qed.

(** A set of cells closed under the four moves within the grid holds a
    whole line of cells once it holds one end of it. *)
Lemma line_reach height width (P : Pos → Prop) d :
  d ∈ DIRS →
  (∀ x d, P x → d ∈ DIRS → inb height width (step x d) → P (step x d)) →
  ∀ (k : nat) x, P x → inb height width x →
    inb height width (mkPos (r x + Z.of_nat k * r d) (c x + Z.of_nat k * c d)) →
    P (mkPos (r x + Z.of_nat k * r d) (c x + Z.of_nat k * c d)).
Proof.
  intros Hd Hstep k. induction k as [|k IH]; intros x Hx Hin Hend.
  - replace (mkPos _ _) with x; [done|]. destruct x; simpl. f_equal; lia.
  - assert (Hmid : inb height width (step x d)).
    { unfold DIRS in Hd. rewrite !elem_of_cons, elem_of_nil in Hd.
      unfold inb, step in *. simpl in *.
      destruct Hd as [->|[->|[->|[->|[]]]]]; simpl in *; lia. }
    assert (Heq : mkPos (r x + Z.of_nat (S k) * r d) (c x + Z.of_nat (S k) * c d)
                  = mkPos (r (step x d) + Z.of_nat k * r d)
                      (c (step x d) + Z.of_nat k * c d)).
    { unfold step. simpl. f_equal; lia. }
    rewrite Heq in *. apply IH; [by apply Hstep|done|done].
Qed.

Lemma grid_reach height width (P : Pos → Prop) p0 :
  inb height width p0 → P p0 →
  (∀ x d, P x → d ∈ DIRS → inb height width (step x d) → P (step x d)) →
  ∀ q, inb height width q → P q.
Proof.
  intros Hp0 HP Hstep q Hq.
  assert (Hup : mkPos (-1) 0 ∈ DIRS) by (unfold DIRS; rewrite !elem_of_cons; auto).
  assert (Hdown : mkPos 1 0 ∈ DIRS) by (unfold DIRS; rewrite !elem_of_cons; auto).
  assert (Hleft : mkPos 0 (-1) ∈ DIRS) by (unfold DIRS; rewrite !elem_of_cons; auto).
  assert (Hright : mkPos 0 1 ∈ DIRS) by (unfold DIRS; rewrite !elem_of_cons; auto).
  set (mid := mkPos (r q) (c p0)).
  assert (Hmid : inb height width mid) by (unfold inb, mid in *; simpl; lia).
  assert (HPmid : P mid).
  { destruct (Z.le_gt_cases (r p0) (r q)) as [Hle|Hgt].
    - pose proof (line_reach height width P (mkPos 1 0) Hdown
                    Hstep (Z.to_nat (r q - r p0)) p0 HP Hp0) as H.
      simpl in H.
      replace (mkPos _ _) with mid in H; [by apply H|].
      unfold mid. f_equal; lia.
    - pose proof (line_reach height width P (mkPos (-1) 0) Hup
                    Hstep (Z.to_nat (r p0 - r q)) p0 HP Hp0) as H.
      simpl in H.
      replace (mkPos _ _) with mid in H; [by apply H|].
      unfold mid. f_equal; lia. }
  destruct (Z.le_gt_cases (c p0) (c q)) as [Hle|Hgt].
  - pose proof (line_reach height width P (mkPos 0 1) Hright
                  Hstep (Z.to_nat (c q - c p0)) mid HPmid Hmid) as H.
    simpl in H.
    replace (mkPos _ _) with q in H; [by apply H|].
    destruct q; simpl in *. f_equal; lia.
  - pose proof (line_reach height width P (mkPos 0 (-1)) Hleft
                  Hstep (Z.to_nat (c p0 - c q)) mid HPmid Hmid) as H.
    simpl in H.
    replace (mkPos _ _) with q in H; [by apply H|].
    destruct q; simpl in *. f_equal; lia.
Qed.

Lemma mget_map {A B} (f : A → B) (m : list (list A)) p :
  mget (map (map f) m) p = f <$> mget m p.
Proof.
  unfold mget. case_bool_decide; [|done].
  change (map (map f) m) with (fmap (M:=list) (fmap (M:=list) f) m).
  rewrite list_lookup_fmap.
  destruct (m !! Z.to_nat (r p)) as [row|]; simpl; [|done].
  apply list_lookup_fmap.
Qed.
Section GeneratorCoverage.
Context (rng : Gen.Rng) (difficulty : Gen.Difficulty) (width height : nat).

(** [w'] has no wall where [w] has none. *)
Definition wle (w' w : Walls) : Prop :=
  (top w = false → top w' = false) ∧ (right w = false → right w' = false) ∧
  (bottom w = false → bottom w' = false) ∧ (left w = false → left w' = false).

(** From [cs] to [cs'] walls have only been cleared. *)
Definition opens (cs cs' : list (list MazeCell)) : Prop :=
  ∀ x w, wallsAt cs x = Some w → ∃ w', wallsAt cs' x = Some w' ∧ wle w' w.

(** The cell [q] of the grid is a neighbour of [p], and the wall of [p]
    facing it is clear. *)
Definition passage (cs : list (list MazeCell)) (p q : Pos) : Prop :=
  ∃ sd w, facing p q = Some sd ∧ wallsAt cs p = Some w ∧ sd w = false ∧
          inb height width q.

(** Every wall on the outline of the grid stands. *)
Definition borderClosed (cs : list (list MazeCell)) : Prop :=
  ∀ p w, wallsAt cs p = Some w →
    (r p = 0 → top w = true) ∧ (r p = Z.of_nat height - 1 → bottom w = true) ∧
    (c p = 0 → left w = true) ∧ (c p = Z.of_nat width - 1 → right w = true).

Lemma wle_refl w : wle w w.
Proof. by unfold wle. Qed.

Lemma opens_refl cs cs' : (∀ x, wallsAt cs' x = wallsAt cs x) → opens cs cs'.
Proof. intros H x w Hw. exists w. rewrite H. split; [done|apply wle_refl]. Qed.

Lemma passage_opens cs cs' p q : opens cs cs' → passage cs p q → passage cs' p q.
Proof.
  intros Ho (sd & w & Hf & Hw & Hsd & Hq).
  destruct (Ho _ _ Hw) as (w' & Hw' & Ht & Hr & Hb & Hl).
  exists sd, w'. split_and!; try done.
  destruct (facing_cases _ _ _ Hf) as [[_ ->]|[[_ ->]|[[_ ->]|[_ ->]]]]; auto.
Qed.

Lemma wallsAt_inb cs p w :
  rect height width cs → wallsAt cs p = Some w → inb height width p.
Proof.
  intros Hr. unfold wallsAt. destruct (mget cs p) eqn:Hp; [|done].
  intros _. by eapply mget_Some_inb.
Qed.

Lemma facing_step p d :
  d ∈ DIRS → ∃ sd, facing p (step p d) = Some sd ∧
    ((d = mkPos (-1) 0 ∧ sd = top) ∨ (d = mkPos 1 0 ∧ sd = bottom) ∨
     (d = mkPos 0 (-1) ∧ sd = left) ∨ (d = mkPos 0 1 ∧ sd = right)).
Proof.
  unfold DIRS. rewrite !elem_of_cons, elem_of_nil. destruct p as [pr pc].
  intros [->|[->|[->|[->|[]]]]]; unfold facing, step; simpl;
    repeat case_bool_decide; simplify_eq; eauto 10; lia.
Qed.

Lemma facing_back p q sd : facing p q = Some sd → ∃ sd', facing q p = Some sd'.
Proof.
  intros H. destruct p as [pr pc].
  destruct (facing_cases _ _ _ H) as [[-> _]|[[-> _]|[[-> _]|[-> _]]]];
    unfold facing, step; simpl; repeat case_bool_decide; eauto;
    exfalso;
    match goal with
    | Hne : _ ≠ _ |- _ => by (apply Hne; f_equal; lia)
    end.
Qed.

(** Two cells whose walls are replaced by walls with fewer sides. *)
Lemma two_cleared cs cs' p q wp wq wp' wq' :
  wallsAt cs p = Some wp → wallsAt cs q = Some wq →
  (∀ x, wallsAt cs' x =
     if decide (x = p) then Some wp'
     else if decide (x = q) then Some wq' else wallsAt cs x) →
  wle wp' wp → wle wq' wq → opens cs cs'.
Proof.
  intros Hp Hq Hx Hlp Hlq x w Hw. rewrite Hx.
  repeat case_decide; simplify_eq; eauto using wle_refl.
Qed.

Lemma two_border cs cs' p q wp wq wp' wq' :
  wallsAt cs p = Some wp → wallsAt cs q = Some wq →
  (∀ x, wallsAt cs' x =
     if decide (x = p) then Some wp'
     else if decide (x = q) then Some wq' else wallsAt cs x) →
  borderClosed cs →
  ((r p = 0 → top wp' = true) ∧ (r p = Z.of_nat height - 1 → bottom wp' = true) ∧
   (c p = 0 → left wp' = true) ∧ (c p = Z.of_nat width - 1 → right wp' = true)) →
  ((r q = 0 → top wq' = true) ∧ (r q = Z.of_nat height - 1 → bottom wq' = true) ∧
   (c q = 0 → left wq' = true) ∧ (c q = Z.of_nat width - 1 → right wq' = true)) →
  borderClosed cs'.
Proof.
  intros Hp Hq Hx Hb Hbp Hbq x w. rewrite Hx.
  repeat case_decide; intros Hw; simplify_eq; auto.
Qed.

(** What [removeWalls] does between a cell and its neighbour: walls are
    only cleared, the passage between the two is open, and the outline of
    the grid is untouched. *)
Lemma removeWalls_opens cs current next cs' d :
  d ∈ DIRS → next = step current d →
  inb height width current → inb height width next →
  Gen.removeWalls cs current next = Done cs' →
  opens cs cs' ∧ passage cs' current next ∧ (borderClosed cs → borderClosed cs').
Proof.
  intros Hd -> Hcin Hnin Hrun. unfold Gen.removeWalls in Hrun.
  assert (Hne : current ≠ step current d).
  { intros Heq. symmetry in Heq. by apply step_not_here in Heq. }
  destruct (facing_step current d Hd) as (sd & Hf & Hsd).
  unfold DIRS in Hd. rewrite !elem_of_cons, elem_of_nil in Hd.
  assert (Hpass : ∀ wc', wallsAt cs' current = Some wc' → sd wc' = false →
                         passage cs' current (step current d)).
  { intros wc' Hw Hs. by exists sd, wc'. }
  destruct current as [cr cc].
  destruct Hd as [->|[->|[->|[->|[]]]]]; unfold step in *; simpl in *;
    destruct Hsd as [[[=] ->]|[[[=] ->]|[[[=] ->]|[[=] ->]]]].
  - rewrite (proj2 (Z.ltb_lt _ _)) in Hrun by lia.
    apply bind_Done in Hrun as (cs1 & H1 & H2).
    destruct (modify_twice _ _ _ _ _ _ _ Hne H1 H2) as (cp & cq & Hcp & Hcq & Hx).
    assert (Hwp : wallsAt cs (mkPos cr cc) = Some (walls cp))
      by (unfold wallsAt; by rewrite Hcp).
    assert (Hwq : wallsAt cs (mkPos (cr + -1) (cc + 0)) = Some (walls cq))
      by (unfold wallsAt; by rewrite Hcq).
    split_and!.
    + eapply two_cleared; [exact Hwp|exact Hwq|exact Hx| |]; by unfold wle.
    + eapply Hpass; [rewrite Hx; by rewrite decide_True|done].
    + intros Hb. destruct (Hb _ _ Hwp) as (? & ? & ? & ?).
      destruct (Hb _ _ Hwq) as (? & ? & ? & ?).
      eapply two_border; [exact Hwp|exact Hwq|exact Hx|done| |];
        unfold inb in *; simpl in *; split_and!; auto; lia.
  - rewrite (proj2 (Z.ltb_ge _ _)) in Hrun by lia.
    rewrite (proj2 (Z.ltb_lt _ _)) in Hrun by lia.
    apply bind_Done in Hrun as (cs1 & H1 & H2).
    destruct (modify_twice _ _ _ _ _ _ _ Hne H1 H2) as (cp & cq & Hcp & Hcq & Hx).
    assert (Hwp : wallsAt cs (mkPos cr cc) = Some (walls cp))
      by (unfold wallsAt; by rewrite Hcp).
    assert (Hwq : wallsAt cs (mkPos (cr + 1) (cc + 0)) = Some (walls cq))
      by (unfold wallsAt; by rewrite Hcq).
    split_and!.
    + eapply two_cleared; [exact Hwp|exact Hwq|exact Hx| |]; by unfold wle.
    + eapply Hpass; [rewrite Hx; by rewrite decide_True|done].
    + intros Hb. destruct (Hb _ _ Hwp) as (? & ? & ? & ?).
      destruct (Hb _ _ Hwq) as (? & ? & ? & ?).
      eapply two_border; [exact Hwp|exact Hwq|exact Hx|done| |];
        unfold inb in *; simpl in *; split_and!; auto; lia.
  - rewrite (proj2 (Z.ltb_ge _ _)) in Hrun by lia.
    rewrite (proj2 (Z.ltb_ge _ _)) in Hrun by lia.
    rewrite (proj2 (Z.ltb_lt _ _)) in Hrun by lia.
    apply bind_Done in Hrun as (cs1 & H1 & H2).
    destruct (modify_twice _ _ _ _ _ _ _ Hne H1 H2) as (cp & cq & Hcp & Hcq & Hx).
    assert (Hwp : wallsAt cs (mkPos cr cc) = Some (walls cp))
      by (unfold wallsAt; by rewrite Hcp).
    assert (Hwq : wallsAt cs (mkPos (cr + 0) (cc + -1)) = Some (walls cq))
      by (unfold wallsAt; by rewrite Hcq).
    split_and!.
    + eapply two_cleared; [exact Hwp|exact Hwq|exact Hx| |]; by unfold wle.
    + eapply Hpass; [rewrite Hx; by rewrite decide_True|done].
    + intros Hb. destruct (Hb _ _ Hwp) as (? & ? & ? & ?).
      destruct (Hb _ _ Hwq) as (? & ? & ? & ?).
      eapply two_border; [exact Hwp|exact Hwq|exact Hx|done| |];
        unfold inb in *; simpl in *; split_and!; auto; lia.
  - rewrite (proj2 (Z.ltb_ge _ _)) in Hrun by lia.
    rewrite (proj2 (Z.ltb_ge _ _)) in Hrun by lia.
    rewrite (proj2 (Z.ltb_ge _ _)) in Hrun by lia.
    rewrite (proj2 (Z.ltb_lt _ _)) in Hrun by lia.
    apply bind_Done in Hrun as (cs1 & H1 & H2).
    destruct (modify_twice _ _ _ _ _ _ _ Hne H1 H2) as (cp & cq & Hcp & Hcq & Hx).
    assert (Hwp : wallsAt cs (mkPos cr cc) = Some (walls cp))
      by (unfold wallsAt; by rewrite Hcp).
    assert (Hwq : wallsAt cs (mkPos (cr + 0) (cc + 1)) = Some (walls cq))
      by (unfold wallsAt; by rewrite Hcq).
    split_and!.
    + eapply two_cleared; [exact Hwp|exact Hwq|exact Hx| |]; by unfold wle.
    + eapply Hpass; [rewrite Hx; by rewrite decide_True|done].
    + intros Hb. destruct (Hb _ _ Hwp) as (? & ? & ? & ?).
      destruct (Hb _ _ Hwq) as (? & ? & ? & ?).
      eapply two_border; [exact Hwp|exact Hwq|exact Hx|done| |];
        unfold inb in *; simpl in *; split_and!; auto; lia.
Qed.

Lemma unvisited_complete cs current ds acc nbs :
  forEach (Gen.unvisitedNeighbor cs (Z.of_nat width) (Z.of_nat height) current) ds acc
    = Done nbs →
  (∀ x, x ∈ acc → x ∈ nbs) ∧
  ∀ d, d ∈ ds → inb height width (step current d) →
       visitedAt cs (step current d) = false → step current d ∈ nbs.
Proof.
  revert acc. induction ds as [|d ds IH]; intros acc Hrun.
  - simpl in Hrun. simplify_eq. split; [done|]. by intros d ?%elem_of_nil.
  - cbn [forEach] in Hrun. apply bind_Done in Hrun as (acc1 & H1 & H2).
    destruct (IH acc1 H2) as [Hsub Hrest].
    unfold Gen.unvisitedNeighbor in H1.
    destruct (outside (Z.of_nat height) (Z.of_nat width) (step current d)) eqn:Hout;
      cbn [negb] in H1.
    + simplify_eq. split; [done|]. intros d' Hd' Hin Hv.
      apply elem_of_cons in Hd' as [->|Hd']; [|by apply Hrest].
      by apply outside_not_inb in Hout.
    + apply bind_Done in H1 as (cell & Hread & H1). apply mread_Done in Hread.
      injection H1 as <-. split.
      * intros x Hx. apply Hsub. destruct (visited cell); [done|].
        apply elem_of_app. by left.
      * intros d' Hd' Hin Hv.
        apply elem_of_cons in Hd' as [->|Hd']; [|by apply Hrest].
        apply Hsub. unfold visitedAt in Hv. rewrite Hread in Hv. simpl in Hv.
        rewrite Hv. apply elem_of_app. right. constructor.
Qed.

(** The invariant of the carving loop, for the cell [start0] it began
    with: the cells on the stack are visited, every visited cell is joined
    to [start0] by passages, a visited cell that has left the stack has no
    unvisited neighbour, and the outline of the grid is closed. *)
Record cinv (start0 : Pos) (cs : list (list MazeCell)) (stack : list Pos)
  : Prop := {
  c_rect : rect height width cs;
  c_stack : ∀ p, p ∈ stack → visitedAt cs p = true;
  c_conn : ∀ p, visitedAt cs p = true → ∃ n, walk (passage cs) start0 p n;
  c_closed : ∀ p d, visitedAt cs p = true → p ∉ stack → d ∈ DIRS →
    inb height width (step p d) → visitedAt cs (step p d) = true;
  c_border : borderClosed cs
}.

Lemma carve_cover start0 fuel cs stack n cs' n' :
  Gen.carve fuel rng difficulty (Z.of_nat width) (Z.of_nat height) cs stack n
    = Done (cs', n') →
  cinv start0 cs stack →
  cinv start0 cs' [] ∧ ∀ p, visitedAt cs p = true → visitedAt cs' p = true.
Proof.
  revert cs stack n. induction fuel as [|fuel IH]; intros cs stack n Hrun I;
    [discriminate|].
  cbn [Gen.carve] in Hrun. destruct stack as [|current below]; [by simplify_eq|].
  apply bind_Done in Hrun as (neighbors & Hnb & Hrun).
  pose proof I as [Hr Hstack Hconn Hclosed Hborder].
  destruct (unvisited_complete _ _ _ _ _ Hnb) as [_ Hall].
  assert (Hcur : inb height width current).
  { eapply visitedAt_inb; [done|]. apply Hstack. constructor. }
  destruct neighbors as [|nb0 nbs].
  - eapply IH; [exact Hrun|]. split; try done.
    + intros p Hp. apply Hstack. by constructor.
    + intros p d Hv Hp Hd Hin.
      destruct (decide (p = current)) as [->|Hne].
      * destruct (visitedAt cs (step current d)) eqn:Hvd; [done|].
        by destruct (not_elem_of_nil _ (Hall d Hd Hin Hvd)).
      * apply Hclosed; try done. rewrite elem_of_cons. tauto.
  - apply bind_Done in Hrun as ([next n1] & Hpick & Hrun).
    apply bind_Done in Hrun as (cs1 & Hrm & Hrun).
    apply bind_Done in Hrun as (cs2 & Hvis & Hrun).
    apply getRandomNeighbor_elem in Hpick.
    destruct (unvisited_neighbors _ _ _ _ _ _ _ Hnb next Hpick)
      as [Hin|(d & Hd & Hnext)]; [by apply elem_of_nil in Hin|].
    destruct (unvisited_total width height cs current DIRS [] Hr)
      as (nbs' & Hnb' & Hnbs').
    rewrite Hnb in Hnb'. injection Hnb' as <-.
    destruct (Hnbs' next Hpick) as [Hin|[Hnin Hnv]]; [by apply elem_of_nil in Hin|].
    destruct (removeWalls_total width height cs current next Hr Hcur Hnin)
      as (cs1' & Hrm' & Hr1 & Hv1).
    rewrite Hrm in Hrm'. injection Hrm' as <-.
    destruct (removeWalls_opens cs current next cs1 d Hd Hnext Hcur Hnin Hrm)
      as (Hop & Hpass & Hbord).
    apply modify_Done in Hvis as (cell & Hcell & ->).
    assert (Hw2 : ∀ x, wallsAt (mset cs1 next (Gen.setVisited true cell)) x
                       = wallsAt cs1 x).
    { intros x. unfold wallsAt. rewrite (mget_mset_Some _ _ _ _ _ Hcell).
      case_decide; [|done]. subst x. by rewrite Hcell. }
    assert (Hv2 : ∀ x, visitedAt (mset cs1 next (Gen.setVisited true cell)) x
                       = if decide (next = x) then true else visitedAt cs x).
    { intros x. unfold visitedAt at 1. rewrite (mget_mset_Some _ _ _ _ _ Hcell).
      case_decide; [done|]. apply Hv1. }
    assert (Hop2 : opens cs (mset cs1 next (Gen.setVisited true cell))).
    { intros x w Hw. destruct (Hop x w Hw) as (w' & Hw' & Hle).
      exists w'. by rewrite Hw2. }
    assert (Hmono : ∀ p, visitedAt cs p = true →
              visitedAt (mset cs1 next (Gen.setVisited true cell)) p = true).
    { intros p Hp. rewrite Hv2. by case_decide. }
    assert (I2 : cinv start0 (mset cs1 next (Gen.setVisited true cell))
                   (next :: current :: below)).
    { split.
      - by apply mset_rect.
      - intros p Hp. rewrite Hv2. case_decide; [done|].
        apply Hstack. apply elem_of_cons in Hp as [->|Hp]; done.
      - intros p. rewrite Hv2. case_decide as Hp.
        + subst p. intros _.
          destruct (Hconn current) as [k Hk]; [apply Hstack; constructor|].
          exists (S k). eapply walk_more.
          * eapply walk_mono; [|exact Hk]. intros a b. by apply passage_opens.
          * eapply passage_opens; [|exact Hpass]. by apply opens_refl.
        + intros Hv. destruct (Hconn p Hv) as [k Hk]. exists k.
          eapply walk_mono; [|exact Hk]. intros a b. by apply passage_opens.
      - intros p d' Hv Hp Hd' Hin. rewrite Hv2 in Hv.
        rewrite !not_elem_of_cons in Hp. destruct Hp as (Hp1 & Hp2 & Hp3).
        rewrite decide_False in Hv by done.
        apply Hmono, Hclosed; try done. rewrite not_elem_of_cons. tauto.
      - intros p w. rewrite Hw2. by apply Hbord. }
    destruct (IH _ _ _ Hrun I2) as [I3 Hmono3].
    split; [done|]. intros p Hp. by apply Hmono3, Hmono.
Qed.
End GeneratorCoverage.
Section GeneratedMaze.
Context (rng : Gen.Rng) (difficulty : Gen.Difficulty) (width height : nat).

(** What the carving leaves in the wall data [cs] of a generated level. *)
Record carved (lv : Level) (cs : list (list MazeCell)) : Prop := {
  cv_cells : cells lv = Some cs;
  cv_grid : grid lv = map (map (λ cell : MazeCell, if visited cell then 0 else 1)) cs;
  cv_rect : rect height width cs;
  cv_sym : symmetric cs;
  cv_exit_inb : inb height width (mkPos 0 1);
  cv_visited : ∀ p, inb height width p → visitedAt cs p = true;
  cv_conn : ∃ start0, ∀ p, inb height width p →
    ∃ n, walk (passage width height cs) start0 p n;
  cv_exit : ∃ w, wallsAt cs (mkPos 0 1) = Some w ∧ top w = false;
  cv_border : ∀ p w, wallsAt cs p = Some w →
    (r p = 0 → p ≠ mkPos 0 1 → top w = true) ∧
    (r p = Z.of_nat height - 1 → bottom w = true) ∧
    (c p = 0 → left w = true) ∧ (c p = Z.of_nat width - 1 → right w = true);
  cv_start : ∃ n,
    Gen.getRandomStartPosition rng difficulty width height cs n = Done (start lv)
}.

Lemma generateMaze_carved fuel lv :
  Gen.generateMaze fuel rng width height difficulty = Done lv →
  ∃ cs, carved lv cs.
Proof.
  intros Hgen.
  destruct (generateMaze_spec _ _ _ _ _ _ Hgen) as (_ & cs & Hcs & Hsym & Hrect).
  exists cs. unfold Gen.generateMaze in Hgen.
  apply bind_Done in Hgen as (cs1 & H1 & Hgen).
  apply bind_Done in Hgen as ([cs2 n] & H2 & Hgen).
  apply bind_Done in Hgen as (cs3 & H3 & Hgen).
  apply bind_Done in Hgen as (st & Hst & Hgen).
  injection Hgen as <-. simpl in Hcs. injection Hcs as ->.
  set (cs0 := mfill height width (mkCell (mkWalls true true true true) false)) in *.
  set (start0 := match difficulty with
                 | Gen.easy => mkPos 1 1
                 | _ => mkPos (Z.of_nat height `div` 2) (Z.of_nat width `div` 2)
                 end) in *.
  apply modify_Done in H1 as (cell0 & Hc0 & ->).
  pose proof (mget_mfill_Some _ _ _ _ _ Hc0) as [-> Hs0].
  assert (Hr0 : rect height width cs0) by apply mfill_rect.
  assert (Hv1 : ∀ x, visitedAt (mset cs0 start0
                        (Gen.setVisited true (mkCell (mkWalls true true true true) false))) x
                     = true ↔ x = start0).
  { intros x. unfold visitedAt. rewrite (mget_mset_Some _ _ _ _ _ Hc0).
    case_decide as Hx; [by subst|]. split; [|done].
    destruct (mget cs0 x) eqn:Hm; [|done].
    apply mget_mfill_Some in Hm as [-> _]. done. }
  assert (Hw1 : ∀ x w, wallsAt (mset cs0 start0
                          (Gen.setVisited true (mkCell (mkWalls true true true true) false))) x
                       = Some w → w = mkWalls true true true true).
  { intros x w. unfold wallsAt. rewrite (mget_mset_Some _ _ _ _ _ Hc0).
    case_decide; [by intros [= <-]|].
    destruct (mget cs0 x) eqn:Hm; [|done].
    apply mget_mfill_Some in Hm as [-> _]. by intros [= <-]. }
  assert (I1 : cinv width height start0
                 (mset cs0 start0
                    (Gen.setVisited true (mkCell (mkWalls true true true true) false)))
                 [start0]).
  { split.
    - by apply mset_rect.
    - intros p Hp. apply list_elem_of_singleton in Hp as ->. by apply Hv1.
    - intros p Hp. apply Hv1 in Hp as ->. exists 0%nat. constructor.
    - intros p d Hp Hnp. apply Hv1 in Hp as ->. destruct Hnp. constructor.
    - intros p w Hw. apply Hw1 in Hw as ->. done. }
  destruct (carve_cover rng difficulty width height start0 _ _ _ _ _ _ H2 I1)
    as [[Hr2 _ Hconn2 Hclosed2 Hborder2] Hmono].
  assert (Hall2 : ∀ p, inb height width p → visitedAt cs2 p = true).
  { apply (grid_reach height width (λ x, visitedAt cs2 x = true) start0 Hs0).
    - apply Hmono. by apply Hv1.
    - intros x d Hx Hd Hin. apply Hclosed2; try done. apply not_elem_of_nil. }
  apply modify_Done in H3 as (cell & Hcell & ->).
  assert (Hexit : inb height width (mkPos 0 1)) by (by eapply mget_Some_inb).
  assert (Hv3 : ∀ x, visitedAt (mset cs2 (mkPos 0 1) (Gen.setTop false cell)) x
                     = visitedAt cs2 x).
  { intros x. by eapply mset_visitedAt. }
  assert (Hw3 : ∀ x, wallsAt (mset cs2 (mkPos 0 1) (Gen.setTop false cell)) x
                     = if decide (mkPos 0 1 = x)
                       then Some (walls (Gen.setTop false cell))
                       else wallsAt cs2 x).
  { intros x. unfold wallsAt. rewrite (mget_mset_Some _ _ _ _ _ Hcell).
    by case_decide. }
  assert (Hwc : wallsAt cs2 (mkPos 0 1) = Some (walls cell))
    by (unfold wallsAt; by rewrite Hcell).
  assert (Hop3 : opens cs2 (mset cs2 (mkPos 0 1) (Gen.setTop false cell))).
  { intros x w Hw. rewrite Hw3. case_decide as Hx.
    - subst x. rewrite Hwc in Hw. injection Hw as <-.
      eexists. split; [done|]. by unfold wle.
    - exists w. split; [done|apply wle_refl]. }
  split; try done.
  - intros p Hp. rewrite Hv3. by apply Hall2.
  - exists start0. intros p Hp. destruct (Hconn2 p (Hall2 p Hp)) as [k Hk].
    exists k. eapply walk_mono; [|exact Hk]. intros a b.
    by apply passage_opens.
  - eexists. rewrite Hw3, decide_True by done. split; [done|]. done.
  - intros p w. rewrite Hw3. case_decide as Hp.
    + subst p. intros [= <-]. destruct (Hborder2 _ _ Hwc) as (? & ? & ? & ?).
      simpl. split_and!; auto.
    + intros Hw. destruct (Hborder2 _ _ Hw) as (? & ? & ? & ?). split_and!; auto.
  - by exists n.
Qed.

Section Carved.
Context (lv : Level) (cs : list (list MazeCell)) (Hcv : carved lv cs).

Lemma carved_dims : nrows lv = height ∧ ncols lv = width.
Proof.
  destruct Hcv as [Hc Hg [Hlen Hrows] _ [Hex _] _ _ _ _ _].
  unfold nrows, ncols. rewrite Hg. split.
  - by rewrite length_map.
  - destruct cs as [|row0 rest]; simpl in *; [lia|].
    rewrite length_map. by apply Forall_cons in Hrows as [? _].
Qed.

Lemma passage_edge p q : passage width height cs p q → edge lv p q.
Proof.
  destruct carved_dims as [Hr Hcl].
  intros (sd & w & Hf & Hw & Hsd & Hq). unfold edge. rewrite Hr, Hcl.
  assert (Hcell : ∃ cell, mget cs p = Some cell ∧ walls cell = w).
  { unfold wallsAt in Hw. destruct (mget cs p) as [cell|]; [|done].
    exists cell. split; [done|]. simpl in Hw. by injection Hw. }
  destruct Hcell as (cell & Hcell & <-).
  assert (Hmv : ∀ side, sd = side →
            noWall cs p side = Done true).
  { intros side <-. unfold noWall, mread. rewrite Hcell. simpl. by rewrite Hsd. }
  unfold canMoveBetween. rewrite (cv_cells _ _ Hcv).
  destruct p as [pr pc].
  destruct (facing_cases _ _ _ Hf) as [[-> ->]|[[-> ->]|[[-> ->]|[-> ->]]]];
    unfold step; simpl.
  - split_and!; [exists (mkPos (-1) 0); split; [|done];
                 unfold DIRS; rewrite !elem_of_cons; auto|done|].
    replace (pr + -1 - pr) with (-1) by lia. replace (pc + 0 - pc) with 0 by lia.
    simpl. by apply Hmv.
  - split_and!; [exists (mkPos 1 0); split; [|done];
                 unfold DIRS; rewrite !elem_of_cons; auto|done|].
    replace (pr + 1 - pr) with 1 by lia. replace (pc + 0 - pc) with 0 by lia.
    simpl. by apply Hmv.
  - split_and!; [exists (mkPos 0 (-1)); split; [|done];
                 unfold DIRS; rewrite !elem_of_cons; auto|done|].
    replace (pr + 0 - pr) with 0 by lia. replace (pc + -1 - pc) with (-1) by lia.
    simpl. by apply Hmv.
  - split_and!; [exists (mkPos 0 1); split; [|done];
                 unfold DIRS; rewrite !elem_of_cons; auto|done|].
    replace (pr + 0 - pr) with 0 by lia. replace (pc + 1 - pc) with 1 by lia.
    simpl. by apply Hmv.
Qed.

Lemma passage_sym p q : passage width height cs p q → passage width height cs q p.
Proof.
  intros (sd & w & Hf & Hw & Hsd & Hq).
  pose proof (cv_rect _ _ Hcv) as Hr.
  pose proof (wallsAt_inb width height cs p w Hr Hw) as Hp.
  destruct (facing_back _ _ _ Hf) as [sd' Hf'].
  destruct (mget_inb _ _ _ _ Hr Hq) as [cq Hcq].
  unfold wallsAt in Hw. destruct (mget cs p) as [cp|] eqn:Hcp; [|done].
  simpl in Hw. injection Hw as <-.
  exists sd', (walls cq). split_and!; [done| | |done].
  - unfold wallsAt. by rewrite Hcq.
  - by apply (symmetric_wallSymmetric cs (cv_sym _ _ Hcv) p q cp cq sd sd').
Qed.

(** Any two cells of a generated maze are joined by passages. *)
Lemma carved_connected p q :
  inb height width p → inb height width q → ∃ n, walk (edge lv) p q n.
Proof.
  intros Hp Hq. destruct (cv_conn _ _ Hcv) as [start0 Hconn].
  destruct (Hconn p Hp) as [k1 H1]. destruct (Hconn q Hq) as [k2 H2].
  exists (k1 + k2)%nat. eapply walk_trans.
  - eapply walk_mono; [apply passage_edge|]. apply walk_sym; [|exact H1].
    apply passage_sym.
  - eapply walk_mono; [apply passage_edge|]. exact H2.
Qed.

(** The exit test holds at the cell (0,1) and nowhere else. *)
Lemma carved_exit p : exitAt lv p ↔ p = mkPos 0 1.
Proof.
  destruct carved_dims as [Hr Hcl].
  unfold exitAt, canExit. rewrite Hr, Hcl, (cv_cells _ _ Hcv).
  unfold andThen, noWall, mread. split.
  - destruct (mget cs p) as [cell|] eqn:Hcell; simpl.
    + assert (Hw : wallsAt cs p = Some (walls cell))
        by (unfold wallsAt; by rewrite Hcell).
      destruct (cv_border _ _ Hcv p _ Hw) as (Ht & Hb & Hl & Hrt).
      destruct (decide (p = mkPos 0 1)) as [|Hne]; [done|].
      destruct (Z.eqb_spec (r p) 0) as [H1|H1]; simpl.
      { rewrite Ht by done. simpl.
        destruct (Z.eqb_spec (r p) (Z.of_nat height - 1)) as [H2|H2]; simpl.
        { rewrite Hb by done. simpl.
          destruct (Z.eqb_spec (c p) 0) as [H3|H3]; simpl.
          { rewrite Hl by done. simpl.
            destruct (Z.eqb_spec (c p) (Z.of_nat width - 1)) as [H4|H4]; simpl;
              [rewrite Hrt by done|]; done. }
          destruct (Z.eqb_spec (c p) (Z.of_nat width - 1)) as [H4|H4]; simpl;
            [rewrite Hrt by done|]; done. }
        destruct (Z.eqb_spec (c p) 0) as [H3|H3]; simpl.
        { rewrite Hl by done. simpl.
          destruct (Z.eqb_spec (c p) (Z.of_nat width - 1)) as [H4|H4]; simpl;
            [rewrite Hrt by done|]; done. }
        destruct (Z.eqb_spec (c p) (Z.of_nat width - 1)) as [H4|H4]; simpl;
          [rewrite Hrt by done|]; done. }
      destruct (Z.eqb_spec (r p) (Z.of_nat height - 1)) as [H2|H2]; simpl.
      { rewrite Hb by done. simpl.
        destruct (Z.eqb_spec (c p) 0) as [H3|H3]; simpl.
        { rewrite Hl by done. simpl.
          destruct (Z.eqb_spec (c p) (Z.of_nat width - 1)) as [H4|H4]; simpl;
            [rewrite Hrt by done|]; done. }
        destruct (Z.eqb_spec (c p) (Z.of_nat width - 1)) as [H4|H4]; simpl;
          [rewrite Hrt by done|]; done. }
      destruct (Z.eqb_spec (c p) 0) as [H3|H3]; simpl.
      { rewrite Hl by done. simpl.
        destruct (Z.eqb_spec (c p) (Z.of_nat width - 1)) as [H4|H4]; simpl;
          [rewrite Hrt by done|]; done. }
      destruct (Z.eqb_spec (c p) (Z.of_nat width - 1)) as [H4|H4]; simpl;
        [rewrite Hrt by done|]; done.
    + repeat (case_match; simpl; try discriminate).
  - intros ->. destruct (cv_exit _ _ Hcv) as (w & Hw & Htop).
    unfold wallsAt in Hw. destruct (mget cs (mkPos 0 1)) as [cell|]; [|done].
    simpl in Hw. injection Hw as <-. simpl. by rewrite Htop.
Qed.

(** Every cell of the binary grid of a generated maze is a passage. *)
Lemma carved_grid p : inb height width p → mget (grid lv) p = Some 0.
Proof.
  intros Hp. rewrite (cv_grid _ _ Hcv), mget_map.
  pose proof (cv_visited _ _ Hcv p Hp) as Hv. unfold visitedAt in Hv.
  destruct (mget cs p) as [cell|]; [|done]. simpl in *. by rewrite Hv.
Qed.

Lemma carved_solvable : inb height width (start lv) → solvable lv.
Proof.
  intros Hs.
  destruct (carved_connected (start lv) (mkPos 0 1) Hs (cv_exit_inb _ _ Hcv))
    as [n Hn].
  exists (mkPos 0 1), n. split; [done|]. by apply carved_exit.
Qed.

(** Where the start is put: in the top half on easy, in the bottom half
    on hard. *)
Lemma carved_start :
  inb height width (start lv) ∧
  (difficulty = Gen.easy → 2 * r (start lv) < Z.of_nat height) ∧
  (difficulty = Gen.hard → (2 ≤ height)%nat → Z.of_nat height ≤ 2 * r (start lv)).
Proof.
  destruct (cv_start _ _ Hcv) as [n Hst].
  split; [by eapply getRandomStartPosition_inb|].
  pose proof (cv_exit_inb _ _ Hcv) as [Hh Hw]. simpl in Hh, Hw.
  unfold Gen.getRandomStartPosition in Hst.
  set (validCells := filter _ (Gen.positions width height)) in Hst.
  assert (Hvalid : ∀ p, inb height width p → p ∈ validCells).
  { intros p Hp. apply list_elem_of_filter. split; [|by apply elem_of_positions].
    by apply (cv_visited _ _ Hcv). }
  split; intros Hd; rewrite Hd in Hst.
  - case_bool_decide as Hne.
    + apply fromOption_Done, pick_elem in Hst.
      by apply list_elem_of_filter in Hst as [Hst _].
    + exfalso.
      assert (Hin : mkPos 0 0 ∈ filter (λ p : Pos, 2 * r p < Z.of_nat height)
                                   validCells).
      { apply list_elem_of_filter. split; [simpl; lia|].
        apply Hvalid. unfold inb. simpl. lia. }
      rewrite Hne in Hin. by apply elem_of_nil in Hin.
  - intros Hh2. case_bool_decide as Hne.
    + apply fromOption_Done, pick_elem in Hst.
      by apply list_elem_of_filter in Hst as [Hst _].
    + exfalso.
      assert (Hin : mkPos (Z.of_nat height - 1) 0
                      ∈ filter (λ p : Pos, Z.of_nat height ≤ 2 * r p) validCells).
      { apply list_elem_of_filter. split; [simpl; lia|].
        apply Hvalid. unfold inb. simpl. lia. }
      rewrite Hne in Hin. by apply elem_of_nil in Hin.
Qed.
End Carved.
End GeneratedMaze.
(** ** The shape of a returned solution *)

Lemma followParents_head fuel par pos path pth :
  followParents fuel par pos path = Done pth → ∃ rest, pth = path ++ pos :: rest.
Proof.
  revert pos path. induction fuel as [|fuel IH]; intros pos path Hrun; [discriminate|].
  cbn [followParents] in Hrun. apply bind_Done in Hrun as (nxt & _ & Hrun).
  destruct nxt as [q|].
  - apply IH in Hrun as [rest ->]. exists (q :: rest). by rewrite <- app_assoc.
  - injection Hrun as <-. by exists [].
Qed.

Lemma walkBack_head fuel vis cols p path pth :
  BFS.walkBack fuel vis cols p path = Done pth → ∃ rest, pth = path ++ p :: rest.
Proof.
  revert p path. induction fuel as [|fuel IH]; intros p path Hrun; [discriminate|].
  cbn [BFS.walkBack] in Hrun. apply bind_Done in Hrun as (prev & _ & Hrun).
  case_bool_decide.
  - injection Hrun as <-. by exists [].
  - apply IH in Hrun as [rest ->]. exists (BFS.decode cols prev :: rest).
    by rewrite <- app_assoc.
Qed.

Lemma last_reverse_head {A} (l : list A) : last (reverse l) = head l.
Proof. destruct l as [|x l]; [done|]. by rewrite reverse_cons, last_snoc. Qed.

Lemma seq_snoc_fmap (steps : list DetailedStep) sn e :
  stepNumber <$> steps = seq 0 sn → stepNumber e = sn →
  stepNumber <$> (steps ++ [e]) = seq 0 (S sn).
Proof. intros Hs He. by rewrite fmap_app, Hs, seq_S; simpl; rewrite He. Qed.

Lemma seq_length_fmap (steps : list DetailedStep) sn :
  stepNumber <$> steps = seq 0 sn →
  stepNumber <$> steps = seq 0 (length steps).
Proof.
  intros Hs. pose proof (f_equal length Hs) as Hl.
  rewrite length_fmap, length_seq in Hl. by rewrite Hl.
Qed.

(** What a solution looks like: its visited cells lie on the grid, begin
    with the start and end with the last cell of the path; its trace
    entries are numbered from 0; it carries the name [name]. *)
Definition shaped (level : Level) (name : string) (sol : Solution) : Prop :=
  Forall (inb (nrows level) (ncols level)) (visitedCells sol) ∧
  head (visitedCells sol) = Some (start level) ∧
  last (visitedCells sol) = last (path sol) ∧
  stepNumber <$> detailedSteps sol = seq 0 (length (detailedSteps sol)) ∧
  algorithm sol = name.

(** The state of a loop about to settle its next cell: what it has
    visited lies on the grid and begins with the start. *)
Definition begun (level : Level) (vc open : list Pos) : Prop :=
  Forall (inb (nrows level) (ncols level)) vc ∧
  ((vc = [] ∧ open = [start level]) ∨ head vc = Some (start level)).

Lemma begun_snoc level vc open cur open' :
  begun level vc open → inb (nrows level) (ncols level) cur →
  (open = [start level] → cur = start level) →
  begun level (vc ++ [cur]) open'.
Proof.
  intros [Hin Hhd] Hcur Hs. split.
  - apply Forall_app. split; [done|]. by apply Forall_singleton.
  - right. destruct Hhd as [[-> Ho]|Hhd]; simpl; [by rewrite Hs|].
    destruct vc; [done|]. done.
Qed.

Section Shape.
Context (level : Level).
Let rows := nrows level.
Let cols := ncols level.

Lemma bfs_visit_rect cur ds acc acc' :
  forEach (BFS.visit level (Z.of_nat rows) (Z.of_nat cols) cur) ds acc = Done acc' →
  rect rows cols acc.1.1 → rect rows cols acc'.1.1.
Proof.
  revert acc. induction ds as [|d ds IH]; intros acc Hrun Hr.
  - simpl in Hrun. by simplify_eq.
  - cbn [forEach] in Hrun. apply bind_Done in Hrun as (acc1 & H1 & H2).
    apply (IH acc1 H2). destruct acc as [[vis q] k]. unfold BFS.visit in H1.
    destruct (outside _ _ _); [by simplify_eq|].
    apply bind_Done in H1 as (ok & _ & H1).
    destruct (negb ok); [by simplify_eq|].
    apply bind_Done in H1 as (seen & _ & H1).
    case_bool_decide; [by simplify_eq|].
    apply bind_Done in H1 as (vis' & Hw & H1). injection H1 as <-.
    apply mwrite_Done in Hw as [_ ->]. simpl. by apply mset_rect.
Qed.

Lemma levelOf_inb gas vis cur k n :
  rect rows cols vis → BFS.levelOf gas vis (Z.of_nat cols) cur k = Done n →
  inb rows cols cur.
Proof.
  intros Hr Hrun. destruct gas as [|gas]; [discriminate|].
  cbn [BFS.levelOf] in Hrun. apply bind_Done in Hrun as (prev & Hread & _).
  apply mread_Done in Hread. by eapply mget_Some_inb.
Qed.

Lemma bfs_loop_shape fuel gas st sol :
  rect rows cols (BFS.visited st) →
  begun level (BFS.visitedCells st) (BFS.queue st) →
  stepNumber <$> BFS.detailedSteps st = seq 0 (BFS.stepNumber st) →
  BFS.loop fuel gas level (Z.of_nat rows) (Z.of_nat cols) st = Done (Some sol) →
  shaped level "BFS" sol.
Proof.
  revert st. induction fuel as [|fuel IH]; intros st Hr Hb Hsn Hrun; [discriminate|].
  cbn [BFS.loop] in Hrun. destruct (BFS.queue st) as [|cur rest] eqn:Hq; [discriminate|].
  apply bind_Done in Hrun as (currentLevel & Hlv & Hrun).
  apply (levelOf_inb _ _ _ _ _ Hr) in Hlv.
  assert (Hb' : ∀ open', begun level (BFS.visitedCells st ++ [cur]) open').
  { intros open'. eapply begun_snoc; [done|done|]. by intros [= -> _]. }
  apply bind_Done in Hrun as (ex & _ & Hrun).
  destruct ex.
  - apply bind_Done in Hrun as (pth & Hpth & Hrun). injection Hrun as <-.
    apply walkBack_head in Hpth as [rest' ->]. destruct (Hb' []) as [Hin Hhd].
    unfold shaped. simpl. split_and!; [done| | |by eapply seq_length_fmap|done].
    + by destruct Hhd as [[? _]|?]; [destruct (BFS.visitedCells st)|].
    + by rewrite last_snoc, last_reverse_head.
  - apply bind_Done in Hrun as ([[vis' q'] neighborsAdded] & Hvisit & Hrun).
    apply bfs_visit_rect in Hvisit; [|done].
    eapply IH; [| | |exact Hrun]; simpl; [done|apply Hb'|].
    by apply seq_snoc_fmap.
Qed.

Lemma solveBFS_shape fuel sol :
  BFS.solveBFS fuel level = Done (Some sol) → shaped level "BFS" sol.
Proof.
  unfold BFS.solveBFS. intros Hrun.
  apply bind_Done in Hrun as ([rows' cols'] & Hd & Hrun).
  assert (rows' = rows ∧ cols' = cols) as [-> ->].
  { unfold dims in Hd. apply bind_Done in Hd as (row0 & H0 & [= <- <-]).
    apply fromOption_Done in H0. unfold cols, ncols. by rewrite H0. }
  apply bind_Done in Hrun as (vis & Hw & Hrun).
  apply mwrite_Done in Hw as [_ ->].
  eapply bfs_loop_shape; [| | |exact Hrun]; simpl.
  - apply mset_rect, mfill_rect.
  - split; [done|]. by left.
  - done.
Qed.

Lemma astar_loop_shape fuel gas st sol :
  rect rows cols (AStar.visited st) →
  begun level (AStar.visitedCells st) (AStar.openSet st) →
  stepNumber <$> AStar.detailedSteps st = seq 0 (AStar.stepNumber st) →
  AStar.loop fuel gas level (Z.of_nat rows) (Z.of_nat cols) st = Done (Some sol) →
  shaped level "A*" sol.
Proof.
  revert st. induction fuel as [|fuel IH]; intros st Hr Hb Hsn Hrun; [discriminate|].
  cbn [AStar.loop] in Hrun.
  destruct (AStar.openSet st) as [|first others] eqn:Hq; [discriminate|].
  apply bind_Done in Hrun as ([current currentIndex] & Hscan & Hrun).
  apply bind_Done in Hrun as (vis' & Hw & Hrun).
  apply mwrite_Done in Hw as [[v Hv] ->].
  pose proof (mget_Some_inb _ _ _ _ _ Hr Hv) as Hcur.
  assert (Hb' : ∀ open', begun level (AStar.visitedCells st ++ [current]) open').
  { intros open'. eapply begun_snoc; [done|done|].
    intros [= -> ->]. simpl in Hscan. by injection Hscan. }
  apply bind_Done in Hrun as (currentG & _ & Hrun).
  apply bind_Done in Hrun as (currentF & _ & Hrun).
  apply bind_Done in Hrun as (ex & _ & Hrun).
  destruct ex.
  - apply bind_Done in Hrun as (pth & Hpth & Hrun). injection Hrun as <-.
    apply followParents_head in Hpth as [rest' ->]. destruct (Hb' []) as [Hin Hhd].
    unfold shaped. simpl. split_and!; [done| | | |done].
    + by destruct Hhd as [[? _]|?]; [destruct (AStar.visitedCells st)|].
    + by rewrite last_snoc, last_reverse_head.
    + eapply seq_length_fmap. by apply seq_snoc_fmap.
  - apply bind_Done in Hrun as ([[[g' f'] par'] open'] & _ & Hrun).
    eapply IH; [| | |exact Hrun]; simpl; [by apply mset_rect|apply Hb'|].
    by apply seq_snoc_fmap.
Qed.

Lemma dims_Done rows' cols' :
  dims level = Done (rows', cols') → rows' = rows ∧ cols' = cols.
Proof.
  unfold dims. intros Hd. apply bind_Done in Hd as (row0 & H0 & [= <- <-]).
  apply fromOption_Done in H0. unfold cols, ncols. by rewrite H0.
Qed.

Lemma solveAStar_shape fuel sol :
  AStar.solveAStar fuel level = Done (Some sol) → shaped level "A*" sol.
Proof.
  unfold AStar.solveAStar. intros Hrun.
  apply bind_Done in Hrun as ([rows' cols'] & Hd & Hrun).
  apply dims_Done in Hd as [-> ->].
  apply bind_Done in Hrun as (g & _ & Hrun).
  apply bind_Done in Hrun as (f & _ & Hrun).
  eapply astar_loop_shape; [| | |exact Hrun]; simpl.
  - apply mfill_rect.
  - split; [done|]. by left.
  - done.
Qed.

Lemma dijkstra_loop_shape fuel gas st sol :
  rect rows cols (Dijkstra.visited st) →
  begun level (Dijkstra.visitedCells st) (Dijkstra.queue st) →
  stepNumber <$> Dijkstra.detailedSteps st = seq 0 (Dijkstra.stepNumber st) →
  Dijkstra.loop fuel gas level (Z.of_nat rows) (Z.of_nat cols) st = Done (Some sol) →
  shaped level "Dijkstra" sol.
Proof.
  revert st. induction fuel as [|fuel IH]; intros st Hr Hb Hsn Hrun; [discriminate|].
  cbn [Dijkstra.loop] in Hrun.
  destruct (Dijkstra.queue st) as [|first others] eqn:Hq; [discriminate|].
  apply bind_Done in Hrun as ([current currentIndex] & Hscan & Hrun).
  apply bind_Done in Hrun as (vis' & Hw & Hrun).
  apply mwrite_Done in Hw as [[v Hv] ->].
  pose proof (mget_Some_inb _ _ _ _ _ Hr Hv) as Hcur.
  assert (Hb' : ∀ open', begun level (Dijkstra.visitedCells st ++ [current]) open').
  { intros open'. eapply begun_snoc; [done|done|].
    intros [= -> ->]. simpl in Hscan. by injection Hscan. }
  apply bind_Done in Hrun as (ex & _ & Hrun).
  destruct ex.
  - apply bind_Done in Hrun as (pth & Hpth & Hrun). injection Hrun as <-.
    apply followParents_head in Hpth as [rest' ->]. destruct (Hb' []) as [Hin Hhd].
    unfold shaped. simpl. split_and!; [done| | |by eapply seq_length_fmap|done].
    + by destruct Hhd as [[? _]|?]; [destruct (Dijkstra.visitedCells st)|].
    + by rewrite last_snoc, last_reverse_head.
  - apply bind_Done in Hrun as ([[[dst' par'] q'] relaxationCount] & _ & Hrun).
    apply bind_Done in Hrun as (currentDistance & _ & Hrun).
    eapply IH; [| | |exact Hrun]; simpl; [by apply mset_rect|apply Hb'|].
    by apply seq_snoc_fmap.
Qed.

Lemma solveDijkstra_shape fuel sol :
  Dijkstra.solveDijkstra fuel level = Done (Some sol) → shaped level "Dijkstra" sol.
Proof.
  unfold Dijkstra.solveDijkstra. intros Hrun.
  apply bind_Done in Hrun as ([rows' cols'] & Hd & Hrun).
  apply dims_Done in Hd as [-> ->].
  apply bind_Done in Hrun as (dst & _ & Hrun).
  eapply dijkstra_loop_shape; [| | |exact Hrun]; simpl.
  - apply mfill_rect.
  - split; [done|]. by left.
  - done.
Qed.

(** Depth-first search: what a call of [dfs] on [pos] adds to the state. *)
Definition dfsShape (st : DFS.state) (pos : option Pos) (st' : DFS.state)
    (res : option Pos) : Prop :=
  rect rows cols (DFS.visited st') ∧
  Forall (inb rows cols) (DFS.visitedCells st') ∧
  stepNumber <$> DFS.detailedSteps st' = seq 0 (DFS.stepNumber st') ∧
  (∃ l, DFS.visitedCells st' = DFS.visitedCells st ++ from_option (λ p, [p]) [] pos ++ l) ∧
  (∀ e, res = Some e → last (DFS.visitedCells st') = Some e).

Definition dfsReady (st : DFS.state) : Prop :=
  rect rows cols (DFS.visited st) ∧
  Forall (inb rows cols) (DFS.visitedCells st) ∧
  stepNumber <$> DFS.detailedSteps st = seq 0 (DFS.stepNumber st).

Lemma eachDir_shape rec pos dirs st vn st' vn' res :
  (∀ st1 nxt st2 r2, dfsReady st1 → rec st1 nxt = Done (st2, r2) →
     dfsShape st1 (Some nxt) st2 r2) →
  dfsReady st →
  DFS.eachDir rec level (Z.of_nat rows) (Z.of_nat cols) pos dirs st vn
    = Done (st', vn', res) →
  dfsShape st None st' res.
Proof.
  intros Hrec. revert st vn. induction dirs as [|d dirs IH]; intros st vn Hst Hrun.
  - simpl in Hrun. simplify_eq. destruct Hst as (? & ? & ?).
    split_and!; try done. exists []. by rewrite !app_nil_r.
  - cbn [DFS.eachDir] in Hrun.
    destruct (outside _ _ (step pos d)); [by eapply IH|].
    apply bind_Done in Hrun as (ok & _ & Hrun).
    destruct (negb ok); [by eapply IH|].
    apply bind_Done in Hrun as (seen & _ & Hrun).
    destruct seen; [by eapply IH|].
    apply bind_Done in Hrun as (par' & _ & Hrun).
    apply bind_Done in Hrun as ([st1 r1] & Hcall & Hrun).
    apply Hrec in Hcall; [|done].
    destruct Hcall as (Hr1 & Hin1 & Hsn1 & [l1 Hl1] & Hres1). simpl in Hl1.
    destruct r1 as [e|].
    + simplify_eq. split_and!; try done. simpl. by eexists.
    + destruct (IH st1 (S vn)) as (Hr2 & Hin2 & Hsn2 & [l2 Hl2] & Hres2);
        [done|done|].
      split_and!; try done. simpl in *. exists ((step pos d :: l1) ++ l2).
      rewrite Hl2, Hl1. by rewrite <- !app_assoc.
Qed.

Lemma dfs_shape fuel gas st pos st' res :
  dfsReady st →
  DFS.dfs fuel gas level (Z.of_nat rows) (Z.of_nat cols) st pos = Done (st', res) →
  dfsShape st (Some pos) st' res.
Proof.
  revert st pos st' res. induction fuel as [|fuel IH]; intros st pos st' res Hst Hrun;
    [discriminate|].
  destruct Hst as (Hr & Hin & Hsn).
  cbn [DFS.dfs] in Hrun.
  apply bind_Done in Hrun as (vis' & Hw & Hrun).
  apply mwrite_Done in Hw as [[v Hv] ->].
  pose proof (mget_Some_inb _ _ _ _ _ Hr Hv) as Hpos.
  apply bind_Done in Hrun as (stackDepth & _ & Hrun).
  apply bind_Done in Hrun as (ex & _ & Hrun).
  assert (Hin1 : Forall (inb rows cols) (DFS.visitedCells st ++ [pos])).
  { apply Forall_app. split; [done|]. by apply Forall_singleton. }
  destruct ex.
  - simplify_eq. split_and!; simpl; try done.
    + by apply mset_rect.
    + by exists [].
    + intros e [= <-]. by rewrite last_snoc.
  - apply bind_Done in Hrun as ([[st2 vn] r2] & Heach & Hrun).
    apply eachDir_shape in Heach; [|by eauto|].
    2:{ split_and!; simpl; [by apply mset_rect|done|done]. }
    destruct Heach as (Hr2 & Hin2 & Hsn2 & [l2 Hl2] & Hres2). simpl in Hl2.
    destruct r2 as [e|]; simplify_eq.
    + split_and!; try done. simpl. exists l2. by rewrite Hl2, <- app_assoc.
    + split_and!; simpl; try done.
      * by apply seq_snoc_fmap.
      * exists l2. by rewrite Hl2, <- app_assoc.
Qed.

Lemma solveDFS_shape fuel sol :
  DFS.solveDFS fuel level = Done (Some sol) → shaped level "DFS" sol.
Proof.
  unfold DFS.solveDFS. intros Hrun.
  apply bind_Done in Hrun as ([rows' cols'] & Hd & Hrun).
  apply dims_Done in Hd as [-> ->].
  apply bind_Done in Hrun as ([st e] & Hcall & Hrun).
  apply dfs_shape in Hcall.
  2:{ split_and!; simpl; [apply mfill_rect|done|done]. }
  destruct Hcall as (Hr & Hin & Hsn & [l Hl] & Hres). simpl in Hl.
  destruct e as [e|]; [|discriminate].
  apply bind_Done in Hrun as (pth & Hpth & Hrun). injection Hrun as <-.
  apply followParents_head in Hpth as [rest' ->].
  unfold shaped. simpl. split_and!; [done| | |by eapply seq_length_fmap|done].
  - by rewrite Hl.
  - rewrite last_reverse_head. simpl. by apply Hres.
Qed.
End Shape.

Lemma solve_shape level alg fuel sol :
  solve fuel level alg = Done (Some sol) →
  shaped level (match alg with
                | Algorithm.bfs => "BFS" | Algorithm.dfs => "DFS"
                | Algorithm.astar => "A*" | Algorithm.dijkstra => "Dijkstra"
                end) sol.
Proof.
  destruct alg; simpl; intros Hrun.
  - by eapply solveBFS_shape.
  - by eapply solveDFS_shape.
  - by eapply solveAStar_shape.
  - by eapply solveDijkstra_shape.
Qed.
(** ** What the Step Trace records *)

Definition nondecreasing (ls : list Z) : Prop :=
  ∀ i a b, ls !! i = Some a → ls !! S i = Some b → a ≤ b.

Lemma nondecreasing_snoc ls b :
  nondecreasing ls → (∀ a, last ls = Some a → a ≤ b) → nondecreasing (ls ++ [b]).
Proof.
  intros Hls Hb i a x Ha Hx.
  pose proof (lookup_lt_Some _ _ _ Hx) as Hlt. rewrite length_app in Hlt. simpl in Hlt.
  destruct (decide (S i < length ls)%nat).
  - rewrite lookup_app_l in Ha, Hx by lia. eauto.
  - rewrite lookup_app_l in Ha by lia. rewrite lookup_app_r in Hx by lia.
    replace (S i - length ls)%nat with 0%nat in Hx by lia. simpl in Hx.
    injection Hx as <-. apply Hb. rewrite last_lookup.
    by replace (pred (length ls)) with i by lia.
Qed.

(** Levels that begin at 0 and rise by at most one from an entry to the
    next. *)
Definition stepwise (ls : list nat) : Prop :=
  (∀ l, head ls = Some l → l = 0%nat) ∧
  ∀ i a b, ls !! i = Some a → ls !! S i = Some b → (a ≤ b ≤ a + 1)%nat.

Lemma stepwise_snoc ls b :
  stepwise ls →
  (ls = [] → b = 0%nat) → (∀ a, last ls = Some a → (a ≤ b ≤ a + 1)%nat) →
  stepwise (ls ++ [b]).
Proof.
  intros [Hhd Hls] H0 Hb. split.
  - intros l. destruct ls as [|x ls]; simpl; [intros [= <-]; by apply H0|].
    intros [= <-]. by apply Hhd.
  - intros i a x Ha Hx.
    pose proof (lookup_lt_Some _ _ _ Hx) as Hlt. rewrite length_app in Hlt.
    simpl in Hlt.
    destruct (decide (S i < length ls)%nat).
    + rewrite lookup_app_l in Ha, Hx by lia. eauto.
    + rewrite lookup_app_l in Ha by lia. rewrite lookup_app_r in Hx by lia.
      replace (S i - length ls)%nat with 0%nat in Hx by lia. simpl in Hx.
      injection Hx as <-. apply Hb. rewrite last_lookup.
      by replace (pred (length ls)) with i by lia.
Qed.

(** The [fScore] of an A* entry, the [currentDistance] of a Dijkstra
    entry and the [currentLevel] of a breadth-first entry. *)
Definition fValue (e : DetailedStep) : Z :=
  match algorithmData e with
  | AStarData _ _ (Finite f) _ => f
  | _ => 0
  end.

Definition dValue (e : DetailedStep) : Z :=
  match algorithmData e with
  | DijkstraData (Finite d) _ _ => d
  | _ => 0
  end.

Definition levelValue (e : DetailedStep) : nat :=
  match algorithmData e with
  | BFSData _ l _ => l
  | _ => 0%nat
  end.

Section AStarTrace.
Context (level : Level) (Hwf : wf level).
Let rows := nrows level.
Let cols := ncols level.
Let h : Pos → Z := λ p, heuristic p (Z.of_nat rows) (Z.of_nat cols).

(** An A* entry: a finite cost [g], the heuristic of its cell, and their
    sum as [f]. *)
Definition scored (e : DetailedStep) : Prop :=
  ∃ gu k, 0 ≤ gu ∧
    algorithmData e =
      AStarData (Finite gu) (h (position e)) (Finite (gu + h (position e))) k.

Lemma astar_loop_scores fuel gas st sol :
  inv level h (AStar.visited st) (AStar.gScore st) (AStar.fScore st)
    (AStar.parent st) (AStar.openSet st)
    (AStar.visitedCells st) (AStar.visitedCells st) →
  Forall scored (AStar.detailedSteps st) →
  nondecreasing (fValue <$> AStar.detailedSteps st) →
  (∀ e, last (AStar.detailedSteps st) = Some e →
        ∃ u, u ∈ AStar.visitedCells st ∧ fValue e = sval (AStar.gScore st) u + h u) →
  AStar.loop fuel gas level (Z.of_nat rows) (Z.of_nat cols) st = Done (Some sol) →
  Forall scored (detailedSteps sol) ∧ nondecreasing (fValue <$> detailedSteps sol).
Proof.
  revert st. induction fuel as [|fuel IH]; intros st I Hsc Hnd Hlast Hrun; [discriminate|].
  destruct st as [vis g f par open vc steps sn]. simpl in I, Hsc, Hnd, Hlast.
  cbn [AStar.loop AStar.openSet AStar.visited AStar.gScore AStar.fScore
       AStar.parent AStar.visitedCells AStar.detailedSteps AStar.stepNumber] in Hrun.
  destruct open as [|first others]; [discriminate|].
  destruct (settle level h vis g f par first others vc I)
    as (u & i & gu & Hscan & Hw & Hgu & Hfu & Hu & Hnvc & Huo & Hmin & Hmid).
  rewrite Hscan in Hrun. cbn [bind] in Hrun. rewrite Hw in Hrun. cbn [bind] in Hrun.
  rewrite (proj2 (mread_Done g u _) Hgu) in Hrun. cbn [bind] in Hrun.
  rewrite (proj2 (mread_Done f u _) Hfu) in Hrun. cbn [bind] in Hrun.
  set (e := mkStep u sn (AStarData (Finite gu)
                           (heuristic u (Z.of_nat rows) (Z.of_nat cols))
                           (Finite (gu + h u))
                           (length (delete i (first :: others))))) in Hrun.
  assert (Hgu0 : 0 ≤ gu)
    by (by destruct (inv_score _ _ _ _ _ _ _ _ _ I u gu Hgu) as [_ [? _]]).
  assert (Hsc' : Forall scored (steps ++ [e])).
  { apply Forall_app. split; [done|]. apply Forall_singleton. by eexists _, _. }
  assert (Hnd' : nondecreasing (fValue <$> (steps ++ [e]))).
  { rewrite fmap_app. apply nondecreasing_snoc; [done|]. intros a Ha.
    rewrite fmap_last in Ha. destruct (last steps) as [e0|] eqn:He0; [|done].
    simpl in Ha. injection Ha as <-.
    destruct (Hlast e0 eq_refl) as (u0 & Hu0 & ->).
    pose proof (inv_mono _ _ _ _ _ _ _ _ _ I u0 u Hu0 Huo) as Hle.
    unfold sval in Hle at 2. rewrite Hgu in Hle. done. }
  apply bind_Done in Hrun as (ex & Hex & Hrun). destruct ex.
  - apply bind_Done in Hrun as (pth & _ & Hrun). injection Hrun as <-. by simpl.
  - destruct (relaxG_all level Hwf h (astar_h_edge level) u gu (mset vis u true) vc DIRS
                (g, f, par, delete i (first :: others)))
      as ([[[g' f'] par'] open'] & Hrun' & Hmid' & Hall & _); [done|done|done|].
    change (AStar.relax level (Z.of_nat rows) (Z.of_nat cols))
      with (relaxG level h) in Hrun.
    rewrite Hrun' in Hrun. cbn [bind] in Hrun.
    assert (Hnoexit : ¬ exitAt level u).
    { unfold exitAt. fold rows cols. rewrite Hex. discriminate. }
    pose proof (resettle level h u gu (mset vis u true) vc _ Hmid' Hnoexit Hall) as I'.
    simpl in I'.
    eapply IH; [| | | |exact Hrun]; simpl; [done|done|done|].
    intros e1. rewrite last_snoc. intros [= <-]. exists u. split.
    + apply elem_of_app. right. constructor.
    + destruct Hmid' as (_ & Hgu' & _). unfold sval. by rewrite Hgu'.
Qed.

Lemma solveAStar_scores fuel sol :
  AStar.solveAStar fuel level = Done (Some sol) →
  Forall scored (detailedSteps sol) ∧ nondecreasing (fValue <$> detailedSteps sol).
Proof.
  unfold AStar.solveAStar. rewrite (dims_wf level Hwf). cbn [bind]. fold rows cols.
  pose proof (proj1 Hwf) as Hs. fold rows cols in Hs.
  rewrite (mwrite_inb rows cols) by (apply mfill_rect || done). cbn [bind].
  rewrite (mwrite_inb rows cols) by (apply mfill_rect || done). cbn [bind].
  apply astar_loop_scores; simpl.
  - by apply inv_init.
  - done.
  - by intros i a b.
  - done.
Qed.
End AStarTrace.

Section DijkstraTrace.
Context (level : Level) (Hwf : wf level).
Let rows := nrows level.
Let cols := ncols level.
Let h : Pos → Z := λ _, 0.

(** A Dijkstra entry: a finite distance. *)
Definition measured (e : DetailedStep) : Prop :=
  ∃ d a b, 0 ≤ d ∧ algorithmData e = DijkstraData (Finite d) a b.

Lemma dijkstra_loop_distances fuel gas st sol :
  inv level h (Dijkstra.visited st) (Dijkstra.dist st) (Dijkstra.dist st)
    (Dijkstra.parent st) (Dijkstra.queue st)
    (Dijkstra.visitedCells st) (Dijkstra.visitedCells st) →
  Forall measured (Dijkstra.detailedSteps st) →
  nondecreasing (dValue <$> Dijkstra.detailedSteps st) →
  (∀ e, last (Dijkstra.detailedSteps st) = Some e →
        ∃ u, u ∈ Dijkstra.visitedCells st ∧ dValue e = sval (Dijkstra.dist st) u) →
  Dijkstra.loop fuel gas level (Z.of_nat rows) (Z.of_nat cols) st = Done (Some sol) →
  Forall measured (detailedSteps sol) ∧ nondecreasing (dValue <$> detailedSteps sol).
Proof.
  revert st. induction fuel as [|fuel IH]; intros st I Hsc Hnd Hlast Hrun; [discriminate|].
  destruct st as [vis dst par open vc steps sn]. simpl in I, Hsc, Hnd, Hlast.
  cbn [Dijkstra.loop Dijkstra.queue Dijkstra.visited Dijkstra.dist
       Dijkstra.parent Dijkstra.visitedCells Dijkstra.detailedSteps
       Dijkstra.stepNumber] in Hrun.
  destruct open as [|first others]; [discriminate|].
  destruct (settle level h vis dst dst par first others vc I)
    as (u & i & gu & Hscan & Hw & Hgu & Hfu & Hu & Hnvc & Huo & Hmin & Hmid).
  rewrite Hscan in Hrun. cbn [bind] in Hrun. rewrite Hw in Hrun. cbn [bind] in Hrun.
  assert (Hgu0 : 0 ≤ gu)
    by (by destruct (inv_score _ _ _ _ _ _ _ _ _ I u gu Hgu) as [_ [? _]]).
  apply bind_Done in Hrun as (ex & Hex & Hrun). destruct ex.
  - apply bind_Done in Hrun as (pth & _ & Hrun). injection Hrun as <-. by simpl.
  - destruct (relaxG_all level Hwf h (dijkstra_h_edge level) u gu (mset vis u true)
                vc DIRS (dst, dst, par, delete i (first :: others)))
      as ([[[g' f'] par'] open'] & Hrun' & Hmid' & Hall & _); [done|done|done|].
    destruct (dijkstra_forEach_sim level _ _ _ _ _ _ 0%nat _ _ _ _ Hrun')
      as [-> [n' Hn']].
    fold rows cols in Hn'. rewrite Hn' in Hrun. cbn [bind] in Hrun.
    destruct Hmid' as (Im & Hgu' & Hrest).
    rewrite (proj2 (mread_Done g' u _) Hgu') in Hrun. cbn [bind] in Hrun.
    assert (Hnoexit : ¬ exitAt level u).
    { unfold exitAt. fold rows cols. rewrite Hex. discriminate. }
    pose proof (resettle level h u gu (mset vis u true) vc (g', g', par', open')
                  (conj Im (conj Hgu' Hrest)) Hnoexit Hall) as I'.
    simpl in I'.
    eapply IH; [| | | |exact Hrun]; simpl; [done| | |].
    + apply Forall_app. split; [done|]. apply Forall_singleton. by eexists _, _, _.
    + rewrite fmap_app. apply nondecreasing_snoc; [done|]. intros a Ha.
      rewrite fmap_last in Ha. destruct (last steps) as [e0|] eqn:He0; [|done].
      simpl in Ha. injection Ha as <-.
      destruct (Hlast e0 eq_refl) as (u0 & Hu0 & ->).
      pose proof (inv_mono _ _ _ _ _ _ _ _ _ I u0 u Hu0 Huo) as Hle.
      unfold sval in Hle at 2. rewrite Hgu in Hle. unfold h in Hle.
      unfold dValue. simpl. lia.
    + intros e1. rewrite last_snoc. intros [= <-]. exists u. split.
      * apply elem_of_app. right. constructor.
      * unfold sval. by rewrite Hgu'.
Qed.

Lemma solveDijkstra_distances fuel sol :
  Dijkstra.solveDijkstra fuel level = Done (Some sol) →
  Forall measured (detailedSteps sol) ∧ nondecreasing (dValue <$> detailedSteps sol).
Proof.
  unfold Dijkstra.solveDijkstra. rewrite (dims_wf level Hwf). cbn [bind].
  fold rows cols.
  pose proof (proj1 Hwf) as Hs. fold rows cols in Hs.
  rewrite (mwrite_inb rows cols) by (apply mfill_rect || done). cbn [bind].
  apply dijkstra_loop_distances; simpl.
  - by apply (inv_init level Hwf h).
  - done.
  - by intros i a b.
  - done.
Qed.
End DijkstraTrace.

Section BFSTrace.
Context (level : Level) (Hwf : wf level).
Let rows := nrows level.
Let cols := ncols level.
Let s := start level.

(** A breadth-first entry, with at most four neighbours added. *)
Definition leveled (e : DetailedStep) : Prop :=
  ∃ q l n, algorithmData e = BFSData q l n ∧ (n ≤ 4)%nat.

Lemma bfs_visit_count cur ds acc acc' :
  forEach (BFS.visit level (Z.of_nat rows) (Z.of_nat cols) cur) ds acc = Done acc' →
  (acc'.2 ≤ acc.2 + length ds)%nat.
Proof.
  revert acc. induction ds as [|d ds IH]; intros acc Hrun.
  - simpl in Hrun. simplify_eq. lia.
  - cbn [forEach] in Hrun. apply bind_Done in Hrun as (acc1 & H1 & H2).
    apply IH in H2. simpl. enough (acc1.2 ≤ S acc.2)%nat by lia.
    destruct acc as [[vis q] k]. unfold BFS.visit in H1.
    destruct (outside _ _ _); [simplify_eq; simpl; lia|].
    apply bind_Done in H1 as (ok & _ & H1).
    destruct (negb ok); [simplify_eq; simpl; lia|].
    apply bind_Done in H1 as (seen & _ & H1).
    case_bool_decide; [simplify_eq; simpl; lia|].
    apply bind_Done in H1 as (vis' & _ & H1). injection H1 as <-. simpl. lia.
Qed.

Lemma bfs_loop_levels fuel gas st lvl k sol :
  binv level lvl k (BFS.visited st) (BFS.queue st)
    (BFS.visitedCells st) (BFS.visitedCells st) →
  (rows * cols < gas)%nat →
  Forall leveled (BFS.detailedSteps st) →
  stepwise (levelValue <$> BFS.detailedSteps st) →
  (BFS.detailedSteps st = [] ∧ BFS.queue st = [s]) ∨
    (∃ e, last (BFS.detailedSteps st) = Some e ∧ levelValue e = k) →
  BFS.loop fuel gas level (Z.of_nat rows) (Z.of_nat cols) st = Done (Some sol) →
  Forall leveled (detailedSteps sol) ∧ stepwise (levelValue <$> detailedSteps sol).
Proof.
  revert st lvl k. induction fuel as [|fuel IH];
    intros st lvl k I Hgas Hlv Hsw Hlast Hrun; [discriminate|].
  destruct st as [V Q VC steps sn]. simpl in I, Hlv, Hsw, Hlast.
  cbn [BFS.loop BFS.queue BFS.visited BFS.visitedCells BFS.detailedSteps
       BFS.stepNumber] in Hrun.
  destruct Q as [|cur rest]; [discriminate|].
  destruct (bfs_dequeue level _ _ _ _ _ _ I) as (Hmid & Hmin & Hnvc & Hm).
  pose proof (binv_bounded level _ _ _ _ _ _ I) as Hb. fold rows cols in Hb.
  pose proof (b_bound level _ _ _ _ _ _ I cur Hm) as Hlc.
  rewrite (levelOf_chain level _ _ _ _ _ _ I) in Hrun by (done || lia).
  cbn [bind] in Hrun.
  assert (Hcur : (steps = [] → lvl cur = 0%nat) ∧
                 (∀ e, last steps = Some e →
                       (levelValue e ≤ lvl cur ≤ levelValue e + 1)%nat)).
  { destruct Hlast as [[-> [= -> ->]]|(e & He & Hk)].
    - split; [intros _; apply (b_start level _ _ _ _ _ _ I)|done].
    - split; [intros ->; done|]. intros e' He'. rewrite He in He'.
      injection He' as <-. rewrite Hk.
      destruct (b_queue level _ _ _ _ _ _ I) as (A & B & Heq & HA & HB).
      destruct A as [|a A]; simpl in Heq.
      + subst B. apply Forall_cons in HB as [-> _]. lia.
      + injection Heq as <- _. apply Forall_cons in HA as [-> _]. lia. }
  apply bind_Done in Hrun as (ex & Hex & Hrun). destruct ex.
  - apply bind_Done in Hrun as (pth & _ & Hrun). injection Hrun as <-. by simpl.
  - destruct (bfs_visit_all level Hwf cur lvl (lvl cur) V rest VC 0%nat DIRS)
      as (lvl' & V' & Q' & n' & Hrun' & Hmid' & Hall & _); [done|done|].
    fold rows cols in Hrun'.
    pose proof (bfs_visit_count _ _ _ _ Hrun') as Hcount. simpl in Hcount.
    rewrite Hrun' in Hrun. cbn [bind] in Hrun.
    assert (Hnoexit : ¬ exitAt level cur).
    { unfold exitAt. fold rows cols. rewrite Hex. discriminate. }
    pose proof (bfs_finish level cur lvl' (lvl cur) V' Q' VC Hmid' Hnoexit Hall) as I'.
    destruct Hcur as [Hc0 Hc1].
    eapply (IH _ lvl' (lvl cur)); [| | | | |exact Hrun]; simpl; [done|done| | |].
    + apply Forall_app. split; [done|]. apply Forall_singleton.
      eexists _, _, _. split; [done|]. lia.
    + rewrite fmap_app. apply stepwise_snoc; [done| |].
      * intros Hnil. apply fmap_nil_inv in Hnil. simpl. by apply Hc0.
      * intros a Ha. rewrite fmap_last in Ha.
        destruct (last steps) as [e0|] eqn:He0; [|done].
        simpl in Ha. injection Ha as <-. simpl. by apply Hc1.
    + right. eexists. rewrite last_snoc. split; [done|]. done.
Qed.

Lemma solveBFS_levels fuel sol :
  (rows * cols < fuel)%nat →
  BFS.solveBFS fuel level = Done (Some sol) →
  Forall leveled (detailedSteps sol) ∧ stepwise (levelValue <$> detailedSteps sol).
Proof.
  intros Hfuel. unfold BFS.solveBFS.
  rewrite (dims_wf level Hwf). cbn [bind]. fold rows cols.
  pose proof (proj1 Hwf) as Hs. fold rows cols s in Hs.
  rewrite (mwrite_inb rows cols) by (apply mfill_rect || done). cbn [bind].
  apply (bfs_loop_levels _ _ _ (λ _, 0%nat) 0%nat); simpl; [|done|done| |by left].
  2:{ split; [done|]. by intros i a b. }
  fold s.
  assert (HV : ∀ x, mget (mset (mfill rows cols None) s (Some (-1))) x =
                    if decide (s = x) then Some (Some (-1))
                    else mget (mfill rows cols (@None Z)) x).
  { intros x. eapply mget_mset_inb; [apply mfill_rect|done]. }
  assert (Hm : ∀ x, marked (mset (mfill rows cols None) s (Some (-1))) x ↔ x = s).
  { intros x. unfold marked. rewrite HV. case_decide as Hx; [naive_solver|].
    split; [|by intros ->]. intros [i Hi]. by apply mget_mfill_Some in Hi as [? _]. }
  split.
  - apply mset_rect, mfill_rect.
  - intros x. rewrite Hm, list_elem_of_singleton. split; [by right|].
    intros [Hx|Hx]; [by apply elem_of_nil in Hx|done].
  - simpl. apply NoDup_singleton.
  - split; [|done]. by rewrite HV, decide_True.
  - intros x i Hi. left. assert (x = s) as -> by (apply Hm; by exists i).
    rewrite HV, decide_True in Hi by done. by simplify_eq.
  - intros x y Hx. by apply elem_of_nil in Hx.
  - intros x Hx. by apply elem_of_nil in Hx.
  - intros x y Hx. by apply elem_of_nil in Hx.
  - intros x _. simpl. lia.
  - exists [s], []. split_and!; [done| |done]. by apply Forall_singleton.
Qed.
End BFSTrace.
(** ** A start that is an exit *)

Section Immediate.
Context (level : Level) (Hwf : wf level).
Let rows := nrows level.
Let cols := ncols level.
Hypothesis Hexit : exitAt level (start level).

Lemma solveBFS_immediate fuel :
  BFS.solveBFS (S fuel) level = Done (Some (mkSolution 0 [start level] [start level] "BFS" [] None)).
Proof.
  unfold BFS.solveBFS. rewrite (dims_wf level Hwf). cbn [bind]. fold rows cols.
  pose proof (proj1 Hwf) as Hs. fold rows cols in Hs.
  rewrite (mwrite_inb rows cols) by (apply mfill_rect || done). cbn [bind].
  assert (Hget : mread (mset (mfill rows cols None) (start level) (Some (-1))) (start level)
                 = Done (Some (-1))).
  { apply mread_Done. erewrite mget_mset_inb by (apply mfill_rect || done).
    by rewrite decide_True. }
  unfold exitAt in Hexit. fold rows cols in Hexit.
  cbn [BFS.loop BFS.queue BFS.visited BFS.visitedCells BFS.detailedSteps
       BFS.stepNumber BFS.levelOf BFS.walkBack].
  rewrite Hget. cbn [bind]. rewrite bool_decide_eq_true_2 by done. cbn [bind].
  rewrite Hexit. cbn [bind]. done.
Qed.

Lemma solveDFS_immediate fuel :
  DFS.solveDFS (S fuel) level = Done (Some (mkSolution 0 [start level] [start level] "DFS" [] None)).
Proof.
  unfold DFS.solveDFS. rewrite (dims_wf level Hwf). cbn [bind]. fold rows cols.
  pose proof (proj1 Hwf) as Hs. fold rows cols in Hs.
  unfold exitAt in Hexit. fold rows cols in Hexit.
  assert (Hpar : mread (mfill rows cols (@None Pos)) (start level) = Done None).
  { apply mread_Done. by apply mget_mfill. }
  cbn [DFS.dfs DFS.visited DFS.parent DFS.visitedCells DFS.detailedSteps
       DFS.stepNumber DFS.depthOf].
  rewrite (mwrite_inb rows cols) by (apply mfill_rect || done). cbn [bind].
  rewrite Hpar. cbn [bind]. rewrite Hexit. cbn [bind DFS.parent DFS.visitedCells
    DFS.detailedSteps followParents].
  rewrite Hpar. cbn [bind]. done.
Qed.

Lemma solveDijkstra_immediate fuel :
  Dijkstra.solveDijkstra (S fuel) level
    = Done (Some (mkSolution 0 [start level] [start level] "Dijkstra" [] None)).
Proof.
  unfold Dijkstra.solveDijkstra. rewrite (dims_wf level Hwf). cbn [bind].
  fold rows cols.
  pose proof (proj1 Hwf) as Hs. fold rows cols in Hs.
  unfold exitAt in Hexit. fold rows cols in Hexit.
  assert (Hpar : mread (mfill rows cols (@None Pos)) (start level) = Done None).
  { apply mread_Done. by apply mget_mfill. }
  rewrite (mwrite_inb rows cols) by (apply mfill_rect || done). cbn [bind].
  cbn [Dijkstra.loop Dijkstra.queue Dijkstra.visited Dijkstra.dist
       Dijkstra.parent Dijkstra.visitedCells Dijkstra.detailedSteps
       Dijkstra.stepNumber scanMin bind].
  rewrite (mwrite_inb rows cols) by (apply mfill_rect || done). cbn [bind].
  rewrite Hexit. cbn [bind followParents]. rewrite Hpar. cbn [bind]. done.
Qed.

Lemma solveAStar_immediate fuel :
  ∃ sol, AStar.solveAStar (S fuel) level = Done (Some sol) ∧
         distance sol = 0 ∧ path sol = [start level] ∧ visitedCells sol = [start level] ∧
         tracePositions sol = [start level].
Proof.
  unfold AStar.solveAStar. rewrite (dims_wf level Hwf). cbn [bind]. fold rows cols.
  pose proof (proj1 Hwf) as Hs. fold rows cols in Hs.
  unfold exitAt in Hexit. fold rows cols in Hexit.
  assert (Hpar : mread (mfill rows cols (@None Pos)) (start level) = Done None).
  { apply mread_Done. by apply mget_mfill. }
  rewrite (mwrite_inb rows cols) by (apply mfill_rect || done). cbn [bind].
  rewrite (mwrite_inb rows cols) by (apply mfill_rect || done). cbn [bind].
  assert (Hg : ∀ v : num, mread (mset (mfill rows cols Infinity) (start level) v) (start level) = Done v).
  { intros v. apply mread_Done. erewrite mget_mset_inb by (apply mfill_rect || done).
    by rewrite decide_True. }
  cbn [AStar.loop AStar.openSet AStar.visited AStar.gScore AStar.fScore
       AStar.parent AStar.visitedCells AStar.detailedSteps AStar.stepNumber
       scanMin bind].
  rewrite (mwrite_inb rows cols) by (apply mfill_rect || done). cbn [bind].
  rewrite !Hg. cbn [bind]. rewrite Hexit. cbn [bind followParents].
  rewrite Hpar. cbn [bind]. eexists. split; [done|]. by split_and!.
Qed.

Lemma solve_immediate alg fuel :
  ∃ sol, solve (S fuel) level alg = Done (Some sol) ∧
         distance sol = 0 ∧ path sol = [start level] ∧ visitedCells sol = [start level].
Proof.
  destruct alg; simpl.
  - rewrite solveBFS_immediate. eexists. by split_and!.
  - rewrite solveDFS_immediate. eexists. by split_and!.
  - destruct (solveAStar_immediate fuel) as (sol & -> & ? & ? & ? & _).
    eexists. by split_and!.
  - rewrite solveDijkstra_immediate. eexists. by split_and!.
Qed.
End Immediate.

(** ** The heuristic *)

(** The border distance never exceeds the number of moves to an exit. *)
Lemma heuristic_admissible level p e n :
  wf level → inb (nrows level) (ncols level) p →
  walk (edge level) p e n → exitAt level e →
  heuristic p (Z.of_nat (nrows level)) (Z.of_nat (ncols level)) ≤ Z.of_nat n.
Proof.
  intros Hwf Hp Hw He.
  assert (Hgen : heuristic p (Z.of_nat (nrows level)) (Z.of_nat (ncols level))
                 ≤ heuristic e (Z.of_nat (nrows level)) (Z.of_nat (ncols level))
                   + Z.of_nat n).
  { clear He. induction Hw as [|q t n Hq IH Hqt]; [lia|].
    pose proof (edge_heuristic level q t Hqt). lia. }
  rewrite (exitAt_border level e) in Hgen; [lia| |done].
  by eapply walk_inb.
Qed.

(** On the grid the heuristic is 0 exactly on the border. *)
Lemma heuristic_border level p :
  inb (nrows level) (ncols level) p →
  (heuristic p (Z.of_nat (nrows level)) (Z.of_nat (ncols level)) = 0
   ↔ onBorder level p = true).
Proof.
  intros [Hr Hc]. unfold heuristic, onBorder.
  rewrite !orb_true_iff, !Z.eqb_eq. lia.
Qed.

(** ** Draws *)

Lemma pick_nil {A} (x : Q) : Gen.pick (@nil A) x = None.
Proof. unfold Gen.pick. by case_bool_decide. Qed.

(** [getRandomNeighbor] makes one or two draws. *)
Lemma getRandomNeighbor_draws rng difficulty width height neighbors n nb n' :
  Gen.getRandomNeighbor rng difficulty width height neighbors n = Done (nb, n') →
  n' = S n ∨ n' = S (S n).
Proof.
  unfold Gen.getRandomNeighbor. intros Hrun.
  destruct difficulty; repeat case_match;
    apply bind_Done in Hrun as (a & _ & [= _ <-]); auto.
Qed.
(** ** The score matrices A* returns *)

Lemma mget_hScoresOf g rows cols p :
  mget (AStar.hScoresOf g rows cols) p = (λ _, heuristic p rows cols) <$> mget g p.
Proof.
  unfold AStar.hScoresOf, mget. case_bool_decide as Hp; [|done].
  rewrite list_lookup_imap.
  destruct (g !! Z.to_nat (r p)) as [row|]; simpl; [|done].
  rewrite list_lookup_imap.
  destruct (row !! Z.to_nat (c p)) as [v|]; simpl; [|done].
  do 2 f_equal. destruct p as [pr pc]. simpl in *. f_equal; lia.
Qed.

Section AStarScores.
Context (level : Level) (Hwf : wf level).
Let rows := nrows level.
Let cols := ncols level.
Let h : Pos → Z := λ p, heuristic p (Z.of_nat rows) (Z.of_nat cols).

(** What the returned matrices hold: the heuristic of every cell, cost 0
    at the start, the returned distance at the end [e] of the path, and
    [f = g + h] wherever the cost is finite. *)
Definition scoresOf (sol : Solution) (sc : AStarScores) (e : Pos) : Prop :=
  aStarScores sol = Some sc ∧ last (path sol) = Some e ∧
  (∀ p, inb rows cols p → mget (hScores sc) p = Some (h p)) ∧
  mget (gScores sc) (start level) = Some (Finite 0) ∧
  mget (gScores sc) e = Some (Finite (distance sol)) ∧
  (∀ x k, mget (gScores sc) x = Some (Finite k) →
          mget (fScores sc) x = Some (Finite (k + h x))).

Lemma astar_loop_matrices fuel gas st sol :
  inv level h (AStar.visited st) (AStar.gScore st) (AStar.fScore st)
    (AStar.parent st) (AStar.openSet st)
    (AStar.visitedCells st) (AStar.visitedCells st) →
  (rows * cols < gas)%nat →
  AStar.loop fuel gas level (Z.of_nat rows) (Z.of_nat cols) st = Done (Some sol) →
  ∃ sc e, scoresOf sol sc e.
Proof.
  revert st. induction fuel as [|fuel IH]; intros st I Hgas Hrun; [discriminate|].
  destruct st as [vis g f par open vc steps sn]. simpl in I.
  cbn [AStar.loop AStar.openSet AStar.visited AStar.gScore AStar.fScore
       AStar.parent AStar.visitedCells AStar.detailedSteps AStar.stepNumber] in Hrun.
  destruct open as [|first others]; [discriminate|].
  destruct (settle level h vis g f par first others vc I)
    as (u & i & gu & Hscan & Hw & Hgu & Hfu & Hu & Hnvc & Huo & Hmin & Hmid).
  rewrite Hscan in Hrun. cbn [bind] in Hrun. rewrite Hw in Hrun. cbn [bind] in Hrun.
  rewrite (proj2 (mread_Done g u _) Hgu) in Hrun. cbn [bind] in Hrun.
  rewrite (proj2 (mread_Done f u _) Hfu) in Hrun. cbn [bind] in Hrun.
  apply bind_Done in Hrun as (ex & Hex & Hrun). destruct ex.
  - assert (Hfound : found g u) by (by exists gu).
    pose proof (inv_bounded level h _ _ _ _ _ _ _ I) as Hbound. fold rows cols in Hbound.
    destruct (inv_score _ _ _ _ _ _ _ _ _ I u gu Hgu) as [_ Hgub].
    destruct (followParents_path (edge level) (start level) par (found g)
                (λ x, Z.to_nat (sval g x))) with (fuel := gas) (x := u)
      as (pth & Hpth & Hlen & Hhd & Hlast & Hlink).
    + intros x Hx.
      destruct (inv_chain _ _ _ _ _ _ _ _ _ I x Hx)
        as [(Hp & Hxs & Hv)|(p & Hp & Hpx & Hv & Hpv)].
      * left. split_and!; [done|done|]. by rewrite Hv.
      * right. exists p.
        pose proof (inv_vc_found _ _ _ _ _ _ _ _ _ I p Hpv) as Hfp.
        split_and!; [done|done| |done].
        destruct (inv_score _ _ _ _ _ _ _ _ _ I p _ (found_sval g p Hfp)) as [_ ?].
        lia.
    + done.
    + unfold sval. rewrite Hgu. lia.
    + rewrite Hpth in Hrun. cbn [bind] in Hrun. injection Hrun as <-.
      eexists _, u. unfold scoresOf.
      cbn [aStarScores path hScores gScores fScores distance].
      split_and!; [done|done| | | |]; cbn [hScores gScores fScores].
      * intros p Hp. rewrite mget_hScoresOf.
        destruct (mget_inb _ _ _ _ (inv_g _ _ _ _ _ _ _ _ _ I) Hp) as [v ->]. done.
      * apply I.
      * rewrite Hlen. unfold sval. rewrite Hgu. by rewrite Z2Nat.id by lia.
      * intros x k Hk. by destruct (inv_score _ _ _ _ _ _ _ _ _ I x k Hk).
  - destruct (relaxG_all level Hwf h (astar_h_edge level) u gu (mset vis u true) vc DIRS
                (g, f, par, delete i (first :: others)))
      as ([[[g' f'] par'] open'] & Hrun' & Hmid' & Hall & _); [done|done|done|].
    change (AStar.relax level (Z.of_nat rows) (Z.of_nat cols))
      with (relaxG level h) in Hrun.
    rewrite Hrun' in Hrun. cbn [bind] in Hrun.
    assert (Hnoexit : ¬ exitAt level u).
    { unfold exitAt. fold rows cols. rewrite Hex. discriminate. }
    pose proof (resettle level h u gu (mset vis u true) vc _ Hmid' Hnoexit Hall) as I'.
    simpl in I'.
    eapply IH; [|done|exact Hrun]. done.
Qed.

Lemma solveAStar_matrices fuel sol :
  (rows * cols < fuel)%nat →
  AStar.solveAStar fuel level = Done (Some sol) →
  ∃ sc e, scoresOf sol sc e.
Proof.
  intros Hfuel. unfold AStar.solveAStar. rewrite (dims_wf level Hwf). cbn [bind].
  fold rows cols.
  pose proof (proj1 Hwf) as Hs. fold rows cols in Hs.
  rewrite (mwrite_inb rows cols) by (apply mfill_rect || done). cbn [bind].
  rewrite (mwrite_inb rows cols) by (apply mfill_rect || done). cbn [bind].
  apply astar_loop_matrices; simpl; [|done].
  by apply inv_init.
Qed.
End AStarScores.
(** ** Which cells depth-first search records *)

(** [chain] lists the cells from [e] up to [top] along the parent links. *)
Inductive upchain (par : list (list (option Pos))) (top : Pos)
  : Pos → list Pos → Prop :=
  | up_top : upchain par top top [top]
  | up_link e p l :
      mget par e = Some (Some p) → upchain par top p l →
      upchain par top e (e :: l).

Lemma upchain_snoc par nxt e chain pos :
  upchain par nxt e chain → mget par nxt = Some (Some pos) →
  upchain par pos e (chain ++ [pos]).
Proof.
  intros Hup Hnxt. induction Hup as [|e p l Hp Hup IH]; simpl.
  - eapply up_link; [done|]. constructor.
  - eapply up_link; [done|]. done.
Qed.

Lemma followParents_upchain par top e chain fuel acc pth :
  upchain par top e chain → mget par top = Some None →
  followParents fuel par e acc = Done pth → pth = acc ++ chain.
Proof.
  intros Hup Htop. revert fuel acc.
  induction Hup as [|e p l Hp Hup IH]; intros fuel acc Hrun;
    (destruct fuel as [|fuel]; [discriminate|]); cbn [followParents] in Hrun.
  - rewrite (proj2 (mread_Done _ _ _) Htop) in Hrun. cbn [bind] in Hrun.
    by injection Hrun as <-.
  - rewrite (proj2 (mread_Done _ _ _) Hp) in Hrun. cbn [bind] in Hrun.
    apply IH in Hrun as ->. by rewrite <- app_assoc.
Qed.

Section DFSTrace.
Context (level : Level) (Hwf : wf level).
Let rows := nrows level.
Let cols := ncols level.
Let s := start level.

Definition tracePos (st : DFS.state) : list Pos :=
  position <$> DFS.detailedSteps st.

(** The trace holds visited cells only, each at most once. *)
Definition TInv (st : DFS.state) : Prop :=
  NoDup (tracePos st) ∧ ∀ x, x ∈ tracePos st → x ∈ DFS.visitedCells st.

(** The cells recorded between [st] and [st']: those visited in between,
    but for the cells of [chain]. *)
Definition recorded (st st' : DFS.state) (chain : list Pos) : Prop :=
  ∀ x, x ∈ tracePos st' ↔
       x ∈ tracePos st ∨
       (x ∈ DFS.visitedCells st' ∧ x ∉ DFS.visitedCells st ∧ x ∉ chain).

Definition fresh (st st' : DFS.state) (chain : list Pos) : Prop :=
  ∀ x, x ∈ chain → x ∈ DFS.visitedCells st' ∧ x ∉ DFS.visitedCells st.

(** What a call of [dfs] on [pos] does to the trace and the parent links. *)
Definition tpost (st : DFS.state) (pos : Pos) (st' : DFS.state)
    (res : option Pos) : Prop :=
  TInv st' ∧
  (∀ x, x ∈ DFS.visitedCells st ∨ x = pos →
        mget (DFS.parent st') x = mget (DFS.parent st) x) ∧
  (res = None → recorded st st' []) ∧
  (∀ e, res = Some e →
        ∃ chain, upchain (DFS.parent st') pos e chain ∧ fresh st st' chain ∧
                 recorded st st' chain).

Lemma recorded_trans st1 st2 st3 chain :
  (∀ x, x ∈ DFS.visitedCells st1 → x ∈ DFS.visitedCells st2) →
  (∀ x, x ∈ DFS.visitedCells st2 → x ∈ DFS.visitedCells st3) →
  recorded st1 st2 [] → recorded st2 st3 chain → fresh st2 st3 chain →
  recorded st1 st3 chain.
Proof.
  intros H12 H23 Hr12 Hr23 Hfr x. rewrite (Hr23 x), (Hr12 x). split.
  - intros [[?|(Hx2 & Hx1 & _)]|(Hx3 & Hx2 & Hc)]; [by left| |].
    + right. split_and!; [by apply H23|done|]. intros Hc. by destruct (Hfr x Hc).
    + right. split_and!; [done| |done]. intros Hx1. by apply Hx2, H12.
  - intros [?|(Hx3 & Hx1 & Hc)]; [by left; left|].
    destruct (decide (x ∈ DFS.visitedCells st2)) as [Hx2|Hx2].
    + left. right. split_and!; [done|done|apply not_elem_of_nil].
    + by right.
Qed.

Lemma eachDir_recorded rec fuel pos m :
  (∀ st nxt, dpre level fuel st nxt → TInv st →
     ∃ st' res, rec st nxt = Done (st', res) ∧ dpost level st nxt st' res ∧
                tpost st nxt st' res) →
  (rows * cols - m ≤ fuel)%nat →
  ∀ dirs st vn,
    (∀ d, d ∈ dirs → d ∈ DIRS) →
    DInv level st → TInv st → pos ∈ DFS.visitedCells st →
    (m < length (DFS.visitedCells st))%nat →
    ∃ st' vn' res,
      DFS.eachDir rec level (Z.of_nat rows) (Z.of_nat cols) pos dirs st vn
        = Done (st', vn', res) ∧
      DInv level st' ∧ TInv st' ∧
      (∀ x, x ∈ DFS.visitedCells st → x ∈ DFS.visitedCells st') ∧
      (length (DFS.visitedCells st) ≤ length (DFS.visitedCells st'))%nat ∧
      (∀ e, res = Some e → e ∈ DFS.visitedCells st' ∧ exitAt level e) ∧
      (∀ x, x ∈ DFS.visitedCells st →
            mget (DFS.parent st') x = mget (DFS.parent st) x) ∧
      (res = None → recorded st st' []) ∧
      (∀ e, res = Some e →
         ∃ chain nxt, upchain (DFS.parent st') nxt e chain ∧
                      mget (DFS.parent st') nxt = Some (Some pos) ∧
                      fresh st st' chain ∧ recorded st st' chain).
Proof.
  intros Hrec Hm dirs. induction dirs as [|d dirs IH];
    intros st vn Hds I HT Hpos Hlen.
  - exists st, vn, None. split_and!; try done.
    intros _ x. split; [by left|]. by intros [?|(? & ? & _)].
  - cbn [DFS.eachDir]. set (nxt := step pos d).
    assert (Hds' : ∀ d', d' ∈ dirs → d' ∈ DIRS).
    { intros d' Hd'. apply Hds. by constructor. }
    destruct (outside (Z.of_nat rows) (Z.of_nat cols) nxt) eqn:Hout; [by apply IH|].
    apply outside_inb in Hout.
    pose proof I as [dep Id].
    pose proof (dinv_inb level _ _ _ _ pos Id Hpos) as Hpin.
    destruct (canMoveBetween_total level Hwf pos nxt Hpin Hout) as [ok Hok].
    rewrite Hok. cbn [bind]. destruct ok; cbn [negb]; [|by apply IH].
    destruct (mread_inb _ _ _ nxt (d_vis level _ _ _ _ Id) Hout)
      as (seen & Hread & Hseen).
    rewrite Hread. cbn [bind]. destruct seen; [by apply IH|].
    assert (Hnvc : nxt ∉ DFS.visitedCells st).
    { intros Hin. apply (d_vc level _ _ _ _ Id) in Hin. congruence. }
    rewrite (mwrite_inb rows cols) by (done || apply Id). cbn [bind].
    pose proof (dinv_bounded level _ _ _ _ Id) as Hb.
    pose proof (dfs_set_parent level _ _ _ _ nxt pos Id Hnvc Hout) as I1.
    assert (Hpar1 : ∀ x, mget (mset (DFS.parent st) nxt (Some pos)) x
                         = if decide (nxt = x) then Some (Some pos)
                           else mget (DFS.parent st) x).
    { intros x. eapply mget_mset_inb; [apply Id|done]. }
    assert (Hpend1 : pend level (mset (DFS.parent st) nxt (Some pos))
                       (DFS.visitedCells st) nxt).
    { assert (Hd : d ∈ DIRS) by (apply Hds; constructor).
      right. exists pos. split_and!; [| |done].
      - by rewrite Hpar1, decide_True.
      - split_and!; [by exists d|done|done]. }
    assert (Hb1 : (S (length (DFS.visitedCells st)) ≤ rows * cols)%nat).
    { destruct (dfs_enter level _ _ _ _ nxt I1 Hnvc Hout Hpend1) as [dep' I'].
      apply dinv_bounded in I'. rewrite length_app in I'. simpl in I'.
      fold rows cols in I'. lia. }
    destruct (Hrec (DFS.mkState (DFS.visited st)
                      (mset (DFS.parent st) nxt (Some pos))
                      (DFS.visitedCells st) (DFS.detailedSteps st)
                      (DFS.stepNumber st)) nxt)
      as (st' & res & Hrun & (HI' & Hmono & Hnin & Hgrow & Hres) &
          (HT' & Hframe & Hnone & Hsome)).
    { split_and!; simpl; [by exists dep|done|done|done|fold rows cols; lia]. }
    { done. }
    rewrite Hrun. cbn [bind]. simpl in Hmono, Hgrow, Hframe.
    assert (Hframe' : ∀ x, x ∈ DFS.visitedCells st →
              mget (DFS.parent st') x = mget (DFS.parent st) x).
    { intros x Hx. rewrite Hframe by (by left). rewrite Hpar1.
      rewrite decide_False; [done|]. by intros <-. }
    assert (Hnxt' : mget (DFS.parent st') nxt = Some (Some pos)).
    { rewrite Hframe by (by right). by rewrite Hpar1, decide_True. }
    destruct res as [e|].
    + destruct (Hsome e eq_refl) as (chain & Hup & Hfr & Hrec').
      eexists _, _, _. split; [done|].
      split_and!; [done|done|done|lia| |done|done|].
      * intros e' [= <-]. by apply Hres.
      * intros e' [= <-]. by exists chain, nxt.
    + specialize (Hnone eq_refl).
      destruct (IH st' (S vn) Hds' HI' HT')
        as (st2 & vn2 & res2 & Hrun2 & HI2 & HT2 & Hmono2 & Hlen2 & Hres2 &
            Hframe2 & Hnone2 & Hsome2);
        [by apply Hmono|lia|].
      eexists _, _, _. split; [done|].
      split_and!; [done|done| |lia|done| | |].
      * intros x Hx. auto.
      * intros x Hx. rewrite Hframe2 by (by apply Hmono). by apply Hframe'.
      * intros Hr. apply (recorded_trans st st' st2); [done|done|done|by apply Hnone2|].
        by intros x ?%elem_of_nil.
      * intros e He.
        destruct (Hsome2 e He) as (chain & nxt2 & Hup & Hn2 & Hfr & Hrec2).
        exists chain, nxt2. split_and!; [done|done| |].
        -- intros x Hx. destruct (Hfr x Hx) as [Hx2 Hx1]. split; [done|].
           intros Hx0. by apply Hx1, Hmono.
        -- by apply (recorded_trans st st' st2).
Qed.

Lemma dfs_recorded fuel gas :
  (rows * cols < gas)%nat →
  ∀ st pos, dpre level fuel st pos → TInv st →
    ∃ st' res, DFS.dfs fuel gas level (Z.of_nat rows) (Z.of_nat cols) st pos
                 = Done (st', res) ∧
               dpost level st pos st' res ∧ tpost st pos st' res.
Proof.
  intros Hgas. induction fuel as [|fuel IH];
    intros st pos ([dep I] & Hpos & Hin & Hpend & Hfuel) [Hnd Hsub]; [lia|].
  fold rows cols in Hfuel.
  destruct st as [vis par VC steps sn].
  unfold tracePos in Hnd, Hsub. simpl in I, Hpos, Hpend, Hfuel, Hnd, Hsub.
  cbn [DFS.dfs DFS.visited DFS.parent DFS.visitedCells DFS.detailedSteps
       DFS.stepNumber].
  rewrite (mwrite_inb rows cols) by (done || apply I). cbn [bind].
  destruct (dfs_enter level _ _ _ _ pos I Hpos Hin Hpend) as [dep' I'].
  pose proof (dinv_bounded level _ _ _ _ I') as Hb. fold rows cols in Hb.
  assert (Hpv : pos ∈ VC ++ [pos]) by (apply elem_of_app; right; constructor).
  rewrite (depthOf_chain (edge level) s par (λ x, x ∈ VC ++ [pos]) dep'
             (d_chain level _ _ _ _ I')); [|done|].
  2:{ pose proof (d_bound level _ _ _ _ I' pos Hpv). lia. }
  cbn [bind].
  destruct (canExit_total level Hwf pos Hin) as [ex Hex]. fold rows cols in Hex.
  rewrite Hex. cbn [bind].
  assert (HT1 : TInv (DFS.mkState (mset vis pos true) par (VC ++ [pos]) steps sn)).
  { split; [done|]. unfold tracePos. simpl. intros x Hx. apply elem_of_app.
    left. by apply Hsub. }
  destruct ex.
  - eexists _, _. split; [done|]. split.
    + unfold dpost. simpl. split_and!; [by exists dep'| |done| |].
      * intros x Hx. apply elem_of_app. by left.
      * rewrite length_app. simpl. lia.
      * intros e [= <-]. done.
    + unfold tpost. split_and!; [done|done|done|].
      intros e [= <-]. exists [pos]. split_and!; [constructor| |].
      * intros x Hx. apply list_elem_of_singleton in Hx as ->. by simpl.
      * intros x. unfold tracePos. simpl. split; [by left|].
        intros [?|(Hx & Hnx & Hnp)]; [done|].
        apply elem_of_app in Hx as [?|Hx]; [done|]. by destruct Hnp.
  - destruct (eachDir_recorded (DFS.dfs fuel gas level (Z.of_nat rows) (Z.of_nat cols))
                fuel pos (length VC) IH) with
        (dirs := DIRS) (vn := 0%nat)
        (st := DFS.mkState (mset vis pos true) par (VC ++ [pos]) steps sn)
      as (st2 & vn2 & res2 & Hrun & HI2 & HT2 & Hmono & Hlen2 & Hres & Hframe &
          Hnone & Hsome).
    + lia.
    + done.
    + by exists dep'.
    + done.
    + done.
    + simpl. rewrite length_app. simpl. lia.
    + rewrite Hrun. cbn [bind]. simpl in Hmono, Hlen2, Hframe.
      assert (Hsub2 : ∀ x, x ∈ VC ++ [pos] → x ∈ DFS.visitedCells st2) by done.
      rewrite length_app in Hlen2. simpl in Hlen2.
      destruct HI2 as [dep2 I2].
      assert (Hframe' : ∀ x, x ∈ VC ∨ x = pos →
                mget (DFS.parent st2) x = mget par x).
      { intros x Hx. apply Hframe. apply elem_of_app.
        destruct Hx as [?| ->]; [by left|right; constructor]. }
      assert (Hp2 : pos ∈ DFS.visitedCells st2) by auto.
      assert (Hold : ∀ x, x ∈ VC → x ∈ DFS.visitedCells st2).
      { intros x Hx. apply Hsub2, elem_of_app. by left. }
      assert (Hsplit : ∀ x, x ∉ VC ++ [pos] ↔ x ∉ VC ∧ x ≠ pos).
      { intros x. rewrite elem_of_app, list_elem_of_singleton. tauto. }
      destruct res2 as [e|].
      * eexists _, _. split; [done|]. split.
        -- unfold dpost. simpl.
           split_and!; [by exists dep2|done|done|lia|done].
        -- unfold tpost. simpl. split_and!; [done|done|by intros [=]|].
           intros e' [= <-].
           destruct (Hsome e eq_refl) as (chain & nxt & Hup & Hn & Hfr & Hrec).
           exists (chain ++ [pos]). split_and!.
           ++ by eapply upchain_snoc.
           ++ intros x Hx. simpl.
              apply elem_of_app in Hx as [Hx|Hx].
              ** destruct (Hfr x Hx) as [Hx2 Hx1]. simpl in Hx1.
                 split; [done|]. by apply Hsplit in Hx1 as [? _].
              ** apply list_elem_of_singleton in Hx as ->. by split.
           ++ intros x. rewrite (Hrec x). unfold tracePos. simpl.
              rewrite Hsplit, elem_of_app, list_elem_of_singleton. tauto.
      * specialize (Hnone eq_refl).
        assert (Hnotin : pos ∉ tracePos st2).
        { rewrite (Hnone pos). unfold tracePos. simpl.
          intros [Hx|(_ & Hx & _)]; [by apply Hpos, Hsub|done]. }
        eexists _, _. split; [done|]. split.
        -- unfold dpost. simpl.
           split_and!; [by exists dep2|done|done|lia|done].
        -- unfold tpost, TInv, recorded, tracePos. simpl.
           rewrite fmap_app. simpl. fold (tracePos st2).
           split_and!; [| |done| |by intros e [=]].
           ++ apply NoDup_app. split_and!; [apply HT2| |apply NoDup_singleton].
              intros x Hx ->%list_elem_of_singleton. done.
           ++ intros x Hx. apply elem_of_app in Hx as [Hx|Hx].
              ** by apply HT2.
              ** by apply list_elem_of_singleton in Hx as ->.
           ++ intros _ x. rewrite elem_of_app, list_elem_of_singleton, (Hnone x).
              unfold tracePos. simpl. rewrite Hsplit. split.
              ** intros [[?|(Hx2 & [Hx Hne] & _)]| ->]; [by left| |].
                 --- right. split_and!; [done|done|apply not_elem_of_nil].
                 --- right. split_and!; [done|done|apply not_elem_of_nil].
              ** intros [?|(Hx2 & Hx & _)]; [by left; left|].
                 destruct (decide (x = pos)) as [->|Hne]; [by right|].
                 left. right. split_and!; [done|done|done|apply not_elem_of_nil].
Qed.

(** The trace of a search that succeeds holds the visited cells that are
    not on the returned path, each once. *)
Lemma solveDFS_recorded fuel sol :
  (rows * cols < fuel)%nat →
  DFS.solveDFS fuel level = Done (Some sol) →
  NoDup (tracePositions sol) ∧
  ∀ x, x ∈ tracePositions sol ↔ x ∈ visitedCells sol ∧ x ∉ path sol.
Proof.
  intros Hfuel. unfold DFS.solveDFS.
  rewrite (dims_wf level Hwf). cbn [bind]. fold rows cols.
  pose proof (proj1 Hwf) as Hs. fold rows cols s in Hs.
  destruct (dfs_recorded fuel fuel Hfuel
              (DFS.mkState (mfill rows cols false) (mfill rows cols None) [] [] 0%nat) s)
    as (st' & res & Hrun & _ & (HT & Hframe & _ & Hsome)).
  { split_and!; simpl; [|apply not_elem_of_nil|done| |fold rows cols; lia].
    - exists (λ _, 0%nat). split; simpl.
      + apply mfill_rect.
      + apply mfill_rect.
      + intros x. split; [|by intros ?%elem_of_nil].
        intros Hx. by apply mget_mfill_Some in Hx as [? _].
      + apply NoDup_nil_2.
      + by intros x ?%elem_of_nil.
      + by intros x ?%elem_of_nil.
    - left. split_and!; [|done|done]. by apply mget_mfill. }
  { split; [apply NoDup_nil_2|]. by intros x ?%elem_of_nil. }
  fold s. rewrite Hrun. cbn [bind]. destruct res as [e|]; [|discriminate].
  intros Hr. apply bind_Done in Hr as (pth & Hpth & [= <-]).
  destruct (Hsome e eq_refl) as (chain & Hup & _ & Hrec).
  assert (Htop : mget (DFS.parent st') s = Some None).
  { rewrite Hframe by (by right). simpl. by apply mget_mfill. }
  pose proof (followParents_upchain _ _ _ _ _ _ _ Hup Htop Hpth) as Hp.
  simpl in Hp. subst pth. unfold tracePositions. simpl.
  split; [apply HT|].
  intros x. pose proof (Hrec x) as Hx. unfold tracePos in Hx. simpl in Hx.
  rewrite Hx, elem_of_reverse. split.
  - intros [?%elem_of_nil|(? & _ & ?)]; [done|by split].
  - intros [? ?]. right. split_and!; [done|apply not_elem_of_nil|done].
Qed.
End DFSTrace.
(** ** Indexing with a binary64 draw *)

Section DoubleRounding.
Local Open Scope Q_scope.

Lemma pow2_Z (k : Z) : (0 <= k)%Z → 2 ^ k == inject_Z (2 ^ k).
Proof. intros Hk. symmetry. exact (Zpower_Qpower 2 k Hk). Qed.

Lemma pow2_pos (k : Z) : 0 < 2 ^ k.
Proof. by apply Qpower_0_lt. Qed.

(** [exponent t] is the binary exponent of [t]. *)
Lemma exponent_spec t :
  0 < t → 2 ^ Double.exponent t <= t ∧ t < 2 ^ (Double.exponent t + 1).
Proof.
  intros Ht. unfold Double.exponent. destruct (Qle_bool 1 t) eqn:H1.
  - apply Qle_bool_iff in H1.
    assert (Hf : (0 < Qfloor t)%Z).
    { pose proof (Qfloor_resp_le 1 t H1) as Hf. change (Qfloor 1) with 1%Z in Hf. lia. }
    destruct (Z.log2_spec (Qfloor t) Hf) as [Hlo Hhi].
    pose proof (Z.log2_nonneg (Qfloor t)) as Hk.
    rewrite !pow2_Z by lia. split.
    + eapply Qle_trans; [|apply Qfloor_le]. by rewrite <- Zle_Qle.
    + eapply Qlt_le_trans; [apply Qlt_floor|]. rewrite <- Zle_Qle.
      replace (Z.log2 (Qfloor t) + 1)%Z with (Z.succ (Z.log2 (Qfloor t))) by lia.
      lia.
  - assert (H1' : t < 1).
    { apply Qnot_le_lt. intros Hle. apply Qle_bool_iff in Hle. congruence. }
    assert (Hinv : 0 < / t) by by apply Qinv_lt_0_compat.
    assert (Ht1 : t * / t == 1) by (apply Qmult_inv_r; lra).
    pose proof (Qle_ceiling (/ t)) as Hceil.
    pose proof (Qceiling_lt (/ t)) as Hceil'.
    set (k := Qceiling (/ t)) in *. set (i := / t) in *.
    assert (Hi : 1 < i) by nra.
    assert (Hk : (1 < k)%Z).
    { rewrite Zlt_Qlt. change (inject_Z 1) with 1. lra. }
    destruct (Z.log2_up_spec k Hk) as [Hlo Hhi].
    pose proof (Z.log2_up_pos k Hk) as HL.
    set (L := Z.log2_up k) in *. split.
    + rewrite Qpower_opp, pow2_Z by lia.
      apply Qle_shift_inv_r.
      * rewrite <- pow2_Z by lia. apply pow2_pos.
      * assert (Hle : inject_Z k <= inject_Z (2 ^ L)) by (by rewrite <- Zle_Qle).
        nra.
    + replace (- L + 1)%Z with (- (L - 1))%Z by lia.
      rewrite Qpower_opp, pow2_Z by lia.
      apply Qlt_shift_inv_l.
      * rewrite <- pow2_Z by lia. apply pow2_pos.
      * assert (Hlt : inject_Z (2 ^ (L - 1)) <= inject_Z (k - 1)).
        { rewrite <- Zle_Qle. replace (L - 1)%Z with (Z.pred L) by lia. lia. }
        assert (0 < inject_Z (2 ^ (L - 1))).
        { rewrite <- pow2_Z by lia. apply pow2_pos. }
        nra.
Qed.

Lemma ulp_pos t : 0 < Double.ulp t.
Proof. apply pow2_pos. Qed.

(** The spacing is at most [2^-52] times the number, or is that of the
    subnormal numbers. *)
Lemma ulp_small t :
  0 < t → Double.ulp t <= t * (1 # 4503599627370496) ∨
          Double.ulp t <= 1 # 18014398509481984.
Proof.
  intros Ht. unfold Double.ulp.
  destruct (Z.max_spec (Double.exponent t) (-1022)) as [[_ ->]|[_ ->]].
  - right. by vm_compute.
  - left. destruct (exponent_spec t Ht) as [Hlo _].
    replace (Double.exponent t - 52)%Z with (Double.exponent t + (-52))%Z by lia.
    rewrite Qpower_plus by done.
    assert (He : 2 ^ (-52) == 1 # 4503599627370496) by (by vm_compute).
    rewrite He. apply Qmult_le_compat_r; [done|by vm_compute].
Qed.

Lemma nearestEven_le m : inject_Z (Double.nearestEven m) <= m + (1 # 2).
Proof.
  unfold Double.nearestEven.
  pose proof (Qfloor_le m) as Hf.
  destruct (Qcompare_spec (m - inject_Z (Qfloor m)) (1 # 2)) as [He|Hl|Hg].
  - destruct (Z.even (Qfloor m)); [lra|].
    rewrite inject_Z_plus. change (inject_Z 1) with 1. lra.
  - lra.
  - rewrite inject_Z_plus. change (inject_Z 1) with 1. lra.
Qed.

Lemma nearestEven_nonneg m : 0 <= m → (0 <= Double.nearestEven m)%Z.
Proof.
  intros Hm. unfold Double.nearestEven.
  assert (Hf : (0 <= Qfloor m)%Z).
  { rewrite <- (Qfloor_Z 0). by apply Qfloor_resp_le. }
  destruct (_ ?= _); [destruct (Z.even _)| |]; lia.
Qed.

Lemma roundPos_le t : 0 < t → Double.roundPos t <= t + Double.ulp t * (1 # 2).
Proof.
  intros Ht. unfold Double.roundPos. pose proof (ulp_pos t) as Hu.
  set (u := Double.ulp t) in *.
  pose proof (nearestEven_le (t / u)) as Hn.
  apply (Qmult_le_compat_r _ _ u) in Hn; [|lra].
  eapply Qle_trans; [exact Hn|].
  assert (He : (t / u + (1 # 2)) * u == t + u * (1 # 2)) by (field; lra).
  rewrite He. lra.
Qed.

Lemma roundPos_nonneg t : 0 <= t → 0 <= Double.roundPos t.
Proof.
  intros Ht. unfold Double.roundPos. pose proof (ulp_pos t) as Hu.
  apply Qmult_le_0_compat; [|lra].
  change 0 with (inject_Z 0). rewrite <- Zle_Qle. apply nearestEven_nonneg.
  apply Qle_shift_div_l; [done|]. lra.
Qed.

Lemma round_pos t : 0 < t → Double.round t = Double.roundPos t.
Proof. intros Ht. unfold Double.round. by rewrite (proj1 (Qlt_alt 0 t) Ht). Qed.

Lemma round_zero t : t == 0 → Double.round t = 0.
Proof.
  intros Ht. unfold Double.round.
  assert (H0 : 0 == t) by (by symmetry). by rewrite (proj1 (Qeq_alt 0 t) H0).
Qed.

(** The largest binary64 number below 1 is [1 - 2^-53]. *)
Lemma double_below_one x :
  Double.isDouble x → 0 <= x → x < 1 → x <= 1 - (1 # 9007199254740992).
Proof.
  intros Hd H0 H1. destruct (Qlt_le_dec x (1 # 2)) as [Hs|Hl]; [lra|].
  assert (Hx : 0 < x) by lra.
  unfold Double.isDouble in Hd. rewrite (round_pos x Hx) in Hd.
  destruct (exponent_spec x Hx) as [Hlo Hhi].
  assert (He : Double.exponent x = (-1)%Z).
  { assert (Double.exponent x < 0)%Z.
    { apply (Qpower_lt_compat_l_inv 2); [|done].
      eapply Qle_lt_trans; [exact Hlo|]. exact H1. }
    assert (-1 < Double.exponent x + 1)%Z.
    { apply (Qpower_lt_compat_l_inv 2); [|done].
      eapply Qle_lt_trans; [|exact Hhi]. exact Hl. }
    lia. }
  unfold Double.roundPos, Double.ulp in Hd. rewrite He in Hd.
  change (2 ^ (Z.max (-1) (-1022) - 52)) with (1 # 9007199254740992) in Hd.
  set (N := Double.nearestEven (x / (1 # 9007199254740992))) in Hd.
  assert (HN : (N < 9007199254740992)%Z).
  { rewrite Zlt_Qlt. change (inject_Z 9007199254740992) with (9007199254740992 # 1).
    lra. }
  assert (HN' : inject_Z N <= inject_Z 9007199254740991).
  { rewrite <- Zle_Qle. lia. }
  change (inject_Z 9007199254740991) with (9007199254740991 # 1) in HN'. lra.
Qed.

(** The rounded product of a draw below 1 and a length stays below the
    length. *)
Lemma round_product x (n : Z) :
  0 <= x → x <= 1 - (1 # 9007199254740992) → (1 <= n)%Z →
  0 <= Double.round (x * inject_Z n) ∧ Double.round (x * inject_Z n) < inject_Z n.
Proof.
  intros H0 H1 Hn.
  assert (Hn' : 1 <= inject_Z n) by (change 1 with (inject_Z 1); by rewrite <- Zle_Qle).
  set (y := inject_Z n) in *.
  destruct (Qlt_le_dec 0 (x * y)) as [Ht|Ht].
  - rewrite (round_pos _ Ht). split; [apply roundPos_nonneg; lra|].
    pose proof (roundPos_le _ Ht) as Hr.
    destruct (ulp_small _ Ht) as [Hu|Hu]; nra.
  - assert (Hz : x * y == 0) by nra.
    rewrite (round_zero _ Hz). lra.
Qed.
End DoubleRounding.

Lemma double_pick_range {A} (xs : list A) (x : Q) :
  xs ≠ [] → Double.isDouble x → (0 <= x)%Q → (x < 1)%Q →
  ∃ i, (i < length xs)%nat ∧ Double.pick xs x = xs !! i.
Proof.
  intros Hxs Hd H0 H1. unfold Double.pick, Double.mul.
  set (n := Z.of_nat (length xs)).
  assert (Hn : 1 ≤ n) by (destruct xs; [done|unfold n; simpl; lia]).
  destruct (round_product x n H0 (double_below_one x Hd H0 H1) Hn) as [Hlo Hhi].
  set (t := Double.round (x * inject_Z n)) in *.
  assert (Hi0 : 0 ≤ Qfloor t).
  { rewrite <- (Qfloor_Z 0). by apply Qfloor_resp_le. }
  assert (Hi1 : Qfloor t < n).
  { rewrite Zlt_Qlt. eapply Qle_lt_trans; [apply Qfloor_le|done]. }
  rewrite bool_decide_eq_true_2 by done.
  exists (Z.to_nat (Qfloor t)). split; [unfold n in *; lia|done].
Qed.

Lemma double_pick_elem {A} (xs : list A) (x : Q) :
  xs ≠ [] → Double.isDouble x → (0 <= x)%Q → (x < 1)%Q →
  ∃ a, Double.pick xs x = Some a ∧ a ∈ xs.
Proof.
  intros Hxs Hd H0 H1.
  destruct (double_pick_range xs x Hxs Hd H0 H1) as (i & Hi & ->).
  destruct (lookup_lt_is_Some_2 xs i Hi) as [a Ha].
  exists a. split; [done|]. by eapply list_elem_of_lookup_2.
Qed.

(** The choice made with a binary64 draw is the choice the exact product
    makes with some draw of [[0,1)]. *)
Lemma pick_covered {A} (xs : list A) (x : Q) :
  xs ≠ [] → Double.isDouble x → (0 <= x)%Q → (x < 1)%Q →
  ∃ q, (0 <= q)%Q ∧ (q < 1)%Q ∧ Gen.pick xs q = Double.pick xs x.
Proof.
  intros Hxs Hd H0 H1.
  destruct (double_pick_range xs x Hxs Hd H0 H1) as (i & Hi & ->).
  set (n := Z.of_nat (length xs)).
  assert (Hn : 0 < n) by (unfold n; lia).
  exists (inject_Z (Z.of_nat i) / inject_Z n)%Q.
  assert (Hn' : (0 < inject_Z n)%Q).
  { change 0%Q with (inject_Z 0). by rewrite <- Zlt_Qlt. }
  assert (Hi' : (0 <= inject_Z (Z.of_nat i))%Q).
  { change 0%Q with (inject_Z 0). rewrite <- Zle_Qle. lia. }
  assert (Hi2 : (inject_Z (Z.of_nat i) < inject_Z n)%Q).
  { rewrite <- Zlt_Qlt. unfold n. lia. }
  split_and!.
  - apply Qle_shift_div_l; [done|]. lra.
  - apply Qlt_shift_div_r; [done|]. lra.
  - unfold Gen.pick. fold n.
    assert (He : (inject_Z (Z.of_nat i) / inject_Z n * inject_Z n
                  == inject_Z (Z.of_nat i))%Q) by (field; lra).
    rewrite (Qfloor_comp _ _ He), Qfloor_Z.
    rewrite bool_decide_eq_true_2 by lia. by rewrite Nat2Z.id.
Qed.

Lemma double_getRandomNeighbor_spec rng difficulty width height neighbors n :
  Double.validRng rng → neighbors ≠ [] →
  ∃ nb n', Double.getRandomNeighbor rng difficulty width height neighbors n
             = Done (nb, n') ∧
           nb ∈ neighbors ∧ (n' = S n ∨ n' = S (S n)).
Proof.
  intros Hrng Hne. unfold Double.getRandomNeighbor.
  assert (Hpk : ∀ (xs : list Pos) k, xs ≠ [] → (∀ a, a ∈ xs → a ∈ neighbors) →
            ∃ nb, (nb0 <- fromOption (Double.pick xs (rng k)); Done (nb0, S k))
                    = Done (nb, S k) ∧ nb ∈ neighbors).
  { intros xs k Hxs Hsub. destruct (Hrng k) as (Hd & H0 & H1).
    destruct (double_pick_elem xs (rng k) Hxs Hd H0 H1) as (a & Ha & Hin).
    exists a. rewrite Ha. simpl. auto. }
  assert (Hfb : ∀ k, ∃ nb, (nb0 <- fromOption (Double.pick neighbors (rng k));
                            Done (nb0, S k)) = Done (nb, S k) ∧ nb ∈ neighbors).
  { intros k. by apply Hpk. }
  assert (Hflt : ∀ (P : Pos → Prop) `{!∀ p, Decision (P p)} a,
            a ∈ filter P neighbors → a ∈ neighbors).
  { intros P ? a Ha. by apply list_elem_of_filter in Ha as [_ Ha]. }
  destruct difficulty.
  - case_bool_decide as He.
    + destruct (Gen.Qltb _ _).
      * destruct (Hpk _ (S n) He (Hflt _ _)) as (nb & -> & Hin).
        eexists _, _; split_and!; [reflexivity|done|auto].
      * destruct (Hfb (S n)) as (nb & -> & Hin).
        eexists _, _; split_and!; [reflexivity|done|auto].
    + destruct (Hfb n) as (nb & -> & Hin).
        eexists _, _; split_and!; [reflexivity|done|auto].
  - destruct (Hfb n) as (nb & -> & Hin).
        eexists _, _; split_and!; [reflexivity|done|auto].
  - destruct (Gen.Qltb _ _).
    + case_bool_decide as He.
      * destruct (Hpk _ (S n) He (Hflt _ _)) as (nb & -> & Hin).
        eexists _, _; split_and!; [reflexivity|done|auto].
      * destruct (Hfb (S n)) as (nb & -> & Hin).
        eexists _, _; split_and!; [reflexivity|done|auto].
    + destruct (Hfb (S n)) as (nb & -> & Hin).
        eexists _, _; split_and!; [reflexivity|done|auto].
Qed.

(** Known values: the literals [0.1] and [0.7], the sum [0.1 + 0.2], an
    odd integer above [2^53], which is a tie, and half of the least
    subnormal number, which rounds to 0. *)
Example round_values :
  (Double.round (1 # 10) == 3602879701896397 # 2 ^ 55)%Q ∧
  (Double.round (7 # 10) == 3152519739159347 # 2 ^ 52)%Q ∧
  (Double.round (Double.round (1 # 10) + Double.round (2 # 10))
     == 5404319552844596 # 2 ^ 54)%Q ∧
  (Double.round (3 # 10) == 5404319552844595 # 2 ^ 54)%Q ∧
  (Double.round (inject_Z (2 ^ 53 + 1)) == inject_Z (2 ^ 53))%Q ∧
  (Double.round (1 # 2 ^ 1075) == 0)%Q.
Proof. split_and!; by vm_compute. Qed.

(** With the binary64 number nearest to 1/3 and six elements the rounded
    product is 2, where the exact product is below 2. *)
Example pick_third :
  Double.pick [0; 1; 2; 3; 4; 5] third = Some 2 ∧
  Gen.pick [0; 1; 2; 3; 4; 5] third = Some 1.
Proof. split; by vm_compute. Qed.

Lemma rngD_valid : Double.validRng rngD.
Proof.
  intros n. unfold rngD. pose proof (Nat.mod_upper_bound n 7) as Hn.
  destruct (n mod 7)%nat as [|[|[|[|[|[|[|k]]]]]]]; [..|lia];
    (split_and!; [by vm_compute|by vm_compute|by vm_compute]).
Qed.

(** ** Runs on the test levels *)

Example room3_bfs :
  BFS.solveBFS 20 room3 =
  Done (Some (mkSolution 1 [mkPos 1 1; mkPos 0 1]
                [mkPos 1 1; mkPos 0 1] "BFS"%string
                [mkStep (mkPos 1 1) 0 (BFSData 4 0 4)] None)).
Proof. vm_compute. reflexivity. Qed.

Example room3_dfs :
  DFS.solveDFS 20 room3 =
  Done (Some (mkSolution 1 [mkPos 1 1; mkPos 0 1]
                [mkPos 1 1; mkPos 0 1] "DFS"%string [] None)).
Proof. vm_compute. reflexivity. Qed.

Example room3_astar :
  (s <- AStar.solveAStar 20 room3;
   Done (option_map (λ s, (distance s, path s, visitedCells s, detailedSteps s)) s)) =
  Done (Some (1, [mkPos 1 1; mkPos 0 1], [mkPos 1 1; mkPos 0 1],
     [mkStep (mkPos 1 1) 0 (AStarData (Finite 0) 1 (Finite 1) 0);
      mkStep (mkPos 0 1) 1 (AStarData (Finite 1) 0 (Finite 1) 3)])).
Proof. vm_compute. reflexivity. Qed.

Example room3_dijkstra :
  Dijkstra.solveDijkstra 20 room3 =
  Done (Some (mkSolution 1 [mkPos 1 1; mkPos 0 1]
                [mkPos 1 1; mkPos 0 1] "Dijkstra"%string
                [mkStep (mkPos 1 1) 0 (DijkstraData (Finite 0) 4 4)] None)).
Proof. vm_compute. reflexivity. Qed.

Example room3_south_distances :
  (b <- BFS.solveBFS 20 room3_south; d <- DFS.solveDFS 20 room3_south;
   Done (option_map distance b, option_map distance d)) = Done (Some 1, Some 5).
Proof. vm_compute. reflexivity. Qed.

Example sealed3_all :
  (BFS.solveBFS 20 sealed3, DFS.solveDFS 20 sealed3,
   AStar.solveAStar 20 sealed3, Dijkstra.solveDijkstra 20 sealed3)
  = (Done None, Done None, Done None, Done None).
Proof. vm_compute. reflexivity. Qed.

Example genLevel_generated :
  Gen.generateMaze 100 rng0 4 3 Gen.hard = Done genLevel.
Proof. vm_compute. reflexivity. Qed.

Example genLevel_shape :
  grid genLevel = [[0;0;0;0];[0;0;0;0];[0;0;0;0]] ∧ start genLevel = mkPos 2 0.
Proof. vm_compute. done. Qed.
(** * The properties of the specification *)

(** C1. On every solvable level produced by the generator, whatever the
    random draws, breadth-first search, Dijkstra and A* each return a
    solution, their [distance] fields are equal, and that distance is the
    least number of moves from [start] to a cell satisfying the exit
    predicate. *)
Theorem optimal_distances_agree fuelg rng width height difficulty level fuel :
  Gen.generateMaze fuelg rng width height difficulty = Done level →
  solvable level →
  (enough level ≤ fuel)%nat →
  ∃ sb sd sa,
    BFS.solveBFS fuel level = Done (Some sb) ∧
    Dijkstra.solveDijkstra fuel level = Done (Some sd) ∧
    AStar.solveAStar fuel level = Done (Some sa) ∧
    distance sb = distance sd ∧ distance sd = distance sa ∧
    shortest level (distance sb).
Proof.
  intros Hgen Hsolv Hfuel%enough_fuel.
  destruct (generateMaze_spec _ _ _ _ _ _ Hgen) as [Hwf _].
  destruct (solveBFS_spec level Hwf fuel Hfuel) as (rb & Hb & Pb).
  destruct (solveDijkstra_spec level Hwf fuel Hfuel) as (rd & Hd & Pd).
  destruct (solveAStar_spec level Hwf fuel Hfuel) as (ra & Ha & Pa).
  destruct (post_solvable _ _ Pb Hsolv) as [sb ->].
  destruct (post_solvable _ _ Pd Hsolv) as [sd ->].
  destruct (post_solvable _ _ Pa Hsolv) as [sa ->].
  apply post_shortest in Pb, Pd, Pa.
  exists sb, sd, sa. split_and!; try done.
  - by eapply shortest_unique.
  - by eapply shortest_unique.
Qed.

Lemma optimal_distances_agree_witness :
  Gen.generateMaze 100 rng0 4 3 Gen.hard = Done genLevel ∧
  solvable genLevel ∧
  (enough genLevel ≤ 20)%nat ∧
  ∃ sb sd sa,
    BFS.solveBFS 20 genLevel = Done (Some sb) ∧
    Dijkstra.solveDijkstra 20 genLevel = Done (Some sd) ∧
    AStar.solveAStar 20 genLevel = Done (Some sa) ∧
    distance sb = distance sd ∧ distance sd = distance sa ∧
    shortest genLevel (distance sb).
Proof.
  assert (Hgen : Gen.generateMaze 100 rng0 4 3 Gen.hard = Done genLevel)
    by (vm_compute; reflexivity).
  assert (Hfuel : (enough genLevel ≤ 20)%nat) by (vm_compute; lia).
  assert (Hwf : wf genLevel) by (apply (bool_decide_unpack _); vm_compute; exact I).
  assert (Hrun : BFS.solveBFS 20 genLevel = Done (Some genLevel_bfs))
    by (vm_compute; reflexivity).
  assert (Hsolv : solvable genLevel)
    by exact (bfs_found_solvable genLevel 20 genLevel_bfs Hwf Hfuel Hrun).
  split; [exact Hgen|]. split; [exact Hsolv|]. split; [exact Hfuel|].
  exact (optimal_distances_agree 100 rng0 4 3 Gen.hard genLevel 20 Hgen Hsolv Hfuel).
Defined.

(** C2 (the code does not do this).  The Step Trace should hold one entry
    per settled cell, in the order of [visitedCells].  In the 3x3 room of
    the spec, breadth-first search and Dijkstra settle two cells and record
    one entry; in the forked corridor, depth-first search visits five cells
    and records three entries, in the order in which its calls return. *)
Theorem trace_differs_from_visited :
  (∃ sol, BFS.solveBFS 20 room3 = Done (Some sol) ∧
          visitedCells sol = [mkPos 1 1; mkPos 0 1] ∧
          tracePositions sol = [mkPos 1 1]) ∧
  (∃ sol, Dijkstra.solveDijkstra 20 room3 = Done (Some sol) ∧
          visitedCells sol = [mkPos 1 1; mkPos 0 1] ∧
          tracePositions sol = [mkPos 1 1]) ∧
  (∃ sol, DFS.solveDFS 20 fork = Done (Some sol) ∧
          visitedCells sol = [mkPos 1 1; mkPos 0 1; mkPos 0 0; mkPos 0 2; mkPos 2 1] ∧
          tracePositions sol = [mkPos 0 0; mkPos 0 2; mkPos 0 1]).
Proof.
  split_and!; eexists; (split; [vm_compute; reflexivity|]); by vm_compute.
Qed.

(** C3 (the code does not do this).  On a level without wall data a cell
    should count as an exit only when it lies on the border and its grid
    value is 0; the game's own exit test [reachedExit] requires both.  The
    exit test of the solvers looks at the border alone.  On the 2x2 grid
    [blocked], whose start (0,0) is a border cell of value 1, the solvers'
    test accepts the start and each of the four solvers returns the path
    [[start]] with distance 0, where the game reports no exit. *)
Theorem blocked_start_accepted :
  cells blocked = None ∧
  mget (grid blocked) (start blocked) = Some 1 ∧
  canExit blocked 2 2 (start blocked) = Done true ∧
  App.reachedExit blocked (start blocked) = Done false ∧
  ∀ alg, ∃ sol, solve 10 blocked alg = Done (Some sol) ∧
                path sol = [start blocked] ∧ distance sol = 0.
Proof.
  split_and!; [by vm_compute..|].
  intros []; eexists; (split; [vm_compute; reflexivity|]); by vm_compute.
Qed.



(** C5 (the code does not do this).  The [isBacktracking] flag of an entry
    should be true when its cell is not 4-adjacent to the cell visited just
    before it.  In the forked corridor depth-first search visits (0,2)
    right after (0,0), which is not adjacent to it, and records the flag
    false for (0,2), as for every entry. *)
Theorem backtracking_flag_never_set :
  ∃ sol, DFS.solveDFS 20 fork = Done (Some sol) ∧
    visitedCells sol = [mkPos 1 1; mkPos 0 1; mkPos 0 0; mkPos 0 2; mkPos 2 1] ∧
    detailedSteps sol =
      [ mkStep (mkPos 0 0) 0 (DFSData 2 false true);
        mkStep (mkPos 0 2) 1 (DFSData 2 false true);
        mkStep (mkPos 0 1) 2 (DFSData 1 false false) ] ∧
    adjacent (mkPos 0 2) (mkPos 0 0) = false.
Proof.
  eexists. split; [vm_compute; reflexivity|]. by vm_compute.
Qed.



(** C7.  For every width and height of at least 2, every difficulty and
    every stream of draws in [[0,1)], [generateMaze] returns a level (its
    carving loop needs at most [2 * width * height] turns), and every level
    it returns carries wall data that satisfies wall symmetry: for
    4-adjacent cells A and B, the wall of A facing B is clear exactly when
    the wall of B facing A is clear. *)
Theorem generated_walls_symmetric fuel rng width height difficulty :
  Gen.validRng rng → (2 ≤ width)%nat → (2 ≤ height)%nat →
  ((2 * (height * width) ≤ fuel)%nat →
   ∃ level, Gen.generateMaze fuel rng width height difficulty = Done level) ∧
  (∀ level, Gen.generateMaze fuel rng width height difficulty = Done level →
     ∃ cs, cells level = Some cs ∧ wallSymmetric cs).
Proof.
  intros Hrng Hw Hh. split.
  - intros Hfuel. by apply generateMaze_total.
  - intros level Hgen.
    destruct (generateMaze_spec _ _ _ _ _ _ Hgen) as (_ & cs & Hcs & Hsym & _).
    exists cs. split; [done|]. by apply symmetric_wallSymmetric.
Qed.

Lemma generated_walls_symmetric_witness :
  Gen.validRng rng0 ∧ (2 ≤ 4)%nat ∧ (2 ≤ 3)%nat ∧
  ((2 * (3 * 4) ≤ 100)%nat →
   ∃ level, Gen.generateMaze 100 rng0 4 3 Gen.hard = Done level) ∧
  (∀ level, Gen.generateMaze 100 rng0 4 3 Gen.hard = Done level →
     ∃ cs, cells level = Some cs ∧ wallSymmetric cs).
Proof.
  assert (Hrng : Gen.validRng rng0) by exact rng0_valid.
  assert (Hw : (2 ≤ 4)%nat) by lia.
  assert (Hh : (2 ≤ 3)%nat) by lia.
  split; [exact Hrng|]. split; [exact Hw|]. split; [exact Hh|].
  exact (generated_walls_symmetric 100 rng0 4 3 Gen.hard Hrng Hw Hh).
Defined.

(** C8.  When depth-first and breadth-first search both return a solution
    for the same level, the [distance] of depth-first search is at least
    that of breadth-first search. *)
Theorem dfs_distance_at_least_bfs level fuel1 fuel2 sd sb :
  wf level → (enough level ≤ fuel1)%nat → (enough level ≤ fuel2)%nat →
  DFS.solveDFS fuel1 level = Done (Some sd) →
  BFS.solveBFS fuel2 level = Done (Some sb) →
  distance sb ≤ distance sd.
Proof.
  intros Hwf Hf1 Hf2 Hd Hb.
  destruct (solve_good level Algorithm.dfs fuel1 sd Hwf Hf1 Hd) as [Hgood _].
  destruct (goodPath_walk _ _ Hgood) as (e & n & Hw & He & _ & ->).
  destruct (solveBFS_spec level Hwf fuel2 (enough_fuel _ _ Hf2)) as (res & Hrun & Hpost).
  rewrite Hb in Hrun. injection Hrun as <-.
  destruct Hpost as (_ & _ & Hmin). by apply (Hmin e n).
Qed.

Lemma dfs_distance_at_least_bfs_witness :
  wf room3_south ∧ (enough room3_south ≤ 20)%nat ∧
  ∃ sd sb, DFS.solveDFS 20 room3_south = Done (Some sd) ∧
           BFS.solveBFS 20 room3_south = Done (Some sb) ∧
           distance sb ≤ distance sd.
Proof.
  assert (Hwf : wf room3_south) by (apply (bool_decide_unpack _); vm_compute; exact I).
  assert (Hfuel : (enough room3_south ≤ 20)%nat) by (vm_compute; lia).
  assert (Hd : DFS.solveDFS 20 room3_south = Done (Some room3_south_dfs))
    by (vm_compute; reflexivity).
  assert (Hb : BFS.solveBFS 20 room3_south = Done (Some room3_south_bfs))
    by (vm_compute; reflexivity).
  split; [exact Hwf|]. split; [exact Hfuel|].
  exists room3_south_dfs, room3_south_bfs. split; [exact Hd|]. split; [exact Hb|].
  exact (dfs_distance_at_least_bfs room3_south 20 20 room3_south_dfs room3_south_bfs
           Hwf Hfuel Hfuel Hd Hb).
Defined.

(** C9.  On a well-formed level each of the four solvers terminates: there
    is a result, a solution or NotFound, that every run with fuel for at
    least [rows * cols + 1] turns of its loops returns; no such run throws
    or exhausts its fuel. *)
Theorem solvers_terminate level alg :
  wf level →
  ∃ res, ∀ fuel, (enough level ≤ fuel)%nat → solve fuel level alg = Done res.
Proof.
  intros Hwf.
  destruct (solve_sound level alg (enough level) Hwf (le_n _)) as (res & Hrun & _).
  exists res. intros fuel Hfuel. by apply (solve_extends (enough level) fuel).
Qed.

Lemma solvers_terminate_witness :
  wf fork ∧
  ∃ res, ∀ fuel, (enough fork ≤ fuel)%nat → solve fuel fork Algorithm.dijkstra = Done res.
Proof.
  assert (Hwf : wf fork) by (apply (bool_decide_unpack _); vm_compute; exact I).
  split; [exact Hwf|].
  exact (solvers_terminate fork Algorithm.dijkstra Hwf).
Defined.

(** C10.  The [visitedCells] of a solution returned by any of the four
    solvers holds no position twice. *)
Theorem visited_cells_distinct level alg fuel sol :
  wf level → (enough level ≤ fuel)%nat →
  solve fuel level alg = Done (Some sol) →
  NoDup (visitedCells sol).
Proof.
  intros Hwf Hfuel Hrun.
  by destruct (solve_good level alg fuel sol Hwf Hfuel Hrun) as [_ Hnd].
Qed.

Lemma visited_cells_distinct_witness :
  wf fork ∧ (enough fork ≤ 10)%nat ∧
  ∃ sol, solve 10 fork Algorithm.astar = Done (Some sol) ∧ NoDup (visitedCells sol).
Proof.
  assert (Hwf : wf fork) by (apply (bool_decide_unpack _); vm_compute; exact I).
  assert (Hfuel : (enough fork ≤ 10)%nat) by (vm_compute; lia).
  assert (Hrun : solve 10 fork Algorithm.astar = Done (Some fork_astar))
    by (vm_compute; reflexivity).
  split; [exact Hwf|]. split; [exact Hfuel|].
  exists fork_astar. split; [exact Hrun|].
  exact (visited_cells_distinct fork Algorithm.astar 10 fork_astar Hwf Hfuel Hrun).
Defined.
(** * Further properties of the code *)

(** ** The game loop (App.tsx) *)

(** X1.  On a well-formed level the key handler never throws: after any
    sequence of key presses the player is on the grid, has come from the
    start along [moves] moves that the Adjacency Oracle allows, and
    [moves] is at most the number of keys pressed. *)
Theorem player_walks_passages level keys :
  wf level →
  ∃ g, App.play level keys = Done g ∧
       inb (nrows level) (ncols level) (App.player g) ∧
       walk (edge level) (start level) (App.player g) (App.moves g) ∧
       (App.moves g ≤ length keys)%nat.
Proof. intros Hwf. by apply play_walk. Qed.

Lemma player_walks_passages_witness :
  wf room3 ∧
  ∃ g, App.play room3 ["ArrowUp"; "x"; "ArrowLeft"]%string = Done g ∧
       inb (nrows room3) (ncols room3) (App.player g) ∧
       walk (edge room3) (start room3) (App.player g) (App.moves g) ∧
       (App.moves g ≤ length ["ArrowUp"; "x"; "ArrowLeft"]%string)%nat.
Proof.
  assert (Hwf : wf room3) by (apply (bool_decide_unpack _); vm_compute; exact I).
  split; [exact Hwf|].
  exact (player_walks_passages room3 ["ArrowUp"; "x"; "ArrowLeft"]%string Hwf).
Defined.

(** X2.  A player who stands on a cell where the game reports the exit
    reached has made at least as many moves as the distance breadth-first
    search returns for the level. *)
Theorem escape_takes_optimal_moves level keys g fuel :
  wf level → (enough level ≤ fuel)%nat →
  App.play level keys = Done g →
  App.reachedExit level (App.player g) = Done true →
  ∃ sol, BFS.solveBFS fuel level = Done (Some sol) ∧
         distance sol ≤ Z.of_nat (App.moves g).
Proof.
  intros Hwf Hfuel%enough_fuel Hplay Hexit.
  destruct (play_walk level Hwf keys) as (g' & Hplay' & Hin & Hw & _).
  rewrite Hplay in Hplay'. injection Hplay' as <-.
  apply (reachedExit_spec level Hwf _ Hin) in Hexit as [Hexit _].
  destruct (solveBFS_spec level Hwf fuel Hfuel) as (res & Hrun & Hpost).
  destruct (post_solvable _ _ Hpost) as [sol ->]; [by eexists _, _|].
  exists sol. split; [done|]. destruct Hpost as (_ & _ & Hmin). by eapply Hmin.
Qed.

Lemma escape_takes_optimal_moves_witness :
  wf room3 ∧ (enough room3 ≤ 20)%nat ∧
  App.play room3 ["ArrowLeft"; "ArrowUp"; "ArrowRight"]%string
    = Done (App.mkGame (mkPos 0 1) 3) ∧
  App.reachedExit room3 (mkPos 0 1) = Done true ∧
  ∃ sol, BFS.solveBFS 20 room3 = Done (Some sol) ∧ distance sol ≤ 3.
Proof.
  assert (Hwf : wf room3) by (apply (bool_decide_unpack _); vm_compute; exact I).
  assert (Hfuel : (enough room3 ≤ 20)%nat) by (vm_compute; lia).
  assert (Hplay : App.play room3 ["ArrowLeft"; "ArrowUp"; "ArrowRight"]%string
                  = Done (App.mkGame (mkPos 0 1) 3)) by (vm_compute; reflexivity).
  assert (Hexit : App.reachedExit room3 (mkPos 0 1) = Done true)
    by (vm_compute; reflexivity).
  split; [exact Hwf|]. split; [exact Hfuel|]. split; [exact Hplay|].
  split; [exact Hexit|].
  exact (escape_takes_optimal_moves room3 _ (App.mkGame (mkPos 0 1) 3) 20
           Hwf Hfuel Hplay Hexit).
Defined.

(** X3.  On a cell of the grid the game's exit test holds exactly when
    the solvers' exit test holds and, on a level without wall data, the
    cell has grid value 0. *)
Theorem game_exit_test level p :
  wf level → inb (nrows level) (ncols level) p →
  (App.reachedExit level p = Done true ↔
   exitAt level p ∧ (cells level = None → mget (grid level) p = Some 0)).
Proof. intros Hwf Hin. by apply reachedExit_spec. Qed.

Lemma game_exit_test_witness :
  wf blocked ∧ inb (nrows blocked) (ncols blocked) (mkPos 0 0) ∧
  (App.reachedExit blocked (mkPos 0 0) = Done true ↔
   exitAt blocked (mkPos 0 0) ∧
   (cells blocked = None → mget (grid blocked) (mkPos 0 0) = Some 0)).
Proof.
  assert (Hwf : wf blocked) by (apply (bool_decide_unpack _); vm_compute; exact I).
  assert (Hin : inb (nrows blocked) (ncols blocked) (mkPos 0 0))
    by (apply (bool_decide_unpack _); vm_compute; exact I).
  split; [exact Hwf|]. split; [exact Hin|].
  exact (game_exit_test blocked (mkPos 0 0) Hwf Hin).
Defined.

(** X4.  From a step below the number of visited cells, no sequence of
    step changes reaches that number: the step stays within
    [0, length - 1], so the cells shown never include the last visited
    cell of a solution. *)
Theorem step_mode_hides_last_cell level alg fuel sol deltas step0 shown e :
  wf level → (enough level ≤ fuel)%nat →
  solve fuel level alg = Done (Some sol) →
  0 ≤ step0 < Z.of_nat (length (visitedCells sol)) →
  last (visitedCells sol) = Some e →
  0 ≤ foldl (λ s d, App.handleStepChange (visitedCells sol) d s) step0 deltas
    < Z.of_nat (length (visitedCells sol)) ∧
  e ∉ App.visualizedCells (visitedCells sol)
        (foldl (λ s d, App.handleStepChange (visitedCells sol) d s) step0 deltas)
        shown.
Proof.
  intros Hwf Hfuel Hrun H0 Hlast.
  destruct (solve_good level alg fuel sol Hwf Hfuel Hrun) as [_ Hnd].
  pose proof (stepChanges_range (visitedCells sol) deltas step0 H0) as Hr.
  split; [done|]. unfold App.visualizedCells.
  set (step := foldl _ step0 deltas) in *.
  destruct (Z.ltb_spec 0 step) as [Hpos|Hzero]; simpl.
  - rewrite (proj2 (Z.leb_le _ _)) by lia.
    apply last_not_in_take; [done|done|lia].
  - replace step with 0 by lia. simpl. apply not_elem_of_nil.
Qed.

Lemma step_mode_hides_last_cell_witness :
  wf fork ∧ (enough fork ≤ 10)%nat ∧
  solve 10 fork Algorithm.astar = Done (Some fork_astar) ∧
  0 ≤ 1 < Z.of_nat (length (visitedCells fork_astar)) ∧
  last (visitedCells fork_astar) = Some (mkPos 2 1) ∧
  0 ≤ foldl (λ s d, App.handleStepChange (visitedCells fork_astar) d s) 1 [1; 1; 1; -1]
    < Z.of_nat (length (visitedCells fork_astar)) ∧
  mkPos 2 1 ∉ App.visualizedCells (visitedCells fork_astar)
        (foldl (λ s d, App.handleStepChange (visitedCells fork_astar) d s) 1 [1; 1; 1; -1])
        [].
Proof.
  assert (Hwf : wf fork) by (apply (bool_decide_unpack _); vm_compute; exact I).
  assert (Hfuel : (enough fork ≤ 10)%nat) by (vm_compute; lia).
  assert (Hrun : solve 10 fork Algorithm.astar = Done (Some fork_astar))
    by (vm_compute; reflexivity).
  assert (H0 : 0 ≤ 1 < Z.of_nat (length (visitedCells fork_astar)))
    by (vm_compute; split; [discriminate|reflexivity]).
  assert (Hlast : last (visitedCells fork_astar) = Some (mkPos 2 1)) by reflexivity.
  split; [exact Hwf|]. split; [exact Hfuel|]. split; [exact Hrun|].
  split; [exact H0|]. split; [exact Hlast|].
  exact (step_mode_hides_last_cell fork Algorithm.astar 10 fork_astar [1; 1; 1; -1] 1 []
           (mkPos 2 1) Hwf Hfuel Hrun H0 Hlast).
Defined.

(** ** The solvers (solver.ts) *)

(** X5.  When an exit can be reached from the start, each of the four
    solvers, depth-first search included, returns a solution. *)
Theorem every_solver_finds_reachable_exit level alg fuel :
  wf level → (enough level ≤ fuel)%nat → solvable level →
  ∃ sol, solve fuel level alg = Done (Some sol).
Proof. apply solve_complete. Qed.

Lemma every_solver_finds_reachable_exit_witness :
  wf room3_south ∧ (enough room3_south ≤ 20)%nat ∧ solvable room3_south ∧
  ∃ sol, solve 20 room3_south Algorithm.dfs = Done (Some sol).
Proof.
  assert (Hwf : wf room3_south) by (apply (bool_decide_unpack _); vm_compute; exact I).
  assert (Hfuel : (enough room3_south ≤ 20)%nat) by (vm_compute; lia).
  assert (Hrun : BFS.solveBFS 20 room3_south = Done (Some room3_south_bfs))
    by (vm_compute; reflexivity).
  assert (Hsolv : solvable room3_south)
    by exact (bfs_found_solvable room3_south 20 room3_south_bfs Hwf Hfuel Hrun).
  split; [exact Hwf|]. split; [exact Hfuel|]. split; [exact Hsolv|].
  exact (every_solver_finds_reachable_exit room3_south Algorithm.dfs 20 Hwf Hfuel Hsolv).
Defined.

(** X6.  On every well-formed level, with wall data or without, the
    distance returned by breadth-first search, A* or Dijkstra is the least
    number of moves from the start to an exit. *)
Theorem optimal_on_every_level level alg fuel sol :
  wf level → (enough level ≤ fuel)%nat → alg ≠ Algorithm.dfs →
  solve fuel level alg = Done (Some sol) →
  shortest level (distance sol).
Proof.
  intros Hwf Hfuel%enough_fuel Halg Hrun. apply post_shortest.
  destruct alg; simpl in Hrun; [|done| |].
  - destruct (solveBFS_spec level Hwf fuel Hfuel) as (res & Hrun' & Hpost).
    rewrite Hrun in Hrun'. by injection Hrun' as <-.
  - destruct (solveAStar_spec level Hwf fuel Hfuel) as (res & Hrun' & Hpost).
    rewrite Hrun in Hrun'. by injection Hrun' as <-.
  - destruct (solveDijkstra_spec level Hwf fuel Hfuel) as (res & Hrun' & Hpost).
    rewrite Hrun in Hrun'. by injection Hrun' as <-.
Qed.

Lemma optimal_on_every_level_witness :
  wf corridor4 ∧ (enough corridor4 ≤ 20)%nat ∧ Algorithm.dijkstra ≠ Algorithm.dfs ∧
  solve 20 corridor4 Algorithm.dijkstra = Done (Some corridor4_dijkstra) ∧
  shortest corridor4 (distance corridor4_dijkstra).
Proof.
  assert (Hwf : wf corridor4) by (apply (bool_decide_unpack _); vm_compute; exact I).
  assert (Hfuel : (enough corridor4 ≤ 20)%nat) by (vm_compute; lia).
  assert (Halg : Algorithm.dijkstra ≠ Algorithm.dfs) by discriminate.
  assert (Hrun : solve 20 corridor4 Algorithm.dijkstra = Done (Some corridor4_dijkstra))
    by (vm_compute; reflexivity).
  split; [exact Hwf|]. split; [exact Hfuel|]. split; [exact Halg|].
  split; [exact Hrun|].
  exact (optimal_on_every_level corridor4 Algorithm.dijkstra 20 corridor4_dijkstra
           Hwf Hfuel Halg Hrun).
Defined.

(** X7.  When the start itself satisfies the exit test, every solver
    returns at its first turn: distance 0, the path and the visited cells
    both being the start alone. *)
Theorem exit_at_start_is_immediate level alg fuel :
  wf level → exitAt level (start level) → (0 < fuel)%nat →
  ∃ sol, solve fuel level alg = Done (Some sol) ∧
         distance sol = 0 ∧ path sol = [start level] ∧
         visitedCells sol = [start level].
Proof.
  intros Hwf Hexit Hfuel. destruct fuel as [|fuel]; [lia|].
  by apply solve_immediate.
Qed.

Lemma exit_at_start_is_immediate_witness :
  wf blocked ∧ exitAt blocked (start blocked) ∧ (0 < 1)%nat ∧
  ∃ sol, solve 1 blocked Algorithm.dfs = Done (Some sol) ∧
         distance sol = 0 ∧ path sol = [start blocked] ∧
         visitedCells sol = [start blocked].
Proof.
  assert (Hwf : wf blocked) by (apply (bool_decide_unpack _); vm_compute; exact I).
  assert (Hexit : exitAt blocked (start blocked)) by reflexivity.
  assert (Hfuel : (0 < 1)%nat) by lia.
  split; [exact Hwf|]. split; [exact Hexit|]. split; [exact Hfuel|].
  exact (exit_at_start_is_immediate blocked Algorithm.dfs 1 Hwf Hexit Hfuel).
Defined.

(** X8.  The Step Trace of A* holds one entry per visited cell, in the
    order of [visitedCells]. *)
Theorem astar_trace_follows_visited fuel level sol :
  AStar.solveAStar fuel level = Done (Some sol) →
  tracePositions sol = visitedCells sol.
Proof. apply astar_trace. Qed.

Lemma astar_trace_follows_visited_witness :
  AStar.solveAStar 10 fork = Done (Some fork_astar) ∧
  tracePositions fork_astar = visitedCells fork_astar.
Proof.
  assert (Hrun : AStar.solveAStar 10 fork = Done (Some fork_astar))
    by (vm_compute; reflexivity).
  split; [exact Hrun|].
  exact (astar_trace_follows_visited 10 fork fork_astar Hrun).
Defined.

(** X9.  The Step Trace of breadth-first search and of Dijkstra is
    [visitedCells] without its last cell, and that cell is the exit the
    path ends at. *)
Theorem trace_misses_the_exit fuel level alg sol :
  alg = Algorithm.bfs ∨ alg = Algorithm.dijkstra →
  solve fuel level alg = Done (Some sol) →
  ∃ e, visitedCells sol = tracePositions sol ++ [e] ∧ last (path sol) = Some e.
Proof.
  intros Halg Hrun.
  destruct (solve_shape level alg fuel sol Hrun) as (_ & _ & Hlast & _).
  assert (He : ∃ e, visitedCells sol = tracePositions sol ++ [e]).
  { destruct Halg as [-> | ->]; simpl in Hrun.
    - by eapply bfs_trace.
    - by eapply dijkstra_trace. }
  destruct He as [e He]. exists e. split; [done|].
  by rewrite <- Hlast, He, last_snoc.
Qed.

Lemma trace_misses_the_exit_witness :
  (Algorithm.bfs = Algorithm.bfs ∨ Algorithm.bfs = Algorithm.dijkstra) ∧
  solve 20 room3_south Algorithm.bfs = Done (Some room3_south_bfs) ∧
  ∃ e, visitedCells room3_south_bfs = tracePositions room3_south_bfs ++ [e] ∧
       last (path room3_south_bfs) = Some e.
Proof.
  assert (Halg : Algorithm.bfs = Algorithm.bfs ∨ Algorithm.bfs = Algorithm.dijkstra)
    by (left; reflexivity).
  assert (Hrun : solve 20 room3_south Algorithm.bfs = Done (Some room3_south_bfs))
    by (vm_compute; reflexivity).
  split; [exact Halg|]. split; [exact Hrun|].
  exact (trace_misses_the_exit 20 room3_south Algorithm.bfs room3_south_bfs Halg Hrun).
Defined.

(** X10.  Every entry of the Step Trace of depth-first search has its
    [isBacktracking] flag false, whatever the level. *)
Theorem dfs_never_flags_backtracking fuel level sol :
  DFS.solveDFS fuel level = Done (Some sol) →
  Forall (λ st, ∃ d e, algorithmData st = DFSData d false e) (detailedSteps sol).
Proof. apply dfs_trace_flags. Qed.

Lemma dfs_never_flags_backtracking_witness :
  DFS.solveDFS 10 fork = Done (Some fork_dfs) ∧
  Forall (λ st, ∃ d e, algorithmData st = DFSData d false e)
    (detailedSteps fork_dfs).
Proof.
  assert (Hrun : DFS.solveDFS 10 fork = Done (Some fork_dfs))
    by (vm_compute; reflexivity).
  split; [exact Hrun|].
  exact (dfs_never_flags_backtracking 10 fork fork_dfs Hrun).
Defined.

(** X11.  The entries of the Step Trace of every solver are numbered
    0, 1, 2, ... in the order they were recorded. *)
Theorem trace_steps_numbered fuel level alg sol :
  solve fuel level alg = Done (Some sol) →
  stepNumber <$> detailedSteps sol = seq 0 (length (detailedSteps sol)).
Proof.
  intros Hrun. by destruct (solve_shape level alg fuel sol Hrun) as (_ & _ & _ & ? & _).
Qed.

Lemma trace_steps_numbered_witness :
  solve 10 fork Algorithm.astar = Done (Some fork_astar) ∧
  stepNumber <$> detailedSteps fork_astar = seq 0 (length (detailedSteps fork_astar)).
Proof.
  assert (Hrun : solve 10 fork Algorithm.astar = Done (Some fork_astar))
    by (vm_compute; reflexivity).
  split; [exact Hrun|].
  exact (trace_steps_numbered 10 fork Algorithm.astar fork_astar Hrun).
Defined.

(** X12.  The visited cells of a returned solution lie on the grid, begin
    with the start and end with the last cell of the path; their number
    is at most the number of cells of the grid. *)
Theorem visited_cells_on_grid level alg fuel sol :
  wf level → (enough level ≤ fuel)%nat →
  solve fuel level alg = Done (Some sol) →
  Forall (inb (nrows level) (ncols level)) (visitedCells sol) ∧
  head (visitedCells sol) = Some (start level) ∧
  last (visitedCells sol) = last (path sol) ∧
  (length (visitedCells sol) ≤ nrows level * ncols level)%nat.
Proof.
  intros Hwf Hfuel Hrun.
  destruct (solve_shape level alg fuel sol Hrun) as (Hin & Hhd & Hlast & _).
  destruct (solve_good level alg fuel sol Hwf Hfuel Hrun) as [_ Hnd].
  split_and!; [done|done|done|].
  apply cells_bounded; [done|]. by apply Forall_forall.
Qed.

Lemma visited_cells_on_grid_witness :
  wf genLevel ∧ (enough genLevel ≤ 20)%nat ∧
  solve 20 genLevel Algorithm.dfs = Done (Some genLevel_dfs) ∧
  Forall (inb (nrows genLevel) (ncols genLevel)) (visitedCells genLevel_dfs) ∧
  head (visitedCells genLevel_dfs) = Some (start genLevel) ∧
  last (visitedCells genLevel_dfs) = last (path genLevel_dfs) ∧
  (length (visitedCells genLevel_dfs) ≤ nrows genLevel * ncols genLevel)%nat.
Proof.
  assert (Hwf : wf genLevel) by (apply (bool_decide_unpack _); vm_compute; exact I).
  assert (Hfuel : (enough genLevel ≤ 20)%nat) by (vm_compute; lia).
  assert (Hrun : solve 20 genLevel Algorithm.dfs = Done (Some genLevel_dfs))
    by (vm_compute; reflexivity).
  split; [exact Hwf|]. split; [exact Hfuel|]. split; [exact Hrun|].
  exact (visited_cells_on_grid genLevel Algorithm.dfs 20 genLevel_dfs Hwf Hfuel Hrun).
Defined.

(** X13.  The heuristic is admissible: at a cell of the grid it is at
    most the number of moves of any walk from that cell to an exit. *)
Theorem heuristic_never_overestimates level p e n :
  wf level → inb (nrows level) (ncols level) p →
  walk (edge level) p e n → exitAt level e →
  heuristic p (Z.of_nat (nrows level)) (Z.of_nat (ncols level)) ≤ Z.of_nat n.
Proof. apply heuristic_admissible. Qed.

Lemma heuristic_never_overestimates_witness :
  wf room3 ∧ inb (nrows room3) (ncols room3) (mkPos 1 1) ∧
  walk (edge room3) (mkPos 1 1) (mkPos 0 1) 1 ∧ exitAt room3 (mkPos 0 1) ∧
  heuristic (mkPos 1 1) (Z.of_nat (nrows room3)) (Z.of_nat (ncols room3)) ≤ Z.of_nat 1.
Proof.
  assert (Hwf : wf room3) by (apply (bool_decide_unpack _); vm_compute; exact I).
  assert (Hin : inb (nrows room3) (ncols room3) (mkPos 1 1))
    by (apply (bool_decide_unpack _); vm_compute; exact I).
  assert (Hin' : inb (nrows room3) (ncols room3) (mkPos 0 1))
    by (apply (bool_decide_unpack _); vm_compute; exact I).
  assert (Hd : mkPos (-1) 0 ∈ DIRS) by (apply (bool_decide_unpack _); vm_compute; exact I).
  assert (Hedge : edge room3 (mkPos 1 1) (mkPos 0 1)).
  { split; [exists (mkPos (-1) 0); split; [exact Hd|reflexivity]|].
    split; [exact Hin'|reflexivity]. }
  assert (Hw : walk (edge room3) (mkPos 1 1) (mkPos 0 1) 1)
    by exact (walk_more _ _ _ _ _ (walk_here _ _) Hedge).
  assert (Hexit : exitAt room3 (mkPos 0 1)) by reflexivity.
  split; [exact Hwf|]. split; [exact Hin|]. split; [exact Hw|]. split; [exact Hexit|].
  exact (heuristic_never_overestimates room3 (mkPos 1 1) (mkPos 0 1) 1 Hwf Hin Hw Hexit).
Defined.

(** X14.  The predecessor index breadth-first search stores in [visited]
    decodes to the cell it was computed from: for a cell with [0 <= r]
    and [0 <= c < cols], [decode cols (r * cols + c)] is that cell. *)
Theorem predecessor_index_round_trip cols p :
  0 ≤ r p → 0 ≤ c p < cols →
  BFS.decode cols (Some (r p * cols + c p)) = p.
Proof.
  intros Hr Hc. unfold BFS.decode. simpl. destruct p as [pr pc]. simpl in *. f_equal.
  - symmetry. apply (Z.div_unique _ _ pr pc); lia.
  - symmetry. apply (Z.mod_unique _ _ pr pc); lia.
Qed.

Lemma predecessor_index_round_trip_witness :
  0 ≤ r (mkPos 2 1) ∧ 0 ≤ c (mkPos 2 1) < 3 ∧
  BFS.decode 3 (Some (r (mkPos 2 1) * 3 + c (mkPos 2 1))) = mkPos 2 1.
Proof.
  assert (Hr : 0 ≤ r (mkPos 2 1)) by (simpl; lia).
  assert (Hc : 0 ≤ c (mkPos 2 1) < 3) by (simpl; lia).
  split; [exact Hr|]. split; [exact Hc|].
  exact (predecessor_index_round_trip 3 (mkPos 2 1) Hr Hc).
Defined.

(** X15.  Every entry of the Step Trace of A* carries a finite cost
    [gScore >= 0], the heuristic of its cell as [hScore] and their sum as
    [fScore]; along the trace the [fScore] never decreases. *)
Theorem astar_trace_scores level fuel sol :
  wf level → AStar.solveAStar fuel level = Done (Some sol) →
  Forall (λ e, ∃ gu k, 0 ≤ gu ∧
            algorithmData e =
              AStarData (Finite gu)
                (heuristic (position e) (Z.of_nat (nrows level)) (Z.of_nat (ncols level)))
                (Finite (gu + heuristic (position e) (Z.of_nat (nrows level))
                                (Z.of_nat (ncols level))))
                k)
    (detailedSteps sol) ∧
  nondecreasing (fValue <$> detailedSteps sol).
Proof. intros Hwf Hrun. by apply (solveAStar_scores level Hwf fuel). Qed.

Lemma astar_trace_scores_witness :
  wf fork ∧ AStar.solveAStar 10 fork = Done (Some fork_astar) ∧
  Forall (λ e, ∃ gu k, 0 ≤ gu ∧
            algorithmData e =
              AStarData (Finite gu)
                (heuristic (position e) (Z.of_nat (nrows fork)) (Z.of_nat (ncols fork)))
                (Finite (gu + heuristic (position e) (Z.of_nat (nrows fork))
                                (Z.of_nat (ncols fork))))
                k)
    (detailedSteps fork_astar) ∧
  nondecreasing (fValue <$> detailedSteps fork_astar).
Proof.
  assert (Hwf : wf fork) by (apply (bool_decide_unpack _); vm_compute; exact I).
  assert (Hrun : AStar.solveAStar 10 fork = Done (Some fork_astar))
    by (vm_compute; reflexivity).
  split; [exact Hwf|]. split; [exact Hrun|].
  exact (astar_trace_scores fork 10 fork_astar Hwf Hrun).
Defined.

(** X16.  Every entry of the Step Trace of Dijkstra carries a finite
    [currentDistance >= 0], and along the trace it never decreases: cells
    are settled in the order of their distance. *)
Theorem dijkstra_settles_in_distance_order level fuel sol :
  wf level → Dijkstra.solveDijkstra fuel level = Done (Some sol) →
  Forall (λ e, ∃ d a b, 0 ≤ d ∧ algorithmData e = DijkstraData (Finite d) a b)
    (detailedSteps sol) ∧
  nondecreasing (dValue <$> detailedSteps sol).
Proof. intros Hwf Hrun. by apply (solveDijkstra_distances level Hwf fuel). Qed.

Lemma dijkstra_settles_in_distance_order_witness :
  wf room3_south ∧
  Dijkstra.solveDijkstra 20 room3_south = Done (Some room3_south_dijkstra) ∧
  Forall (λ e, ∃ d a b, 0 ≤ d ∧ algorithmData e = DijkstraData (Finite d) a b)
    (detailedSteps room3_south_dijkstra) ∧
  nondecreasing (dValue <$> detailedSteps room3_south_dijkstra).
Proof.
  assert (Hwf : wf room3_south) by (apply (bool_decide_unpack _); vm_compute; exact I).
  assert (Hrun : Dijkstra.solveDijkstra 20 room3_south = Done (Some room3_south_dijkstra))
    by (vm_compute; reflexivity).
  split; [exact Hwf|]. split; [exact Hrun|].
  exact (dijkstra_settles_in_distance_order room3_south 20 room3_south_dijkstra Hwf Hrun).
Defined.

(** X17.  Breadth-first search explores level by level: every entry of
    its Step Trace records at most four added neighbours, the first entry
    has [currentLevel] 0, and from an entry to the next [currentLevel]
    stays or rises by one. *)
Theorem bfs_explores_level_by_level level fuel sol :
  wf level → (enough level ≤ fuel)%nat →
  BFS.solveBFS fuel level = Done (Some sol) →
  Forall (λ e, ∃ q l n, algorithmData e = BFSData q l n ∧ (n ≤ 4)%nat)
    (detailedSteps sol) ∧
  stepwise (levelValue <$> detailedSteps sol).
Proof.
  intros Hwf Hfuel%enough_fuel Hrun. by apply (solveBFS_levels level Hwf fuel).
Qed.

Lemma bfs_explores_level_by_level_witness :
  wf room3_south ∧ (enough room3_south ≤ 20)%nat ∧
  BFS.solveBFS 20 room3_south = Done (Some room3_south_bfs) ∧
  Forall (λ e, ∃ q l n, algorithmData e = BFSData q l n ∧ (n ≤ 4)%nat)
    (detailedSteps room3_south_bfs) ∧
  stepwise (levelValue <$> detailedSteps room3_south_bfs).
Proof.
  assert (Hwf : wf room3_south) by (apply (bool_decide_unpack _); vm_compute; exact I).
  assert (Hfuel : (enough room3_south ≤ 20)%nat) by (vm_compute; lia).
  assert (Hrun : BFS.solveBFS 20 room3_south = Done (Some room3_south_bfs))
    by (vm_compute; reflexivity).
  split; [exact Hwf|]. split; [exact Hfuel|]. split; [exact Hrun|].
  exact (bfs_explores_level_by_level room3_south 20 room3_south_bfs Hwf Hfuel Hrun).
Defined.

(** X18.  The [distance] of a returned solution is the number of moves of
    its path, one less than the number of its cells, and is not
    negative. *)
Theorem distance_counts_moves level alg fuel sol :
  wf level → (enough level ≤ fuel)%nat →
  solve fuel level alg = Done (Some sol) →
  distance sol = Z.of_nat (length (path sol)) - 1 ∧ 0 ≤ distance sol.
Proof.
  intros Hwf Hfuel Hrun.
  destruct (solve_good level alg fuel sol Hwf Hfuel Hrun) as [(Hhd & _ & _ & Hd) _].
  split; [done|]. rewrite Hd. destruct (path sol); [discriminate|]. simpl. lia.
Qed.

Lemma distance_counts_moves_witness :
  wf room3_south ∧ (enough room3_south ≤ 20)%nat ∧
  solve 20 room3_south Algorithm.dfs = Done (Some room3_south_dfs) ∧
  distance room3_south_dfs = Z.of_nat (length (path room3_south_dfs)) - 1 ∧
  0 ≤ distance room3_south_dfs.
Proof.
  assert (Hwf : wf room3_south) by (apply (bool_decide_unpack _); vm_compute; exact I).
  assert (Hfuel : (enough room3_south ≤ 20)%nat) by (vm_compute; lia).
  assert (Hrun : solve 20 room3_south Algorithm.dfs = Done (Some room3_south_dfs))
    by (vm_compute; reflexivity).
  split; [exact Hwf|]. split; [exact Hfuel|]. split; [exact Hrun|].
  exact (distance_counts_moves room3_south Algorithm.dfs 20 room3_south_dfs
           Hwf Hfuel Hrun).
Defined.

(** ** The maze generator (mazeGenerator.ts) *)

(** X19.  A generated level has [height] rows of [width] columns, and the
    carving visits every cell: the whole binary grid is 0. *)
Theorem generated_maze_fully_carved fuel rng width height difficulty level :
  Gen.generateMaze fuel rng width height difficulty = Done level →
  nrows level = height ∧ ncols level = width ∧
  ∀ p, inb height width p → mget (grid level) p = Some 0.
Proof.
  intros Hgen. destruct (generateMaze_carved _ _ _ _ _ _ Hgen) as [cs Hcv].
  destruct (carved_dims _ _ _ _ _ _ Hcv) as [Hr Hc].
  split_and!; [done|done|]. intros p Hp. by eapply carved_grid.
Qed.

Lemma generated_maze_fully_carved_witness :
  Gen.generateMaze 100 rng0 4 3 Gen.hard = Done genLevel ∧
  nrows genLevel = 3%nat ∧ ncols genLevel = 4%nat ∧
  ∀ p, inb 3 4 p → mget (grid genLevel) p = Some 0.
Proof.
  assert (Hgen : Gen.generateMaze 100 rng0 4 3 Gen.hard = Done genLevel)
    by (vm_compute; reflexivity).
  split; [exact Hgen|].
  exact (generated_maze_fully_carved 100 rng0 4 3 Gen.hard genLevel Hgen).
Defined.

(** X20.  In a generated level any two cells of the grid are joined by a
    walk along moves the Adjacency Oracle allows. *)
Theorem generated_maze_connected fuel rng width height difficulty level p q :
  Gen.generateMaze fuel rng width height difficulty = Done level →
  inb height width p → inb height width q →
  ∃ n, walk (edge level) p q n.
Proof.
  intros Hgen Hp Hq. destruct (generateMaze_carved _ _ _ _ _ _ Hgen) as [cs Hcv].
  by eapply carved_connected.
Qed.

Lemma generated_maze_connected_witness :
  Gen.generateMaze 100 rng0 4 3 Gen.hard = Done genLevel ∧
  inb 3 4 (mkPos 2 3) ∧ inb 3 4 (mkPos 0 0) ∧
  ∃ n, walk (edge genLevel) (mkPos 2 3) (mkPos 0 0) n.
Proof.
  assert (Hgen : Gen.generateMaze 100 rng0 4 3 Gen.hard = Done genLevel)
    by (vm_compute; reflexivity).
  assert (Hp : inb 3 4 (mkPos 2 3)) by (apply (bool_decide_unpack _); vm_compute; exact I).
  assert (Hq : inb 3 4 (mkPos 0 0)) by (apply (bool_decide_unpack _); vm_compute; exact I).
  split; [exact Hgen|]. split; [exact Hp|]. split; [exact Hq|].
  exact (generated_maze_connected 100 rng0 4 3 Gen.hard genLevel _ _ Hgen Hp Hq).
Defined.

(** X21.  A generated level has exactly one exit: the exit test holds at
    the cell (0,1) and at no other position. *)
Theorem generated_maze_single_exit fuel rng width height difficulty level p :
  Gen.generateMaze fuel rng width height difficulty = Done level →
  (exitAt level p ↔ p = mkPos 0 1).
Proof.
  intros Hgen. destruct (generateMaze_carved _ _ _ _ _ _ Hgen) as [cs Hcv].
  by eapply carved_exit.
Qed.

Lemma generated_maze_single_exit_witness :
  Gen.generateMaze 100 rng0 4 3 Gen.hard = Done genLevel ∧
  (exitAt genLevel (mkPos 0 3) ↔ mkPos 0 3 = mkPos 0 1).
Proof.
  assert (Hgen : Gen.generateMaze 100 rng0 4 3 Gen.hard = Done genLevel)
    by (vm_compute; reflexivity).
  split; [exact Hgen|].
  exact (generated_maze_single_exit 100 rng0 4 3 Gen.hard genLevel (mkPos 0 3) Hgen).
Defined.

(** X22.  Every generated level is solved: each of the four solvers
    returns a solution, and its path ends at the exit cell (0,1). *)
Theorem generated_maze_always_solved fuelg rng width height difficulty level alg fuel :
  Gen.generateMaze fuelg rng width height difficulty = Done level →
  (enough level ≤ fuel)%nat →
  ∃ sol, solve fuel level alg = Done (Some sol) ∧
         last (path sol) = Some (mkPos 0 1).
Proof.
  intros Hgen Hfuel.
  destruct (generateMaze_spec _ _ _ _ _ _ Hgen) as [Hwf _].
  destruct (generateMaze_carved _ _ _ _ _ _ Hgen) as [cs Hcv].
  destruct (carved_start _ _ _ _ _ _ Hcv) as [Hs _].
  pose proof (carved_solvable _ _ _ _ _ _ Hcv Hs) as Hsolv.
  destruct (solve_complete level alg fuel Hwf Hfuel Hsolv) as [sol Hrun].
  exists sol. split; [done|].
  destruct (solve_good level alg fuel sol Hwf Hfuel Hrun)
    as [(_ & (e & Hlast & He) & _) _].
  rewrite Hlast. f_equal. by eapply carved_exit.
Qed.

Lemma generated_maze_always_solved_witness :
  Gen.generateMaze 100 rng0 4 3 Gen.hard = Done genLevel ∧
  (enough genLevel ≤ 20)%nat ∧
  ∃ sol, solve 20 genLevel Algorithm.dfs = Done (Some sol) ∧
         last (path sol) = Some (mkPos 0 1).
Proof.
  assert (Hgen : Gen.generateMaze 100 rng0 4 3 Gen.hard = Done genLevel)
    by (vm_compute; reflexivity).
  assert (Hfuel : (enough genLevel ≤ 20)%nat) by (vm_compute; lia).
  split; [exact Hgen|]. split; [exact Hfuel|].
  exact (generated_maze_always_solved 100 rng0 4 3 Gen.hard genLevel Algorithm.dfs 20
           Hgen Hfuel).
Defined.

(** X23.  The start of a generated level is a cell of the grid; on easy
    it lies in the top half ([2 r < height]) and on hard, for a height of
    at least 2, in the bottom half ([height <= 2 r]). *)
Theorem generated_start_by_difficulty fuel rng width height difficulty level :
  Gen.generateMaze fuel rng width height difficulty = Done level →
  inb height width (start level) ∧
  (difficulty = Gen.easy → 2 * r (start level) < Z.of_nat height) ∧
  (difficulty = Gen.hard → (2 ≤ height)%nat →
   Z.of_nat height ≤ 2 * r (start level)).
Proof.
  intros Hgen. destruct (generateMaze_carved _ _ _ _ _ _ Hgen) as [cs Hcv].
  by eapply carved_start.
Qed.

Lemma generated_start_by_difficulty_witness :
  Gen.generateMaze 100 rng0 4 3 Gen.hard = Done genLevel ∧
  inb 3 4 (start genLevel) ∧
  (Gen.hard = Gen.easy → 2 * r (start genLevel) < Z.of_nat 3) ∧
  (Gen.hard = Gen.hard → (2 ≤ 3)%nat → Z.of_nat 3 ≤ 2 * r (start genLevel)).
Proof.
  assert (Hgen : Gen.generateMaze 100 rng0 4 3 Gen.hard = Done genLevel)
    by (vm_compute; reflexivity).
  split; [exact Hgen|].
  exact (generated_start_by_difficulty 100 rng0 4 3 Gen.hard genLevel Hgen).
Defined.

(** X24.  Indexing a non-empty array with a draw of [Math.random()], a
    binary64 number of [[0,1)], as [xs[Math.floor(x * xs.length)]] never
    yields [undefined]: the rounded product stays below the length, and the
    result is an element of the array.  (A JS array has fewer than 2^32
    elements.) *)
Theorem pick_in_range {A} (xs : list A) (x : Q) :
  xs ≠ [] → Z.of_nat (length xs) < 2 ^ 32 →
  Double.isDouble x → (0 <= x)%Q → (x < 1)%Q →
  ∃ a, Double.pick xs x = Some a ∧ a ∈ xs.
Proof. intros Hxs _ Hd H0 H1. by apply double_pick_elem. Qed.

Lemma pick_in_range_witness :
  [mkPos 0 0; mkPos 0 1; mkPos 0 2; mkPos 1 0; mkPos 1 1; mkPos 1 2] ≠ [] ∧
  Z.of_nat (length [mkPos 0 0; mkPos 0 1; mkPos 0 2; mkPos 1 0; mkPos 1 1; mkPos 1 2])
    < 2 ^ 32 ∧
  Double.isDouble third ∧ (0 <= third)%Q ∧ (third < 1)%Q ∧
  ∃ a, Double.pick [mkPos 0 0; mkPos 0 1; mkPos 0 2; mkPos 1 0; mkPos 1 1; mkPos 1 2]
         third = Some a ∧
       a ∈ [mkPos 0 0; mkPos 0 1; mkPos 0 2; mkPos 1 0; mkPos 1 1; mkPos 1 2].
Proof.
  assert (Hxs : [mkPos 0 0; mkPos 0 1; mkPos 0 2; mkPos 1 0; mkPos 1 1; mkPos 1 2] ≠ [])
    by discriminate.
  assert (Hlen : Z.of_nat (length [mkPos 0 0; mkPos 0 1; mkPos 0 2;
                                   mkPos 1 0; mkPos 1 1; mkPos 1 2]) < 2 ^ 32)
    by (vm_compute; reflexivity).
  assert (Hd : Double.isDouble third) by (vm_compute; reflexivity).
  assert (H0 : (0 <= third)%Q) by (vm_compute; discriminate).
  assert (H1 : (third < 1)%Q) by (vm_compute; reflexivity).
  split; [exact Hxs|]. split; [exact Hlen|]. split; [exact Hd|].
  split; [exact H0|]. split; [exact H1|].
  exact (pick_in_range [mkPos 0 0; mkPos 0 1; mkPos 0 2; mkPos 1 0; mkPos 1 1; mkPos 1 2]
           third Hxs Hlen Hd H0 H1).
Defined.

(** X25.  For draws that are binary64 numbers of [[0,1)] and a non-empty
    array of neighbours, [getRandomNeighbor] returns one of the neighbours
    it was given, at every difficulty, after one or two draws. *)
Theorem random_neighbor_is_a_neighbor rng difficulty width height neighbors n :
  Double.validRng rng → neighbors ≠ [] → Z.of_nat (length neighbors) < 2 ^ 32 →
  ∃ nb n', Double.getRandomNeighbor rng difficulty width height neighbors n
             = Done (nb, n') ∧
           nb ∈ neighbors ∧ (n' = S n ∨ n' = S (S n)).
Proof. intros Hrng Hne _. by apply double_getRandomNeighbor_spec. Qed.

Lemma random_neighbor_is_a_neighbor_witness :
  Double.validRng rngD ∧ [mkPos 0 1; mkPos 1 0] ≠ [] ∧
  Z.of_nat (length [mkPos 0 1; mkPos 1 0]) < 2 ^ 32 ∧
  ∃ nb n', Double.getRandomNeighbor rngD Gen.easy 4 3 [mkPos 0 1; mkPos 1 0] 2
             = Done (nb, n') ∧
           nb ∈ [mkPos 0 1; mkPos 1 0] ∧ (n' = 3%nat ∨ n' = 4%nat).
Proof.
  assert (Hrng : Double.validRng rngD) by exact rngD_valid.
  assert (Hne : [mkPos 0 1; mkPos 1 0] ≠ []) by discriminate.
  assert (Hlen : Z.of_nat (length [mkPos 0 1; mkPos 1 0]) < 2 ^ 32)
    by (vm_compute; reflexivity).
  split; [exact Hrng|]. split; [exact Hne|]. split; [exact Hlen|].
  exact (random_neighbor_is_a_neighbor rngD Gen.easy 4 3 [mkPos 0 1; mkPos 1 0] 2
           Hrng Hne Hlen).
Defined.

(** X26.  The score matrices A* returns with a solution: [hScores] holds
    the heuristic of every cell of the grid, [gScores] is 0 at the start
    and the returned [distance] at the last cell of the path, and
    wherever [gScores] is finite [fScores] is its sum with the heuristic. *)
Theorem astar_returns_score_matrices level fuel sol :
  wf level → (enough level ≤ fuel)%nat →
  AStar.solveAStar fuel level = Done (Some sol) →
  ∃ sc e, scoresOf level sol sc e.
Proof.
  intros Hwf Hfuel Hrun.
  exact (solveAStar_matrices level Hwf fuel sol (enough_fuel _ _ Hfuel) Hrun).
Qed.

Lemma astar_returns_score_matrices_witness :
  wf fork ∧ (enough fork ≤ 10)%nat ∧
  AStar.solveAStar 10 fork = Done (Some fork_astar) ∧
  ∃ sc e, scoresOf fork fork_astar sc e.
Proof.
  assert (Hwf : wf fork) by (apply (bool_decide_unpack _); vm_compute; exact I).
  assert (Hfuel : (enough fork ≤ 10)%nat) by (vm_compute; lia).
  assert (Hrun : AStar.solveAStar 10 fork = Done (Some fork_astar))
    by (vm_compute; reflexivity).
  split; [exact Hwf|]. split; [exact Hfuel|]. split; [exact Hrun|].
  exact (astar_returns_score_matrices fork 10 fork_astar Hwf Hfuel Hrun).
Defined.

(** X27.  The Step Trace of a depth-first search that finds an exit holds
    exactly the visited cells that are not on the returned path, each of
    them once: the cells the search gave up. *)
Theorem dfs_trace_is_abandoned_cells level fuel sol :
  wf level → (enough level ≤ fuel)%nat →
  DFS.solveDFS fuel level = Done (Some sol) →
  NoDup (tracePositions sol) ∧
  ∀ x, x ∈ tracePositions sol ↔ x ∈ visitedCells sol ∧ x ∉ path sol.
Proof.
  intros Hwf Hfuel Hrun.
  exact (solveDFS_recorded level Hwf fuel sol (enough_fuel _ _ Hfuel) Hrun).
Qed.

Lemma dfs_trace_is_abandoned_cells_witness :
  wf fork ∧ (enough fork ≤ 10)%nat ∧
  DFS.solveDFS 10 fork = Done (Some fork_dfs) ∧
  NoDup (tracePositions fork_dfs) ∧
  ∀ x, x ∈ tracePositions fork_dfs ↔ x ∈ visitedCells fork_dfs ∧ x ∉ path fork_dfs.
Proof.
  assert (Hwf : wf fork) by (apply (bool_decide_unpack _); vm_compute; exact I).
  assert (Hfuel : (enough fork ≤ 10)%nat) by (vm_compute; lia).
  assert (Hrun : DFS.solveDFS 10 fork = Done (Some fork_dfs))
    by (vm_compute; reflexivity).
  split; [exact Hwf|]. split; [exact Hfuel|]. split; [exact Hrun|].
  exact (dfs_trace_is_abandoned_cells fork 10 fork_dfs Hwf Hfuel Hrun).
Defined.
